(** * XiangqiGame: the rule engine and the search of script.js

    A shallow embedding of [XiangqiLogic] (board, move rules, flying
    generals, move generation, evaluation), of the worker's [minimax] with
    its iterative-deepening driver, and of [XiangqiApp.attemptMove].

    JavaScript objects are modelled with an explicit store: a piece is a
    mutable object ([row] and [col] are assigned during make/undo), the board
    cells hold references to it.  A reference is an index into [pieces]. *)

From Stdlib Require Import ZArith List Bool Lia Sorted.
From stdpp Require Import base option list numbers.

Local Open Scope Z_scope.

(** ** Data model *)

(** The strings ['red'] / ['black'] of [piece.color]. *)
Inductive side := red | black.

(** The strings of [piece.type]. *)
Inductive kind := king | advisor | elephant | horse | rook | cannon | pawn.

Definition side_eqb (a b : side) : bool :=
  match a, b with
  | red, red | black, black => true
  | _, _ => false
  end.

Definition is_king (k : kind) : bool :=
  match k with king => true | _ => false end.

(** The object built by [placePiece].  The fields [text] (the glyph) and
    [key] (a label used by the history of the user interface) are never read
    by the engine and are left out; object identity is the reference. *)
Record piece := Piece { color : side; type : kind; row : Z; col : Z }.

(** A reference to a piece object. *)
Abbreviation pid := nat (only parsing).

(** A board cell: [null] or a reference. *)
Abbreviation cell := (option nat) (only parsing).

(** The test [if (x)] on a cell value. *)
Definition truthy (v : cell) : bool :=
  match v with Some _ => true | None => false end.

(** A cell index [board[r][c]]. *)
Abbreviation ix := (Z * Z)%type (only parsing).

(** [XiangqiLogic] together with the objects its board refers to. *)
Record game := Game {
  pieces : list piece;
  board : list (list cell);
  turn : side;
  gameOver : bool
}.

Definition BOARD_ROWS : Z := 10.
Definition BOARD_COLS : Z := 9.

Definition inGrid (i : ix) : bool :=
  (0 <=? i.1) && (i.1 <? BOARD_ROWS) && (0 <=? i.2) && (i.2 <? BOARD_COLS).

(** ** Array access as JavaScript performs it *)

(** [b[r][c]] as an rvalue.  A missing row is [undefined], and indexing it
    raises a TypeError ([None]); a missing column of an existing row reads
    [undefined], which every test of the source treats like [null]. *)
Definition getCell (b : list (list cell)) (r c : Z) : option cell :=
  if r <? 0 then None
  else match b !! Z.to_nat r with
       | None => None
       | Some rw =>
           if c <? 0 then Some None
           else Some (default None (rw !! Z.to_nat c))
       end.

(** [a[i] = v] on one row array: an index past the end grows the array. *)
Definition jsSet (rw : list cell) (i : nat) (v : cell) : list cell :=
  if (i <? length rw)%nat then <[i := v]> rw
  else rw ++ replicate (i - length rw) None ++ [v].

(** [b[r][c] = v].  A missing row raises a TypeError.  A negative column
    would create a named property on the row object, which a list cannot
    hold: the model stops there as well. *)
Definition setCell (b : list (list cell)) (r c : Z) (v : cell)
  : option (list (list cell)) :=
  if r <? 0 then None
  else match b !! Z.to_nat r with
       | None => None
       | Some rw =>
           if c <? 0 then None
           else Some (<[Z.to_nat r := jsSet rw (Z.to_nat c) v]> b)
       end.

(** ** Two small monads

    [Q] is for the methods that only inspect the game, [M] for those that
    assign to it.  Both can raise ([None]) and both record, in program
    order, every index pair used on [this.board]. *)

Definition Q (A : Type) : Type := game -> option (A * list ix).
Definition M (A : Type) : Type := game -> option (A * game * list ix).

Definition retQ {A} (a : A) : Q A := fun _ => Some (a, []).

Definition bindQ {A B} (m : Q A) (f : A -> Q B) : Q B :=
  fun g =>
    match m g with
    | None => None
    | Some (a, l1) =>
        match f a g with
        | None => None
        | Some (b, l2) => Some (b, l1 ++ l2)
        end
    end.

Definition retM {A} (a : A) : M A := fun g => Some (a, g, []).

Definition bindM {A B} (m : M A) (f : A -> M B) : M B :=
  fun g =>
    match m g with
    | None => None
    | Some (a, g1, l1) =>
        match f a g1 with
        | None => None
        | Some (b, g2, l2) => Some (b, g2, l1 ++ l2)
        end
    end.

Definition liftQ {A} (q : Q A) : M A :=
  fun g =>
    match q g with
    | None => None
    | Some (a, l) => Some (a, g, l)
    end.

Declare Scope q_scope.
Delimit Scope q_scope with Q.
Declare Scope m_scope.
Delimit Scope m_scope with M.

Notation "x <- m ;; k" := (bindQ m (fun x => k))
  (at level 100, m at next level, right associativity) : q_scope.
Notation "x <- m ;; k" := (bindM m (fun x => k))
  (at level 100, m at next level, right associativity) : m_scope.
Notation "m ;;; k" := (bindM m (fun _ => k))
  (at level 100, right associativity) : m_scope.

(** [for (const x of l) s = f(s, x)] *)
Fixpoint foldQ {S X} (f : S -> X -> Q S) (l : list X) (s : S) : Q S :=
  match l with
  | [] => retQ s
  | x :: l' => (s' <- f s x ;; foldQ f l' s')%Q
  end.

Fixpoint foldM {S X} (f : S -> X -> M S) (l : list X) (s : S) : M S :=
  match l with
  | [] => retM s
  | x :: l' => (s' <- f s x ;; foldM f l' s')%M
  end.

(** *** Primitive accesses *)

(** [this.board[r][c]] read. *)
Definition rd (r c : Z) : Q cell :=
  fun g =>
    match getCell (board g) r c with
    | None => None
    | Some v => Some (v, [(r, c)])
    end.

(** Reading the fields of the object behind a reference. *)
Definition deref (p : pid) : Q piece :=
  fun g =>
    match pieces g !! p with
    | None => None
    | Some pc => Some (pc, [])
    end.

(** [this.board[r][c] = v]. *)
Definition wr (r c : Z) (v : cell) : M unit :=
  fun g =>
    match setCell (board g) r c v with
    | None => None
    | Some b =>
        Some (tt, Game (pieces g) b (turn g) (gameOver g), [(r, c)])
    end.

(** [p.row = r; p.col = c]. *)
Definition setPos (p : pid) (r c : Z) : M unit :=
  fun g =>
    match pieces g !! p with
    | None => None
    | Some pc =>
        Some (tt,
              Game (<[p := Piece (color pc) (type pc) r c]> (pieces g))
                   (board g) (turn g) (gameOver g),
              [])
    end.

(** ** Board set-up *)

(** [Array(10).fill(null).map(() => Array(9).fill(null))] *)
Definition emptyBoard : list (list cell) :=
  replicate 10 (replicate 9 None).

(** [placePiece]: allocate the object, store the reference. *)
Definition placePiece (r c : Z) (s : side) (k : kind) : M unit :=
  fun g =>
    let p := length (pieces g) in
    wr r c (Some p)
       (Game (pieces g ++ [Piece s k r c]) (board g) (turn g) (gameOver g)).

Definition resetBoard : M unit :=
  fun g => Some (tt, Game (pieces g) emptyBoard (turn g) (gameOver g), []).

Definition initBoard : M unit :=
  (resetBoard ;;;
   placePiece 0 0 black rook ;;; placePiece 0 1 black horse ;;;
   placePiece 0 2 black elephant ;;; placePiece 0 3 black advisor ;;;
   placePiece 0 4 black king ;;; placePiece 0 5 black advisor ;;;
   placePiece 0 6 black elephant ;;; placePiece 0 7 black horse ;;;
   placePiece 0 8 black rook ;;;
   placePiece 2 1 black cannon ;;; placePiece 2 7 black cannon ;;;
   foldM (fun _ c => placePiece 3 c black pawn) [0; 2; 4; 6; 8] tt ;;;
   placePiece 9 0 red rook ;;; placePiece 9 1 red horse ;;;
   placePiece 9 2 red elephant ;;; placePiece 9 3 red advisor ;;;
   placePiece 9 4 red king ;;; placePiece 9 5 red advisor ;;;
   placePiece 9 6 red elephant ;;; placePiece 9 7 red horse ;;;
   placePiece 9 8 red rook ;;;
   placePiece 7 1 red cannon ;;; placePiece 7 7 red cannon ;;;
   foldM (fun _ c => placePiece 6 c red pawn) [0; 2; 4; 6; 8] tt)%M.

(** [new XiangqiLogic()] *)
Definition newGame : option game :=
  match initBoard (Game [] [] red false) with
  | Some (_, g, _) => Some g
  | None => None
  end.

(** ** Move rules *)

Definition isInPalace (r c : Z) (s : side) : bool :=
  if (c <? 3) || (c >? 5) then false
  else match s with
       | red => (r >=? 7) && (r <=? 9)
       | black => (r >=? 0) && (r <=? 2)
       end.

(** The counting loop shared by both branches of [countObstacles]. *)
Definition countLoop (at_ : Z -> ix) (start stop : Z) : Q Z :=
  foldQ (fun count i =>
           (v <- rd (at_ i).1 (at_ i).2 ;;
            retQ (if truthy v then count + 1 else count))%Q)
        (seqZ start (stop - start)) 0.

Definition countObstacles (r1 c1 r2 c2 : Z) : Q Z :=
  if r1 =? r2 then
    countLoop (fun c => (r1, c)) (Z.min c1 c2 + 1) (Z.max c1 c2)
  else if c1 =? c2 then
    countLoop (fun r => (r, c1)) (Z.min r1 r2 + 1) (Z.max r1 r2)
  else retQ 0.

(** [target && target.color === piece.color] *)
Definition sameColor (target : cell) (s : side) : Q bool :=
  match target with
  | None => retQ false
  | Some t => (tp <- deref t ;; retQ (side_eqb (color tp) s))%Q
  end.

Definition isValidMove (piece : option pid) (targetR targetC : Z) : Q bool :=
  match piece with
  | None => retQ false
  | Some p =>
    (pc <- deref p ;;
     if (row pc =? targetR) && (col pc =? targetC) then retQ false else
     target <- rd targetR targetC ;;
     own <- sameColor target (color pc) ;;
     if own then retQ false else
     let dr := targetR - row pc in
     let dc := targetC - col pc in
     let absDr := Z.abs dr in
     let absDc := Z.abs dc in
     match type pc with
     | king =>
         if negb (((absDr =? 1) && (absDc =? 0)) || ((absDr =? 0) && (absDc =? 1)))
         then retQ false
         else if negb (isInPalace targetR targetC (color pc)) then retQ false
         else retQ true
     | advisor =>
         if negb (absDr =? 1) || negb (absDc =? 1) then retQ false
         else if negb (isInPalace targetR targetC (color pc)) then retQ false
         else retQ true
     | elephant =>
         if negb (absDr =? 2) || negb (absDc =? 2) then retQ false
         else if side_eqb (color pc) red && (targetR <? 5) then retQ false
         else if side_eqb (color pc) black && (targetR >? 4) then retQ false
         else
           (* dr and dc are 2 or -2 here: the halves are exact *)
           let eyeR := row pc + dr / 2 in
           let eyeC := col pc + dc / 2 in
           eye <- rd eyeR eyeC ;;
           if truthy eye then retQ false else retQ true
     | horse =>
         if negb (((absDr =? 2) && (absDc =? 1)) || ((absDr =? 1) && (absDc =? 2)))
         then retQ false
         else if absDr =? 2 then
           leg <- rd (row pc + (if dr >? 0 then 1 else -1)) (col pc) ;;
           if truthy leg then retQ false else retQ true
         else
           leg <- rd (row pc) (col pc + (if dc >? 0 then 1 else -1)) ;;
           if truthy leg then retQ false else retQ true
     | rook =>
         if (absDr >? 0) && (absDc >? 0) then retQ false
         else
           n <- countObstacles (row pc) (col pc) targetR targetC ;;
           retQ (n =? 0)
     | cannon =>
         if (absDr >? 0) && (absDc >? 0) then retQ false
         else
           obstacles <- countObstacles (row pc) (col pc) targetR targetC ;;
           if truthy target then retQ (obstacles =? 1) else retQ (obstacles =? 0)
     | pawn =>
         if negb (absDr + absDc =? 1) then retQ false
         else match color pc with
              | red =>
                  if targetR >? row pc then retQ false
                  else if (row pc >=? 5) && (row pc =? targetR) then retQ false
                  else retQ true
              | black =>
                  if targetR <? row pc then retQ false
                  else if (row pc <=? 4) && (row pc =? targetR) then retQ false
                  else retQ true
              end
     end)%Q
  end.

(** ** Flying generals *)

(** Body of the scan loop: remember where a king of each colour was seen. *)
Definition kingScan (ks : option ix * option ix) (r c : Z)
  : Q (option ix * option ix) :=
  (p <- rd r c ;;
   match p with
   | None => retQ ks
   | Some x =>
       px <- deref x ;;
       if is_king (type px) then
         match color px with
         | red => retQ (Some (r, c), ks.2)
         | black => retQ (ks.1, Some (r, c))
         end
       else retQ ks
   end)%Q.

Definition kingsFacing : Q bool :=
  (ks <- foldQ (fun ks r => foldQ (fun ks c => kingScan ks r c) (seqZ 3 3) ks)
               (seqZ 0 10) (None, None) ;;
   match ks with
   | (Some rK, Some bK) =>
       if rK.2 =? bK.2 then
         obstacles <- countObstacles rK.1 rK.2 bK.1 bK.2 ;;
         if obstacles =? 0 then retQ true else retQ false
       else retQ false
   | _ => retQ false
   end)%Q.

(** ** Move generation *)

(** A generated move [{from: {r, c}, to: {r, c}, score}]. *)
Record move := Move { from : ix; to : ix; score : Z }.

(** [x || d] on numbers. *)
Definition jsOr (x d : Z) : Z := if x =? 0 then d else x.

Definition PIECE_VALUES (k : kind) : Z :=
  match k with
  | king => 10000
  | rook => 900
  | horse => 400
  | cannon => 450
  | elephant => 200
  | advisor => 200
  | pawn => 100
  end.

Definition getPossibleDestinations (piece : piece) : list ix :=
  let r := row piece in
  let c := col piece in
  match type piece with
  | king | advisor =>
      i ← seqZ (r - 1) 3; j ← seqZ (c - 1) 3;
      if inGrid (i, j) then [(i, j)] else []
  | elephant =>
      filter (fun d => inGrid d = true)
             [(r - 2, c - 2); (r - 2, c + 2); (r + 2, c - 2); (r + 2, c + 2)]
  | horse =>
      filter (fun d => inGrid d = true)
             [(r - 2, c - 1); (r - 2, c + 1); (r + 2, c - 1); (r + 2, c + 1);
              (r - 1, c - 2); (r - 1, c + 2); (r + 1, c - 2); (r + 1, c + 2)]
  | pawn =>
      filter (fun d => inGrid d = true)
             [(r - 1, c); (r + 1, c); (r, c - 1); (r, c + 1)]
  | rook | cannon =>
      (i ← seqZ 0 10; if i =? r then [] else [(i, c)]) ++
      (j ← seqZ 0 9; if j =? c then [] else [(r, j)])
  end.

(** [moves.sort((a, b) => b.score - a.score)]: the sort of the language is
    stable, so its result is the one of a stable insertion sort. *)
Fixpoint insertMove (m : move) (l : list move) : list move :=
  match l with
  | [] => [m]
  | x :: l' => if score x - score m <=? 0 then m :: l else x :: insertMove m l'
  end.

Definition sortMoves (l : list move) : list move := foldr insertMove [] l.

(** The simulation inside the [forEach] callback, for one destination. *)
Definition tryDestination (p : pid) (moves : list move) (dest : ix)
  : M (list move) :=
  let tgtR := dest.1 in
  let tgtC := dest.2 in
  (ok <- liftQ (isValidMove (Some p) tgtR tgtC) ;;
   if ok then
     captured <- liftQ (rd tgtR tgtC) ;;
     pc <- liftQ (deref p) ;;
     wr (row pc) (col pc) None ;;;
     wr tgtR tgtC (Some p) ;;;
     let oldR := row pc in
     let oldC := col pc in
     setPos p tgtR tgtC ;;;
     facing <- liftQ kingsFacing ;;
     moves' <- (if negb facing then
                  score <- liftQ (match captured with
                                  | Some x =>
                                      (cx <- deref x ;;
                                       retQ (jsOr (PIECE_VALUES (type cx)) 0))%Q
                                  | None => retQ 0
                                  end) ;;
                  retM (moves ++ [Move (oldR, oldC) (tgtR, tgtC) score])
                else retM moves) ;;
     setPos p oldR oldC ;;;
     wr oldR oldC (Some p) ;;;
     wr tgtR tgtC captured ;;;
     retM moves'
   else retM moves)%M.

(** Body of the double loop over the cells. *)
Definition scanCell (s : side) (moves : list move) (r c : Z) : M (list move) :=
  (p <- liftQ (rd r c) ;;
   match p with
   | None => retM moves
   | Some x =>
       px <- liftQ (deref x) ;;
       if side_eqb (color px) s then
         foldM (tryDestination x) (getPossibleDestinations px) moves
       else retM moves
   end)%M.

Definition generateLegalMoves (s : side) : M (list move) :=
  (moves <- foldM (fun moves r =>
                     foldM (fun moves c => scanCell s moves r c) (seqZ 0 9) moves)
                  (seqZ 0 10) [] ;;
   retM (sortMoves moves))%M.

(** ** Evaluation *)

Definition PST (k : kind) : list (list Z) :=
  match k with
  | pawn =>
      [ [0; 0; 0; 0; 0; 0; 0; 0; 0];
        [0; 3; 6; 9; 6; 9; 6; 3; 0];
        [18; 36; 54; 72; 81; 72; 54; 36; 18];
        [14; 26; 42; 60; 80; 60; 42; 26; 14];
        [10; 20; 30; 40; 50; 40; 30; 20; 10];
        [6; 12; 18; 18; 20; 18; 18; 12; 6];
        [0; 0; 0; 0; 0; 0; 0; 0; 0];
        [0; 0; 0; 0; 0; 0; 0; 0; 0];
        [0; 0; 0; 0; 0; 0; 0; 0; 0];
        [0; 0; 0; 0; 0; 0; 0; 0; 0] ]
  | rook =>
      [ [10; 10; 10; 10; 10; 10; 10; 10; 10];
        [10; 20; 20; 20; 20; 20; 20; 20; 10];
        [5; 10; 20; 30; 30; 30; 20; 10; 5];
        [5; 10; 15; 20; 20; 20; 15; 10; 5];
        [5; 10; 15; 20; 20; 20; 15; 10; 5];
        [5; 10; 15; 20; 20; 20; 15; 10; 5];
        [5; 10; 20; 30; 30; 30; 20; 10; 5];
        [10; 20; 20; 20; 20; 20; 20; 20; 10];
        [0; 15; 10; 10; 10; 10; 10; 15; 0];
        [5; 15; 10; 10; 10; 10; 10; 15; 5] ]
  | horse =>
      [ [0; 0; 0; 0; 0; 0; 0; 0; 0];
        [0; 20; 40; 30; 20; 30; 40; 20; 0];
        [5; 20; 30; 40; 50; 40; 30; 20; 5];
        [5; 10; 15; 30; 20; 30; 15; 10; 5];
        [5; 10; 15; 20; 20; 20; 15; 10; 5];
        [5; 10; 15; 20; 20; 20; 15; 10; 5];
        [5; 20; 10; 40; 10; 40; 10; 20; 5];
        [5; 20; 10; 20; 10; 20; 10; 20; 5];
        [0; 5; 5; 5; 5; 5; 5; 5; 0];
        [0; -5; 0; 0; 0; 0; 0; -5; 0] ]
  | cannon =>
      [ [0; 0; 5; 10; 10; 10; 5; 0; 0];
        [0; 5; 10; 15; 20; 15; 10; 5; 0];
        [0; 5; 10; 20; 40; 20; 10; 5; 0];
        [0; 0; 5; 10; 20; 10; 5; 0; 0];
        [0; 5; 5; 10; 20; 10; 5; 5; 0];
        [-2; 5; 20; 5; 10; 5; 20; 5; -2];
        [0; 0; 5; 10; 15; 10; 5; 0; 0];
        [0; 0; 10; 20; 30; 20; 10; 0; 0];
        [0; 0; 0; 0; 0; 0; 0; 0; 0];
        [0; 0; 0; 0; 0; 0; 0; 0; 0] ]
  | king | advisor | elephant => []
  end.

(** [a[i]] on a table, [undefined] when [i] is not an index of [a]. *)
Definition jsNth {A} (a : list A) (i : Z) : option A :=
  if i <? 0 then None else a !! Z.to_nat i.

(** The value [val] the loop body computes for the piece found at (r, c). *)
Definition pieceValue (p : piece) (r c : Z) : Z :=
  let val := jsOr (PIECE_VALUES (type p)) 100 in
  if (0 <? Z.of_nat (length (PST (type p)))) then
    let lookupR := match color p with black => 9 - r | red => r end in
    match jsNth (PST (type p)) lookupR with
    | Some rowVals =>
        val + jsOr (match jsNth rowVals c with Some v => v | None => 0 end) 0
    | None => val
    end
  else val.

Definition evalCell (s : side) (score : Z) (r c : Z) : Q Z :=
  (p <- rd r c ;;
   match p with
   | None => retQ score
   | Some x =>
       px <- deref x ;;
       let val := pieceValue px r c in
       if side_eqb (color px) s then retQ (score + val) else retQ (score - val)
   end)%Q.

Definition evaluateBoard (s : side) : Q Z :=
  foldQ (fun score r => foldQ (fun score c => evalCell s score r c) (seqZ 0 9) score)
        (seqZ 0 10) 0.

(** ** Search *)

(** JavaScript numbers as the search uses them: integers and the two
    infinities that initialise the window and the running optimum. *)
Inductive num := NegInf | Fin (z : Z) | PosInf.

Definition num_ltb (a b : num) : bool :=
  match a, b with
  | NegInf, NegInf => false
  | NegInf, _ => true
  | Fin _, NegInf => false
  | Fin x, Fin y => x <? y
  | Fin _, PosInf => true
  | PosInf, _ => false
  end.

Definition num_leb (a b : num) : bool := negb (num_ltb b a).

Definition num_max (a b : num) : num := if num_ltb a b then b else a.
Definition num_min (a b : num) : num := if num_ltb b a then b else a.

(** What [minimax] returns: [{score}] or a move object whose [score] was
    overwritten with the value found for it. *)
Record searchResult := Result { best : option (ix * ix); rscore : num }.

Definition raise {A} : M A := fun _ => None.

(** [piece.row = r; piece.col = c] where [piece] was read from a cell. *)
Definition setPosOf (piece : cell) (r c : Z) : M unit :=
  match piece with
  | Some p => setPos p r c
  | None => raise
  end.

(** The make-move protocol of the search; yields [piece] and [captured]. *)
Definition makeMove (mv : move) : M (cell * cell) :=
  (piece <- liftQ (rd (from mv).1 (from mv).2) ;;
   captured <- liftQ (rd (to mv).1 (to mv).2) ;;
   wr (from mv).1 (from mv).2 None ;;;
   wr (to mv).1 (to mv).2 piece ;;;
   setPosOf piece (to mv).1 (to mv).2 ;;;
   retM (piece, captured))%M.

(** The undo-move protocol of the search. *)
Definition undoMove (mv : move) (piece captured : cell) : M unit :=
  (setPosOf piece (from mv).1 (from mv).2 ;;;
   wr (from mv).1 (from mv).2 piece ;;;
   wr (to mv).1 (to mv).2 captured)%M.

(** The maximizing loop; [rec alpha beta] is the recursive call. *)
Fixpoint maxLoop (rec : num -> num -> M searchResult) (moves : list move)
    (alpha beta maxEval : num) (bestMove : option (ix * ix)) : M searchResult :=
  match moves with
  | [] => retM (Result bestMove maxEval)
  | mv :: rest =>
      (pcap <- makeMove mv ;;
       evalObj <- rec alpha beta ;;
       let evaluation := rscore evalObj in
       undoMove mv pcap.1 pcap.2 ;;;
       let upd := num_ltb maxEval evaluation in
       let maxEval' := if upd then evaluation else maxEval in
       let bestMove' := if upd then Some (from mv, to mv) else bestMove in
       let alpha' := num_max alpha evaluation in
       if num_leb beta alpha' then retM (Result bestMove' maxEval')
       else maxLoop rec rest alpha' beta maxEval' bestMove')%M
  end.

Fixpoint minLoop (rec : num -> num -> M searchResult) (moves : list move)
    (alpha beta minEval : num) (bestMove : option (ix * ix)) : M searchResult :=
  match moves with
  | [] => retM (Result bestMove minEval)
  | mv :: rest =>
      (pcap <- makeMove mv ;;
       evalObj <- rec alpha beta ;;
       let evaluation := rscore evalObj in
       undoMove mv pcap.1 pcap.2 ;;;
       let upd := num_ltb evaluation minEval in
       let minEval' := if upd then evaluation else minEval in
       let bestMove' := if upd then Some (from mv, to mv) else bestMove in
       let beta' := num_min beta evaluation in
       if num_leb beta' alpha then retM (Result bestMove' minEval')
       else minLoop rec rest alpha beta' minEval' bestMove')%M
  end.

Definition opponent (s : side) : side :=
  match s with red => black | black => red end.

Fixpoint minimax (depth : nat) (alpha beta : num) (isMaximizing : bool)
    (myColor : side) : M searchResult :=
  match depth with
  | O => (s <- liftQ (evaluateBoard myColor) ;; retM (Result None (Fin s)))%M
  | S d =>
      (possibleMoves <- generateLegalMoves
                          (if isMaximizing then myColor else opponent myColor) ;;
       match possibleMoves with
       | [] => retM (Result None (Fin (if isMaximizing then -100000 else 100000)))
       | _ =>
           if isMaximizing then
             maxLoop (fun a b => minimax d a b false myColor)
                     possibleMoves alpha beta NegInf None
           else
             minLoop (fun a b => minimax d a b true myColor)
                     possibleMoves alpha beta PosInf None
       end)%M
  end.

(** [game.turn = turn] *)
Definition setTurn (s : side) : M unit :=
  fun g => Some (tt, Game (pieces g) (board g) s (gameOver g), []).

(** The worker's message handler, run on the game holding the received
    board; the result is the posted message, [None] for [{}]. *)
Definition onmessage (depth : nat) (turn_ : side) : M (option searchResult) :=
  (setTurn turn_ ;;;
   foldM (fun bestMove d =>
            mv <- minimax d NegInf PosInf true turn_ ;;
            retM (match best mv with Some _ => Some mv | None => bestMove end))
         (seq 1 depth) None)%M.

(** * Vocabulary of the statements *)

(** Every index recorded by a run lies on the 10x9 grid. *)
Definition logOk (l : list ix) : Prop := Forall (fun i => inGrid i = true) l.

(** [q] run on [g] returns [a], raises nothing and stays on the grid. *)
Definition reads {A} (q : Q A) (g : game) (a : A) : Prop :=
  exists l, q g = Some (a, l) /\ logOk l.

(** [m] run on [g] returns [a] and leaves [g'], raises nothing and stays on
    the grid. *)
Definition runs {A} (m : M A) (g : game) (a : A) (g' : game) : Prop :=
  exists l, m g = Some (a, g', l) /\ logOk l.

(** The returned value, whatever the log. *)
Definition valQ {A} (q : Q A) (g : game) : option A := fst <$> q g.

(** The occupant of a cell, for statements: [null] off the board. *)
Definition occupant (g : game) (i : ix) : cell :=
  default None (getCell (board g) i.1 i.2).

(** The 90 cells in the order of the double loops. *)
Definition allCells : list ix := r ← seqZ 0 10; c ← seqZ 0 9; [(r, c)].

Definition cellOk (g : game) (i : ix) : bool :=
  match getCell (board g) i.1 i.2 with
  | Some (Some p) =>
      match pieces g !! p with
      | Some pc => (row pc =? i.1) && (col pc =? i.2)
      | None => false
      end
  | Some None => true
  | None => false
  end.

(** The board is a 10x9 array and every piece on it carries the
    coordinates of the cell that holds it. *)
Definition wfb (g : game) : bool :=
  (length (board g) =? 10)%nat &&
  forallb (fun rw => (length rw =? 9)%nat) (board g) &&
  forallb (cellOk g) allCells.

Definition wf (g : game) : Prop := wfb g = true.

Definition gridShape (b : list (list cell)) : Prop :=
  length b = 10%nat /\ forall i rw, b !! i = Some rw -> length rw = 9%nat.

(** The cells strictly between two cells of one row or of one column. *)
Definition cellsBetween (a b : ix) : list ix :=
  if a.1 =? b.1 then
    (fun c => (a.1, c)) <$> seqZ (Z.min a.2 b.2 + 1) (Z.max a.2 b.2 - (Z.min a.2 b.2 + 1))
  else if a.2 =? b.2 then
    (fun r => (r, a.2)) <$> seqZ (Z.min a.1 b.1 + 1) (Z.max a.1 b.1 - (Z.min a.1 b.1 + 1))
  else [].

(** The number of occupied cells among them. *)
Definition obstaclesBetween (g : game) (a b : ix) : Z :=
  Z.of_nat (length (filter (fun i => truthy (occupant g i) = true) (cellsBetween a b))).

(** [target && target.color === piece.color], stated on the game. *)
Definition ownPiece (g : game) (t : ix) (s : side) : bool :=
  match occupant g t with
  | Some q =>
      match pieces g !! q with
      | Some qc => side_eqb (color qc) s
      | None => false
      end
  | None => false
  end.


(** The opening position, [new XiangqiLogic()]. *)
Definition openingGame : game :=
  match newGame with
  | Some g => g
  | None => Game [] [] red false
  end.

(** What the piece on cell [i], if any, adds to the score seen by [s]. *)
Definition contribution (s : side) (g : game) (i : ix) : Z :=
  match occupant g i with
  | Some x =>
      match pieces g !! x with
      | Some px =>
          if side_eqb (color px) s then pieceValue px i.1 i.2
          else - pieceValue px i.1 i.2
      | None => 0
      end
  | None => 0
  end.

Definition sumZ {X} (h : X -> Z) (l : list X) : Z :=
  foldr (fun x a => h x + a) 0 l.

(** The sum of the contributions, row by row. *)
Definition boardScore (s : side) (g : game) : Z :=
  sumZ (fun r => sumZ (fun c => contribution s g (r, c)) (seqZ 0 9)) (seqZ 0 10).

(** The board after [b[i.1][i.2] = v] (unchanged if the assignment raises). *)
Definition setAt (b : list (list cell)) (i : ix) (v : cell) : list (list cell) :=
  match setCell b i.1 i.2 v with
  | Some b' => b'
  | None => b
  end.

Definition withBoard (g : game) (b : list (list cell)) : game :=
  Game (pieces g) b (turn g) (gameOver g).

Definition withPieces (g : game) (ps : list piece) : game :=
  Game ps (board g) (turn g) (gameOver g).

(** The object [pc] after [pc.row = i.1; pc.col = i.2]. *)
Definition placedAt (pc : piece) (i : ix) : piece :=
  Piece (color pc) (type pc) i.1 i.2.

(** The game once the piece [p] (fields [pc]) standing on [src] has been
    moved to [dst]: source cell emptied, piece stored in the destination
    cell, coordinates updated. *)
Definition moved (g : game) (p : pid) (pc : piece) (src dst : ix) : game :=
  Game (<[p := placedAt pc dst]> (pieces g))
       (setAt (setAt (board g) src None) dst (Some p))
       (turn g) (gameOver g).

(** The cells of columns 3 to 5, in the order [kingsFacing] scans them. *)
Definition palaceColumns : list ix := r ← seqZ 0 10; c ← seqZ 3 3; [(r, c)].

(** One step of the scan, on the game. *)
Definition noteKing (g : game) (ks : option ix * option ix) (i : ix)
  : option ix * option ix :=
  match occupant g i with
  | Some x =>
      match pieces g !! x with
      | Some px =>
          if is_king (type px) then
            match color px with
            | red => (Some i, ks.2)
            | black => (ks.1, Some i)
            end
          else ks
      | None => ks
      end
  | None => ks
  end.

(** The pair [(rK, bK)] the scan ends with. *)
Definition kingsFound (g : game) : option ix * option ix :=
  foldl (noteKing g) (None, None) palaceColumns.

(** The value [kingsFacing] computes from that pair. *)
Definition facingOf (g : game) (ks : option ix * option ix) : bool :=
  match ks with
  | (Some rK, Some bK) => (rK.2 =? bK.2) && (obstaclesBetween g rK bK =? 0)
  | _ => false
  end.

(** The material value of what stands on [t], 0 for an empty cell. *)
Definition captureScore (g : game) (t : ix) : Z :=
  match occupant g t with
  | Some x =>
      match pieces g !! x with
      | Some cx => PIECE_VALUES (type cx)
      | None => 0
      end
  | None => 0
  end.

(** A move as [generateLegalMoves] accepts it on [g] for side [s]: it
    starts from a piece of [s], passes [isValidMove], does not leave the
    kings facing once simulated, and is scored by what it captures. *)
Definition accepted (g : game) (s : side) (mv : move) : Prop :=
  exists p pc,
    inGrid (from mv) = true /\ inGrid (to mv) = true /\
    occupant g (from mv) = Some p /\ pieces g !! p = Some pc /\ color pc = s /\
    reads (isValidMove (Some p) (to mv).1 (to mv).2) g true /\
    reads kingsFacing (moved g p pc (from mv) (to mv)) false /\
    score mv = captureScore g (to mv).

(** [g'] is an object-for-object copy of [g], as [cloneBoard] or the
    structured clone of a worker message produce: the same layout, fresh
    piece objects with the same fields. *)
Definition copyOf (g g' : game) : Prop :=
  gridShape (board g') /\
  forall i, inGrid i = true ->
    match occupant g i, occupant g' i with
    | None, None => True
    | Some p, Some p' =>
        exists pc, pieces g !! p = Some pc /\ pieces g' !! p' = Some pc
    | _, _ => False
    end.

(** The positions the application can be in: the opening position, and
    from there any relocation of a piece of the board to a cell of the grid
    ([attemptMove] after its checks, [handleAiMove] as the worker says),
    any value of the flags, and any copy. *)
Inductive reachable : game -> Prop :=
| reach_opening : reachable openingGame
| reach_move g p pc src dst :
    reachable g -> inGrid src = true -> inGrid dst = true ->
    occupant g src = Some p -> pieces g !! p = Some pc ->
    reachable (moved g p pc src dst)
| reach_flags g s o :
    reachable g -> reachable (Game (pieces g) (board g) s o)
| reach_copy g g' :
    reachable g -> copyOf g g' -> reachable g'.

(** Descending order of the ordering score. *)
Definition byScoreDesc (a b : move) : Prop := score a >= score b.

(** A position set up by hand: [placePiece] in the given order on an empty
    board. *)
Definition boardWith (l : list (ix * side * kind)) : game :=
  match foldM (fun _ x => placePiece x.1.1.1 x.1.1.2 x.1.2 x.2) l tt
              (Game [] emptyBoard red false) with
  | Some (_, g, _) => g
  | None => Game [] emptyBoard red false
  end.

(** Cell [i] holds a king of side [s]. *)
Definition isKingOf (g : game) (s : side) (i : ix) : bool :=
  match occupant g i with
  | Some x =>
      match pieces g !! x with
      | Some px => is_king (type px) && side_eqb (color px) s
      | None => false
      end
  | None => false
  end.

Definition kingAt (g : game) (s : side) (i : ix) : Prop :=
  inGrid i = true /\ isKingOf g s i = true.

(** Both kings stand in the same column with no occupied cell strictly
    between them. *)
Definition kingsFace (g : game) : Prop :=
  exists a b, kingAt g red a /\ kingAt g black b /\ a.2 = b.2 /\
              obstaclesBetween g a b = 0.

(** The component of the scanned pair that belongs to side [s]. *)
Definition pick (s : side) (ks : option ix * option ix) : option ix :=
  match s with red => ks.1 | black => ks.2 end.

(** The two kings alone, facing each other on the edge file. *)
Definition kingsOnEdge : game :=
  boardWith [((0, 0), black, king); ((9, 0), red, king)].

(** The two kings alone on the central file. *)
Definition kingsOnCentre : game :=
  boardWith [((0, 4), black, king); ((9, 4), red, king)].

(** Every king stands in columns 3 to 5. *)
Definition kingsConfined (g : game) : bool :=
  forallb (fun a => implb (isKingOf g red a || isKingOf g black a)
                          ((3 <=? a.2) && (a.2 <=? 5)))
          allCells.

(** Each side has at most one king on the board. *)
Definition oneKingPerSide (g : game) : bool :=
  forallb (fun s => (length (filter (fun a => isKingOf g s a = true) allCells)
                     <=? 1)%nat)
          [red; black].

(** ** The player's move ([XiangqiApp.attemptMove])

    The method belongs to the controller and is embedded with it, in module
    [App] below.  Here are the ways it ends and the test it makes on the
    content of the target. *)

(** How an attempt ends: the two rejections, and the two ways an accepted
    move continues. *)
Inductive attempt := NotValid | FlyingGeneral | KingTaken | Played.

(** [targetContent && targetContent.type === 'king'] *)
Definition isKingCell (targetContent : cell) : Q bool :=
  match targetContent with
  | Some x => (tx <- deref x ;; retQ (is_king (type tx)))%Q
  | None => retQ false
  end.

(** Two kings on the central file with a red rook between them. *)
Definition rookBetweenKings : game :=
  boardWith [((0, 4), black, king); ((9, 4), red, king); ((5, 4), red, rook)].

(** ** Full minimax, for comparison

    The search the pruned one is compared with: the same moves in the same
    order, the same leaf values, the same strict test for a better move, and
    no window.  It works on positions as values. *)

(** The list [generateLegalMoves] returns on [g]. *)
Definition movesOf (s : side) (g : game) : list move :=
  match generateLegalMoves s g with
  | Some (ms, _, _) => ms
  | None => []
  end.

(** The position the make-move protocol leads to. *)
Definition afterMove (g : game) (mv : move) : game :=
  match makeMove mv g with
  | Some (_, g', _) => g'
  | None => g
  end.

(** The value [evaluateBoard] returns on [g]. *)
Definition scoreOf (s : side) (g : game) : Z :=
  match evaluateBoard s g with
  | Some (v, _) => v
  | None => 0
  end.

(** One candidate at a maximizing node, at a minimizing node. *)
Definition betterMax (value : move -> num) (acc : searchResult) (mv : move)
  : searchResult :=
  if num_ltb (rscore acc) (value mv) then Result (Some (from mv, to mv)) (value mv)
  else acc.

Definition betterMin (value : move -> num) (acc : searchResult) (mv : move)
  : searchResult :=
  if num_ltb (value mv) (rscore acc) then Result (Some (from mv, to mv)) (value mv)
  else acc.

Fixpoint minimaxFull (depth : nat) (isMaximizing : bool) (myColor : side)
    (g : game) : searchResult :=
  match depth with
  | O => Result None (Fin (scoreOf myColor g))
  | S d =>
      let possibleMoves :=
        movesOf (if isMaximizing then myColor else opponent myColor) g in
      match possibleMoves with
      | [] => Result None (Fin (if isMaximizing then -100000 else 100000))
      | _ =>
          if isMaximizing then
            foldl (betterMax (fun mv =>
                     rscore (minimaxFull d false myColor (afterMove g mv))))
                  (Result None NegInf) possibleMoves
          else
            foldl (betterMin (fun mv =>
                     rscore (minimaxFull d true myColor (afterMove g mv))))
                  (Result None PosInf) possibleMoves
      end
  end.

(** What a search with window ([alpha], [beta]) may return for a node
    whose full minimax value is [v]: the value itself when it lies strictly
    inside the window, otherwise a bound on the same side of the window. *)
Definition bounded (alpha beta v s : num) : Prop :=
  (num_leb v alpha = true -> num_leb v s = true /\ num_leb s alpha = true) /\
  (num_ltb alpha v = true -> num_ltb v beta = true -> s = v) /\
  (num_leb beta v = true -> num_leb beta s = true /\ num_leb s v = true).

(** The same for results: in addition, the move is the one of the full
    search whenever the value lies strictly inside the window. *)
Definition agrees (alpha beta : num) (full r : searchResult) : Prop :=
  bounded alpha beta (rscore full) (rscore r) /\
  (num_ltb alpha (rscore full) = true -> num_ltb (rscore full) beta = true ->
   best r = best full).

(** The relation the maximizing loop keeps between its variables
    ([bestMove], [maxEval], [alpha]) and the running optimum [acc] of the
    full search, [alpha0] being the bound the node was entered with. *)
Definition maxInv (alpha0 beta : num) (acc : searchResult)
    (bestMove : option (ix * ix)) (maxEval alpha : num) : Prop :=
  alpha = num_max alpha0 maxEval /\ num_ltb alpha beta = true /\
  (num_ltb alpha0 (rscore acc) = true ->
   maxEval = rscore acc /\ bestMove = best acc) /\
  (num_leb (rscore acc) alpha0 = true ->
   num_leb (rscore acc) maxEval = true /\ num_leb maxEval alpha0 = true).

(** The mirror image for the minimizing loop. *)
Definition minInv (alpha beta0 : num) (acc : searchResult)
    (bestMove : option (ix * ix)) (minEval beta : num) : Prop :=
  beta = num_min beta0 minEval /\ num_ltb alpha beta = true /\
  (num_ltb (rscore acc) beta0 = true ->
   minEval = rscore acc /\ bestMove = best acc) /\
  (num_leb beta0 (rscore acc) = true ->
   num_leb minEval (rscore acc) = true /\ num_leb beta0 minEval = true).

(** What the loops need from each candidate: the make and undo protocols
    work on it, and the recursive call, run on the position after the move,
    hands that position back and returns a value within [bounded] of the
    full value of the candidate. *)
Definition candidateOk (rec : num -> num -> M searchResult) (value : move -> num)
    (g : game) (mv : move) : Prop :=
  exists pcap g1,
    runs (makeMove mv) g pcap g1 /\
    runs (undoMove mv pcap.1 pcap.2) g1 tt g /\
    forall a b, num_ltb a b = true ->
      exists r, runs (rec a b) g1 r g1 /\ bounded a b (value mv) (rscore r).

(** ** Vocabulary for the iterative deepening *)

(** The worker's game once [game.turn = turn] has been executed. *)
Definition received (g : game) (s : side) : game :=
  Game (pieces g) (board g) s (gameOver g).

(** What the search of depth [d] returns on [g] for side [s]. *)
Definition searchAt (s : side) (g : game) (d : nat) : searchResult :=
  match minimax d NegInf PosInf true s g with
  | Some (r, _, _) => r
  | None => Result None NegInf
  end.

(** Of a list of results in the order of the searches, the last one that
    carries a move. *)
Definition deepestMove (rs : list searchResult) : option searchResult :=
  foldl (fun b r => match best r with Some _ => Some r | None => b end) None rs.

(** * The modular copy of the engine

    The repository also holds an earlier, modular copy of the engine: a
    game-logic module and a worker that imports it.  Its [isValidMove],
    [isInPalace], [countObstacles], [kingsFacing] and
    [getPossibleDestinations] are, statement for statement, the ones
    embedded above.  What differs is embedded here: the move generator
    stores 0 as the score of every move and does not sort, the evaluation
    uses smaller material values and a pawn bonus instead of tables, the
    search orders the moves itself (captures first), and the message handler
    runs a single search of the requested depth. *)
Module Modular.

Definition PIECE_VALUES (k : kind) : Z :=
  match k with
  | king => 10000
  | rook => 90
  | horse => 40
  | cannon => 45
  | elephant => 20
  | advisor => 20
  | pawn => 10
  end.

Definition tryDestination (p : pid) (moves : list move) (dest : ix)
  : M (list move) :=
  let tgtR := dest.1 in
  let tgtC := dest.2 in
  (ok <- liftQ (isValidMove (Some p) tgtR tgtC) ;;
   if ok then
     captured <- liftQ (rd tgtR tgtC) ;;
     pc <- liftQ (deref p) ;;
     wr (row pc) (col pc) None ;;;
     wr tgtR tgtC (Some p) ;;;
     let oldR := row pc in
     let oldC := col pc in
     setPos p tgtR tgtC ;;;
     facing <- liftQ kingsFacing ;;
     moves' <- (if negb facing
                then retM (moves ++ [Move (oldR, oldC) (tgtR, tgtC) 0])
                else retM moves) ;;
     setPos p oldR oldC ;;;
     wr oldR oldC (Some p) ;;;
     wr tgtR tgtC captured ;;;
     retM moves'
   else retM moves)%M.

Definition scanCell (s : side) (moves : list move) (r c : Z) : M (list move) :=
  (p <- liftQ (rd r c) ;;
   match p with
   | None => retM moves
   | Some x =>
       px <- liftQ (deref x) ;;
       if side_eqb (color px) s then
         foldM (tryDestination x) (getPossibleDestinations px) moves
       else retM moves
   end)%M.

Definition generateLegalMoves (s : side) : M (list move) :=
  foldM (fun moves r =>
           foldM (fun moves c => scanCell s moves r c) (seqZ 0 BOARD_COLS) moves)
        (seqZ 0 BOARD_ROWS) [].

(** The value [val] of the piece found at row [r]. *)
Definition pieceValue (p : piece) (r : Z) : Z :=
  let val := jsOr (PIECE_VALUES (type p)) 10 in
  match type p with
  | pawn =>
      let val := if side_eqb (color p) red && (r <? 5) then val + 10 else val in
      if side_eqb (color p) black && (r >? 4) then val + 10 else val
  | _ => val
  end.

Definition evalCell (s : side) (score : Z) (r c : Z) : Q Z :=
  (p <- rd r c ;;
   match p with
   | None => retQ score
   | Some x =>
       px <- deref x ;;
       let val := pieceValue px r in
       if side_eqb (color px) s then retQ (score + val) else retQ (score - val)
   end)%Q.

Definition evaluateBoard (s : side) : Q Z :=
  foldQ (fun score r =>
           foldQ (fun score c => evalCell s score r c) (seqZ 0 BOARD_COLS) score)
        (seqZ 0 BOARD_ROWS) 0.

(** The key the worker sorts by: 10 for an occupied destination, else 0.
    Each move is paired with its key by one read of its destination cell;
    the comparisons of the real sort read the same cells, as often as the
    sort of the engine compares. *)
Definition captureKey (mv : move) : Q (Z * move) :=
  (dest <- rd (to mv).1 (to mv).2 ;;
   retQ (if truthy dest then 10 else 0, mv))%Q.

Fixpoint mapQ {X Y} (f : X -> Q Y) (l : list X) : Q (list Y) :=
  match l with
  | [] => retQ []
  | x :: l' => (y <- f x ;; ys <- mapQ f l' ;; retQ (y :: ys))%Q
  end.

Fixpoint insertKeyed (m : Z * move) (l : list (Z * move)) : list (Z * move) :=
  match l with
  | [] => [m]
  | x :: l' => if x.1 - m.1 <=? 0 then m :: l else x :: insertKeyed m l'
  end.

(** [possibleMoves.sort(...)], stable. *)
Definition sortCapturesFirst (moves : list move) : Q (list move) :=
  (keyed <- mapQ captureKey moves ;;
   retQ (snd <$> foldr insertKeyed [] keyed))%Q.

Fixpoint minimax (depth : nat) (alpha beta : num) (isMaximizing : bool)
    (myColor : side) : M searchResult :=
  match depth with
  | O => (s <- liftQ (evaluateBoard myColor) ;; retM (Result None (Fin s)))%M
  | S d =>
      (possibleMoves <- generateLegalMoves
                          (if isMaximizing then myColor else opponent myColor) ;;
       match possibleMoves with
       | [] => retM (Result None (Fin (if isMaximizing then -100000 else 100000)))
       | _ =>
           sorted <- liftQ (sortCapturesFirst possibleMoves) ;;
           if isMaximizing then
             maxLoop (fun a b => minimax d a b false myColor)
                     sorted alpha beta NegInf None
           else
             minLoop (fun a b => minimax d a b true myColor)
                     sorted alpha beta PosInf None
       end)%M
  end.

(** The message handler: one search, whose result is posted as it is. *)
Definition onmessage (depth : nat) (turn_ : side) : M searchResult :=
  (setTurn turn_ ;;; minimax depth NegInf PosInf true turn_)%M.

End Modular.

(** A move with the score the final generator gives it. *)
Definition rescored (g : game) (mv : move) : move :=
  Move (from mv) (to mv) (captureScore g (to mv)).

(** A move as the modular generator accepts it: one the final generator
    accepts, stored with score 0. *)
Definition acceptedModular (g : game) (s : side) (mv : move) : Prop :=
  accepted g s (rescored g mv) /\ score mv = 0.

(** The contribution of a cell and the sum over the board, for the
    evaluation of the modular copy. *)
Definition modularContribution (s : side) (g : game) (i : ix) : Z :=
  match occupant g i with
  | Some x =>
      match pieces g !! x with
      | Some px =>
          if side_eqb (color px) s then Modular.pieceValue px i.1
          else - Modular.pieceValue px i.1
      | None => 0
      end
  | None => 0
  end.

Definition modularBoardScore (s : side) (g : game) : Z :=
  sumZ (fun r => sumZ (fun c => modularContribution s g (r, c)) (seqZ 0 9))
       (seqZ 0 10).

(** The order the modular worker gives a move list on [g]. *)
Definition capturesFirst (g : game) (ms : list move) : list move :=
  snd <$> foldr Modular.insertKeyed []
            ((fun mv => (if truthy (occupant g (to mv)) then 10 else 0, mv)) <$> ms).

(** The move list the loops of the modular search go through on [g]. *)
Definition modularMovesOf (s : side) (g : game) : list move :=
  match Modular.generateLegalMoves s g with
  | Some (ms, _, _) => capturesFirst g ms
  | None => []
  end.

Definition modularScoreOf (s : side) (g : game) : Z :=
  match Modular.evaluateBoard s g with
  | Some (v, _) => v
  | None => 0
  end.

(** Full minimax over the move lists and leaf values of the modular copy. *)
Fixpoint modularMinimaxFull (depth : nat) (isMaximizing : bool) (myColor : side)
    (g : game) : searchResult :=
  match depth with
  | O => Result None (Fin (modularScoreOf myColor g))
  | S d =>
      let possibleMoves :=
        modularMovesOf (if isMaximizing then myColor else opponent myColor) g in
      match possibleMoves with
      | [] => Result None (Fin (if isMaximizing then -100000 else 100000))
      | _ =>
          if isMaximizing then
            foldl (betterMax (fun mv =>
                     rscore (modularMinimaxFull d false myColor (afterMove g mv))))
                  (Result None NegInf) possibleMoves
          else
            foldl (betterMin (fun mv =>
                     rscore (modularMinimaxFull d true myColor (afterMove g mv))))
                  (Result None PosInf) possibleMoves
      end
  end.

(** * Vocabulary for the further properties *)

(** ** The move rules on the game as a value

    What [isValidMove] answers for the piece object [pc] and the target
    [t], computed from the occupants of the cells instead of being read cell
    by cell: the tests are those of the method, in its order. *)
Definition ruleOf (g : game) (pc : piece) (t : ix) : bool :=
  let dr := t.1 - row pc in
  let dc := t.2 - col pc in
  let absDr := Z.abs dr in
  let absDc := Z.abs dc in
  if (row pc =? t.1) && (col pc =? t.2) then false
  else if ownPiece g t (color pc) then false
  else
    match type pc with
    | king =>
        (((absDr =? 1) && (absDc =? 0)) || ((absDr =? 0) && (absDc =? 1)))
        && isInPalace t.1 t.2 (color pc)
    | advisor =>
        (absDr =? 1) && (absDc =? 1) && isInPalace t.1 t.2 (color pc)
    | elephant =>
        (absDr =? 2) && (absDc =? 2)
        && negb (side_eqb (color pc) red && (t.1 <? 5))
        && negb (side_eqb (color pc) black && (t.1 >? 4))
        && negb (truthy (occupant g (row pc + dr / 2, col pc + dc / 2)))
    | horse =>
        (((absDr =? 2) && (absDc =? 1)) || ((absDr =? 1) && (absDc =? 2)))
        && negb (truthy (occupant g
                   (if absDr =? 2
                    then (row pc + (if dr >? 0 then 1 else -1), col pc)
                    else (row pc, col pc + (if dc >? 0 then 1 else -1)))))
    | rook =>
        negb ((absDr >? 0) && (absDc >? 0))
        && (obstaclesBetween g (row pc, col pc) t =? 0)
    | cannon =>
        negb ((absDr >? 0) && (absDc >? 0))
        && (if truthy (occupant g t)
            then obstaclesBetween g (row pc, col pc) t =? 1
            else obstaclesBetween g (row pc, col pc) t =? 0)
    | pawn =>
        (absDr + absDc =? 1)
        && match color pc with
           | red => negb (t.1 >? row pc)
                    && negb ((row pc >=? 5) && (row pc =? t.1))
           | black => negb (t.1 <? row pc)
                      && negb ((row pc <=? 4) && (row pc =? t.1))
           end
    end.

(** The palace of side [s]: columns 3 to 5 of its three home rows. *)
Definition inPalace (s : side) (t : ix) : Prop :=
  3 <= t.2 <= 5 /\
  match s with red => 7 <= t.1 <= 9 | black => 0 <= t.1 <= 2 end.

(** The cell half-way between the piece and the target: the eye of an
    elephant's move, and the leg of a horse's move along its long side. *)
Definition midRow (pc : piece) (t : ix) : Z := (row pc + t.1) / 2.
Definition midCol (pc : piece) (t : ix) : Z := (col pc + t.2) / 2.

(** The target [t] is free for the piece [pc]: it is another cell, and no
    piece of the same colour stands on it. *)
Definition freeFor (g : game) (pc : piece) (t : ix) : Prop :=
  t <> (row pc, col pc) /\ ownPiece g t (color pc) = false.

(** ** What the generator computes, as a value *)

(** What the callback of [generateLegalMoves] pushes for the piece [p]
    (fields [pc]) and one destination: the move, when the rule allows it and
    the kings do not face each other once it is simulated. *)
Definition candidate (g : game) (p : pid) (pc : piece) (dest : ix) : list move :=
  if ruleOf g pc dest
     && negb (facingOf (moved g p pc (row pc, col pc) dest)
                       (kingsFound (moved g p pc (row pc, col pc) dest)))
  then [Move (row pc, col pc) dest (captureScore g dest)]
  else [].

(** The moves pushed while the double loop is on cell [i]. *)
Definition cellMoves (s : side) (g : game) (i : ix) : list move :=
  match occupant g i with
  | Some x =>
      match pieces g !! x with
      | Some px =>
          if side_eqb (color px) s
          then d ← getPossibleDestinations px; candidate g x px d
          else []
      | None => []
      end
  | None => []
  end.

(** The array [moves] before it is sorted. *)
Definition generated (s : side) (g : game) : list move :=
  r ← seqZ 0 10; c ← seqZ 0 9; cellMoves s g (r, c).

(** ** Positions in play *)

(** The fields of the piece standing on a cell. *)
Definition pieceAt (g : game) (i : ix) : option piece :=
  match occupant g i with
  | Some x => pieces g !! x
  | None => None
  end.

(** Every king stands inside the palace of its colour. *)
Definition kingsHome (g : game) : Prop :=
  forall s a, kingAt g s a -> inPalace s a.

(** No side has two kings on the board. *)
Definition atMostOneKing (g : game) : Prop :=
  forall s a b, kingAt g s a -> kingAt g s b -> a = b.

(** Cell [t] holds a king, of either colour. *)
Definition kingOn (g : game) (t : ix) : bool :=
  isKingOf g red t || isKingOf g black t.

(** How [attemptMove] ends for the piece [p] (fields [pc]) and the target
    [t], and the game it leaves. *)
Definition attemptOutcome (g : game) (p : pid) (pc : piece) (t : ix) : attempt :=
  if negb (ruleOf g pc t) then NotValid
  else if facingOf (moved g p pc (row pc, col pc) t)
                   (kingsFound (moved g p pc (row pc, col pc) t))
       then FlyingGeneral
  else if kingOn g t then KingTaken
  else Played.

Definition afterAttempt (g : game) (p : pid) (pc : piece) (t : ix) : game :=
  let g1 := moved g p pc (row pc, col pc) t in
  match attemptOutcome g p pc t with
  | NotValid | FlyingGeneral => g
  | KingTaken => Game (pieces g1) (board g1) (turn g) true
  | Played => Game (pieces g1) (board g1) (opponent (turn g)) (gameOver g)
  end.

(** ** Vocabulary for the evaluation and the search *)

(** The position seen from the other side of the board: the rows in the
    opposite order, every piece with the other colour. *)
Definition flipPiece (pc : piece) : piece :=
  Piece (opponent (color pc)) (type pc) (9 - row pc) (col pc).

Definition flipGame (g : game) : game :=
  Game (flipPiece <$> pieces g) (reverse (board g)) (turn g) (gameOver g).

(** A move as a pair of cells, as the search reports it. *)
Definition endsOf (mv : move) : ix * ix := (from mv, to mv).

(** A move as the modular generator stores it: with score 0. *)
Definition unscored (mv : move) : move := Move (from mv) (to mv) 0.

(** The destination of the move holds a piece: the test of the worker's
    comparison function. *)
Definition isCapture (g : game) (mv : move) : bool := truthy (occupant g (to mv)).

(** * The application ([XiangqiApp])

    The controller owns the game, the selection, the history used to take
    moves back, and the worker.  Its methods are embedded for what they do
    to these: the drawing, the sounds and the alerts are left out, and the
    document is assumed to hold the elements the constructor creates.

    The history keeps boards, and [undo] makes one of them the board of the
    game: boards are objects of a store here, like the pieces.  A board
    object holds its rows: every board is built by [initBoard] or by
    [cloneBoard], which both allocate the rows, so that no row is shared by
    two boards. *)
Module App.

(** ['pve'] and ['pvp'] *)
Inductive mode := pve | pvp.

(** An entry of [this.history].  Its [selectedId] is written and never
    read; it is left out. *)
Record entry := Entry {
  eboard : nat;
  eturn : side;
  elastMove : option (ix * ix)
}.

(** A message [{board, turn, depth}] as the worker receives it: the
    structured clone of the board, that is the board with the objects it
    refers to, in a store of its own. *)
Record request := Request {
  rpieces : list piece;
  rboard : list (list cell);
  rturn : side;
  rdepth : nat
}.

Record app := Build {
  objs : list piece;                    (* the piece objects *)
  boards : list (list (list cell));     (* the board objects *)
  board_ : nat;                         (* this.game.board *)
  turn_ : side;                         (* this.game.turn *)
  over_ : bool;                         (* this.game.gameOver *)
  selectedPiece : option nat;
  gameMode : mode;
  playerColor : side;
  aiColor : side;
  difficulty : nat;
  isAiThinking : bool;
  lastMove : option (ix * ix);
  history : list entry;
  posted : list request                 (* the messages sent to the worker *)
}.

(** Methods of the controller: they may raise ([None]). *)
Definition A (X : Type) : Type := app -> option (X * app).

Definition retA {X} (x : X) : A X := fun a => Some (x, a).

Definition bindA {X Y} (m : A X) (f : X -> A Y) : A Y :=
  fun a =>
    match m a with
    | None => None
    | Some (x, a1) => f x a1
    end.

Declare Scope a_scope.
Delimit Scope a_scope with A.

Notation "x <- m ;; k" := (bindA m (fun x => k))
  (at level 100, m at next level, right associativity) : a_scope.
Notation "m ;;; k" := (bindA m (fun _ => k))
  (at level 100, right associativity) : a_scope.

(** [this.game], with the objects its board refers to. *)
Definition gameOf (a : app) : game :=
  Game (objs a) (default [] (boards a !! board_ a)) (turn_ a) (over_ a).

(** The controller after a method of the game has run: the board object
    of the game has been assigned to in place. *)
Definition putGame (a : app) (g : game) : app :=
  Build (pieces g) (<[board_ a := board g]> (boards a)) (board_ a)
        (turn g) (gameOver g)
        (selectedPiece a) (gameMode a) (playerColor a) (aiColor a)
        (difficulty a) (isAiThinking a) (lastMove a) (history a) (posted a).

(** A statement that assigns to the game. *)
Definition onGame {X} (m : M X) : A X :=
  fun a =>
    match m (gameOf a) with
    | Some (x, g, _) => Some (x, putGame a g)
    | None => None
    end.

(** A call that only inspects the game. *)
Definition ask {X} (q : Q X) : A X :=
  fun a =>
    match q (gameOf a) with
    | Some (x, _) => Some (x, a)
    | None => None
    end.

(** Assignments to the fields of the controller. *)
Definition setSelected (v : option nat) : A unit :=
  fun a => Some (tt, Build (objs a) (boards a) (board_ a) (turn_ a) (over_ a)
                       v (gameMode a) (playerColor a) (aiColor a)
                       (difficulty a) (isAiThinking a) (lastMove a)
                       (history a) (posted a)).

Definition setLastMove (v : option (ix * ix)) : A unit :=
  fun a => Some (tt, Build (objs a) (boards a) (board_ a) (turn_ a) (over_ a)
                       (selectedPiece a) (gameMode a) (playerColor a) (aiColor a)
                       (difficulty a) (isAiThinking a) v
                       (history a) (posted a)).

Definition setThinking (v : bool) : A unit :=
  fun a => Some (tt, Build (objs a) (boards a) (board_ a) (turn_ a) (over_ a)
                       (selectedPiece a) (gameMode a) (playerColor a) (aiColor a)
                       (difficulty a) v (lastMove a)
                       (history a) (posted a)).

Definition setHistory (v : list entry) : A unit :=
  fun a => Some (tt, Build (objs a) (boards a) (board_ a) (turn_ a) (over_ a)
                       (selectedPiece a) (gameMode a) (playerColor a) (aiColor a)
                       (difficulty a) (isAiThinking a) (lastMove a)
                       v (posted a)).

(** [this.game.turn = v] *)
Definition setGameTurn (v : side) : A unit :=
  fun a => Some (tt, Build (objs a) (boards a) (board_ a) v (over_ a)
                       (selectedPiece a) (gameMode a) (playerColor a) (aiColor a)
                       (difficulty a) (isAiThinking a) (lastMove a)
                       (history a) (posted a)).

(** [this.game.gameOver = v] *)
Definition setGameOver (v : bool) : A unit :=
  fun a => Some (tt, Build (objs a) (boards a) (board_ a) (turn_ a) v
                       (selectedPiece a) (gameMode a) (playerColor a) (aiColor a)
                       (difficulty a) (isAiThinking a) (lastMove a)
                       (history a) (posted a)).

(** [this.game.board = b], [b] a board object. *)
Definition setGameBoard (b : nat) : A unit :=
  fun a => Some (tt, Build (objs a) (boards a) b (turn_ a) (over_ a)
                       (selectedPiece a) (gameMode a) (playerColor a) (aiColor a)
                       (difficulty a) (isAiThinking a) (lastMove a)
                       (history a) (posted a)).

(** Allocation of a board object; yields the reference. *)
Definition newBoard (b : list (list cell)) : A nat :=
  fun a => Some (length (boards a),
                 Build (objs a) (boards a ++ [b]) (board_ a) (turn_ a) (over_ a)
                       (selectedPiece a) (gameMode a) (playerColor a) (aiColor a)
                       (difficulty a) (isAiThinking a) (lastMove a)
                       (history a) (posted a)).

(** [this.aiWorker.postMessage(m)] *)
Definition post (m : request) : A unit :=
  fun a => Some (tt, Build (objs a) (boards a) (board_ a) (turn_ a) (over_ a)
                       (selectedPiece a) (gameMode a) (playerColor a) (aiColor a)
                       (difficulty a) (isAiThinking a) (lastMove a)
                       (history a) (posted a ++ [m])).

(** Reading the controller. *)
Definition get {X} (f : app -> X) : A X := fun a => Some (f a, a).

(** ** [XiangqiLogic.cloneBoard]

    [this.board.map(row => row.map(p => p ? { ...p } : null))]: a new
    board whose cells hold new objects with the fields of the old ones.
    The arrays are walked by [map], no index is computed. *)
Definition cloneCell (v : cell) : M cell :=
  fun g =>
    match v with
    | None => Some (None, g, [])
    | Some p =>
        match pieces g !! p with
        | Some pc =>
            Some (Some (length (pieces g)),
                  Game (pieces g ++ [pc]) (board g) (turn g) (gameOver g), [])
        | None => None
        end
    end.

Fixpoint mapM {X Y} (f : X -> M Y) (l : list X) : M (list Y) :=
  match l with
  | [] => retM []
  | x :: l' => (y <- f x ;; ys <- mapM f l' ;; retM (y :: ys))%M
  end.

Definition cloneBoard : M (list (list cell)) :=
  fun g => mapM (mapM cloneCell) (board g) g.

(** ** [isCheck]

    The first loop looks for the king of [color]; its [break] leaves the
    loop over the columns only, so that the rows below are still scanned and
    a king found there replaces the one found before. *)
Fixpoint findKingInRow (s : side) (r : Z) (cols : list Z) (k : option ix)
  : Q (option ix) :=
  match cols with
  | [] => retQ k
  | c :: rest =>
      (p <- rd r c ;;
       match p with
       | None => findKingInRow s r rest k
       | Some x =>
           px <- deref x ;;
           if side_eqb (color px) s && is_king (type px) then retQ (Some (r, c))
           else findKingInRow s r rest k
       end)%Q
  end.

Definition raiseQ {X} : Q X := fun _ => None.

(** The second loop, left by [return true] at the first enemy piece that
    may move onto the king.  When no king was found, [kR] and [kC] are
    [undefined]: [isValidMove] then passes its first test and raises on
    [this.board[undefined][undefined]]. *)
Fixpoint attackScan (enemy : side) (k : option ix) (cells : list ix) : Q bool :=
  match cells with
  | [] => retQ false
  | i :: rest =>
      (p <- rd i.1 i.2 ;;
       match p with
       | None => attackScan enemy k rest
       | Some x =>
           px <- deref x ;;
           if side_eqb (color px) enemy then
             hit <- match k with
                    | Some kk => isValidMove (Some x) kk.1 kk.2
                    | None => raiseQ
                    end ;;
             if hit then retQ true else attackScan enemy k rest
           else attackScan enemy k rest
       end)%Q
  end.

Definition isCheck (s : side) : Q bool :=
  (k <- foldQ (fun k r => findKingInRow s r (seqZ 0 9) k) (seqZ 0 10) None ;;
   attackScan (opponent s) k allCells)%Q.

(** [this.isCheck(this.game.turn)] *)
Definition isCheckNow : Q bool := fun g => isCheck (turn g) g.

(** ** The methods that redraw

    Of [reloadBoard] and [updateStatus] only the accesses to the game are
    kept: the call of [isCheck] and the reading of the ninety cells. *)
Definition reloadBoard : A unit :=
  (ask isCheckNow ;;;
   ask (foldQ (fun _ i => (_ <- rd i.1 i.2 ;; retQ tt)%Q) allCells tt))%A.

Definition updateStatus : A unit :=
  (over <- get over_ ;;
   if over then retA tt
   else
     thinking <- get isAiThinking ;;
     if thinking then retA tt
     else ask isCheckNow ;;; retA tt)%A.

(** ** History *)

Definition saveHistory : A unit :=
  (b <- onGame cloneBoard ;;
   ref <- newBoard b ;;
   t <- get turn_ ;;
   lm <- get lastMove ;;
   h <- get history ;;
   setHistory (h ++ [Entry ref t lm]))%A.

(** [this.history.pop()] on the list. *)
Definition pop (h : list entry) : list entry := removelast h.

Definition undo : A unit :=
  (thinking <- get isAiThinking ;;
   if thinking then retA tt else
   h <- get history ;;
   if (length h <=? 1)%nat then retA tt else
   gm <- get gameMode ;;
   let h1 := pop h in
   let h2 := match gm with
             | pve => if (1 <? length h1)%nat then pop h1 else h1
             | pvp => h1
             end in
   setHistory h2 ;;;
   match list.last h2 with
   | Some state =>
       setGameBoard (eboard state) ;;;
       setGameTurn (eturn state) ;;;
       setGameOver false ;;;
       setSelected None ;;;
       setLastMove (elastMove state) ;;;
       reloadBoard ;;;
       updateStatus
   | None => retA tt
   end)%A.

(** [this.game = new XiangqiLogic()]: new pieces, a new board. *)
Definition newLogic : A unit :=
  fun a =>
    match initBoard (Game (objs a) [] red false) with
    | Some (_, g, _) =>
        Some (tt, Build (pieces g) (boards a ++ [board g]) (length (boards a))
                        red false
                        (selectedPiece a) (gameMode a) (playerColor a) (aiColor a)
                        (difficulty a) (isAiThinking a) (lastMove a)
                        (history a) (posted a))
    | None => None
    end.

Definition restart : A unit :=
  (newLogic ;;;
   setSelected None ;;;
   setLastMove None ;;;
   setThinking false ;;;
   setHistory [] ;;;
   saveHistory ;;;
   reloadBoard ;;;
   updateStatus)%A.

(** The constructor, on a store with no object yet. *)
Definition start : option app :=
  match (newLogic ;;; saveHistory ;;; reloadBoard ;;; updateStatus)%A
          (Build [] [] 0 red false None pve red black 3 false None [] []) with
  | Some (_, a) => Some a
  | None => None
  end.

(** ** Moves *)

Definition endGame : A unit :=
  (setGameOver true ;;; updateStatus ;;; reloadBoard)%A.

Definition triggerAi : A unit :=
  (setThinking true ;;;
   updateStatus ;;;
   g <- get gameOf ;;
   d <- get difficulty ;;
   post (Request (pieces g) (board g) (turn g) d))%A.

Definition attemptMove (piece : nat) (targetR targetC : Z) : A attempt :=
  (ok <- ask (isValidMove (Some piece) targetR targetC) ;;
   if ok then
     pc <- ask (deref piece) ;;
     originalPiece <- ask (rd (row pc) (col pc)) ;;
     targetContent <- ask (rd targetR targetC) ;;
     onGame (wr (row pc) (col pc) None) ;;;
     onGame (wr targetR targetC (Some piece)) ;;;
     let oldR := row pc in
     let oldC := col pc in
     onGame (setPos piece targetR targetC) ;;;
     facing <- ask kingsFacing ;;
     if facing then
       onGame (setPos piece oldR oldC) ;;;
       onGame (wr oldR oldC originalPiece) ;;;
       onGame (wr targetR targetC targetContent) ;;;
       retA FlyingGeneral
     else
       setSelected None ;;;
       setLastMove (Some ((oldR, oldC), (targetR, targetC))) ;;;
       won <- ask (isKingCell targetContent) ;;
       if won then endGame ;;; retA KingTaken
       else
         t <- get turn_ ;;
         setGameTurn (opponent t) ;;;
         ask isCheckNow ;;;
         saveHistory ;;;
         reloadBoard ;;;
         updateStatus ;;;
         gm <- get gameMode ;;
         t' <- get turn_ ;;
         ai <- get aiColor ;;
         over <- get over_ ;;
         (match gm with
          | pve => if side_eqb t' ai && negb over then triggerAi else retA tt
          | pvp => retA tt
          end) ;;;
         retA Played
   else retA NotValid)%A.

(** What [handleAiMove] did with the message. *)
Inductive reply := NoMove | NoPiece | AiWon | AiPlayed.

(** [handleAiMove(bestMove)]; the message is [None] for an object without
    [from], as the empty object the worker posts when it has no move. *)
Definition handleAiMove (bestMove : option (ix * ix)) : A reply :=
  (setThinking false ;;;
   match bestMove with
   | None => retA NoMove
   | Some (from, to) =>
       piece <- ask (rd from.1 from.2) ;;
       target <- ask (rd to.1 to.2) ;;
       match piece with
       | None => retA NoPiece
       | Some p =>
           onGame (wr from.1 from.2 None) ;;;
           onGame (wr to.1 to.2 (Some p)) ;;;
           onGame (setPos p to.1 to.2) ;;;
           setLastMove (Some (from, to)) ;;;
           won <- ask (isKingCell target) ;;
           if won then endGame ;;; retA AiWon
           else
             pl <- get playerColor ;;
             setGameTurn pl ;;;
             ask isCheckNow ;;;
             saveHistory ;;;
             reloadBoard ;;;
             updateStatus ;;;
             retA AiPlayed
       end
   end)%A.

(** What a click did. *)
Inductive click := Ignored | Selected | Attempted (o : attempt).

Definition handlePieceClick (r c : Z) : A click :=
  (over <- get over_ ;;
   thinking <- get isAiThinking ;;
   if over || thinking then retA Ignored else
   clickedPiece <- ask (rd r c) ;;
   gm <- get gameMode ;;
   t <- get turn_ ;;
   pl <- get playerColor ;;
   if (match gm with pve => negb (side_eqb t pl) | pvp => false end)
   then retA Ignored else
   own <- ask (sameColor clickedPiece t) ;;
   if own then
     setSelected clickedPiece ;;;
     reloadBoard ;;;
     retA Selected
   else
     sel <- get selectedPiece ;;
     match sel with
     | Some p => o <- attemptMove p r c ;; retA (Attempted o)
     | None => retA Ignored
     end)%A.

(** [handleBoardClick], from the point where the row and the column of
    the click have been computed. *)
Definition handleBoardClick (r c : Z) : A click :=
  (over <- get over_ ;;
   sel <- get selectedPiece ;;
   thinking <- get isAiThinking ;;
   match sel with
   | None => retA Ignored
   | Some p =>
       if over || thinking then retA Ignored else
       gm <- get gameMode ;;
       t <- get turn_ ;;
       pl <- get playerColor ;;
       if (match gm with pve => negb (side_eqb t pl) | pvp => false end)
       then retA Ignored else
       if inGrid (r, c) then o <- attemptMove p r c ;; retA (Attempted o)
       else retA Ignored
   end)%A.

End App.

(** ** Vocabulary for the application *)

(** The king [isCheck] ends its first loop with, on the game as a value. *)
Fixpoint rowKing (g : game) (s : side) (r : Z) (cols : list Z) (k : option ix)
  : option ix :=
  match cols with
  | [] => k
  | c :: rest =>
      if isKingOf g s (r, c) then Some (r, c) else rowKing g s r rest k
  end.

Definition foundKing (g : game) (s : side) : option ix :=
  foldl (fun k r => rowKing g s r (seqZ 0 9) k) None (seqZ 0 10).

(** The piece on cell [i] is of side [s] and its rule lets it move to [k]. *)
Definition attacks (g : game) (s : side) (k i : ix) : bool :=
  match pieceAt g i with
  | Some px => side_eqb (color px) s && ruleOf g px k
  | None => false
  end.

(** Side [s] has a piece on the board. *)
Definition hasPiece (g : game) (s : side) : Prop :=
  exists i px, inGrid i = true /\ pieceAt g i = Some px /\ color px = s.

(** The references held by the cells of a board. *)
Definition refsOf (b : list (list cell)) : list nat :=
  rw ← b; omap id rw.

(** Cell [v'] of a copy made of cell [v]: both empty, or [v'] holds an
    object allocated for the copy ([ps] is the store before, [ps'] after)
    with the fields of the object [v] holds. *)
Definition cloned (ps ps' : list piece) (v v' : cell) : Prop :=
  match v, v' with
  | None, None => True
  | Some p, Some q =>
      (length ps <= q < length ps')%nat /\ ps' !! q = ps !! p /\ is_Some (ps !! p)
  | _, _ => False
  end.

(** The board of the game is an object of the store. *)
Definition validApp (a : App.app) : Prop :=
  (App.board_ a < length (App.boards a))%nat.

(** The state a method leaves, for examples ([a] itself if it raises). *)
Definition afterA {X} (m : App.A X) (a : App.app) : App.app :=
  match m a with
  | Some (_, a') => a'
  | None => a
  end.

(** The application once constructed. *)
Definition startApp : App.app :=
  match App.start with
  | Some a => a
  | None => App.Build [] [] 0 red false None App.pve red black 3 false None [] []
  end.

(** The contents of a board object of the store: for each cell the fields
    of the piece it holds. *)
Definition contentsOf (a : App.app) (b : nat) (i : ix) : option piece :=
  pieceAt (Game (App.objs a) (default [] (App.boards a !! b)) red false) i.

(** The entries [undo] leaves in the history: one is removed, and in the
    mode against the computer a second one when more than one is left. *)
Definition remaining (gm : App.mode) (h : list App.entry) : list App.entry :=
  match gm with
  | App.pve =>
      if (1 <? length (removelast h))%nat then removelast (removelast h)
      else removelast h
  | App.pvp => removelast h
  end.

(** The controller once [undo] has gone back to the entry [e]. *)
Definition restored (a : App.app) (e : App.entry) : App.app :=
  App.Build (App.objs a) (App.boards a) (App.eboard e) (App.eturn e) false
            None (App.gameMode a) (App.playerColor a) (App.aiColor a)
            (App.difficulty a) (App.isAiThinking a) (App.elastMove e)
            (remaining (App.gameMode a) (App.history a)) (App.posted a).

(** The controller after an attempt that was carried out and did not take
    a king: [g'] is the game the move left, [b] the board stored in the
    history with its objects [fresh]. *)
Definition triggers (a : App.app) (g' : game) : bool :=
  match App.gameMode a with
  | App.pve => side_eqb (turn g') (App.aiColor a) && negb (gameOver g')
  | App.pvp => false
  end.

Definition playedApp (a : App.app) (g' : game) (src dst : ix)
    (b : list (list cell)) (fresh : list piece) : App.app :=
  App.Build (pieces g' ++ fresh)
            (<[App.board_ a := board g']> (App.boards a) ++ [b])
            (App.board_ a) (turn g') (gameOver g') None
            (App.gameMode a) (App.playerColor a) (App.aiColor a)
            (App.difficulty a)
            (if triggers a g' then true else App.isAiThinking a)
            (Some (src, dst))
            (App.history a
               ++ [App.Entry (length (App.boards a)) (turn g') (Some (src, dst))])
            (if triggers a g'
             then App.posted a
                    ++ [App.Request (pieces g' ++ fresh) (board g') (turn g')
                                    (App.difficulty a)]
             else App.posted a).

(** The controller after an attempt that took a king. *)
Definition wonApp (a : App.app) (g' : game) (src dst : ix) : App.app :=
  App.Build (pieces g') (<[App.board_ a := board g']> (App.boards a))
            (App.board_ a) (turn g') (gameOver g') None
            (App.gameMode a) (App.playerColor a) (App.aiColor a)
            (App.difficulty a) (App.isAiThinking a) (Some (src, dst))
            (App.history a) (App.posted a).

(** Side [s] has a king on the board. *)
Definition hasKing (g : game) (s : side) : Prop := exists k, kingAt g s k.

(** The controller after [saveHistory]: [b] is the board stored in the new
    entry, [fresh] the objects allocated for it. *)
Definition savedApp (a : App.app) (b : list (list cell)) (fresh : list piece)
  : App.app :=
  App.Build (App.objs a ++ fresh) (App.boards a ++ [b]) (App.board_ a)
            (App.turn_ a) (App.over_ a) (App.selectedPiece a) (App.gameMode a)
            (App.playerColor a) (App.aiColor a) (App.difficulty a)
            (App.isAiThinking a) (App.lastMove a)
            (App.history a
               ++ [App.Entry (length (App.boards a)) (App.turn_ a) (App.lastMove a)])
            (App.posted a).

(** The controller once the computer is no longer thinking. *)
Definition idleApp (a : App.app) : App.app :=
  App.Build (App.objs a) (App.boards a) (App.board_ a) (App.turn_ a)
            (App.over_ a) (App.selectedPiece a) (App.gameMode a)
            (App.playerColor a) (App.aiColor a) (App.difficulty a) false
            (App.lastMove a) (App.history a) (App.posted a).

(** The controller after [handleAiMove] has carried out the move [mv] of
    the message and the game goes on: [g3] is the game with the piece
    moved, [b] the board stored in the history with its objects [fresh]. *)
Definition repliedApp (a : App.app) (g3 : game) (mv : ix * ix)
    (b : list (list cell)) (fresh : list piece) : App.app :=
  App.Build (pieces g3 ++ fresh)
            (<[App.board_ a := board g3]> (App.boards a) ++ [b])
            (App.board_ a) (App.playerColor a) (App.over_ a)
            (App.selectedPiece a) (App.gameMode a) (App.playerColor a)
            (App.aiColor a) (App.difficulty a) false (Some mv)
            (App.history a
               ++ [App.Entry (length (App.boards a)) (App.playerColor a) (Some mv)])
            (App.posted a).

(** The controller after [handleAiMove] has taken a king. *)
Definition aiWonApp (a : App.app) (g3 : game) (mv : ix * ix) : App.app :=
  App.Build (pieces g3) (<[App.board_ a := board g3]> (App.boards a))
            (App.board_ a) (App.turn_ a) true
            (App.selectedPiece a) (App.gameMode a) (App.playerColor a)
            (App.aiColor a) (App.difficulty a) false (Some mv)
            (App.history a) (App.posted a).

(** The application after the player has advanced the pawn of the left
    edge: the computer is thinking. *)
Definition pawnPlayed : App.app := afterA (App.attemptMove 27 5 0) startApp.

(** The same after the computer has answered with the pawn of its own left
    edge. *)
Definition afterOneRound : App.app :=
  afterA (App.handleAiMove (Some ((3, 0), (4, 0)))) pawnPlayed.

(** One round taken back, the same round played again on the position
    [undo] went back to (the pawn of the left edge is now the object 48),
    and [undo] once more. *)
Definition undone : App.app := afterA App.undo afterOneRound.

Definition pawnReplayed : App.app := afterA (App.attemptMove 48 5 0) undone.

Definition replayed : App.app :=
  afterA (App.handleAiMove (Some ((3, 0), (4, 0)))) pawnReplayed.

Definition undoneAgain : App.app := afterA App.undo replayed.

(** The message [triggerAi] sends: the board of the game with the objects
    it refers to, the turn, the depth chosen. *)
Definition requestOf (a : App.app) : App.request :=
  App.Request (App.objs a) (board (App.gameOf a)) (App.turn_ a)
              (App.difficulty a).

(** The controller after [triggerAi]. *)
Definition thinkingApp (a : App.app) : App.app :=
  App.Build (App.objs a) (App.boards a) (App.board_ a) (App.turn_ a)
            (App.over_ a) (App.selectedPiece a) (App.gameMode a)
            (App.playerColor a) (App.aiColor a) (App.difficulty a) true
            (App.lastMove a) (App.history a)
            (App.posted a ++ [requestOf a]).

(** The game of the worker once the board of a request has been assigned
    to it: its own [new XiangqiLogic()], never over.  The turn it holds at
    that point is overwritten by the handler before any use. *)
Definition workerGame (req : App.request) : game :=
  Game (App.rpieces req) (App.rboard req) red false.

(** The position [g0] set up in a store that already holds the objects
    [ps]: the same objects after them, every reference moved past them. *)
Definition shiftCell (n : nat) (v : cell) : cell :=
  match v with
  | Some p => Some (n + p)%nat
  | None => None
  end.

Definition shiftBoard (n : nat) (b : list (list cell)) : list (list cell) :=
  map (map (shiftCell n)) b.

Definition rebased (ps : list piece) (g0 : game) : game :=
  Game (ps ++ pieces g0) (shiftBoard (length ps) (board g0))
       (turn g0) (gameOver g0).

(** [m] does in a store that already holds objects what it does in an
    empty one. *)
Definition simulates {X} (m : M X) : Prop :=
  forall ps g0,
    m (rebased ps g0)
    = match m g0 with
      | Some (x, g0', l) => Some (x, rebased ps g0', l)
      | None => None
      end.

(** The controller when [restart] is about to call [saveHistory]: a new
    game whose objects and board have been added to the store, nothing
    selected, no last move, the computer not thinking, an empty history. *)
Definition freshApp (a : App.app) : App.app :=
  App.Build (App.objs a ++ pieces openingGame)
            (App.boards a
               ++ [shiftBoard (length (App.objs a)) (board openingGame)])
            (length (App.boards a)) red false None
            (App.gameMode a) (App.playerColor a) (App.aiColor a)
            (App.difficulty a) false None [] (App.posted a).

(** ** Vocabulary for the order of the searches *)

(** The indices the search of depth [d] uses on the board of [g], in
    program order. *)
Definition searchLog (s : side) (g : game) (d : nat) : list ix :=
  match minimax d NegInf PosInf true s g with
  | Some (_, _, l) => l
  | None => []
  end.

(** The same for the search of the modular worker. *)
Definition modularSearchLog (s : side) (g : game) (d : nat) : list ix :=
  match Modular.minimax d NegInf PosInf true s g with
  | Some (_, _, l) => l
  | None => []
  end.

(** Whenever [m] returns, the first index it used on the board is [i]. *)
Definition firstRead {X} (m : M X) (i : ix) : Prop :=
  forall g x g' l, m g = Some (x, g', l) -> exists l', l = i :: l'.

(** A controller that holds the game [g] and nothing else: one board
    object, no history, nothing selected, the computer not thinking. *)
Definition appOf (g : game) : App.app :=
  App.Build (pieces g) [board g] 0 (turn g) (gameOver g) None
            App.pve red black 3 false None [] [].
(** * Reasoning about runs *)

Section Rules.
Context {A B : Type}.

Lemma reads_ret (a : A) g : reads (retQ a) g a.
Proof. exists []. split; [reflexivity | constructor]. Qed.

Lemma reads_bind (m : Q A) (f : A -> Q B) g a b :
  reads m g a -> reads (f a) g b -> reads (bindQ m f) g b.
Proof.
  intros (l1 & E1 & H1) (l2 & E2 & H2). exists (l1 ++ l2).
  unfold bindQ. rewrite E1, E2. split; [reflexivity|].
  apply Forall_app; auto.
Qed.

Lemma reads_bind_inv (m : Q A) (f : A -> Q B) g b :
  reads (bindQ m f) g b -> exists a, reads m g a /\ reads (f a) g b.
Proof.
  intros (l & E & H). unfold bindQ in E.
  destruct (m g) as [[a l1]|] eqn:E1; [|discriminate].
  destruct (f a g) as [[b' l2]|] eqn:E2; [|discriminate].
  injection E as <- <-. apply Forall_app in H as [H1 H2].
  exists a. split; [exists l1 | exists l2]; auto.
Qed.

Lemma reads_det (q : Q A) g a a' : reads q g a -> reads q g a' -> a = a'.
Proof. intros (l & E & _) (l' & E' & _). congruence. Qed.

Lemma reads_valQ (q : Q A) g a : reads q g a -> valQ q g = Some a.
Proof. intros (l & E & _). unfold valQ. rewrite E. reflexivity. Qed.

Lemma runs_ret (a : A) g : runs (retM a) g a g.
Proof. exists []. split; [reflexivity | constructor]. Qed.

Lemma runs_bind (m : M A) (f : A -> M B) g a g1 b g2 :
  runs m g a g1 -> runs (f a) g1 b g2 -> runs (bindM m f) g b g2.
Proof.
  intros (l1 & E1 & H1) (l2 & E2 & H2). exists (l1 ++ l2).
  unfold bindM. rewrite E1, E2. split; [reflexivity|].
  apply Forall_app; auto.
Qed.

Lemma runs_bind_inv (m : M A) (f : A -> M B) g b g2 :
  runs (bindM m f) g b g2 ->
  exists a g1, runs m g a g1 /\ runs (f a) g1 b g2.
Proof.
  intros (l & E & H). unfold bindM in E.
  destruct (m g) as [[[a g1] l1]|] eqn:E1; [|discriminate].
  destruct (f a g1) as [[[b' g2'] l2]|] eqn:E2; [|discriminate].
  injection E as <- <- <-. apply Forall_app in H as [H1 H2].
  exists a, g1. split; [exists l1 | exists l2]; auto.
Qed.

Lemma runs_lift (q : Q A) g a : reads q g a -> runs (liftQ q) g a g.
Proof.
  intros (l & E & H). exists l. unfold liftQ. rewrite E. auto.
Qed.

Lemma runs_lift_inv (q : Q A) g a g' :
  runs (liftQ q) g a g' -> reads q g a /\ g' = g.
Proof.
  intros (l & E & H). unfold liftQ in E.
  destruct (q g) as [[a' l']|] eqn:E1; [|discriminate].
  injection E as <- <- <-. split; [exists l'; auto | reflexivity].
Qed.

Lemma runs_det (m : M A) g a g1 a' g1' :
  runs m g a g1 -> runs m g a' g1' -> a = a' /\ g1 = g1'.
Proof. intros (l & E & _) (l' & E' & _). split; congruence. Qed.
End Rules.

(** A loop whose body keeps an invariant [I] on the accumulator and leaves
    the game as it found it. *)
Lemma foldM_inv {S X} (f : S -> X -> M S) (I : S -> Prop) (P : X -> Prop) g :
  (forall s x, I s -> P x -> exists s', runs (f s x) g s' g /\ I s') ->
  forall l s, Forall P l -> I s ->
  exists s', runs (foldM f l s) g s' g /\ I s'.
Proof.
  intros step l. induction l as [|x l IH]; intros s HP Hs; simpl.
  - exists s. split; [apply runs_ret | assumption].
  - inversion HP as [|? ? Px Pl]; subst.
    destruct (step s x Hs Px) as (s1 & R1 & I1).
    destruct (IH s1 Pl I1) as (s2 & R2 & I2).
    exists s2. split; [|assumption]. eapply runs_bind; eassumption.
Qed.

Lemma foldQ_inv {S X} (f : S -> X -> Q S) (I : S -> Prop) (P : X -> Prop) g :
  (forall s x, I s -> P x -> exists s', reads (f s x) g s' /\ I s') ->
  forall l s, Forall P l -> I s ->
  exists s', reads (foldQ f l s) g s' /\ I s'.
Proof.
  intros step l. induction l as [|x l IH]; intros s HP Hs; simpl.
  - exists s. split; [apply reads_ret | assumption].
  - inversion HP as [|? ? Px Pl]; subst.
    destruct (step s x Hs Px) as (s1 & R1 & I1).
    destruct (IH s1 Pl I1) as (s2 & R2 & I2).
    exists s2. split; [|assumption]. eapply reads_bind; eassumption.
Qed.

(** * Well-formed games *)

Lemma inGrid_spec r c :
  inGrid (r, c) = true <-> 0 <= r < 10 /\ 0 <= c < 9.
Proof. unfold inGrid, BOARD_ROWS, BOARD_COLS; simpl. lia. Qed.

Lemma inGrid_allCells i : inGrid i = true <-> i ∈ allCells.
Proof.
  destruct i as [r c]. rewrite inGrid_spec. unfold allCells.
  rewrite list_elem_of_bind. split.
  - intros [Hr Hc]. exists r. split; [|apply elem_of_seqZ; lia].
    apply list_elem_of_bind. exists c. split; [|apply elem_of_seqZ; lia].
    apply list_elem_of_singleton. reflexivity.
  - intros (r' & H & Hr). apply list_elem_of_bind in H as (c' & H & Hc).
    apply list_elem_of_singleton in H. injection H as -> ->.
    apply elem_of_seqZ in Hr, Hc. lia.
Qed.

Lemma wf_shape g : wf g -> gridShape (board g).
Proof.
  unfold wf, wfb. rewrite !andb_true_iff. intros [[H1 H2] _]. split.
  - apply Nat.eqb_eq in H1. exact H1.
  - intros i rw Hi. rewrite forallb_forall in H2.
    apply Nat.eqb_eq, H2, list_elem_of_In, list_elem_of_lookup. eauto.
Qed.

Lemma getCell_grid b r c :
  gridShape b -> inGrid (r, c) = true ->
  exists rw, b !! Z.to_nat r = Some rw /\ length rw = 9%nat /\
             exists v, rw !! Z.to_nat c = Some v /\ getCell b r c = Some v.
Proof.
  intros [Hlen Hrows] Hin. apply inGrid_spec in Hin as [Hr Hc].
  destruct (lookup_lt_is_Some_2 b (Z.to_nat r)) as [rw Hrw]; [lia|].
  pose proof (Hrows _ _ Hrw) as Hl.
  destruct (lookup_lt_is_Some_2 rw (Z.to_nat c)) as [v Hv]; [lia|].
  exists rw. split; [assumption|]. split; [assumption|].
  exists v. split; [assumption|]. unfold getCell.
  destruct (r <? 0) eqn:E; [lia|]. rewrite Hrw.
  destruct (c <? 0) eqn:E'; [lia|]. rewrite Hv. reflexivity.
Qed.

Lemma occupant_getCell g i :
  gridShape (board g) -> inGrid i = true ->
  getCell (board g) i.1 i.2 = Some (occupant g i).
Proof.
  intros Hs Hin. destruct i as [r c].
  destruct (getCell_grid _ _ _ Hs Hin) as (rw & _ & _ & v & _ & E).
  unfold occupant. simpl in *. rewrite E. reflexivity.
Qed.

(** What well-formedness says about an occupied cell. *)
Lemma wf_occupant g i p :
  wf g -> inGrid i = true -> occupant g i = Some p ->
  exists pc, pieces g !! p = Some pc /\ row pc = i.1 /\ col pc = i.2.
Proof.
  intros Hwf Hin Hocc. pose proof (wf_shape _ Hwf) as Hs.
  pose proof (occupant_getCell _ _ Hs Hin) as E. rewrite Hocc in E.
  unfold wf, wfb in Hwf. rewrite !andb_true_iff in Hwf.
  destruct Hwf as [_ H]. rewrite forallb_forall in H.
  assert (Hc : cellOk g i = true).
  { apply H, list_elem_of_In, inGrid_allCells, Hin. }
  unfold cellOk in Hc. rewrite E in Hc.
  destruct (pieces g !! p) as [pc|]; [|discriminate].
  apply andb_true_iff in Hc as [H1 H2]. exists pc. split; [reflexivity|]. lia.
Qed.

Lemma wf_intro g :
  gridShape (board g) ->
  (forall i p, inGrid i = true -> occupant g i = Some p ->
     exists pc, pieces g !! p = Some pc /\ row pc = i.1 /\ col pc = i.2) ->
  wf g.
Proof.
  intros Hs H. unfold wf, wfb. rewrite !andb_true_iff. repeat split.
  - apply Nat.eqb_eq, Hs.
  - apply forallb_forall. intros rw Hin.
    apply list_elem_of_In, list_elem_of_lookup in Hin as [i Hi].
    apply Nat.eqb_eq. eapply Hs; eassumption.
  - apply forallb_forall. intros i Hin.
    apply list_elem_of_In, inGrid_allCells in Hin.
    pose proof (occupant_getCell _ _ Hs Hin) as E.
    unfold cellOk. rewrite E. destruct (occupant g i) as [p|] eqn:Ho; [|reflexivity].
    destruct (H i p Hin Ho) as (pc & -> & H1 & H2).
    apply andb_true_iff. lia.
Qed.

(** *** The primitive accesses on a well-formed game *)

Lemma rd_reads g r c :
  gridShape (board g) -> inGrid (r, c) = true ->
  reads (rd r c) g (occupant g (r, c)).
Proof.
  intros Hs Hin. exists [(r, c)]. unfold rd.
  pose proof (occupant_getCell g (r, c) Hs Hin) as E. simpl in E.
  rewrite E. split; [reflexivity|].
  constructor; [assumption | constructor].
Qed.

Lemma rd_reads_inv g r c v :
  reads (rd r c) g v -> inGrid (r, c) = true /\ v = occupant g (r, c).
Proof.
  intros (l & E & H). unfold rd in E.
  destruct (getCell (board g) r c) as [v'|] eqn:E'; [|discriminate].
  injection E as <- <-. inversion H; subst. split; [assumption|].
  unfold occupant. simpl. rewrite E'. reflexivity.
Qed.

Lemma deref_reads g p pc : pieces g !! p = Some pc -> reads (deref p) g pc.
Proof.
  intros E. exists []. unfold deref. rewrite E. split; [reflexivity|constructor].
Qed.

Lemma deref_reads_inv g p pc : reads (deref p) g pc -> pieces g !! p = Some pc.
Proof.
  intros (l & E & _). unfold deref in E.
  destruct (pieces g !! p); [|discriminate]. congruence.
Qed.

Lemma reads_bind_ex {A B} (m : Q A) (f : A -> Q B) g a :
  reads m g a -> (exists b, reads (f a) g b) -> exists b, reads (bindQ m f) g b.
Proof. intros H [b Hb]. exists b. eapply reads_bind; eassumption. Qed.

Lemma reads_ret_ex {A} (a : A) g : exists b, reads (retQ a) g b.
Proof. exists a. apply reads_ret. Qed.

(** * Obstruction counting *)

Lemma elem_of_cellsBetween a b i :
  i ∈ cellsBetween a b <->
  (a.1 = b.1 /\ i.1 = a.1 /\ Z.min a.2 b.2 < i.2 < Z.max a.2 b.2) \/
  (a.1 <> b.1 /\ a.2 = b.2 /\ i.2 = a.2 /\ Z.min a.1 b.1 < i.1 < Z.max a.1 b.1).
Proof.
  destruct a as [r1 c1], b as [r2 c2], i as [r c]. unfold cellsBetween. simpl.
  destruct (r1 =? r2) eqn:Er.
  - rewrite list_elem_of_fmap. split.
    + intros (x & E & Hx). injection E as -> ->. apply elem_of_seqZ in Hx. lia.
    + intros [(? & ? & ?)|(? & _)]; [|lia]. exists c. subst.
      split; [reflexivity|]. apply elem_of_seqZ. lia.
  - destruct (c1 =? c2) eqn:Ec.
    + rewrite list_elem_of_fmap. split.
      * intros (x & E & Hx). injection E as -> ->. apply elem_of_seqZ in Hx. lia.
      * intros [(? & _)|(? & ? & ? & ?)]; [lia|]. exists r. subst.
        split; [reflexivity|]. apply elem_of_seqZ. lia.
    + split; [intros H; inversion H | lia].
Qed.

Lemma cellsBetween_inGrid a b :
  inGrid a = true -> inGrid b = true ->
  Forall (fun i => inGrid i = true) (cellsBetween a b).
Proof.
  intros Ha Hb. apply Forall_forall. intros [r c] Hi.
  apply list_elem_of_In, elem_of_cellsBetween in Hi. destruct a as [r1 c1], b as [r2 c2].
  apply inGrid_spec in Ha, Hb. apply inGrid_spec. simpl in *. lia.
Qed.

Lemma countLoop_body_reads g (at_ : Z -> ix) l acc :
  gridShape (board g) ->
  Forall (fun i => inGrid i = true) (at_ <$> l) ->
  reads (foldQ (fun count i =>
                  (v <- rd (at_ i).1 (at_ i).2 ;;
                   retQ (if truthy v then count + 1 else count))%Q) l acc) g
        (acc + Z.of_nat (length (filter (fun i => truthy (occupant g i) = true)
                                        (at_ <$> l)))).
Proof.
  intros Hs. revert acc. induction l as [|x l IH]; intros acc Hin; simpl.
  - rewrite Z.add_0_r. apply reads_ret.
  - rewrite fmap_cons in Hin. inversion Hin as [|? ? Hx Hl]; subst.
    pose proof (rd_reads g (at_ x).1 (at_ x).2 Hs) as Hrd.
    rewrite <- surjective_pairing in Hrd. specialize (Hrd Hx).
    eapply reads_bind.
    { eapply reads_bind; [exact Hrd | apply reads_ret]. }
    specialize (IH (if truthy (occupant g (at_ x)) then acc + 1 else acc) Hl).
    rewrite filter_cons.
    destruct (decide (truthy (occupant g (at_ x)) = true)) as [T|T].
    + rewrite T in IH. rewrite T. cbn [length].
      assert (Hn : forall n, acc + Z.of_nat (S n) = acc + 1 + Z.of_nat n) by lia.
      rewrite Hn. exact IH.
    + destruct (truthy (occupant g (at_ x))); [congruence|]. exact IH.
Qed.

(** [countObstacles] computes that number, reading only cells of the
    grid. *)
Lemma countObstacles_reads g a b :
  gridShape (board g) -> inGrid a = true -> inGrid b = true ->
  reads (countObstacles a.1 a.2 b.1 b.2) g (obstaclesBetween g a b).
Proof.
  intros Hs Ha Hb. pose proof (cellsBetween_inGrid a b Ha Hb) as Hin.
  unfold countObstacles, obstaclesBetween, cellsBetween, countLoop in *.
  destruct (a.1 =? b.1).
  - pose proof (countLoop_body_reads g (fun c => (a.1, c)) _ 0 Hs Hin) as H.
    exact H.
  - destruct (a.2 =? b.2).
    + pose proof (countLoop_body_reads g (fun r => (r, a.2)) _ 0 Hs Hin) as H.
      exact H.
    + apply reads_ret.
Qed.

Lemma obstaclesBetween_nonneg g a b : 0 <= obstaclesBetween g a b.
Proof. unfold obstaclesBetween. lia. Qed.

(** * The move rules on a well-formed game *)

(** Boolean tests of the source, turned into arithmetic facts. *)
Ltac b2p :=
  repeat match goal with
  | H : _ && _ = true |- _ => apply andb_true_iff in H; destruct H
  | H : _ || _ = false |- _ => apply orb_false_iff in H; destruct H
  | H : negb _ = true |- _ => apply negb_true_iff in H
  | H : negb _ = false |- _ => apply negb_false_iff in H
  | H : (_ =? _) = true |- _ => apply Z.eqb_eq in H
  | H : (_ =? _) = false |- _ => apply Z.eqb_neq in H
  | H : (_ <? _) = true |- _ => apply Z.ltb_lt in H
  | H : (_ <? _) = false |- _ => apply Z.ltb_ge in H
  | H : (_ <=? _) = true |- _ => apply Z.leb_le in H
  | H : (_ <=? _) = false |- _ => apply Z.leb_gt in H
  | H : (_ >? _) = true |- _ => rewrite Z.gtb_ltb in H
  | H : (_ >? _) = false |- _ => rewrite Z.gtb_ltb in H
  | H : (_ >=? _) = true |- _ => rewrite Z.geb_leb in H
  | H : (_ >=? _) = false |- _ => rewrite Z.geb_leb in H
  | H : inGrid (_, _) = true |- _ => apply inGrid_spec in H
  end.

Ltac in_grid := b2p; apply inGrid_spec; simpl in *; lia.

Lemma sameColor_reads g t s :
  wf g -> inGrid t = true ->
  reads (sameColor (occupant g t) s) g (ownPiece g t s).
Proof.
  intros Hwf Hin. unfold sameColor, ownPiece.
  destruct (occupant g t) as [q|] eqn:E; [|apply reads_ret].
  destruct (wf_occupant _ _ _ Hwf Hin E) as (qc & Hq & _). rewrite Hq.
  eapply reads_bind; [apply deref_reads; eassumption | apply reads_ret].
Qed.

(** On a well-formed game, for a piece standing on the grid and a target
    on the grid, [isValidMove] returns a boolean and every cell it reads,
    the elephant's eye and the horse's leg included, is on the grid. *)
Lemma isValidMove_total g p pc tr tc :
  wf g -> pieces g !! p = Some pc ->
  inGrid (row pc, col pc) = true -> inGrid (tr, tc) = true ->
  exists b, reads (isValidMove (Some p) tr tc) g b.
Proof.
  intros Hwf Hp Hsrc Htgt. pose proof (wf_shape _ Hwf) as Hs.
  unfold isValidMove.
  eapply reads_bind_ex; [apply deref_reads; eassumption|].
  destruct ((row pc =? tr) && (col pc =? tc)); [apply reads_ret_ex|].
  eapply reads_bind_ex; [apply rd_reads; assumption|].
  eapply reads_bind_ex; [apply (sameColor_reads g (tr, tc)); assumption|].
  destruct (ownPiece g (tr, tc) (color pc)); [apply reads_ret_ex|].
  destruct (type pc); cbv zeta.
  - (* king *)
    repeat match goal with |- context [if ?c then _ else _] => destruct c end;
      apply reads_ret_ex.
  - (* advisor *)
    repeat match goal with |- context [if ?c then _ else _] => destruct c end;
      apply reads_ret_ex.
  - (* elephant *)
    destruct (negb (Z.abs (tr - row pc) =? 2) || negb (Z.abs (tc - col pc) =? 2))
      eqn:E1; [apply reads_ret_ex|].
    destruct (side_eqb (color pc) red && (tr <? 5)); [apply reads_ret_ex|].
    destruct (side_eqb (color pc) black && (tr >? 4)); [apply reads_ret_ex|].
    eapply reads_bind_ex.
    + apply rd_reads; [assumption|]. b2p. apply inGrid_spec.
      assert ((tr - row pc) / 2 = 1 /\ tr - row pc = 2 \/
              (tr - row pc) / 2 = -1 /\ tr - row pc = -2) as Hr.
      { assert (tr - row pc = 2 \/ tr - row pc = -2) as [->| ->] by lia;
          [left | right]; split; reflexivity. }
      assert ((tc - col pc) / 2 = 1 /\ tc - col pc = 2 \/
              (tc - col pc) / 2 = -1 /\ tc - col pc = -2) as Hc.
      { assert (tc - col pc = 2 \/ tc - col pc = -2) as [->| ->] by lia;
          [left | right]; split; reflexivity. }
      lia.
    + match goal with |- context [if ?c then _ else _] => destruct c end;
        apply reads_ret_ex.
  - (* horse *)
    destruct (negb ((Z.abs (tr - row pc) =? 2) && (Z.abs (tc - col pc) =? 1)
                    || (Z.abs (tr - row pc) =? 1) && (Z.abs (tc - col pc) =? 2)))
      eqn:E1; [apply reads_ret_ex|].
    apply negb_false_iff, orb_true_iff in E1.
    destruct (Z.abs (tr - row pc) =? 2) eqn:E2.
    + eapply reads_bind_ex.
      * apply rd_reads; [assumption|].
        destruct (tr - row pc >? 0) eqn:E3; in_grid.
      * match goal with |- context [if ?c then _ else _] => destruct c end;
          apply reads_ret_ex.
    + eapply reads_bind_ex.
      * apply rd_reads; [assumption|].
        destruct E1 as [E1|E1]; [apply andb_true_iff in E1 as [E1 _]; congruence|].
        destruct (tc - col pc >? 0) eqn:E3; in_grid.
      * match goal with |- context [if ?c then _ else _] => destruct c end;
          apply reads_ret_ex.
  - (* rook *)
    destruct ((Z.abs (tr - row pc) >? 0) && (Z.abs (tc - col pc) >? 0));
      [apply reads_ret_ex|].
    eapply reads_bind_ex; [|apply reads_ret_ex].
    apply (countObstacles_reads g (row pc, col pc) (tr, tc)); assumption.
  - (* cannon *)
    destruct ((Z.abs (tr - row pc) >? 0) && (Z.abs (tc - col pc) >? 0));
      [apply reads_ret_ex|].
    eapply reads_bind_ex.
    + apply (countObstacles_reads g (row pc, col pc) (tr, tc)); assumption.
    + destruct (truthy (occupant g (tr, tc))); apply reads_ret_ex.
  - (* pawn *)
    destruct (color pc);
      repeat match goal with |- context [if ?c then _ else _] => destruct c end;
      apply reads_ret_ex.
Qed.

(** A move to the cell the piece stands on is never valid. *)
Lemma isValidMove_true_ne g p pc tr tc :
  pieces g !! p = Some pc -> reads (isValidMove (Some p) tr tc) g true ->
  (row pc, col pc) <> (tr, tc).
Proof.
  intros Hp H. unfold isValidMove in H.
  apply reads_bind_inv in H as (pc' & Hd & H).
  apply deref_reads_inv in Hd. rewrite Hp in Hd. injection Hd as <-.
  destruct ((row pc =? tr) && (col pc =? tc)) eqn:E.
  - destruct H as (l & E' & _). discriminate.
  - intros Eq. injection Eq as E1 E2. rewrite E1, E2, !Z.eqb_refl in E.
    discriminate.
Qed.

(** The cannon case of [isValidMove], for a target other than the cannon's
    own cell. *)
Lemma isValidMove_cannon g p pc t :
  wf g -> pieces g !! p = Some pc -> type pc = cannon ->
  inGrid (row pc, col pc) = true -> inGrid t = true ->
  (row pc, col pc) <> t ->
  reads (isValidMove (Some p) t.1 t.2) g
        (if ownPiece g t (color pc) then false
         else if (row pc =? t.1) || (col pc =? t.2) then
           if truthy (occupant g t)
           then obstaclesBetween g (row pc, col pc) t =? 1
           else obstaclesBetween g (row pc, col pc) t =? 0
         else false).
Proof.
  intros Hwf Hp Hk Hsrc Htgt Hne. pose proof (wf_shape _ Hwf) as Hs.
  destruct t as [tr tc]. simpl fst. simpl snd. unfold isValidMove.
  eapply reads_bind; [apply deref_reads; eassumption|].
  destruct ((row pc =? tr) && (col pc =? tc)) eqn:E0.
  { b2p. congruence. }
  eapply reads_bind; [apply rd_reads; assumption|].
  eapply reads_bind; [apply (sameColor_reads g (tr, tc)); assumption|].
  destruct (ownPiece g (tr, tc) (color pc)); [apply reads_ret|].
  rewrite Hk. cbv zeta.
  destruct ((Z.abs (tr - row pc) >? 0) && (Z.abs (tc - col pc) >? 0)) eqn:E1.
  - replace ((row pc =? tr) || (col pc =? tc)) with false; [apply reads_ret|].
    symmetry. apply orb_false_iff. b2p. split; apply Z.eqb_neq; lia.
  - replace ((row pc =? tr) || (col pc =? tc)) with true.
    + eapply reads_bind.
      * apply (countObstacles_reads g (row pc, col pc) (tr, tc)); assumption.
      * destruct (truthy (occupant g (tr, tc))); apply reads_ret.
    + symmetry. apply orb_true_iff. apply andb_false_iff in E1.
      destruct E1 as [E1|E1]; rewrite Z.gtb_ltb in E1; apply Z.ltb_ge in E1;
        [left | right]; apply Z.eqb_eq; lia.
Qed.

Lemma obstaclesBetween_self g a : obstaclesBetween g a a = 0.
Proof.
  unfold obstaclesBetween, cellsBetween. rewrite Z.eqb_refl.
  rewrite Z.min_id, Z.max_id.
  replace (a.2 - (a.2 + 1)) with (-1) by lia. reflexivity.
Qed.

(** * Evaluation *)

Lemma foldQ_sum {X} (f : Z -> X -> Q Z) (h : X -> Z) (P : X -> Prop) g :
  (forall acc x, P x -> reads (f acc x) g (acc + h x)) ->
  forall l acc, Forall P l -> reads (foldQ f l acc) g (acc + sumZ h l).
Proof.
  intros step l. induction l as [|x l IH]; intros acc HP; simpl.
  - rewrite Z.add_0_r. apply reads_ret.
  - inversion HP as [|? ? Px Pl]; subst.
    eapply reads_bind; [apply step; assumption|].
    rewrite Z.add_assoc. apply IH. assumption.
Qed.

Lemma sumZ_opp {X} (h k : X -> Z) l :
  (forall x, k x = - h x) -> sumZ k l = - sumZ h l.
Proof.
  intros E. induction l as [|x l IH]; simpl; [reflexivity|].
  rewrite E, IH. lia.
Qed.

Lemma evalCell_reads s g score r c :
  wf g -> inGrid (r, c) = true ->
  reads (evalCell s score r c) g (score + contribution s g (r, c)).
Proof.
  intros Hwf Hin. pose proof (wf_shape _ Hwf) as Hs.
  unfold evalCell, contribution.
  eapply reads_bind; [apply rd_reads; assumption|].
  destruct (occupant g (r, c)) as [x|] eqn:E.
  - destruct (wf_occupant _ _ _ Hwf Hin E) as (px & Hx & _). rewrite Hx.
    eapply reads_bind; [apply deref_reads; eassumption|]. cbv zeta. simpl.
    destruct (side_eqb (color px) s); apply reads_ret.
  - rewrite Z.add_0_r. apply reads_ret.
Qed.

(** [evaluateBoard] returns the sum of the contributions. *)
Lemma evaluateBoard_reads s g :
  wf g -> reads (evaluateBoard s) g (boardScore s g).
Proof.
  intros Hwf. unfold evaluateBoard, boardScore.
  apply (foldQ_sum _ _ (fun r => 0 <= r < 10) g) with (acc := 0).
  - intros acc r Hr.
    apply (foldQ_sum _ _ (fun c => 0 <= c < 9) g).
    + intros acc' c Hc. apply evalCell_reads; [assumption|].
      apply inGrid_spec. lia.
    + apply Forall_seqZ. intros; lia.
  - apply Forall_seqZ. intros; lia.
Qed.

Lemma contribution_opp g i : contribution black g i = - contribution red g i.
Proof.
  unfold contribution. destruct (occupant g i) as [x|]; [|reflexivity].
  destruct (pieces g !! x) as [px|]; [|reflexivity].
  destruct (color px); simpl; lia.
Qed.


(** * Assignments to the board *)

Lemma setCell_grid b i v :
  gridShape b -> inGrid i = true ->
  exists rw, b !! Z.to_nat i.1 = Some rw /\
             setCell b i.1 i.2 v = Some (<[Z.to_nat i.1 := <[Z.to_nat i.2 := v]> rw]> b).
Proof.
  intros Hs Hin. destruct i as [r c].
  destruct (getCell_grid _ _ _ Hs Hin) as (rw & Hrw & Hl & _).
  apply inGrid_spec in Hin. exists rw. split; [exact Hrw|]. simpl.
  unfold setCell. destruct (r <? 0) eqn:E; [lia|]. rewrite Hrw.
  destruct (c <? 0) eqn:E'; [lia|]. unfold jsSet.
  destruct (Z.to_nat c <? length rw)%nat eqn:E''; [reflexivity|].
  apply Nat.ltb_ge in E''. lia.
Qed.

Lemma setAt_shape b i v : gridShape b -> inGrid i = true -> gridShape (setAt b i v).
Proof.
  intros Hs Hin. destruct (setCell_grid b i v Hs Hin) as (rw & Hrw & E).
  unfold setAt. rewrite E. destruct Hs as [Hlen Hrows]. split.
  - rewrite length_insert. exact Hlen.
  - intros j rw' Hj.
    destruct (decide (Z.to_nat i.1 = j)) as [<-|Hne].
    + rewrite list_lookup_insert_eq in Hj by (apply lookup_lt_Some in Hrw; lia).
      injection Hj as <-. rewrite length_insert. eapply Hrows; eassumption.
    + rewrite list_lookup_insert_ne in Hj by assumption. eapply Hrows; eassumption.
Qed.

Lemma getCell_setAt b i j v :
  gridShape b -> inGrid i = true -> inGrid j = true ->
  getCell (setAt b i v) j.1 j.2 = if decide (i = j) then Some v else getCell b j.1 j.2.
Proof.
  intros Hs Hi Hj. destruct (setCell_grid b i v Hs Hi) as (rw & Hrw & E).
  unfold setAt. rewrite E.
  destruct i as [r c], j as [r' c']. simpl in *.
  pose proof Hi as Hi'. pose proof Hj as Hj'.
  apply inGrid_spec in Hi', Hj'.
  destruct (getCell_grid _ _ _ Hs Hj) as (rw' & Hrw' & Hl' & v' & Hv' & E').
  pose proof (proj2 Hs _ _ Hrw) as Hl.
  unfold getCell at 1. destruct (r' <? 0) eqn:E1; [lia|].
  destruct (c' <? 0) eqn:E2; [lia|].
  destruct (decide (Z.to_nat r = Z.to_nat r')) as [Er|Er].
  - assert (r = r') by lia. subst r'. rewrite Hrw in Hrw'. injection Hrw' as <-.
    rewrite list_lookup_insert_eq by (apply lookup_lt_Some in Hrw; lia).
    destruct (decide (Z.to_nat c = Z.to_nat c')) as [Ec|Ec].
    + assert (c = c') by lia. subst c'.
      rewrite list_lookup_insert_eq by lia. simpl.
      destruct (decide ((r, c) = (r, c))); [reflexivity | congruence].
    + rewrite list_lookup_insert_ne by assumption. rewrite Hv'. simpl.
      destruct (decide ((r, c) = (r, c'))) as [Eq|_]; [|congruence].
      injection Eq as <-. congruence.
  - rewrite list_lookup_insert_ne by assumption. rewrite Hrw', Hv'. simpl.
    destruct (decide ((r, c) = (r', c'))) as [Eq|_]; [|congruence].
    injection Eq as <- <-. congruence.
Qed.

(** Two 10x9 boards that agree on every cell are equal. *)
Lemma board_ext b1 b2 :
  gridShape b1 -> gridShape b2 ->
  (forall j, inGrid j = true -> getCell b1 j.1 j.2 = getCell b2 j.1 j.2) ->
  b1 = b2.
Proof.
  intros H1 H2 Hget. apply list_eq. intros r.
  destruct (decide (r < 10)%nat) as [Hr|Hr].
  - destruct (lookup_lt_is_Some_2 b1 r) as [rw1 E1]; [destruct H1; lia|].
    destruct (lookup_lt_is_Some_2 b2 r) as [rw2 E2]; [destruct H2; lia|].
    rewrite E1, E2. f_equal. apply list_eq. intros c.
    pose proof (proj2 H1 _ _ E1) as L1. pose proof (proj2 H2 _ _ E2) as L2.
    destruct (decide (c < 9)%nat) as [Hc|Hc].
    + assert (Hin : inGrid (Z.of_nat r, Z.of_nat c) = true) by (apply inGrid_spec; lia).
      specialize (Hget _ Hin). simpl in Hget. unfold getCell in Hget.
      destruct (Z.of_nat r <? 0) eqn:E; [lia|].
      destruct (Z.of_nat c <? 0) eqn:E'; [lia|].
      rewrite !Nat2Z.id, E1, E2 in Hget.
      destruct (lookup_lt_is_Some_2 rw1 c) as [v1 V1]; [lia|].
      destruct (lookup_lt_is_Some_2 rw2 c) as [v2 V2]; [lia|].
      rewrite V1, V2 in *. simpl in Hget. congruence.
    + rewrite !lookup_ge_None_2 by lia. reflexivity.
  - destruct H1, H2. rewrite !lookup_ge_None_2 by lia. reflexivity.
Qed.

Lemma occupant_setAt g b i j v :
  gridShape b -> inGrid i = true -> inGrid j = true ->
  occupant (withBoard g (setAt b i v)) j =
  if decide (i = j) then v else default None (getCell b j.1 j.2).
Proof.
  intros Hs Hi Hj. unfold occupant. simpl.
  rewrite getCell_setAt by assumption. destruct (decide (i = j)); reflexivity.
Qed.

Lemma wr_runs g r c v :
  gridShape (board g) -> inGrid (r, c) = true ->
  runs (wr r c v) g tt (withBoard g (setAt (board g) (r, c) v)).
Proof.
  intros Hs Hin. destruct (setCell_grid (board g) (r, c) v Hs Hin) as (rw & _ & E).
  exists [(r, c)]. unfold wr, setAt, withBoard. simpl in *. rewrite E.
  split; [reflexivity|]. constructor; [assumption | constructor].
Qed.

Lemma setPos_runs g p pc r c :
  pieces g !! p = Some pc ->
  runs (setPos p r c) g tt (withPieces g (<[p := placedAt pc (r, c)]> (pieces g))).
Proof.
  intros E. exists []. unfold setPos. rewrite E.
  split; [reflexivity | constructor].
Qed.

Lemma game_eta g : Game (pieces g) (board g) (turn g) (gameOver g) = g.
Proof. destruct g; reflexivity. Qed.

Lemma piece_eta pc : Piece (color pc) (type pc) (row pc) (col pc) = pc.
Proof. destruct pc; reflexivity. Qed.

(** * Flying generals on a well-formed game *)

Lemma foldQ_pure {S X} (f : S -> X -> Q S) (h : S -> X -> S) (P : X -> Prop) g :
  (forall s x, P x -> reads (f s x) g (h s x)) ->
  forall l s, Forall P l -> reads (foldQ f l s) g (foldl h s l).
Proof.
  intros step l. induction l as [|x l IH]; intros s HP; simpl.
  - apply reads_ret.
  - inversion HP as [|? ? Px Pl]; subst.
    eapply reads_bind; [apply step; assumption | apply IH; assumption].
Qed.

Lemma foldl_row {S} (h : S -> ix -> S) (r : Z) (cols : list Z) s :
  foldl h s (c ← cols; [(r, c)]) = foldl (fun s c => h s (r, c)) s cols.
Proof.
  revert s. induction cols as [|c cols IH]; intros s; [reflexivity|].
  cbn [mbind list_bind]. simpl. apply IH.
Qed.

Lemma foldl_cells {S} (h : S -> ix -> S) (rows cols : list Z) s :
  foldl h s (r ← rows; c ← cols; [(r, c)]) =
  foldl (fun s r => foldl (fun s c => h s (r, c)) s cols) s rows.
Proof.
  revert s. induction rows as [|r rows IH]; intros s; [reflexivity|].
  cbn [mbind list_bind]. rewrite foldl_app, IH, foldl_row. reflexivity.
Qed.

Lemma kingScan_reads g ks r c :
  wf g -> inGrid (r, c) = true ->
  reads (kingScan ks r c) g (noteKing g ks (r, c)).
Proof.
  intros Hwf Hin. pose proof (wf_shape _ Hwf) as Hs.
  unfold kingScan, noteKing.
  eapply reads_bind; [apply rd_reads; assumption|].
  destruct (occupant g (r, c)) as [x|] eqn:E; [|apply reads_ret].
  destruct (wf_occupant _ _ _ Hwf Hin E) as (px & Hx & _). rewrite Hx.
  eapply reads_bind; [apply deref_reads; eassumption|].
  destruct (is_king (type px)); [|apply reads_ret].
  destruct (color px); apply reads_ret.
Qed.

Lemma palaceColumns_inGrid i : i ∈ palaceColumns -> inGrid i = true.
Proof.
  unfold palaceColumns. intros H.
  apply list_elem_of_bind in H as (r & H & Hr).
  apply list_elem_of_bind in H as (c & H & Hc).
  apply list_elem_of_singleton in H. subst i.
  apply elem_of_seqZ in Hr, Hc. apply inGrid_spec. lia.
Qed.

(** Whatever the scan remembers is a cell of columns 3 to 5. *)
Lemma foldl_noteKing_inv g (P : ix -> Prop) l ks :
  (forall i, i ∈ l -> P i) ->
  (forall i, ks.1 = Some i -> P i) -> (forall i, ks.2 = Some i -> P i) ->
  (forall i, (foldl (noteKing g) ks l).1 = Some i -> P i) /\
  (forall i, (foldl (noteKing g) ks l).2 = Some i -> P i).
Proof.
  revert ks. induction l as [|x l IH]; intros ks Hl H1 H2; simpl; [auto|].
  apply IH.
  - intros i Hi. apply Hl. right. exact Hi.
  - unfold noteKing. intros i.
    destruct (occupant g x); [|apply H1].
    destruct (pieces g !! n); [|apply H1].
    destruct (is_king (type p)); [|apply H1].
    destruct (color p); simpl; [|apply H1].
    intros [= <-]. apply Hl. left.
  - unfold noteKing. intros i.
    destruct (occupant g x); [|apply H2].
    destruct (pieces g !! n); [|apply H2].
    destruct (is_king (type p)); [|apply H2].
    destruct (color p); simpl; [apply H2|].
    intros [= <-]. apply Hl. left.
Qed.

Lemma kingsFound_inGrid g :
  (forall i, (kingsFound g).1 = Some i -> inGrid i = true) /\
  (forall i, (kingsFound g).2 = Some i -> inGrid i = true).
Proof.
  apply foldl_noteKing_inv; simpl; try discriminate.
  apply palaceColumns_inGrid.
Qed.

(** [kingsFacing] returns [facingOf] of the scanned pair, reading only
    cells of the grid. *)
Lemma kingsFacing_reads g :
  wf g -> reads kingsFacing g (facingOf g (kingsFound g)).
Proof.
  intros Hwf. pose proof (wf_shape _ Hwf) as Hs. unfold kingsFacing.
  apply reads_bind with (a := kingsFound g).
  - unfold kingsFound, palaceColumns. rewrite foldl_cells.
    apply (foldQ_pure _ _ (fun r => 0 <= r < 10) g).
    + intros ks r Hr.
      apply (foldQ_pure _ (fun ks c => noteKing g ks (r, c))
                        (fun c => 3 <= c < 6) g).
      * intros ks' c Hc. apply kingScan_reads; [assumption|].
        apply inGrid_spec. lia.
      * apply Forall_seqZ. intros; lia.
    + apply Forall_seqZ. intros; lia.
  - destruct (kingsFound_inGrid g) as [H1 H2].
    destruct (kingsFound g) as [[rK|] [bK|]]; simpl in *; try apply reads_ret.
    destruct (rK.2 =? bK.2); [|apply reads_ret]. simpl.
    eapply reads_bind.
    + apply countObstacles_reads; auto.
    + destruct (obstaclesBetween g rK bK =? 0); apply reads_ret.
Qed.

(** * Simulating a move and taking it back *)

Lemma runs_eq {A} (m : M A) g a g1 g2 : runs m g a g1 -> g1 = g2 -> runs m g a g2.
Proof. intros H <-. exact H. Qed.

(** A piece on the board carries the coordinates of its cell. *)
Lemma piece_at_src g p pc src :
  wf g -> inGrid src = true -> occupant g src = Some p ->
  pieces g !! p = Some pc -> (row pc, col pc) = src.
Proof.
  intros Hwf Hsrc Hocc Hp.
  destruct (wf_occupant _ _ _ Hwf Hsrc Hocc) as (pc' & Hp' & Hr & Hc).
  rewrite Hp in Hp'. injection Hp' as <-. destruct src as [r c].
  simpl in Hr, Hc. congruence.
Qed.

(** No other cell refers to a piece whose coordinates are [src]. *)
Lemma other_cell_other_piece g p pc src j q :
  wf g -> pieces g !! p = Some pc -> (row pc, col pc) = src ->
  inGrid j = true -> src <> j -> occupant g j = Some q -> q <> p.
Proof.
  intros Hwf Hp Hpos Hj Hsj Hq ->.
  pose proof (piece_at_src _ _ _ _ Hwf Hj Hq Hp) as E2.
  congruence.
Qed.

Section Moved.
Variables (g : game) (p : pid) (pc : piece) (src dst : ix).
Hypothesis Hwf : wf g.
Hypothesis Hsrc : inGrid src = true.
Hypothesis Hdst : inGrid dst = true.
Hypothesis Hp : pieces g !! p = Some pc.
Hypothesis Hpos : (row pc, col pc) = src.

Lemma moved_shape : gridShape (board (moved g p pc src dst)).
Proof.
  simpl. apply setAt_shape; [|assumption].
  apply setAt_shape; [apply wf_shape|]; assumption.
Qed.

Lemma occupant_moved j :
  inGrid j = true ->
  occupant (moved g p pc src dst) j =
  if decide (dst = j) then Some p
  else if decide (src = j) then None else occupant g j.
Proof.
  intros Hj. pose proof (wf_shape _ Hwf) as Hs. unfold occupant. simpl.
  rewrite getCell_setAt; [|apply setAt_shape|..]; try assumption.
  destruct (decide (dst = j)); [reflexivity|].
  rewrite getCell_setAt by assumption.
  destruct (decide (src = j)); reflexivity.
Qed.

Lemma pieces_moved_other q :
  q <> p -> pieces (moved g p pc src dst) !! q = pieces g !! q.
Proof. intros Hq. simpl. apply list_lookup_insert_ne. congruence. Qed.

Lemma pieces_moved_self :
  pieces (moved g p pc src dst) !! p = Some (placedAt pc dst).
Proof.
  simpl. apply list_lookup_insert_eq. eapply lookup_lt_Some. exact Hp.
Qed.

(** The game after the move is well formed again. *)
Lemma wf_moved : wf (moved g p pc src dst).
Proof.
  apply wf_intro; [apply moved_shape|]. intros j q Hj Hq.
  rewrite occupant_moved in Hq by assumption.
  destruct (decide (dst = j)) as [<-|Hdj].
  - injection Hq as <-. exists (placedAt pc dst).
    split; [apply pieces_moved_self | split; reflexivity].
  - destruct (decide (src = j)) as [|Hsj]; [discriminate|].
    rewrite pieces_moved_other
      by (eapply (other_cell_other_piece g p pc src); eassumption).
    eapply wf_occupant; eassumption.
Qed.

(** Taking the move back, field by field. *)
Lemma unplace_pieces :
  <[p := placedAt (placedAt pc dst) src]> (pieces (moved g p pc src dst)) = pieces g.
Proof.
  simpl. rewrite list_insert_insert_eq. apply list_insert_id.
  rewrite Hp. f_equal. unfold placedAt. simpl.
  rewrite <- Hpos. simpl. symmetry. apply piece_eta.
Qed.

Lemma restore_board x orig captured :
  orig = occupant g src -> captured = occupant g dst ->
  setAt (setAt (setAt (setAt (board g) src None) dst x) src orig) dst captured
  = board g.
Proof.
  intros -> ->. pose proof (wf_shape _ Hwf) as Hs.
  assert (H1 : gridShape (setAt (board g) src None)) by (apply setAt_shape; assumption).
  assert (H2 : gridShape (setAt (setAt (board g) src None) dst x))
    by (apply setAt_shape; assumption).
  assert (H3 : gridShape (setAt (setAt (setAt (board g) src None) dst x) src
                                (occupant g src)))
    by (apply setAt_shape; assumption).
  apply board_ext; [apply setAt_shape; assumption | assumption |].
  intros j Hj. rewrite !getCell_setAt by assumption.
  destruct (decide (dst = j)) as [<-|Hdj].
  - symmetry. apply occupant_getCell; assumption.
  - destruct (decide (src = j)) as [<-|Hsj]; [|reflexivity].
    symmetry. apply occupant_getCell; assumption.
Qed.
End Moved.

(** * Move generation on a well-formed game *)

Lemma jsOr_value k d : jsOr (PIECE_VALUES k) d = PIECE_VALUES k.
Proof. destruct k; reflexivity. Qed.

(** One destination: the game is handed back as it was found, and the move
    list grows by at most one accepted move. *)
Lemma tryDestination_runs g s p pc src moves dest :
  wf g -> inGrid src = true -> inGrid dest = true ->
  occupant g src = Some p -> pieces g !! p = Some pc -> color pc = s ->
  exists moves',
    runs (tryDestination p moves dest) g moves' g /\
    (moves' = moves \/ exists mv, moves' = moves ++ [mv] /\ accepted g s mv).
Proof.
  intros Hwf Hsrc Hdst Hocc Hp Hcol.
  pose proof (wf_shape _ Hwf) as Hs.
  pose proof (piece_at_src g p pc src Hwf Hsrc Hocc Hp) as Epos.
  destruct dest as [tr tc].
  destruct (isValidMove_total g p pc tr tc Hwf Hp) as [ok Hok];
    [rewrite Epos; assumption | assumption |].
  unfold tryDestination. cbv zeta. simpl fst. simpl snd.
  destruct ok.
  2: { exists moves. split; [|left; reflexivity].
       eapply runs_bind; [apply runs_lift; exact Hok | apply runs_ret]. }
  assert (Hne : src <> (tr, tc)).
  { rewrite <- Epos. eapply isValidMove_true_ne; eassumption. }
  pose proof (wf_moved g p pc src (tr, tc) Hwf Hsrc Hdst Hp Epos) as Hwf3.
  pose proof (kingsFacing_reads _ Hwf3) as Hkf.
  pose proof (moved_shape g p pc src (tr, tc) Hwf Hsrc Hdst) as Hs3.
  assert (Hscore :
            reads (match occupant g (tr, tc) with
                   | Some x => (cx <- deref x ;;
                                retQ (jsOr (PIECE_VALUES (type cx)) 0))%Q
                   | None => retQ 0
                   end) (moved g p pc src (tr, tc)) (captureScore g (tr, tc))).
  { unfold captureScore. destruct (occupant g (tr, tc)) as [x|] eqn:Ex;
      [|apply reads_ret].
    destruct (wf_occupant _ _ _ Hwf Hdst Ex) as (cx & Hx & _). rewrite Hx.
    eapply reads_bind.
    - apply deref_reads. rewrite pieces_moved_other; [exact Hx|].
      eapply (other_cell_other_piece g p pc src); eassumption.
    - rewrite jsOr_value. apply reads_ret. }
  assert (Hback : forall ms : list move,
    runs (setPos p (row pc) (col pc) ;;;
          wr (row pc) (col pc) (Some p) ;;;
          wr tr tc (occupant g (tr, tc)) ;;; retM ms)%M
         (moved g p pc src (tr, tc)) ms g).
  { intros ms. eapply runs_eq.
    - eapply runs_bind.
      { apply setPos_runs. apply pieces_moved_self. exact Hp. }
      eapply runs_bind.
      { apply wr_runs; [exact Hs3 | rewrite Epos; exact Hsrc]. }
      eapply runs_bind; [|apply runs_ret].
      apply wr_runs; [|exact Hdst]. simpl.
      apply setAt_shape; [exact Hs3 | rewrite Epos; exact Hsrc].
    - unfold withBoard, withPieces. cbn [pieces board turn gameOver moved].
      rewrite Epos.
      pose proof (unplace_pieces g p pc src (tr, tc) Hp Epos) as Eps.
      cbn [pieces moved] in Eps. rewrite Eps.
      rewrite (restore_board g src (tr, tc) Hwf Hsrc Hdst) by (congruence || reflexivity).
      apply game_eta. }
  destruct (facingOf (moved g p pc src (tr, tc))
                     (kingsFound (moved g p pc src (tr, tc)))) eqn:Ef.
  - exists moves. split; [|left; reflexivity].
    eapply runs_bind; [apply runs_lift; exact Hok|]. cbv beta iota.
    eapply runs_bind; [apply runs_lift, rd_reads; assumption|].
    eapply runs_bind; [apply runs_lift, deref_reads; exact Hp|].
    eapply runs_bind; [apply wr_runs; [exact Hs | rewrite Epos; exact Hsrc]|].
    eapply runs_bind.
    { apply wr_runs; [|exact Hdst]. simpl.
      apply setAt_shape; [exact Hs | rewrite Epos; exact Hsrc]. }
    eapply runs_bind; [apply setPos_runs; simpl; exact Hp|].
    rewrite Epos.
    eapply runs_bind; [apply runs_lift; exact Hkf|]. cbv beta iota.
    eapply runs_bind; [apply runs_ret|]. apply Hback.
  - exists (moves ++ [Move src (tr, tc) (captureScore g (tr, tc))]). split.
    + eapply runs_bind; [apply runs_lift; exact Hok|]. cbv beta iota.
      eapply runs_bind; [apply runs_lift, rd_reads; assumption|].
      eapply runs_bind; [apply runs_lift, deref_reads; exact Hp|].
      eapply runs_bind; [apply wr_runs; [exact Hs | rewrite Epos; exact Hsrc]|].
      eapply runs_bind.
      { apply wr_runs; [|exact Hdst]. simpl.
        apply setAt_shape; [exact Hs | rewrite Epos; exact Hsrc]. }
      eapply runs_bind; [apply setPos_runs; simpl; exact Hp|].
      rewrite Epos.
      eapply runs_bind; [apply runs_lift; exact Hkf|]. cbv beta iota.
      eapply runs_bind.
      { eapply runs_bind; [apply runs_lift; exact Hscore | apply runs_ret]. }
      apply Hback.
    + right. eexists. split; [reflexivity|].
      exists p, pc. simpl. repeat split; assumption.
Qed.

(** Every candidate destination of a piece standing on the grid is on the
    grid. *)
Lemma getPossibleDestinations_inGrid pc :
  inGrid (row pc, col pc) = true ->
  Forall (fun d => inGrid d = true) (getPossibleDestinations pc).
Proof.
  intros Hin. apply inGrid_spec in Hin. unfold getPossibleDestinations.
  apply Forall_forall. intros d Hd. apply list_elem_of_In in Hd.
  destruct (type pc);
    try (apply list_elem_of_filter in Hd as [Hd _]; exact Hd).
  - apply list_elem_of_bind in Hd as (i & Hd & _).
    apply list_elem_of_bind in Hd as (j & Hd & _).
    destruct (inGrid (i, j)) eqn:E; [|inversion Hd].
    apply list_elem_of_singleton in Hd. congruence.
  - apply list_elem_of_bind in Hd as (i & Hd & _).
    apply list_elem_of_bind in Hd as (j & Hd & _).
    destruct (inGrid (i, j)) eqn:E; [|inversion Hd].
    apply list_elem_of_singleton in Hd. congruence.
  - apply elem_of_app in Hd as [Hd|Hd];
      apply list_elem_of_bind in Hd as (i & Hd & Hi);
      apply elem_of_seqZ in Hi;
      (destruct (i =? _); [inversion Hd|]);
      apply list_elem_of_singleton in Hd; subst d; apply inGrid_spec; lia.
  - apply elem_of_app in Hd as [Hd|Hd];
      apply list_elem_of_bind in Hd as (i & Hd & Hi);
      apply elem_of_seqZ in Hi;
      (destruct (i =? _); [inversion Hd|]);
      apply list_elem_of_singleton in Hd; subst d; apply inGrid_spec; lia.
Qed.

Lemma scanCell_runs g s moves r c :
  wf g -> inGrid (r, c) = true -> Forall (accepted g s) moves ->
  exists moves', runs (scanCell s moves r c) g moves' g /\
                 Forall (accepted g s) moves'.
Proof.
  intros Hwf Hin Hacc. pose proof (wf_shape _ Hwf) as Hs. unfold scanCell.
  destruct (occupant g (r, c)) as [x|] eqn:Ex.
  2: { exists moves. split; [|assumption].
       eapply runs_bind; [apply runs_lift, rd_reads; assumption|].
       rewrite Ex. apply runs_ret. }
  destruct (wf_occupant _ _ _ Hwf Hin Ex) as (px & Hx & Hr & Hc).
  simpl in Hr, Hc.
  destruct (side_eqb (color px) s) eqn:Es.
  2: { exists moves. split; [|assumption].
       eapply runs_bind; [apply runs_lift, rd_reads; assumption|].
       rewrite Ex.
       eapply runs_bind; [apply runs_lift, deref_reads; eassumption|].
       rewrite Es. apply runs_ret. }
  assert (Hcol : color px = s) by (destruct (color px), s; simpl in Es; congruence).
  destruct (foldM_inv (tryDestination x) (Forall (accepted g s))
              (fun d => inGrid d = true) g) with
    (l := getPossibleDestinations px) (s := moves) as (moves' & Hrun & Hacc').
  - intros ms d Hms Hd.
    destruct (tryDestination_runs g s x px (r, c) ms d Hwf Hin Hd Ex Hx Hcol)
      as (ms' & Hrun & [->|(mv & -> & Hmv)]).
    + exists ms. split; assumption.
    + exists (ms ++ [mv]). split; [assumption|].
      apply Forall_app. split; [assumption|]. constructor; [assumption|constructor].
  - apply getPossibleDestinations_inGrid. rewrite Hr, Hc. exact Hin.
  - assumption.
  - exists moves'. split; [|assumption].
    eapply runs_bind; [apply runs_lift, rd_reads; assumption|].
    rewrite Ex.
    eapply runs_bind; [apply runs_lift, deref_reads; eassumption|].
    rewrite Es. exact Hrun.
Qed.

(** The stable insertion sort keeps the moves it is given. *)
Lemma insertMove_elem m l x : x ∈ insertMove m l <-> x = m \/ x ∈ l.
Proof.
  induction l as [|y l IH]; simpl.
  - rewrite list_elem_of_singleton. split; [auto | intros [|H]; [auto|inversion H]].
  - destruct (score y - score m <=? 0).
    + rewrite elem_of_cons. reflexivity.
    + rewrite !elem_of_cons, IH. tauto.
Qed.

Lemma sortMoves_elem l x : x ∈ sortMoves l <-> x ∈ l.
Proof.
  induction l as [|y l IH]; simpl; [reflexivity|].
  rewrite insertMove_elem, elem_of_cons, IH. reflexivity.
Qed.

(** [generateLegalMoves] hands the game back unchanged and returns, sorted,
    a list of accepted moves; every index it uses is on the grid. *)
Lemma generateLegalMoves_runs g s :
  wf g ->
  exists ms, runs (generateLegalMoves s) g (sortMoves ms) g /\
             Forall (accepted g s) ms.
Proof.
  intros Hwf. unfold generateLegalMoves.
  destruct (foldM_inv
              (fun moves r => foldM (fun moves c => scanCell s moves r c)
                                    (seqZ 0 9) moves)
              (Forall (accepted g s)) (fun r => 0 <= r < 10) g)
    with (l := seqZ 0 10) (s := @nil move) as (ms & Hrun & Hacc).
  - intros ms r Hms Hr.
    apply (foldM_inv (fun moves c => scanCell s moves r c)
                     (Forall (accepted g s)) (fun c => 0 <= c < 9) g).
    + intros ms' c Hms' Hc. apply scanCell_runs; [assumption| |assumption].
      apply inGrid_spec. lia.
    + apply Forall_seqZ. intros; lia.
    + assumption.
  - apply Forall_seqZ. intros; lia.
  - constructor.
  - exists ms. split; [|assumption].
    eapply runs_bind; [exact Hrun | apply runs_ret].
Qed.

(** * The make and undo protocols of the search *)

Lemma makeMove_runs g mv p pc :
  wf g -> inGrid (from mv) = true -> inGrid (to mv) = true ->
  occupant g (from mv) = Some p -> pieces g !! p = Some pc ->
  runs (makeMove mv) g (Some p, occupant g (to mv))
       (moved g p pc (from mv) (to mv)).
Proof.
  intros Hwf Hsrc Hdst Hocc Hp. pose proof (wf_shape _ Hwf) as Hs.
  unfold makeMove. destruct mv as [[fr fc] [tr tc] sc]. simpl in *.
  eapply runs_bind; [apply runs_lift, rd_reads; assumption|]. rewrite Hocc.
  eapply runs_bind; [apply runs_lift, rd_reads; assumption|].
  eapply runs_bind; [apply wr_runs; assumption|].
  eapply runs_bind.
  { apply wr_runs; [|exact Hdst]. simpl. apply setAt_shape; assumption. }
  eapply runs_bind; [apply setPos_runs; simpl; exact Hp|].
  apply runs_ret.
Qed.

Lemma undoMove_runs g mv p pc :
  wf g -> inGrid (from mv) = true -> inGrid (to mv) = true ->
  occupant g (from mv) = Some p -> pieces g !! p = Some pc ->
  runs (undoMove mv (Some p) (occupant g (to mv)))
       (moved g p pc (from mv) (to mv)) tt g.
Proof.
  intros Hwf Hsrc Hdst Hocc Hp. pose proof (wf_shape _ Hwf) as Hs.
  pose proof (moved_shape g p pc _ _ Hwf Hsrc Hdst) as Hs3.
  pose proof (piece_at_src _ _ _ _ Hwf Hsrc Hocc Hp) as Epos.
  unfold undoMove. destruct mv as [[fr fc] [tr tc] sc]. simpl in *.
  eapply runs_eq.
  - eapply runs_bind.
    { apply setPos_runs. apply pieces_moved_self. exact Hp. }
    eapply runs_bind; [apply wr_runs; [exact Hs3 | exact Hsrc]|].
    apply wr_runs; [|exact Hdst]. simpl. apply setAt_shape; assumption.
  - unfold withBoard, withPieces. cbn [pieces board turn gameOver moved].
    pose proof (unplace_pieces g p pc (fr, fc) (tr, tc) Hp Epos) as Eps.
    cbn [pieces moved] in Eps. rewrite Eps.
    rewrite (restore_board g (fr, fc) (tr, tc) Hwf Hsrc Hdst)
      by (first [reflexivity | symmetry; exact Hocc]).
    apply game_eta.
Qed.

(** * Reachable positions are well formed *)

Lemma wf_flags g s o : wf g -> wf (Game (pieces g) (board g) s o).
Proof. intros H. exact H. Qed.

Lemma wf_copy g g' : wf g -> copyOf g g' -> wf g'.
Proof.
  intros Hwf [Hs Hc]. apply wf_intro; [assumption|]. intros i p' Hi Hp'.
  specialize (Hc i Hi). rewrite Hp' in Hc.
  destruct (occupant g i) as [p|] eqn:Ep; [|contradiction].
  destruct Hc as (pc & Hpc & Hpc').
  destruct (wf_occupant _ _ _ Hwf Hi Ep) as (pc0 & E0 & Hr & Hcl).
  rewrite Hpc in E0. injection E0 as <-.
  exists pc. split; [assumption|]. split; assumption.
Qed.

Lemma reachable_wf g : reachable g -> wf g.
Proof.
  induction 1.
  - vm_compute. reflexivity.
  - apply wf_moved; try assumption. eapply piece_at_src; eassumption.
  - apply wf_flags. assumption.
  - eapply wf_copy; eassumption.
Qed.

(** * Sorting *)

Lemma insertMove_sorted m l :
  StronglySorted byScoreDesc l -> StronglySorted byScoreDesc (insertMove m l).
Proof.
  induction 1 as [|y l Hl IH Hy]; simpl.
  - repeat constructor.
  - destruct (score y - score m <=? 0) eqn:E.
    + constructor; [constructor; assumption|].
      constructor; [unfold byScoreDesc; lia|].
      apply Forall_forall. intros x Hx. rewrite Forall_forall in Hy.
      specialize (Hy x Hx). unfold byScoreDesc in *. lia.
    + constructor; [exact IH|].
      apply Forall_forall. intros x Hx.
      apply list_elem_of_In, insertMove_elem in Hx as [->|Hx].
      * unfold byScoreDesc. lia.
      * rewrite Forall_forall in Hy. apply Hy, list_elem_of_In, Hx.
Qed.

Lemma sortMoves_sorted l : StronglySorted byScoreDesc (sortMoves l).
Proof.
  induction l as [|m l IH]; simpl; [constructor|].
  apply insertMove_sorted. exact IH.
Qed.

(** * Statements about the move generator *)

Lemma accepted_simulated g s mv :
  wf g -> accepted g s mv ->
  exists p pc,
    occupant g (from mv) = Some p /\ pieces g !! p = Some pc /\
    from mv <> to mv /\
    runs (makeMove mv) g (Some p, occupant g (to mv))
         (moved g p pc (from mv) (to mv)) /\
    reads kingsFacing (moved g p pc (from mv) (to mv)) false /\
    runs (undoMove mv (Some p) (occupant g (to mv)))
         (moved g p pc (from mv) (to mv)) tt g.
Proof.
  intros Hwf (p & pc & Hsrc & Hdst & Hocc & Hp & _ & Hok & Hkf & _).
  exists p, pc. repeat split; try assumption.
  - rewrite <- (piece_at_src g p pc (from mv)) by assumption.
    rewrite (surjective_pairing (to mv)).
    eapply isValidMove_true_ne; eassumption.
  - apply makeMove_runs; assumption.
  - apply undoMove_runs; assumption.
Qed.


(** * What the scan of [kingsFacing] finds *)

Lemma noteKing_pick g s ks i :
  pick s (noteKing g ks i) = if isKingOf g s i then Some i else pick s ks.
Proof.
  unfold noteKing, isKingOf.
  destruct (occupant g i) as [x|]; [|reflexivity].
  destruct (pieces g !! x) as [px|]; [|reflexivity].
  destruct (is_king (type px)); [|reflexivity].
  destruct (color px), s; reflexivity.
Qed.

(** Whatever the scan ends with for side [s] is either a king of [s] it
    met, or what it started with. *)
Lemma scan_sound g s l ks a :
  pick s (foldl (noteKing g) ks l) = Some a ->
  (a ∈ l /\ isKingOf g s a = true) \/ pick s ks = Some a.
Proof.
  revert ks. induction l as [|x l IH]; intros ks H; simpl in H; [right; exact H|].
  destruct (IH _ H) as [[Hin Hk]|H'].
  - left. split; [right; exact Hin | exact Hk].
  - rewrite noteKing_pick in H'. destruct (isKingOf g s x) eqn:E.
    + injection H' as <-. left. split; [left | exact E].
    + right. exact H'.
Qed.

(** If the scan meets a king of [s], it ends with one. *)
Lemma scan_complete g s l ks x :
  x ∈ l -> isKingOf g s x = true ->
  exists a, pick s (foldl (noteKing g) ks l) = Some a /\
            a ∈ l /\ isKingOf g s a = true.
Proof.
  revert x ks. induction l as [|y l IH]; intros x ks Hin Hk; [inversion Hin|].
  simpl. destruct (decide (Exists (fun z => isKingOf g s z = true) l)) as [Hex|Hno].
  - apply Exists_exists in Hex as (z & Hz & Hkz).
    destruct (IH z (noteKing g ks y) (proj2 (list_elem_of_In _ _) Hz) Hkz)
      as (a & Ha & Hal & Hak).
    exists a. split; [exact Ha|]. split; [right; exact Hal | exact Hak].
  - assert (Hy : x = y).
    { apply elem_of_cons in Hin as [->|Hin]; [reflexivity|].
      exfalso. apply Hno. apply Exists_exists. exists x.
      split; [apply list_elem_of_In; exact Hin | exact Hk]. }
    subst y. exists x. split; [|split; [left | exact Hk]].
    destruct (pick s (foldl (noteKing g) (noteKing g ks x) l)) as [a|] eqn:E.
    + destruct (scan_sound _ _ _ _ _ E) as [[Hal Hak]|H'].
      * exfalso. apply Hno. apply Exists_exists. exists a.
        split; [apply list_elem_of_In; exact Hal | exact Hak].
      * rewrite noteKing_pick, Hk in H'. symmetry. exact H'.
    + exfalso. clear -E Hk.
      assert (Hsome : forall l ks, is_Some (pick s ks) ->
                                   is_Some (pick s (foldl (noteKing g) ks l))).
      { clear. induction l as [|z l IH]; intros ks Hs; simpl; [exact Hs|].
        apply IH. rewrite noteKing_pick.
        destruct (isKingOf g s z); [eexists; reflexivity | exact Hs]. }
      specialize (Hsome l (noteKing g ks x)). rewrite noteKing_pick, Hk in Hsome.
      rewrite E in Hsome. destruct Hsome as [? Hs]; [eexists; reflexivity|].
      discriminate.
Qed.

Lemma elem_of_palaceColumns i :
  i ∈ palaceColumns <-> inGrid i = true /\ 3 <= i.2 <= 5.
Proof.
  destruct i as [r c]. rewrite inGrid_spec. cbn [fst snd].
  unfold palaceColumns. split.
  - intros H. apply list_elem_of_bind in H as (r' & H & Hr).
    apply list_elem_of_bind in H as (c' & H & Hc).
    apply list_elem_of_singleton in H. injection H as -> ->.
    apply elem_of_seqZ in Hr, Hc. lia.
  - intros [[Hr Hc] Hc']. apply list_elem_of_bind. exists r.
    split; [|apply elem_of_seqZ; lia].
    apply list_elem_of_bind. exists c. split; [|apply elem_of_seqZ; lia].
    apply list_elem_of_singleton. reflexivity.
Qed.

Lemma kingsFound_sound g s a :
  pick s (kingsFound g) = Some a -> kingAt g s a /\ 3 <= a.2 <= 5.
Proof.
  unfold kingsFound. intros H.
  destruct (scan_sound g s palaceColumns (None, None) a H) as [[Hin Hk]|H'].
  - apply elem_of_palaceColumns in Hin as [Hg Hc]. repeat split; assumption || lia.
  - destruct s; discriminate H'.
Qed.

Lemma kingsFound_complete g s a :
  kingAt g s a -> 3 <= a.2 <= 5 ->
  (forall b, kingAt g s b -> 3 <= b.2 <= 5 -> b = a) ->
  pick s (kingsFound g) = Some a.
Proof.
  unfold kingsFound. intros [Hg Hk] Hc Huniq.
  destruct (scan_complete g s palaceColumns (None, None) a) as (b & Hb & Hin & Hkb).
  - apply elem_of_palaceColumns. split; assumption.
  - exact Hk.
  - apply elem_of_palaceColumns in Hin as [Hgb Hcb].
    rewrite <- (Huniq b); [exact Hb | split; assumption | exact Hcb].
Qed.

Lemma kingsConfined_spec g s a :
  kingsConfined g = true -> kingAt g s a -> 3 <= a.2 <= 5.
Proof.
  unfold kingsConfined. rewrite forallb_forall. intros H [Hg Hk].
  apply inGrid_allCells, list_elem_of_In, H in Hg.
  replace (isKingOf g red a || isKingOf g black a) with true in Hg
    by (destruct s; rewrite Hk; [reflexivity | symmetry; apply orb_true_r]).
  simpl in Hg. apply andb_true_iff in Hg. lia.
Qed.

Lemma oneKingPerSide_spec g s a b :
  oneKingPerSide g = true -> kingAt g s a -> kingAt g s b -> a = b.
Proof.
  unfold oneKingPerSide. rewrite forallb_forall. intros H [Hga Hka] [Hgb Hkb].
  assert (Hs : In s [red; black]) by (destruct s; simpl; auto).
  apply H, Nat.leb_le in Hs.
  assert (Ha : a ∈ filter (fun a => isKingOf g s a = true) allCells).
  { apply list_elem_of_filter. split; [exact Hka | apply inGrid_allCells, Hga]. }
  assert (Hb : b ∈ filter (fun a => isKingOf g s a = true) allCells).
  { apply list_elem_of_filter. split; [exact Hkb | apply inGrid_allCells, Hgb]. }
  destruct (filter (fun a => isKingOf g s a = true) allCells) as [|x [|y l]].
  - inversion Ha.
  - apply list_elem_of_singleton in Ha, Hb. congruence.
  - simpl in Hs. lia.
Qed.


(** * The player's move *)

Lemma reads_of_val {A} (q : Q A) g a :
  (exists b, reads q g b) -> valQ q g = Some a -> reads q g a.
Proof.
  intros [b Hb] Hv. rewrite (reads_valQ _ _ _ Hb) in Hv. congruence.
Qed.

(** Taking a simulated move back: the coordinates of the piece, what the
    source cell held, what the destination cell held. *)
Lemma takeBack_runs {A} g p pc src dst orig captured (res : A) :
  wf g -> pieces g !! p = Some pc -> (row pc, col pc) = src ->
  inGrid src = true -> inGrid dst = true ->
  orig = occupant g src -> captured = occupant g dst ->
  runs (setPos p src.1 src.2 ;;; wr src.1 src.2 orig ;;;
        wr dst.1 dst.2 captured ;;; retM res)%M
       (moved g p pc src dst) res g.
Proof.
  intros Hwf Hp Hpos Hsrc Hdst Ho Hc. pose proof (wf_shape _ Hwf) as Hs.
  pose proof (moved_shape g p pc src dst Hwf Hsrc Hdst) as Hs3.
  destruct src as [sr sc], dst as [tr tc]. cbn [fst snd].
  eapply runs_eq.
  - eapply runs_bind.
    { apply setPos_runs. apply pieces_moved_self. exact Hp. }
    eapply runs_bind; [apply wr_runs; [exact Hs3 | exact Hsrc]|].
    eapply runs_bind; [|apply runs_ret].
    apply wr_runs; [|exact Hdst]. simpl. apply setAt_shape; assumption.
  - unfold withBoard, withPieces. cbn [pieces board turn gameOver moved].
    pose proof (unplace_pieces g p pc (sr, sc) (tr, tc) Hp Hpos) as Eps.
    cbn [pieces moved] in Eps. rewrite Eps.
    rewrite (restore_board g (sr, sc) (tr, tc) Hwf Hsrc Hdst) by assumption.
    apply game_eta.
Qed.


(** * Alpha-beta pruning against full minimax *)

(** Case analysis on the numbers of a goal, then linear arithmetic. *)
Ltac num_cases :=
  repeat match goal with x : num |- _ => destruct x end;
  unfold num_leb, num_max, num_min in *;
  repeat (simpl in *;
          match goal with
          | H : context [?a <? ?b] |- _ => destruct (Z.ltb_spec a b)
          | |- context [?a <? ?b] => destruct (Z.ltb_spec a b)
          end);
  simpl in *; try discriminate; try congruence; try lia.

Lemma bounded_refl alpha beta v : bounded alpha beta v v.
Proof. unfold bounded. repeat split; num_cases. Qed.

Lemma agrees_refl alpha beta r : agrees alpha beta r r.
Proof. split; [apply bounded_refl | reflexivity]. Qed.

(** The loop breaks: the child failed high. *)
Lemma max_break alpha beta v e :
  num_ltb alpha beta = true -> num_leb beta (num_max alpha e) = true ->
  bounded alpha beta v e ->
  num_leb beta e = true /\ num_leb e v = true.
Proof.
  unfold bounded. intros H1 H2 (B1 & B2 & B3).
  assert (Hbe : num_leb beta e = true) by (clear B1 B2 B3; num_cases).
  split; [exact Hbe|].
  destruct (num_leb beta v) eqn:E; [apply B3; reflexivity|].
  destruct (num_ltb alpha v) eqn:E'.
  - assert (e = v) by (apply B2; [reflexivity | clear B1 B2 B3; num_cases]).
    subst e. clear B1 B2 B3. num_cases.
  - destruct B1 as [_ B1]; [clear B2 B3; num_cases|].
    clear B2 B3. num_cases.
Qed.

(** The loop goes on: the child failed low or returned its value. *)
Lemma max_continue alpha beta v e :
  num_ltb alpha beta = true -> num_leb beta (num_max alpha e) = false ->
  bounded alpha beta v e ->
  num_ltb (num_max alpha e) beta = true /\
  ((num_leb v alpha = true /\ num_leb v e = true /\ num_leb e alpha = true) \/
   (num_ltb alpha v = true /\ e = v)).
Proof.
  unfold bounded. intros H1 H2 (B1 & B2 & B3).
  split; [clear B1 B2 B3; num_cases|].
  destruct (num_leb v alpha) eqn:E.
  - left. destruct B1 as [B1 B1']; [reflexivity|]. auto.
  - right. split; [clear B1 B2 B3; num_cases|].
    apply B2; [clear B1 B2 B3; num_cases|].
    destruct (num_ltb v beta) eqn:E'; [reflexivity|].
    destruct B3 as [B3 _]; [clear B1 B2; num_cases|].
    clear B1 B2. num_cases.
Qed.

(** One more candidate, the loop going on: the relation is kept. *)
Lemma maxInv_step alpha0 beta acc bestMove maxEval alpha v e mvp :
  maxInv alpha0 beta acc bestMove maxEval alpha ->
  num_ltb (num_max alpha e) beta = true ->
  ((num_leb v alpha = true /\ num_leb v e = true /\ num_leb e alpha = true) \/
   (num_ltb alpha v = true /\ e = v)) ->
  maxInv alpha0 beta
         (if num_ltb (rscore acc) v then Result (Some mvp) v else acc)
         (if num_ltb maxEval e then Some mvp else bestMove)
         (if num_ltb maxEval e then e else maxEval)
         (num_max alpha e).
Proof.
  destruct acc as [bF mF]. unfold maxInv. cbn [rscore best].
  intros (Ha & Hlt & Hex & Hlow) Hlt' Hcase. subst alpha.
  split; [|split; [exact Hlt'|]].
  { clear Hex Hlow Hcase. num_cases. }
  destruct (num_ltb alpha0 mF) eqn:E0.
  - destruct Hex as [-> ->]; [reflexivity|]. clear Hlow.
    destruct Hcase as [(C1 & C2 & C3)|(C1 & ->)].
    + replace (num_ltb mF v) with false by (clear -E0 C1; num_cases).
      replace (num_ltb mF e) with false by (clear -E0 C3; num_cases).
      cbn [rscore best]. rewrite E0. split; [auto|].
      intros H. clear -E0 H. num_cases.
    + replace (num_ltb mF v) with true by (clear -E0 C1; num_cases).
      cbn [rscore best]. split; [auto|].
      intros H. clear -E0 C1 H. num_cases.
  - clear Hex. destruct Hlow as [L1 L2]; [clear -E0; num_cases|].
    destruct Hcase as [(C1 & C2 & C3)|(C1 & ->)].
    + assert (Hs : num_leb (rscore (if num_ltb mF v then Result (Some mvp) v
                                    else Result bF mF)) alpha0 = true).
      { destruct (num_ltb mF v); cbn [rscore]; clear -E0 L1 L2 C1; num_cases. }
      split.
      * intros H. exfalso. clear -H Hs.
        destruct (rscore (if num_ltb mF v then Result (Some mvp) v
                          else Result bF mF)); num_cases.
      * intros _. destruct (num_ltb mF v), (num_ltb maxEval e) eqn:Em;
          cbn [rscore]; clear -E0 L1 L2 C1 C2 C3 Em; num_cases.
    + replace (num_ltb mF v) with true by (clear -E0 L1 L2 C1; num_cases).
      replace (num_ltb maxEval v) with true by (clear -E0 L1 L2 C1; num_cases).
      cbn [rscore best]. split; [auto|].
      intros H. clear -E0 L1 L2 C1 H. num_cases.
Qed.

(** The list is exhausted. *)
Lemma maxInv_final alpha0 beta acc bestMove maxEval alpha :
  maxInv alpha0 beta acc bestMove maxEval alpha ->
  agrees alpha0 beta acc (Result bestMove maxEval).
Proof.
  destruct acc as [bF mF]. unfold maxInv, agrees, bounded. cbn [rscore best].
  intros (Ha & Hlt & Hex & Hlow). subst alpha. split; [split; [|split]|].
  - exact Hlow.
  - intros H _. apply Hex. exact H.
  - intros H. destruct Hex as [-> _]; [clear -H Hlt; num_cases|].
    split; [exact H|]. clear. num_cases.
  - intros H _. apply Hex. exact H.
Qed.

(** The loop breaks on a candidate whose value the full search will not
    fall below. *)
Lemma maxInv_break alpha0 beta acc bestMove maxEval alpha e v full bm :
  maxInv alpha0 beta acc bestMove maxEval alpha ->
  num_leb beta e = true -> num_leb e v = true ->
  num_leb v (rscore full) = true ->
  agrees alpha0 beta full
         (Result bm (if num_ltb maxEval e then e else maxEval)).
Proof.
  destruct acc as [bF mF], full as [bG mG]. unfold maxInv, agrees, bounded.
  cbn [rscore best]. intros (Ha & Hlt & _ & _) H1 H2 H3. subst alpha.
  replace (num_ltb maxEval e) with true by (clear -Hlt H1; num_cases).
  split; [split; [|split]|].
  - intros H. exfalso. clear -Hlt H1 H2 H3 H. num_cases.
  - intros _ H. exfalso. clear -H1 H2 H3 H. num_cases.
  - intros _. split; [exact H1|]. clear -H2 H3. num_cases.
  - intros _ H. exfalso. clear -H1 H2 H3 H. num_cases.
Qed.

Lemma betterMax_score value acc mv :
  rscore (betterMax value acc mv) = num_max (rscore acc) (value mv).
Proof. unfold betterMax, num_max. destruct (num_ltb _ _); reflexivity. Qed.

Lemma foldl_betterMax_ge value ms acc :
  num_leb (rscore acc) (rscore (foldl (betterMax value) acc ms)) = true.
Proof.
  revert acc. induction ms as [|mv ms IH]; intros acc; simpl.
  - clear. destruct (rscore acc); num_cases.
  - specialize (IH (betterMax value acc mv)). rewrite betterMax_score in IH.
    clear -IH. destruct (rscore (foldl _ _ _)), (rscore acc), (value mv); num_cases.
Qed.

(** The maximizing loop, against the fold of the full search. *)
Lemma maxLoop_agrees rec value g alpha0 beta ms :
  Forall (candidateOk rec value g) ms ->
  forall acc bestMove maxEval alpha,
    maxInv alpha0 beta acc bestMove maxEval alpha ->
    exists r, runs (maxLoop rec ms alpha beta maxEval bestMove) g r g /\
              agrees alpha0 beta (foldl (betterMax value) acc ms) r.
Proof.
  induction 1 as [|mv ms Hmv Hms IH]; intros acc bestMove maxEval alpha Hinv.
  - exists (Result bestMove maxEval). split; [apply runs_ret|].
    simpl. eapply maxInv_final. exact Hinv.
  - destruct Hmv as (pcap & g1 & Hmk & Hun & Hrec).
    pose proof Hinv as (_ & Hlt & _).
    destruct (Hrec alpha beta Hlt) as (r & Hr & Hb).
    destruct (num_leb beta (num_max alpha (rscore r))) eqn:Ebrk.
    + destruct (max_break _ _ _ _ Hlt Ebrk Hb) as [H1 H2].
      eexists. split.
      * simpl. eapply runs_bind; [exact Hmk|].
        eapply runs_bind; [exact Hr|].
        eapply runs_bind; [exact Hun|]. cbv zeta. rewrite Ebrk. apply runs_ret.
      * eapply maxInv_break; [exact Hinv | exact H1 | exact H2 |].
        simpl. pose proof (foldl_betterMax_ge value ms (betterMax value acc mv)) as Hge.
        rewrite betterMax_score in Hge. clear -Hge.
        destruct (rscore (foldl _ _ _)), (rscore acc), (value mv); num_cases.
    + destruct (max_continue _ _ _ _ Hlt Ebrk Hb) as [Hlt' Hcase].
      pose proof (maxInv_step _ _ _ _ _ _ _ _ (from mv, to mv) Hinv Hlt' Hcase)
        as Hinv'.
      destruct (IH _ _ _ _ Hinv') as (r' & Hr' & Hag).
      exists r'. split.
      * simpl. eapply runs_bind; [exact Hmk|].
        eapply runs_bind; [exact Hr|].
        eapply runs_bind; [exact Hun|]. cbv zeta. rewrite Ebrk. exact Hr'.
      * exact Hag.
Qed.

(** The minimizing loop: the mirror image. *)
Lemma min_break alpha beta v e :
  num_ltb alpha beta = true -> num_leb (num_min beta e) alpha = true ->
  bounded alpha beta v e ->
  num_leb e alpha = true /\ num_leb v e = true.
Proof.
  unfold bounded. intros H1 H2 (B1 & B2 & B3).
  assert (Hea : num_leb e alpha = true) by (clear B1 B2 B3; num_cases).
  split; [exact Hea|].
  destruct (num_leb v alpha) eqn:E; [apply B1; reflexivity|].
  destruct (num_ltb v beta) eqn:E'.
  - assert (e = v) by (apply B2; [clear B1 B2 B3; num_cases | reflexivity]).
    subst e. clear B1 B2 B3. num_cases.
  - destruct B3 as [B3 _]; [clear B1 B2; num_cases|].
    clear B1 B2. num_cases.
Qed.

Lemma min_continue alpha beta v e :
  num_ltb alpha beta = true -> num_leb (num_min beta e) alpha = false ->
  bounded alpha beta v e ->
  num_ltb alpha (num_min beta e) = true /\
  ((num_leb beta v = true /\ num_leb e v = true /\ num_leb beta e = true) \/
   (num_ltb v beta = true /\ e = v)).
Proof.
  unfold bounded. intros H1 H2 (B1 & B2 & B3).
  split; [clear B1 B2 B3; num_cases|].
  destruct (num_leb beta v) eqn:E.
  - left. destruct B3 as [B3 B3']; [reflexivity|]. auto.
  - right. split; [clear B1 B2 B3; num_cases|].
    apply B2; [|clear B1 B2 B3; num_cases].
    destruct (num_ltb alpha v) eqn:E'; [reflexivity|].
    destruct B1 as [_ B1]; [clear B2 B3; num_cases|].
    clear B2 B3. num_cases.
Qed.

Lemma minInv_step alpha beta0 acc bestMove minEval beta v e mvp :
  minInv alpha beta0 acc bestMove minEval beta ->
  num_ltb alpha (num_min beta e) = true ->
  ((num_leb beta v = true /\ num_leb e v = true /\ num_leb beta e = true) \/
   (num_ltb v beta = true /\ e = v)) ->
  minInv alpha beta0
         (if num_ltb v (rscore acc) then Result (Some mvp) v else acc)
         (if num_ltb e minEval then Some mvp else bestMove)
         (if num_ltb e minEval then e else minEval)
         (num_min beta e).
Proof.
  destruct acc as [bF mF]. unfold minInv. cbn [rscore best].
  intros (Hb & Hlt & Hex & Hhigh) Hlt' Hcase. subst beta.
  split; [|split; [exact Hlt'|]].
  { clear Hex Hhigh Hcase. num_cases. }
  destruct (num_ltb mF beta0) eqn:E0.
  - destruct Hex as [-> ->]; [reflexivity|]. clear Hhigh.
    destruct Hcase as [(C1 & C2 & C3)|(C1 & ->)].
    + replace (num_ltb v mF) with false by (clear -E0 C1; num_cases).
      replace (num_ltb e mF) with false by (clear -E0 C3; num_cases).
      cbn [rscore best]. rewrite E0. split; [auto|].
      intros H. clear -E0 H. num_cases.
    + replace (num_ltb v mF) with true by (clear -E0 C1; num_cases).
      cbn [rscore best]. split; [auto|].
      intros H. clear -E0 C1 H. num_cases.
  - clear Hex. destruct Hhigh as [L1 L2]; [clear -E0; num_cases|].
    destruct Hcase as [(C1 & C2 & C3)|(C1 & ->)].
    + assert (Hs : num_leb beta0 (rscore (if num_ltb v mF then Result (Some mvp) v
                                          else Result bF mF)) = true).
      { destruct (num_ltb v mF); cbn [rscore]; clear -E0 L1 L2 C1; num_cases. }
      split.
      * intros H. exfalso. clear -H Hs.
        destruct (rscore (if num_ltb v mF then Result (Some mvp) v
                          else Result bF mF)); num_cases.
      * intros _. destruct (num_ltb v mF), (num_ltb e minEval) eqn:Em;
          cbn [rscore]; clear -E0 L1 L2 C1 C2 C3 Em; num_cases.
    + replace (num_ltb v mF) with true by (clear -E0 L1 L2 C1; num_cases).
      replace (num_ltb v minEval) with true by (clear -E0 L1 L2 C1; num_cases).
      cbn [rscore best]. split; [auto|].
      intros H. clear -E0 L1 L2 C1 H. num_cases.
Qed.

Lemma minInv_final alpha beta0 acc bestMove minEval beta :
  minInv alpha beta0 acc bestMove minEval beta ->
  agrees alpha beta0 acc (Result bestMove minEval).
Proof.
  destruct acc as [bF mF]. unfold minInv, agrees, bounded. cbn [rscore best].
  intros (Hb & Hlt & Hex & Hhigh). subst beta. split; [split; [|split]|].
  - intros H. destruct Hex as [-> _]; [clear -H Hlt; num_cases|].
    split; [clear; num_cases | exact H].
  - intros _ H. apply Hex. exact H.
  - intros H. destruct (Hhigh H) as [H1 H2]. split; assumption.
  - intros _ H. apply Hex. exact H.
Qed.

Lemma minInv_break alpha beta0 acc bestMove minEval beta e v full bm :
  minInv alpha beta0 acc bestMove minEval beta ->
  num_leb e alpha = true -> num_leb v e = true ->
  num_leb (rscore full) v = true ->
  agrees alpha beta0 full
         (Result bm (if num_ltb e minEval then e else minEval)).
Proof.
  destruct acc as [bF mF], full as [bG mG]. unfold minInv, agrees, bounded.
  cbn [rscore best]. intros (Hb & Hlt & _ & _) H1 H2 H3. subst beta.
  replace (num_ltb e minEval) with true by (clear -Hlt H1; num_cases).
  split; [split; [|split]|].
  - intros _. split; [|exact H1]. clear -H2 H3. num_cases.
  - intros H _. exfalso. clear -H1 H2 H3 H. num_cases.
  - intros H. exfalso. clear -Hlt H1 H2 H3 H. num_cases.
  - intros H _. exfalso. clear -H1 H2 H3 H. num_cases.
Qed.

Lemma betterMin_score value acc mv :
  rscore (betterMin value acc mv) = num_min (rscore acc) (value mv).
Proof. unfold betterMin, num_min. destruct (num_ltb _ _); reflexivity. Qed.

Lemma foldl_betterMin_le value ms acc :
  num_leb (rscore (foldl (betterMin value) acc ms)) (rscore acc) = true.
Proof.
  revert acc. induction ms as [|mv ms IH]; intros acc; simpl.
  - clear. destruct (rscore acc); num_cases.
  - specialize (IH (betterMin value acc mv)). rewrite betterMin_score in IH.
    clear -IH. destruct (rscore (foldl _ _ _)), (rscore acc), (value mv); num_cases.
Qed.

Lemma minLoop_agrees rec value g alpha beta0 ms :
  Forall (candidateOk rec value g) ms ->
  forall acc bestMove minEval beta,
    minInv alpha beta0 acc bestMove minEval beta ->
    exists r, runs (minLoop rec ms alpha beta minEval bestMove) g r g /\
              agrees alpha beta0 (foldl (betterMin value) acc ms) r.
Proof.
  induction 1 as [|mv ms Hmv Hms IH]; intros acc bestMove minEval beta Hinv.
  - exists (Result bestMove minEval). split; [apply runs_ret|].
    simpl. eapply minInv_final. exact Hinv.
  - destruct Hmv as (pcap & g1 & Hmk & Hun & Hrec).
    pose proof Hinv as (_ & Hlt & _).
    destruct (Hrec alpha beta Hlt) as (r & Hr & Hb).
    destruct (num_leb (num_min beta (rscore r)) alpha) eqn:Ebrk.
    + destruct (min_break _ _ _ _ Hlt Ebrk Hb) as [H1 H2].
      eexists. split.
      * simpl. eapply runs_bind; [exact Hmk|].
        eapply runs_bind; [exact Hr|].
        eapply runs_bind; [exact Hun|]. cbv zeta. rewrite Ebrk. apply runs_ret.
      * eapply minInv_break; [exact Hinv | exact H1 | exact H2 |].
        simpl. pose proof (foldl_betterMin_le value ms (betterMin value acc mv)) as Hle.
        rewrite betterMin_score in Hle. clear -Hle.
        destruct (rscore (foldl _ _ _)), (rscore acc), (value mv); num_cases.
    + destruct (min_continue _ _ _ _ Hlt Ebrk Hb) as [Hlt' Hcase].
      pose proof (minInv_step _ _ _ _ _ _ _ _ (from mv, to mv) Hinv Hlt' Hcase)
        as Hinv'.
      destruct (IH _ _ _ _ Hinv') as (r' & Hr' & Hag).
      exists r'. split.
      * simpl. eapply runs_bind; [exact Hmk|].
        eapply runs_bind; [exact Hr|].
        eapply runs_bind; [exact Hun|]. cbv zeta. rewrite Ebrk. exact Hr'.
      * exact Hag.
Qed.

(** *** The full search and the code it is read from *)

Lemma movesOf_runs s g ms g' :
  runs (generateLegalMoves s) g ms g' -> movesOf s g = ms.
Proof. intros (l & E & _). unfold movesOf. rewrite E. reflexivity. Qed.

Lemma afterMove_runs g mv pcap g1 :
  runs (makeMove mv) g pcap g1 -> afterMove g mv = g1.
Proof. intros (l & E & _). unfold afterMove. rewrite E. reflexivity. Qed.

Lemma scoreOf_reads s g v : reads (evaluateBoard s) g v -> scoreOf s g = v.
Proof. intros (l & E & _). unfold scoreOf. rewrite E. reflexivity. Qed.

Lemma minimaxFull_S d isMaximizing myColor g :
  minimaxFull (S d) isMaximizing myColor g =
  match movesOf (if isMaximizing then myColor else opponent myColor) g with
  | [] => Result None (Fin (if isMaximizing then -100000 else 100000))
  | mv :: ms =>
      if isMaximizing then
        foldl (betterMax (fun mv =>
                 rscore (minimaxFull d false myColor (afterMove g mv))))
              (Result None NegInf) (mv :: ms)
      else
        foldl (betterMin (fun mv =>
                 rscore (minimaxFull d true myColor (afterMove g mv))))
              (Result None PosInf) (mv :: ms)
  end.
Proof. simpl. destruct (movesOf _ g); reflexivity. Qed.

Lemma minimax_S d alpha beta isMaximizing myColor :
  minimax (S d) alpha beta isMaximizing myColor =
  (possibleMoves <- generateLegalMoves
                      (if isMaximizing then myColor else opponent myColor) ;;
   match possibleMoves with
   | [] => retM (Result None (Fin (if isMaximizing then -100000 else 100000)))
   | _ =>
       if isMaximizing then
         maxLoop (fun a b => minimax d a b false myColor)
                 possibleMoves alpha beta NegInf None
       else
         minLoop (fun a b => minimax d a b true myColor)
                 possibleMoves alpha beta PosInf None
   end)%M.
Proof. reflexivity. Qed.

(** The value of the full search is always a finite number. *)
Lemma foldl_betterMax_fin value ms acc :
  (forall mv, exists z, value mv = Fin z) ->
  (exists z, rscore acc = Fin z) ->
  exists z, rscore (foldl (betterMax value) acc ms) = Fin z.
Proof.
  intros Hv. revert acc. induction ms as [|mv ms IH]; intros acc Ha; simpl; [exact Ha|].
  apply IH. unfold betterMax. destruct (num_ltb _ _); [apply Hv | exact Ha].
Qed.

Lemma foldl_betterMin_fin value ms acc :
  (forall mv, exists z, value mv = Fin z) ->
  (exists z, rscore acc = Fin z) ->
  exists z, rscore (foldl (betterMin value) acc ms) = Fin z.
Proof.
  intros Hv. revert acc. induction ms as [|mv ms IH]; intros acc Ha; simpl; [exact Ha|].
  apply IH. unfold betterMin. destruct (num_ltb _ _); [apply Hv | exact Ha].
Qed.

Lemma minimaxFull_fin d isMaximizing myColor g :
  exists z, rscore (minimaxFull d isMaximizing myColor g) = Fin z.
Proof.
  revert isMaximizing g. induction d as [|d IH]; intros isMaximizing g.
  - simpl. eexists. reflexivity.
  - rewrite minimaxFull_S.
    destruct (movesOf _ g) as [|mv ms]; [simpl; eexists; reflexivity|].
    destruct isMaximizing.
    + cbn [foldl]. apply foldl_betterMax_fin; [intros; apply IH|].
      unfold betterMax. cbn [rscore].
      destruct (IH false (afterMove g mv)) as [z ->]. simpl. eexists. reflexivity.
    + cbn [foldl]. apply foldl_betterMin_fin; [intros; apply IH|].
      unfold betterMin. cbn [rscore].
      destruct (IH true (afterMove g mv)) as [z ->]. simpl. eexists. reflexivity.
Qed.

(** *** The pruned search agrees with the full one *)

Lemma Forall_sortMoves (P : move -> Prop) l :
  Forall P l -> Forall P (sortMoves l).
Proof.
  intros H. apply Forall_forall. intros x Hx. apply list_elem_of_In in Hx.
  apply (proj1 (sortMoves_elem l x)) in Hx. rewrite Forall_forall in H.
  apply H, list_elem_of_In, Hx.
Qed.

Lemma minimax_agrees myColor d :
  forall g alpha beta isMaximizing,
    wf g -> num_ltb alpha beta = true ->
    exists r, runs (minimax d alpha beta isMaximizing myColor) g r g /\
              agrees alpha beta (minimaxFull d isMaximizing myColor g) r.
Proof.
  induction d as [|d IH]; intros g alpha beta isMaximizing Hwf Hlt.
  - pose proof (evaluateBoard_reads myColor g Hwf) as Hev.
    exists (Result None (Fin (boardScore myColor g))). split.
    + simpl. eapply runs_bind; [apply runs_lift; exact Hev | apply runs_ret].
    + simpl. rewrite (scoreOf_reads _ _ _ Hev). apply agrees_refl.
  - set (s := if isMaximizing then myColor else opponent myColor).
    destruct (generateLegalMoves_runs g s Hwf) as (ms0 & Hrun & Hacc).
    pose proof (Forall_sortMoves _ _ Hacc) as Hacc'.
    rewrite minimaxFull_S, minimax_S. fold s.
    rewrite (movesOf_runs _ _ _ _ Hrun).
    destruct (sortMoves ms0) as [|mv ms] eqn:Ems.
    { eexists. split; [|apply agrees_refl].
      eapply runs_bind; [exact Hrun | apply runs_ret]. }
    assert (Hcand : forall isMax',
      Forall (candidateOk (fun a b => minimax d a b isMax' myColor)
                (fun mv => rscore (minimaxFull d isMax' myColor (afterMove g mv)))
                g) (mv :: ms)).
    { intros isMax'. apply Forall_forall. intros mv' Hmv'.
      rewrite Forall_forall in Hacc'. apply Hacc' in Hmv'.
      pose proof Hmv' as (p0 & pc0 & Hsrc & Hdst & _).
      destruct (accepted_simulated g s mv' Hwf Hmv')
        as (p & pc & Hocc & Hp & _ & Hmk & _ & Hun).
      exists (Some p, occupant g (to mv')), (moved g p pc (from mv') (to mv')).
      split; [exact Hmk|]. split; [exact Hun|].
      intros a b Hab. rewrite (afterMove_runs _ _ _ _ Hmk).
      assert (Hwf' : wf (moved g p pc (from mv') (to mv'))).
      { apply wf_moved; try assumption. eapply piece_at_src; eassumption. }
      destruct (IH _ a b isMax' Hwf' Hab) as (r & Hr & Hag & _).
      exists r. split; assumption. }
    destruct isMaximizing.
    + destruct (maxLoop_agrees _ _ g alpha beta (mv :: ms) (Hcand false)
                  (Result None NegInf) None NegInf alpha) as (r & Hr & Hag).
      { unfold maxInv. cbn [rscore best]. clear -Hlt.
        repeat split; num_cases. }
      exists r. split; [|exact Hag].
      eapply runs_bind; [exact Hrun | exact Hr].
    + destruct (minLoop_agrees _ _ g alpha beta (mv :: ms) (Hcand true)
                  (Result None PosInf) None PosInf beta) as (r & Hr & Hag).
      { unfold minInv. cbn [rscore best]. clear -Hlt.
        repeat split; num_cases. }
      exists r. split; [|exact Hag].
      eapply runs_bind; [exact Hrun | exact Hr].
Qed.

(** With the full window the pruned search returns the result of the full
    one, raises nothing and hands the position back. *)
Lemma minimax_runs_full g myColor depth :
  wf g ->
  runs (minimax depth NegInf PosInf true myColor) g
       (minimaxFull depth true myColor g) g.
Proof.
  intros Hwf.
  destruct (minimax_agrees myColor depth g NegInf PosInf true Hwf eq_refl)
    as (r & Hr & (_ & Hsc & _) & Hbest).
  destruct (minimaxFull_fin depth true myColor g) as [z Hz].
  rewrite Hz in Hsc, Hbest.
  specialize (Hsc eq_refl eq_refl). specialize (Hbest eq_refl eq_refl).
  replace (minimaxFull depth true myColor g) with r; [exact Hr|].
  destruct r as [b sc], (minimaxFull depth true myColor g) as [b' sc'].
  simpl in *. congruence.
Qed.


(** * Iterative deepening *)

Lemma searchAt_runs s g d r g' :
  runs (minimax d NegInf PosInf true s) g r g' -> searchAt s g d = r.
Proof. intros (l & E & _). unfold searchAt. rewrite E. reflexivity. Qed.

Lemma searchAt_full s g d : wf g -> searchAt s g d = minimaxFull d true s g.
Proof.
  intros Hwf. eapply searchAt_runs. apply minimax_runs_full. exact Hwf.
Qed.

(** The loop of the handler: one search per depth, each from the same
    position. *)
Lemma deepening_loop s g ds acc :
  wf g ->
  runs (foldM (fun bestMove d =>
                 (mv <- minimax d NegInf PosInf true s ;;
                  retM (match best mv with Some _ => Some mv | None => bestMove end))%M)
              ds acc) g
       (foldl (fun b r => match best r with Some _ => Some r | None => b end)
              acc (searchAt s g <$> ds)) g.
Proof.
  intros Hwf. revert acc. induction ds as [|d ds IH]; intros acc; simpl.
  - apply runs_ret.
  - eapply runs_bind; [|apply IH].
    eapply runs_bind; [apply minimax_runs_full; exact Hwf|].
    rewrite (searchAt_full s g d Hwf). apply runs_ret.
Qed.

Lemma foldl_betterMax_best value ms acc :
  is_Some (best acc) -> is_Some (best (foldl (betterMax value) acc ms)).
Proof.
  revert acc. induction ms as [|mv ms IH]; intros acc Ha; simpl; [exact Ha|].
  apply IH. unfold betterMax. destruct (num_ltb _ _); [eexists; reflexivity | exact Ha].
Qed.

(** A search of positive depth returns a move exactly when the side to
    move has one. *)
Lemma minimaxFull_best s g d :
  best (minimaxFull (S d) true s g) = None <-> movesOf s g = [].
Proof.
  rewrite minimaxFull_S. destruct (movesOf s g) as [|mv ms]; [tauto|].
  split; [|discriminate]. intros H. exfalso. cbn [foldl] in H.
  destruct (foldl_betterMax_best
              (fun mv => rscore (minimaxFull d false s (afterMove g mv))) ms
              (betterMax (fun mv => rscore (minimaxFull d false s (afterMove g mv)))
                         (Result None NegInf) mv)) as [x Hx].
  - unfold betterMax. cbn [rscore].
    destruct (minimaxFull_fin d false s (afterMove g mv)) as [z ->].
    simpl. eexists. reflexivity.
  - rewrite H in Hx. discriminate.
Qed.

Lemma keep_none rs (acc : option searchResult) :
  Forall (fun r => best r = None) rs ->
  foldl (fun b r => match best r with Some _ => Some r | None => b end) acc rs
  = acc.
Proof.
  induction 1 as [|r rs Hr Hrs IH]; simpl; [reflexivity|].
  rewrite Hr. exact IH.
Qed.

Lemma deepestMove_none rs :
  Forall (fun r => best r = None) rs -> deepestMove rs = None.
Proof. apply keep_none. Qed.

Lemma deepestMove_last rs r :
  deepestMove (rs ++ [r]) =
  match best r with Some _ => Some r | None => deepestMove rs end.
Proof. unfold deepestMove. rewrite foldl_app. reflexivity. Qed.


(** * The modular copy: move generation *)

Lemma modular_tryDestination_runs g s p pc src moves dest :
  wf g -> inGrid src = true -> inGrid dest = true ->
  occupant g src = Some p -> pieces g !! p = Some pc -> color pc = s ->
  exists moves',
    runs (Modular.tryDestination p moves dest) g moves' g /\
    (moves' = moves \/
     exists mv, moves' = moves ++ [mv] /\ acceptedModular g s mv).
Proof.
  intros Hwf Hsrc Hdst Hocc Hp Hcol.
  pose proof (wf_shape _ Hwf) as Hs.
  pose proof (piece_at_src g p pc src Hwf Hsrc Hocc Hp) as Epos. subst src.
  destruct dest as [tr tc].
  destruct (isValidMove_total g p pc tr tc Hwf Hp Hsrc Hdst) as [ok Hok].
  unfold Modular.tryDestination. cbv zeta. simpl fst. simpl snd.
  destruct ok.
  2: { exists moves. split; [|left; reflexivity].
       eapply runs_bind; [apply runs_lift; exact Hok | apply runs_ret]. }
  pose proof (wf_moved g p pc _ (tr, tc) Hwf Hsrc Hdst Hp eq_refl) as Hwf3.
  pose proof (kingsFacing_reads _ Hwf3) as Hkf.
  destruct (facingOf (moved g p pc (row pc, col pc) (tr, tc))
                     (kingsFound (moved g p pc (row pc, col pc) (tr, tc))))
    eqn:Ef;
    [exists moves
    |exists (moves ++ [Move (row pc, col pc) (tr, tc) 0])];
    (split;
     [eapply runs_bind; [apply runs_lift; exact Hok|]; cbv beta iota;
      eapply runs_bind; [apply runs_lift, rd_reads; assumption|];
      eapply runs_bind; [apply runs_lift, deref_reads; exact Hp|];
      eapply runs_bind; [apply wr_runs; assumption|];
      eapply runs_bind;
        [apply wr_runs; [simpl; apply setAt_shape; assumption | exact Hdst]|];
      eapply runs_bind; [apply setPos_runs; simpl; exact Hp|];
      eapply runs_bind; [apply runs_lift; exact Hkf|]; cbv beta iota;
      eapply runs_bind; [apply runs_ret|];
      exact (takeBack_runs g p pc (row pc, col pc) (tr, tc) (Some p) _ _
               Hwf Hp eq_refl Hsrc Hdst (eq_sym Hocc) eq_refl)
     |]).
  - left. reflexivity.
  - right. eexists. split; [reflexivity|]. split; [|reflexivity].
    exists p, pc. unfold rescored. simpl. repeat split; assumption.
Qed.

Lemma modular_scanCell_runs g s moves r c :
  wf g -> inGrid (r, c) = true -> Forall (acceptedModular g s) moves ->
  exists moves', runs (Modular.scanCell s moves r c) g moves' g /\
                 Forall (acceptedModular g s) moves'.
Proof.
  intros Hwf Hin Hacc. pose proof (wf_shape _ Hwf) as Hs.
  unfold Modular.scanCell.
  destruct (occupant g (r, c)) as [x|] eqn:Ex.
  2: { exists moves. split; [|assumption].
       eapply runs_bind; [apply runs_lift, rd_reads; assumption|].
       rewrite Ex. apply runs_ret. }
  destruct (wf_occupant _ _ _ Hwf Hin Ex) as (px & Hx & Hr & Hc).
  simpl in Hr, Hc.
  destruct (side_eqb (color px) s) eqn:Es.
  2: { exists moves. split; [|assumption].
       eapply runs_bind; [apply runs_lift, rd_reads; assumption|].
       rewrite Ex.
       eapply runs_bind; [apply runs_lift, deref_reads; eassumption|].
       rewrite Es. apply runs_ret. }
  assert (Hcol : color px = s) by (destruct (color px), s; simpl in Es; congruence).
  destruct (foldM_inv (Modular.tryDestination x) (Forall (acceptedModular g s))
              (fun d => inGrid d = true) g) with
    (l := getPossibleDestinations px) (s := moves) as (moves' & Hrun & Hacc').
  - intros ms d Hms Hd.
    destruct (modular_tryDestination_runs g s x px (r, c) ms d Hwf Hin Hd Ex Hx Hcol)
      as (ms' & Hrun & [->|(mv & -> & Hmv)]).
    + exists ms. split; assumption.
    + exists (ms ++ [mv]). split; [assumption|].
      apply Forall_app. split; [assumption|]. constructor; [assumption|constructor].
  - apply getPossibleDestinations_inGrid. rewrite Hr, Hc. exact Hin.
  - assumption.
  - exists moves'. split; [|assumption].
    eapply runs_bind; [apply runs_lift, rd_reads; assumption|].
    rewrite Ex.
    eapply runs_bind; [apply runs_lift, deref_reads; eassumption|].
    rewrite Es. exact Hrun.
Qed.

(** The modular generator also hands the game back unchanged, staying on
    the grid; its moves are those of the final generator, in the order of
    generation and with score 0. *)
Lemma modular_generateLegalMoves_runs g s :
  wf g ->
  exists ms, runs (Modular.generateLegalMoves s) g ms g /\
             Forall (acceptedModular g s) ms.
Proof.
  intros Hwf. unfold Modular.generateLegalMoves.
  apply (foldM_inv
           (fun moves r => foldM (fun moves c => Modular.scanCell s moves r c)
                                 (seqZ 0 BOARD_COLS) moves)
           (Forall (acceptedModular g s)) (fun r => 0 <= r < 10) g).
  - intros ms r Hms Hr.
    apply (foldM_inv (fun moves c => Modular.scanCell s moves r c)
                     (Forall (acceptedModular g s)) (fun c => 0 <= c < 9) g).
    + intros ms' c Hms' Hc. apply modular_scanCell_runs; [assumption| |assumption].
      apply inGrid_spec. lia.
    + apply Forall_seqZ. unfold BOARD_COLS. intros; lia.
    + assumption.
  - apply Forall_seqZ. unfold BOARD_ROWS. intros; lia.
  - constructor.
Qed.

(** A move of the modular generator goes through the make and undo
    protocols like its rescored twin. *)
Lemma acceptedModular_simulated g s mv :
  wf g -> acceptedModular g s mv ->
  exists p pc,
    occupant g (from mv) = Some p /\ pieces g !! p = Some pc /\
    runs (makeMove mv) g (Some p, occupant g (to mv))
         (moved g p pc (from mv) (to mv)) /\
    reads kingsFacing (moved g p pc (from mv) (to mv)) false /\
    runs (undoMove mv (Some p) (occupant g (to mv)))
         (moved g p pc (from mv) (to mv)) tt g.
Proof.
  intros Hwf [Hacc _].
  destruct (accepted_simulated g s _ Hwf Hacc)
    as (p & pc & Hocc & Hp & _ & Hmk & Hkf & Hun).
  exists p, pc. repeat split; assumption.
Qed.

(** * The modular copy: evaluation *)

Lemma modular_evalCell_reads s g score r c :
  wf g -> inGrid (r, c) = true ->
  reads (Modular.evalCell s score r c) g (score + modularContribution s g (r, c)).
Proof.
  intros Hwf Hin. pose proof (wf_shape _ Hwf) as Hs.
  unfold Modular.evalCell, modularContribution.
  eapply reads_bind; [apply rd_reads; assumption|].
  destruct (occupant g (r, c)) as [x|] eqn:E.
  - destruct (wf_occupant _ _ _ Hwf Hin E) as (px & Hx & _). rewrite Hx.
    eapply reads_bind; [apply deref_reads; eassumption|]. cbv zeta. simpl.
    destruct (side_eqb (color px) s); apply reads_ret.
  - rewrite Z.add_0_r. apply reads_ret.
Qed.

Lemma modular_evaluateBoard_reads s g :
  wf g -> reads (Modular.evaluateBoard s) g (modularBoardScore s g).
Proof.
  intros Hwf. unfold Modular.evaluateBoard, modularBoardScore.
  apply (foldQ_sum _ _ (fun r => 0 <= r < 10) g) with (acc := 0).
  - intros acc r Hr.
    apply (foldQ_sum _ _ (fun c => 0 <= c < 9) g).
    + intros acc' c Hc. apply modular_evalCell_reads; [assumption|].
      apply inGrid_spec. lia.
    + apply Forall_seqZ. unfold BOARD_COLS. intros; lia.
  - apply Forall_seqZ. unfold BOARD_ROWS. intros; lia.
Qed.

Lemma modularContribution_opp g i :
  modularContribution black g i = - modularContribution red g i.
Proof.
  unfold modularContribution. destruct (occupant g i) as [x|]; [|reflexivity].
  destruct (pieces g !! x) as [px|]; [|reflexivity].
  destruct (color px); simpl; lia.
Qed.

Lemma modularBoardScore_opp g :
  modularBoardScore black g = - modularBoardScore red g.
Proof.
  unfold modularBoardScore. apply sumZ_opp. intros r. apply sumZ_opp. intros c.
  apply modularContribution_opp.
Qed.

Lemma boardScore_opp g : boardScore black g = - boardScore red g.
Proof.
  unfold boardScore. apply sumZ_opp. intros r. apply sumZ_opp. intros c.
  apply contribution_opp.
Qed.

(** * The modular copy: the ordering of the worker *)

Lemma mapQ_pure {X Y} (f : X -> Q Y) (h : X -> Y) (P : X -> Prop) g :
  (forall x, P x -> reads (f x) g (h x)) ->
  forall l, Forall P l -> reads (Modular.mapQ f l) g (h <$> l).
Proof.
  intros step l. induction 1 as [|x l Px Pl IH]; simpl.
  - apply reads_ret.
  - eapply reads_bind; [apply step; assumption|].
    eapply reads_bind; [exact IH | apply reads_ret].
Qed.

Lemma sortCapturesFirst_reads g ms :
  wf g -> Forall (fun mv => inGrid (to mv) = true) ms ->
  reads (Modular.sortCapturesFirst ms) g (capturesFirst g ms).
Proof.
  intros Hwf Hin. pose proof (wf_shape _ Hwf) as Hs.
  unfold Modular.sortCapturesFirst, capturesFirst.
  eapply reads_bind; [|apply reads_ret].
  apply (mapQ_pure _ _ (fun mv => inGrid (to mv) = true)); [|exact Hin].
  intros mv Hmv. unfold Modular.captureKey.
  eapply reads_bind; [|apply reads_ret].
  pose proof (rd_reads g (to mv).1 (to mv).2 Hs) as H.
  rewrite <- surjective_pairing in H. apply H. exact Hmv.
Qed.

Lemma insertKeyed_elem m l x : x ∈ Modular.insertKeyed m l <-> x = m \/ x ∈ l.
Proof.
  induction l as [|y l IH]; simpl.
  - rewrite list_elem_of_singleton. split; [auto | intros [|H]; [auto|inversion H]].
  - destruct (y.1 - m.1 <=? 0).
    + rewrite elem_of_cons. reflexivity.
    + rewrite !elem_of_cons, IH. tauto.
Qed.

Lemma sortKeyed_elem l x : x ∈ foldr Modular.insertKeyed [] l <-> x ∈ l.
Proof.
  induction l as [|y l IH]; simpl; [reflexivity|].
  rewrite insertKeyed_elem, elem_of_cons, IH. reflexivity.
Qed.

Lemma capturesFirst_elem g ms mv : mv ∈ capturesFirst g ms -> mv ∈ ms.
Proof.
  unfold capturesFirst. intros H.
  apply list_elem_of_fmap in H as ([k mv'] & -> & H).
  apply (proj1 (sortKeyed_elem _ _)) in H.
  apply list_elem_of_fmap in H as (mv'' & E & H). injection E as _ ->. exact H.
Qed.

Lemma capturesFirst_nil g ms : capturesFirst g ms = [] -> ms = [].
Proof.
  destruct ms as [|mv ms]; [reflexivity|]. intros H. exfalso.
  assert (Hin : mv ∈ capturesFirst g (mv :: ms)).
  { unfold capturesFirst. apply list_elem_of_fmap.
    exists (if truthy (occupant g (to mv)) then 10 else 0, mv).
    split; [reflexivity|]. apply sortKeyed_elem. left. }
  rewrite H in Hin. inversion Hin.
Qed.

Lemma Forall_capturesFirst (P : move -> Prop) g ms :
  Forall P ms -> Forall P (capturesFirst g ms).
Proof.
  intros H. apply Forall_forall. intros x Hx.
  apply list_elem_of_In, capturesFirst_elem, list_elem_of_In in Hx.
  rewrite Forall_forall in H. apply H, Hx.
Qed.

(** * The modular copy: the search *)

Lemma modularMovesOf_runs s g ms g' :
  runs (Modular.generateLegalMoves s) g ms g' ->
  modularMovesOf s g = capturesFirst g ms.
Proof. intros (l & E & _). unfold modularMovesOf. rewrite E. reflexivity. Qed.

Lemma modularScoreOf_reads s g v :
  reads (Modular.evaluateBoard s) g v -> modularScoreOf s g = v.
Proof. intros (l & E & _). unfold modularScoreOf. rewrite E. reflexivity. Qed.

Lemma modularMinimaxFull_S d isMaximizing myColor g :
  modularMinimaxFull (S d) isMaximizing myColor g =
  match modularMovesOf (if isMaximizing then myColor else opponent myColor) g with
  | [] => Result None (Fin (if isMaximizing then -100000 else 100000))
  | mv :: ms =>
      if isMaximizing then
        foldl (betterMax (fun mv =>
                 rscore (modularMinimaxFull d false myColor (afterMove g mv))))
              (Result None NegInf) (mv :: ms)
      else
        foldl (betterMin (fun mv =>
                 rscore (modularMinimaxFull d true myColor (afterMove g mv))))
              (Result None PosInf) (mv :: ms)
  end.
Proof. simpl. destruct (modularMovesOf _ g); reflexivity. Qed.

Lemma modular_minimax_S d alpha beta isMaximizing myColor :
  Modular.minimax (S d) alpha beta isMaximizing myColor =
  (possibleMoves <- Modular.generateLegalMoves
                      (if isMaximizing then myColor else opponent myColor) ;;
   match possibleMoves with
   | [] => retM (Result None (Fin (if isMaximizing then -100000 else 100000)))
   | _ =>
       sorted <- liftQ (Modular.sortCapturesFirst possibleMoves) ;;
       if isMaximizing then
         maxLoop (fun a b => Modular.minimax d a b false myColor)
                 sorted alpha beta NegInf None
       else
         minLoop (fun a b => Modular.minimax d a b true myColor)
                 sorted alpha beta PosInf None
   end)%M.
Proof. reflexivity. Qed.

Lemma modularMinimaxFull_fin d isMaximizing myColor g :
  exists z, rscore (modularMinimaxFull d isMaximizing myColor g) = Fin z.
Proof.
  revert isMaximizing g. induction d as [|d IH]; intros isMaximizing g.
  - simpl. eexists. reflexivity.
  - rewrite modularMinimaxFull_S.
    destruct (modularMovesOf _ g) as [|mv ms]; [simpl; eexists; reflexivity|].
    destruct isMaximizing.
    + cbn [foldl]. apply foldl_betterMax_fin; [intros; apply IH|].
      unfold betterMax. cbn [rscore].
      destruct (IH false (afterMove g mv)) as [z ->]. simpl. eexists. reflexivity.
    + cbn [foldl]. apply foldl_betterMin_fin; [intros; apply IH|].
      unfold betterMin. cbn [rscore].
      destruct (IH true (afterMove g mv)) as [z ->]. simpl. eexists. reflexivity.
Qed.

Lemma modular_minimax_agrees myColor d :
  forall g alpha beta isMaximizing,
    wf g -> num_ltb alpha beta = true ->
    exists r, runs (Modular.minimax d alpha beta isMaximizing myColor) g r g /\
              agrees alpha beta (modularMinimaxFull d isMaximizing myColor g) r.
Proof.
  induction d as [|d IH]; intros g alpha beta isMaximizing Hwf Hlt.
  - pose proof (modular_evaluateBoard_reads myColor g Hwf) as Hev.
    exists (Result None (Fin (modularBoardScore myColor g))). split.
    + simpl. eapply runs_bind; [apply runs_lift; exact Hev | apply runs_ret].
    + simpl. rewrite (modularScoreOf_reads _ _ _ Hev). apply agrees_refl.
  - set (s := if isMaximizing then myColor else opponent myColor).
    destruct (modular_generateLegalMoves_runs g s Hwf) as (ms0 & Hrun & Hacc).
    rewrite modularMinimaxFull_S, modular_minimax_S. fold s.
    rewrite (modularMovesOf_runs _ _ _ _ Hrun).
    destruct ms0 as [|mv0 ms0].
    { eexists. split; [|apply agrees_refl].
      eapply runs_bind; [exact Hrun | apply runs_ret]. }
    assert (Hsort : reads (Modular.sortCapturesFirst (mv0 :: ms0)) g
                          (capturesFirst g (mv0 :: ms0))).
    { apply sortCapturesFirst_reads; [exact Hwf|].
      apply Forall_forall. intros mv Hmv. rewrite Forall_forall in Hacc.
      apply Hacc in Hmv. destruct Hmv as [(p & pc & _ & Hdst & _) _]. exact Hdst. }
    pose proof (Forall_capturesFirst _ g _ Hacc) as Hacc'.
    destruct (capturesFirst g (mv0 :: ms0)) as [|mv ms] eqn:Ems.
    { apply capturesFirst_nil in Ems. discriminate. }
    assert (Hcand : forall isMax',
      Forall (candidateOk (fun a b => Modular.minimax d a b isMax' myColor)
                (fun mv => rscore (modularMinimaxFull d isMax' myColor
                                                      (afterMove g mv)))
                g) (mv :: ms)).
    { intros isMax'. apply Forall_forall. intros mv' Hmv'.
      rewrite Forall_forall in Hacc'. apply Hacc' in Hmv'.
      pose proof Hmv' as [(p0 & pc0 & Hsrc & Hdst & _) _].
      destruct (acceptedModular_simulated g s mv' Hwf Hmv')
        as (p & pc & Hocc & Hp & Hmk & _ & Hun).
      exists (Some p, occupant g (to mv')), (moved g p pc (from mv') (to mv')).
      split; [exact Hmk|]. split; [exact Hun|].
      intros a b Hab. rewrite (afterMove_runs _ _ _ _ Hmk).
      assert (Hwf' : wf (moved g p pc (from mv') (to mv'))).
      { apply wf_moved; try assumption. eapply piece_at_src; eassumption. }
      destruct (IH _ a b isMax' Hwf' Hab) as (r & Hr & Hag & _).
      exists r. split; assumption. }
    destruct isMaximizing.
    + destruct (maxLoop_agrees _ _ g alpha beta (mv :: ms) (Hcand false)
                  (Result None NegInf) None NegInf alpha) as (r & Hr & Hag).
      { unfold maxInv. cbn [rscore best]. clear -Hlt.
        repeat split; num_cases. }
      exists r. split; [|exact Hag].
      eapply runs_bind; [exact Hrun|]. cbv beta iota.
      eapply runs_bind; [apply runs_lift; exact Hsort | exact Hr].
    + destruct (minLoop_agrees _ _ g alpha beta (mv :: ms) (Hcand true)
                  (Result None PosInf) None PosInf beta) as (r & Hr & Hag).
      { unfold minInv. cbn [rscore best]. clear -Hlt.
        repeat split; num_cases. }
      exists r. split; [|exact Hag].
      eapply runs_bind; [exact Hrun|]. cbv beta iota.
      eapply runs_bind; [apply runs_lift; exact Hsort | exact Hr].
Qed.

Lemma modular_minimax_runs_full g myColor depth :
  wf g ->
  runs (Modular.minimax depth NegInf PosInf true myColor) g
       (modularMinimaxFull depth true myColor g) g.
Proof.
  intros Hwf.
  destruct (modular_minimax_agrees myColor depth g NegInf PosInf true Hwf eq_refl)
    as (r & Hr & (_ & Hsc & _) & Hbest).
  destruct (modularMinimaxFull_fin depth true myColor g) as [z Hz].
  rewrite Hz in Hsc, Hbest.
  specialize (Hsc eq_refl eq_refl). specialize (Hbest eq_refl eq_refl).
  replace (modularMinimaxFull depth true myColor g) with r; [exact Hr|].
  destruct r as [b sc], (modularMinimaxFull depth true myColor g) as [b' sc'].
  simpl in *. congruence.
Qed.


(** * The properties of the specification *)

(** C1 -- On every reachable position and for every side,
    [generateLegalMoves] returns a list none of whose moves, once simulated
    on the board (source cell emptied, piece placed on the destination,
    coordinates updated), makes [kingsFacing] return true. *)
Theorem legal_moves_never_face g s :
  reachable g ->
  exists ms,
    runs (generateLegalMoves s) g ms g /\
    forall mv, mv ∈ ms ->
      exists pcap g1, runs (makeMove mv) g pcap g1 /\ reads kingsFacing g1 false.
Proof.
  intros Hr. pose proof (reachable_wf _ Hr) as Hwf.
  destruct (generateLegalMoves_runs g s Hwf) as (ms & Hrun & Hacc).
  exists (sortMoves ms). split; [assumption|]. intros mv Hmv.
  apply (proj1 (sortMoves_elem _ _)) in Hmv. rewrite Forall_forall in Hacc.
  apply list_elem_of_In, Hacc in Hmv.
  destruct (accepted_simulated g s mv Hwf Hmv)
    as (p & pc & _ & _ & _ & Hmk & Hkf & _).
  eauto.
Qed.

Lemma legal_moves_never_face_witness :
  reachable openingGame /\
  exists ms,
    runs (generateLegalMoves red) openingGame ms openingGame /\
    forall mv, mv ∈ ms ->
      exists pcap g1,
        runs (makeMove mv) openingGame pcap g1 /\ reads kingsFacing g1 false.
Proof.
  split; [apply reach_opening|].
  apply (legal_moves_never_face openingGame red). apply reach_opening.
Defined.

(** C2 -- On every board state, for every move [generateLegalMoves]
    returns, the make-move protocol followed by the undo-move protocol gives
    back the very game it started from: the same reference in every cell
    and the same [row]/[col] in every piece object.  The generator's own
    simulation leaves the game unchanged as well. *)
Theorem make_undo_roundtrip g s :
  wf g ->
  exists ms,
    runs (generateLegalMoves s) g ms g /\
    forall mv, mv ∈ ms ->
      exists piece captured g1,
        runs (makeMove mv) g (piece, captured) g1 /\
        occupant g1 (to mv) = piece /\ occupant g1 (from mv) = None /\
        runs (undoMove mv piece captured) g1 tt g.
Proof.
  intros Hwf.
  destruct (generateLegalMoves_runs g s Hwf) as (ms & Hrun & Hacc).
  exists (sortMoves ms). split; [assumption|]. intros mv Hmv.
  apply (proj1 (sortMoves_elem _ _)) in Hmv. rewrite Forall_forall in Hacc.
  apply list_elem_of_In, Hacc in Hmv.
  pose proof Hmv as (p' & pc' & Hsrc & Hdst & Hocc' & Hp' & _).
  destruct (accepted_simulated g s mv Hwf Hmv)
    as (p & pc & Hocc & Hp & Hne & Hmk & _ & Hun).
  exists (Some p), (occupant g (to mv)), (moved g p pc (from mv) (to mv)).
  split; [assumption|]. split; [|split; [|assumption]].
  - rewrite occupant_moved by assumption.
    destruct (decide (to mv = to mv)); [reflexivity | congruence].
  - rewrite occupant_moved by assumption.
    destruct (decide (to mv = from mv)); [congruence|].
    destruct (decide (from mv = from mv)); [reflexivity | congruence].
Qed.

Lemma make_undo_roundtrip_witness :
  wf openingGame /\
  exists ms,
    runs (generateLegalMoves black) openingGame ms openingGame /\
    forall mv, mv ∈ ms ->
      exists piece captured g1,
        runs (makeMove mv) openingGame (piece, captured) g1 /\
        occupant g1 (to mv) = piece /\ occupant g1 (from mv) = None /\
        runs (undoMove mv piece captured) g1 tt openingGame.
Proof.
  split; [vm_compute; reflexivity|].
  apply (make_undo_roundtrip openingGame black). vm_compute. reflexivity.
Defined.

(** C8 -- For every side, the list [generateLegalMoves] returns is in
    descending order of score, and the score of each move is the material
    value of the piece standing on its destination, 0 when that cell is
    empty. *)
Theorem legal_moves_sorted_by_capture g s :
  wf g ->
  exists ms,
    runs (generateLegalMoves s) g ms g /\
    StronglySorted byScoreDesc ms /\
    forall mv, mv ∈ ms -> score mv = captureScore g (to mv).
Proof.
  intros Hwf.
  destruct (generateLegalMoves_runs g s Hwf) as (ms & Hrun & Hacc).
  exists (sortMoves ms). split; [assumption|]. split; [apply sortMoves_sorted|].
  intros mv Hmv. apply (proj1 (sortMoves_elem _ _)) in Hmv. rewrite Forall_forall in Hacc.
  apply list_elem_of_In, Hacc in Hmv.
  destruct Hmv as (p & pc & _ & _ & _ & _ & _ & _ & _ & Hsc). exact Hsc.
Qed.

Lemma legal_moves_sorted_by_capture_witness :
  wf openingGame /\
  exists ms,
    runs (generateLegalMoves red) openingGame ms openingGame /\
    StronglySorted byScoreDesc ms /\
    forall mv, mv ∈ ms -> score mv = captureScore openingGame (to mv).
Proof.
  split; [vm_compute; reflexivity|].
  apply (legal_moves_sorted_by_capture openingGame red). vm_compute. reflexivity.
Defined.

(** C10 -- For a piece whose position is on the 10x9 grid, every candidate
    destination is on the grid; for each of them [isValidMove] returns
    without raising and every cell it indexes (the elephant's eye and the
    horse's leg are among them) is on the grid; and [generateLegalMoves]
    as a whole indexes only cells of the grid. *)
Theorem generation_stays_on_board g p pc s :
  wf g -> pieces g !! p = Some pc -> inGrid (row pc, col pc) = true ->
  Forall (fun d => inGrid d = true) (getPossibleDestinations pc) /\
  (forall d, d ∈ getPossibleDestinations pc ->
     exists b l, isValidMove (Some p) d.1 d.2 g = Some (b, l) /\
                 Forall (fun i => inGrid i = true) l) /\
  (exists ms l, generateLegalMoves s g = Some (ms, g, l) /\
                Forall (fun i => inGrid i = true) l).
Proof.
  intros Hwf Hp Hin.
  pose proof (getPossibleDestinations_inGrid pc Hin) as Hd.
  split; [exact Hd|]. split.
  - intros d Hdd. rewrite Forall_forall in Hd.
    apply list_elem_of_In, Hd in Hdd. destruct d as [tr tc].
    destruct (isValidMove_total g p pc tr tc Hwf Hp Hin Hdd) as (b & l & E & Hl).
    exists b, l. split; assumption.
  - destruct (generateLegalMoves_runs g s Hwf) as (ms & (l & E & Hl) & _).
    exists (sortMoves ms), l. split; assumption.
Qed.

Lemma generation_stays_on_board_witness :
  wf openingGame /\
  Forall (fun d => inGrid d = true)
         (getPossibleDestinations (Piece red elephant 9 2)) /\
  (forall d, d ∈ getPossibleDestinations (Piece red elephant 9 2) ->
     exists b l, isValidMove (Some 18%nat) d.1 d.2 openingGame = Some (b, l) /\
                 Forall (fun i => inGrid i = true) l) /\
  (exists ms l, generateLegalMoves red openingGame = Some (ms, openingGame, l) /\
                Forall (fun i => inGrid i = true) l).
Proof.
  split; [vm_compute; reflexivity|].
  apply (generation_stays_on_board openingGame 18%nat (Piece red elephant 9 2) red);
    vm_compute; reflexivity.
Defined.

(** The cells [isValidMove] indexes for the elephant of (9, 2) going to
    (7, 4): the target, then the eye. *)
Example elephant_eye_is_indexed :
  isValidMove (Some 18%nat) 7 4 openingGame = Some (true, [(7, 4); (8, 3)]).
Proof. vm_compute. reflexivity. Qed.

(** The same for the horse of (9, 1) going to (7, 2): the target, then the
    leg. *)
Example horse_leg_is_indexed :
  isValidMove (Some 17%nat) 7 2 openingGame = Some (true, [(7, 2); (8, 1)]).
Proof. vm_compute. reflexivity. Qed.

(** C3 -- On every position and for every depth, the search with
    alpha-beta pruning, started with the window (-Infinity, +Infinity),
    returns the move and the score of the full minimax over the same move
    lists; it raises nothing and hands the position back unchanged. *)
Theorem alphabeta_equals_minimax g myColor depth :
  wf g ->
  runs (minimax depth NegInf PosInf true myColor) g
       (minimaxFull depth true myColor g) g.
Proof. intros Hwf. apply minimax_runs_full. exact Hwf. Qed.

Lemma alphabeta_equals_minimax_witness :
  wf openingGame /\
  runs (minimax 2 NegInf PosInf true red) openingGame
       (minimaxFull 2 true red openingGame) openingGame.
Proof.
  split; [vm_compute; reflexivity|].
  apply (alphabeta_equals_minimax openingGame red 2). vm_compute. reflexivity.
Defined.

(** The indices a program uses first. *)
Lemma firstRead_bind {X Y} (m : M X) (f : X -> M Y) i :
  firstRead m i -> firstRead (bindM m f) i.
Proof.
  intros Hm g y g' l H. unfold bindM in H.
  destruct (m g) as [[[x g1] l1]|] eqn:E; [|discriminate].
  destruct (f x g1) as [[[y' g2] l2]|]; [|discriminate].
  injection H as <- <- <-. destruct (Hm _ _ _ _ E) as [l' ->].
  eexists. reflexivity.
Qed.

Lemma firstRead_rd r c : firstRead (liftQ (rd r c)) (r, c).
Proof.
  intros g x g' l H. unfold liftQ, rd in H.
  destruct (getCell (board g) r c); [|discriminate].
  injection H as <- <- <-. eexists. reflexivity.
Qed.

Lemma firstRead_generateLegalMoves s : firstRead (generateLegalMoves s) (0, 0).
Proof.
  unfold generateLegalMoves. apply firstRead_bind.
  change (seqZ 0 10) with (0 :: seqZ 1 9). cbn [foldM]. apply firstRead_bind.
  change (seqZ 0 9) with (0 :: seqZ 1 8). cbn [foldM]. apply firstRead_bind.
  unfold scanCell. apply firstRead_bind, firstRead_rd.
Qed.

Lemma firstRead_modular_generateLegalMoves s :
  firstRead (Modular.generateLegalMoves s) (0, 0).
Proof.
  unfold Modular.generateLegalMoves.
  change (seqZ 0 BOARD_ROWS) with (0 :: seqZ 1 9). cbn [foldM].
  apply firstRead_bind.
  change (seqZ 0 BOARD_COLS) with (0 :: seqZ 1 8). cbn [foldM].
  apply firstRead_bind.
  unfold Modular.scanCell. apply firstRead_bind, firstRead_rd.
Qed.

(** A search of depth 1 or more starts by reading the first cell. *)
Lemma searchLog_first s g d :
  wf g -> exists l, searchLog s g (S d) = (0, 0) :: l.
Proof.
  intros Hwf. destruct (minimax_runs_full g s (S d) Hwf) as (l & E & _).
  unfold searchLog. rewrite E.
  apply (firstRead_bind _ _ _ (firstRead_generateLegalMoves s) _ _ _ _ E).
Qed.

Lemma modularSearchLog_first s g d :
  wf g -> exists l, modularSearchLog s g (S d) = (0, 0) :: l.
Proof.
  intros Hwf. destruct (modular_minimax_runs_full g s (S d) Hwf) as (l & E & _).
  unfold modularSearchLog. rewrite E.
  apply (firstRead_bind _ _ _ (firstRead_modular_generateLegalMoves s) _ _ _ _ E).
Qed.

Lemma bindM_some {X Y} (m : M X) (k : X -> M Y) g x g1 l1 y g2 l2 :
  m g = Some (x, g1, l1) -> k x g1 = Some (y, g2, l2) ->
  bindM m k g = Some (y, g2, l1 ++ l2).
Proof. intros Hm Hk. unfold bindM. rewrite Hm, Hk. reflexivity. Qed.

(** The loop of the handler with its accesses: those of the searches, one
    search after the other. *)
Lemma deepening_loop_log s g ds acc :
  wf g ->
  foldM (fun bestMove d =>
           (mv <- minimax d NegInf PosInf true s ;;
            retM (match best mv with Some _ => Some mv | None => bestMove end))%M)
        ds acc g
  = Some (foldl (fun b r => match best r with Some _ => Some r | None => b end)
                acc (searchAt s g <$> ds),
          g, concat (searchLog s g <$> ds)).
Proof.
  intros Hwf. revert acc. induction ds as [|d ds IH]; intros acc; [reflexivity|].
  cbn [foldM fmap list_fmap foldl concat].
  destruct (minimax_runs_full g s d Hwf) as (l & E & _).
  assert (Es : searchAt s g d = minimaxFull d true s g)
    by (unfold searchAt; rewrite E; reflexivity).
  assert (El : searchLog s g d = l)
    by (unfold searchLog; rewrite E; reflexivity).
  rewrite Es, El.
  pose proof (bindM_some (minimax d NegInf PosInf true s)
                (fun mv => retM (match best mv with
                                 | Some _ => Some mv
                                 | None => acc
                                 end))
                g _ g l _ g [] E eq_refl) as H1.
  rewrite app_nil_r in H1.
  eapply bindM_some; [exact H1 | apply IH].
Qed.

Lemma onmessage_log g s D :
  wf g ->
  onmessage D s g
  = Some (deepestMove (searchAt s (received g s) <$> seq 1 D), received g s,
          concat (searchLog s (received g s) <$> seq 1 D)).
Proof.
  intros Hwf.
  assert (Hwf' : wf (received g s)) by (apply wf_flags; exact Hwf).
  unfold onmessage, bindM at 1, setTurn.
  change (Game (pieces g) (board g) s (gameOver g)) with (received g s).
  rewrite (deepening_loop_log s (received g s) (seq 1 D) None Hwf').
  reflexivity.
Qed.

(** The handler of the modular worker with its accesses: those of its one
    search. *)
Lemma modular_onmessage_log g s D :
  wf g ->
  Modular.onmessage D s g
  = Some (modularMinimaxFull D true s (received g s), received g s,
          modularSearchLog s (received g s) D).
Proof.
  intros Hwf.
  assert (Hwf' : wf (received g s)) by (apply wf_flags; exact Hwf).
  destruct (modular_minimax_runs_full (received g s) s D Hwf') as (l & E & _).
  unfold Modular.onmessage, bindM, setTurn, modularSearchLog.
  change (Game (pieces g) (board g) s (gameOver g)) with (received g s).
  rewrite E. reflexivity.
Qed.

(** C4 -- For a request of maximum depth D >= 1 the handler of the final
    worker runs the searches of depth 1, 2, ..., D in this order, each on
    the received position: the indices it uses on the board are those of
    the search of depth 1, then those of the search of depth 2, and so on
    up to D, and each of these searches starts by reading the first cell.
    The message it posts is the result of the search of depth D, the
    deepest one, when that result carries a move, and no move otherwise. *)
Theorem iterative_deepening g s D :
  wf g -> (1 <= D)%nat ->
  (forall d, (1 <= d <= D)%nat ->
     runs (minimax d NegInf PosInf true s) (received g s)
          (searchAt s (received g s) d) (received g s)) /\
  runs (onmessage D s) g
       (deepestMove (searchAt s (received g s) <$> seq 1 D)) (received g s) /\
  onmessage D s g
  = Some (deepestMove (searchAt s (received g s) <$> seq 1 D), received g s,
          concat (searchLog s (received g s) <$> seq 1 D)) /\
  (forall d, (1 <= d)%nat ->
     exists l, searchLog s (received g s) d = (0, 0) :: l) /\
  deepestMove (searchAt s (received g s) <$> seq 1 D) =
  match best (searchAt s (received g s) D) with
  | Some _ => Some (searchAt s (received g s) D)
  | None => None
  end.
Proof.
  intros Hwf HD.
  assert (Hwf' : wf (received g s)) by (apply wf_flags; exact Hwf).
  split; [|split; [|split; [|split]]].
  - intros d _. rewrite (searchAt_full _ _ _ Hwf').
    apply minimax_runs_full. exact Hwf'.
  - unfold onmessage. eapply runs_bind.
    + exists []. split; [reflexivity | constructor].
    + apply deepening_loop. exact Hwf'.
  - apply onmessage_log, Hwf.
  - intros [|d] Hd; [lia|]. apply searchLog_first, Hwf'.
  - destruct D as [|n]; [lia|]. rewrite seq_S, fmap_app. cbn [fmap list_fmap].
    rewrite deepestMove_last. change (1 + n)%nat with (S n).
    destruct (best (searchAt s (received g s) (S n))) eqn:E; [reflexivity|].
    apply deepestMove_none. apply Forall_forall. intros r Hr.
    apply list_elem_of_In, list_elem_of_fmap in Hr as (d & -> & Hd).
    apply elem_of_seq in Hd. destruct d as [|d]; [lia|].
    rewrite (searchAt_full s _ (S n) Hwf') in E.
    rewrite (searchAt_full s _ (S d) Hwf').
    apply minimaxFull_best. apply minimaxFull_best in E. exact E.
Qed.

Lemma iterative_deepening_witness :
  wf openingGame /\ (1 <= 2)%nat /\
  runs (onmessage 2 black) openingGame
       (deepestMove (searchAt black (received openingGame black) <$> seq 1 2))
       (received openingGame black) /\
  onmessage 2 black openingGame
  = Some (deepestMove (searchAt black (received openingGame black) <$> seq 1 2),
          received openingGame black,
          searchLog black (received openingGame black) 1
            ++ searchLog black (received openingGame black) 2 ++ []).
Proof.
  split; [vm_compute; reflexivity|]. split; [lia|].
  assert (Hwf : wf openingGame) by (vm_compute; reflexivity).
  assert (HD : (1 <= 2)%nat) by lia.
  destruct (iterative_deepening openingGame black 2 Hwf HD) as (_ & H2 & H3 & _).
  split; [exact H2 | exact H3].
Defined.

(** C4, the modular worker -- Its handler runs one search.  For a request
    of depth 2 the indices it uses on the board are those of the search of
    depth 2 alone: the search of depth 1, which would read the first cell
    to begin with, is not run before it. *)
Lemma modular_worker_searches_once :
  Modular.onmessage 2 red openingGame
  = Some (modularMinimaxFull 2 true red (received openingGame red),
          received openingGame red,
          modularSearchLog red (received openingGame red) 2) /\
  modularSearchLog red (received openingGame red) 1 <> [] /\
  modularSearchLog red (received openingGame red) 2
  <> modularSearchLog red (received openingGame red) 1
       ++ modularSearchLog red (received openingGame red) 2.
Proof.
  assert (Hwf : wf openingGame) by (vm_compute; reflexivity).
  assert (Hwf' : wf (received openingGame red)) by (apply wf_flags; exact Hwf).
  destruct (modularSearchLog_first red _ 0 Hwf') as [l1 E1].
  split; [apply modular_onmessage_log, Hwf|]. split.
  - rewrite E1. discriminate.
  - rewrite E1. intros H. apply (f_equal length) in H.
    rewrite length_app in H. cbn [length] in H. lia.
Qed.

(** C5 -- For a cannon standing on the board and a target cell in its row or
    column: a move onto an empty cell is legal exactly when no cell strictly
    between is occupied, a capture of an enemy piece is legal exactly when
    exactly one is, more than one makes the move illegal whatever the target
    holds; a target in neither the row nor the column is illegal. *)
Theorem cannon_screen_rule g src p pc t :
  wf g -> inGrid src = true -> inGrid t = true ->
  occupant g src = Some p -> pieces g !! p = Some pc -> type pc = cannon ->
  let n := obstaclesBetween g src t in
  let legal := isValidMove (Some p) t.1 t.2 in
  (src.1 = t.1 \/ src.2 = t.2 ->
     (occupant g t = None -> reads legal g (n =? 0)) /\
     (forall q qc, occupant g t = Some q -> pieces g !! q = Some qc ->
                   color qc <> color pc -> reads legal g (n =? 1)) /\
     (1 < n -> reads legal g false)) /\
  (src.1 <> t.1 /\ src.2 <> t.2 -> reads legal g false).
Proof.
  intros Hwf Hsrc Htgt Hocc Hp Hk n legal.
  destruct (wf_occupant _ _ _ Hwf Hsrc Hocc) as (pc' & Hp' & Hr & Hc).
  rewrite Hp in Hp'. injection Hp' as <-.
  assert (Epos : (row pc, col pc) = src) by (destruct src; simpl in *; congruence).
  assert (Hsrc' : inGrid (row pc, col pc) = true) by (rewrite Epos; exact Hsrc).
  assert (Hgen : (row pc, col pc) <> t ->
                 reads legal g
                   (if ownPiece g t (color pc) then false
                    else if (row pc =? t.1) || (col pc =? t.2) then
                      if truthy (occupant g t) then n =? 1 else n =? 0
                    else false)).
  { intros Hne. unfold n. rewrite <- Epos.
    apply isValidMove_cannon; assumption. }
  split.
  - intros Hal.
    assert (Eal : (row pc =? t.1) || (col pc =? t.2) = true).
    { apply orb_true_iff. rewrite !Z.eqb_eq. lia. }
    split; [|split].
    + intros Hemp.
      assert (Hne : (row pc, col pc) <> t).
      { rewrite Epos. intros ->. congruence. }
      specialize (Hgen Hne). unfold ownPiece in Hgen.
      rewrite Hemp, Eal in Hgen. exact Hgen.
    + intros q qc Hq Hqc Hcol.
      assert (Hne : (row pc, col pc) <> t).
      { rewrite Epos. intros ->. rewrite Hocc in Hq. injection Hq as <-.
        rewrite Hp in Hqc. injection Hqc as <-. congruence. }
      specialize (Hgen Hne). unfold ownPiece in Hgen.
      rewrite Hq, Hqc, Eal in Hgen. simpl in Hgen.
      replace (side_eqb (color qc) (color pc)) with false in Hgen; [exact Hgen|].
      destruct (color qc), (color pc); simpl; congruence.
    + intros Hn.
      assert (Hne : (row pc, col pc) <> t).
      { rewrite Epos. intros ->. unfold n in Hn.
        rewrite obstaclesBetween_self in Hn. lia. }
      specialize (Hgen Hne). rewrite Eal in Hgen.
      replace (n =? 1) with false in Hgen by (symmetry; apply Z.eqb_neq; lia).
      replace (n =? 0) with false in Hgen by (symmetry; apply Z.eqb_neq; lia).
      destruct (ownPiece g t (color pc)), (truthy (occupant g t)); exact Hgen.
  - intros [H1 H2].
    assert (Hne : (row pc, col pc) <> t).
    { rewrite Epos. intros ->. congruence. }
    specialize (Hgen Hne).
    replace ((row pc =? t.1) || (col pc =? t.2)) with false in Hgen.
    + destruct (ownPiece g t (color pc)); exact Hgen.
    + symmetry. apply orb_false_iff. rewrite !Z.eqb_neq. lia.
Qed.

(** In the opening position the cannon on (7, 1) takes the horse on (0, 1)
    over the single screen on (2, 1). *)
Lemma cannon_screen_rule_witness :
  wf openingGame /\
  reads (isValidMove (Some 25%nat) 0 1) openingGame
        (obstaclesBetween openingGame (7, 1) (0, 1) =? 1).
Proof.
  split; [vm_compute; reflexivity|].
  refine (proj1 (proj2 (proj1
    (cannon_screen_rule openingGame (7, 1) 25%nat (Piece red cannon 7 1) (0, 1)
       _ _ _ _ _ _) _)) 1%nat (Piece black horse 0 1) _ _ _);
    try (vm_compute; reflexivity).
  - right. reflexivity.
  - discriminate.
Defined.

(** C6, as amended -- On a board where each side has at most one king and
    every king stands in columns 3 to 5, [kingsFacing] returns true if and
    only if both kings stand in the same column with no occupied cell
    strictly between them. *)
Theorem kingsFacing_iff_kings_face g :
  wf g -> kingsConfined g = true -> oneKingPerSide g = true ->
  exists v, reads kingsFacing g v /\ (v = true <-> kingsFace g).
Proof.
  intros Hwf Hconf Hone.
  pose proof (fun s a => kingsConfined_spec g s a Hconf) as Hcols.
  pose proof (fun s a b => oneKingPerSide_spec g s a b Hone) as Huniq.
  exists (facingOf g (kingsFound g)).
  split; [apply kingsFacing_reads; assumption|]. split.
  - intros Hv. destruct (kingsFound g) as [rK bK] eqn:E.
    unfold facingOf in Hv.
    destruct rK as [rK|]; [|discriminate Hv].
    destruct bK as [bK|]; [|discriminate Hv].
    apply andb_true_iff in Hv as [H1 H2]. apply Z.eqb_eq in H1, H2.
    destruct (kingsFound_sound g red rK) as [Hr _]; [rewrite E; reflexivity|].
    destruct (kingsFound_sound g black bK) as [Hb _]; [rewrite E; reflexivity|].
    exists rK, bK. split; [exact Hr|]. split; [exact Hb|]. split; assumption.
  - intros (a & b & Ha & Hb & Hcol & Hobs).
    assert (Er : pick red (kingsFound g) = Some a).
    { apply kingsFound_complete;
        [exact Ha | eapply Hcols; exact Ha
        | intros; symmetry; eapply Huniq; eassumption]. }
    assert (Eb : pick black (kingsFound g) = Some b).
    { apply kingsFound_complete;
        [exact Hb | eapply Hcols; exact Hb
        | intros; symmetry; eapply Huniq; eassumption]. }
    destruct (kingsFound g) as [rK bK]. cbn [pick fst snd] in Er, Eb.
    subst rK bK. unfold facingOf.
    apply andb_true_iff. split; apply Z.eqb_eq; assumption.
Qed.

(** The two kings alone on the central file: the theorem applies, and the
    method answers true. *)
Lemma kingsFacing_iff_kings_face_witness :
  wf kingsOnCentre /\ kingsConfined kingsOnCentre = true /\
  oneKingPerSide kingsOnCentre = true /\
  exists v, reads kingsFacing kingsOnCentre v /\
            (v = true <-> kingsFace kingsOnCentre).
Proof.
  split; [vm_compute; reflexivity|].
  split; [vm_compute; reflexivity|].
  split; [vm_compute; reflexivity|].
  apply (kingsFacing_iff_kings_face kingsOnCentre); vm_compute; reflexivity.
Defined.

(** C6, as stated, fails -- with the two kings alone on column 0, facing
    each other over empty cells, [kingsFacing] returns false: its scan looks
    at columns 3 to 5 only. *)
Lemma kingsFacing_ignores_edge_file :
  wf kingsOnEdge /\ kingsFace kingsOnEdge /\
  reads kingsFacing kingsOnEdge false /\
  ~ (reads kingsFacing kingsOnEdge true <-> kingsFace kingsOnEdge).
Proof.
  assert (Hwf : wf kingsOnEdge) by (vm_compute; reflexivity).
  assert (Hface : kingsFace kingsOnEdge).
  { exists (9, 0), (0, 0). repeat split; vm_compute; reflexivity. }
  assert (Hfalse : reads kingsFacing kingsOnEdge false).
  { pose proof (kingsFacing_reads kingsOnEdge Hwf) as H.
    replace (facingOf kingsOnEdge (kingsFound kingsOnEdge)) with false in H
      by (vm_compute; reflexivity).
    exact H. }
  repeat split; try assumption.
  intros [_ H]. specialize (H Hface).
  pose proof (reads_det _ _ _ _ H Hfalse). discriminate.
Qed.

(** C7 -- The evaluation is antisymmetric in its perspective argument: on
    every position [evaluateBoard('black')] returns the negation of what
    [evaluateBoard('red')] returns. *)
Theorem evaluateBoard_antisymmetric g :
  wf g ->
  exists v, reads (evaluateBoard red) g v /\ reads (evaluateBoard black) g (- v).
Proof.
  intros Hwf. exists (boardScore red g). split.
  - apply evaluateBoard_reads. assumption.
  - replace (- boardScore red g) with (boardScore black g).
    + apply evaluateBoard_reads. assumption.
    + unfold boardScore. apply sumZ_opp. intros r. apply sumZ_opp. intros c.
      apply contribution_opp.
Qed.

Lemma evaluateBoard_antisymmetric_witness :
  wf openingGame /\
  exists v, reads (evaluateBoard red) openingGame v /\
            reads (evaluateBoard black) openingGame (- v).
Proof.
  split; [vm_compute; reflexivity|].
  apply (evaluateBoard_antisymmetric openingGame). vm_compute. reflexivity.
Defined.

(** * The move rules, piece by piece *)

(** On a well-formed game [isValidMove] returns, for a piece with
    coordinates on the grid and a target on the grid, the value of
    [ruleOf]. *)
Lemma isValidMove_reads g p pc t :
  wf g -> pieces g !! p = Some pc ->
  inGrid (row pc, col pc) = true -> inGrid t = true ->
  reads (isValidMove (Some p) t.1 t.2) g (ruleOf g pc t).
Proof.
  intros Hwf Hp Hsrc Htgt. pose proof (wf_shape _ Hwf) as Hs.
  destruct t as [tr tc]. unfold isValidMove, ruleOf. cbn [fst snd].
  eapply reads_bind; [apply deref_reads; eassumption|].
  destruct ((row pc =? tr) && (col pc =? tc)); [apply reads_ret|].
  eapply reads_bind; [apply rd_reads; assumption|].
  eapply reads_bind; [apply (sameColor_reads g (tr, tc)); assumption|].
  destruct (ownPiece g (tr, tc) (color pc)); [apply reads_ret|].
  destruct (type pc); cbv zeta.
  - (* king *)
    destruct ((Z.abs (tr - row pc) =? 1) && (Z.abs (tc - col pc) =? 0)
              || (Z.abs (tr - row pc) =? 0) && (Z.abs (tc - col pc) =? 1));
      [|apply reads_ret].
    destruct (isInPalace tr tc (color pc)); apply reads_ret.
  - (* advisor *)
    destruct (Z.abs (tr - row pc) =? 1); [|apply reads_ret].
    destruct (Z.abs (tc - col pc) =? 1); [|apply reads_ret].
    destruct (isInPalace tr tc (color pc)); apply reads_ret.
  - (* elephant *)
    destruct (Z.abs (tr - row pc) =? 2) eqn:E1; [|apply reads_ret].
    destruct (Z.abs (tc - col pc) =? 2) eqn:E2; [|apply reads_ret].
    cbn [negb orb andb].
    destruct (side_eqb (color pc) red && (tr <? 5)); [apply reads_ret|].
    destruct (side_eqb (color pc) black && (tr >? 4)); [apply reads_ret|].
    cbn [negb andb].
    eapply reads_bind.
    + apply rd_reads; [assumption|]. b2p. apply inGrid_spec.
      assert ((tr - row pc) / 2 = 1 /\ tr - row pc = 2 \/
              (tr - row pc) / 2 = -1 /\ tr - row pc = -2) as Hr.
      { assert (tr - row pc = 2 \/ tr - row pc = -2) as [->| ->] by lia;
          [left | right]; split; reflexivity. }
      assert ((tc - col pc) / 2 = 1 /\ tc - col pc = 2 \/
              (tc - col pc) / 2 = -1 /\ tc - col pc = -2) as Hc.
      { assert (tc - col pc = 2 \/ tc - col pc = -2) as [->| ->] by lia;
          [left | right]; split; reflexivity. }
      lia.
    + destruct (truthy _); apply reads_ret.
  - (* horse *)
    destruct ((Z.abs (tr - row pc) =? 2) && (Z.abs (tc - col pc) =? 1)
              || (Z.abs (tr - row pc) =? 1) && (Z.abs (tc - col pc) =? 2))
      eqn:E1; [|apply reads_ret].
    cbn [negb andb]. apply orb_true_iff in E1.
    destruct (Z.abs (tr - row pc) =? 2) eqn:E2.
    + eapply reads_bind.
      * apply rd_reads; [assumption|].
        destruct E1 as [E1|E1]; [|b2p; lia].
        destruct (tr - row pc >? 0) eqn:E3; in_grid.
      * destruct (truthy _); apply reads_ret.
    + eapply reads_bind.
      * apply rd_reads; [assumption|].
        destruct E1 as [E1|E1]; [apply andb_true_iff in E1 as [E1 _]; congruence|].
        destruct (tc - col pc >? 0) eqn:E3; in_grid.
      * destruct (truthy _); apply reads_ret.
  - (* rook *)
    destruct ((Z.abs (tr - row pc) >? 0) && (Z.abs (tc - col pc) >? 0));
      [apply reads_ret|].
    eapply reads_bind; [|apply reads_ret].
    apply (countObstacles_reads g (row pc, col pc) (tr, tc)); assumption.
  - (* cannon *)
    destruct ((Z.abs (tr - row pc) >? 0) && (Z.abs (tc - col pc) >? 0));
      [apply reads_ret|].
    eapply reads_bind.
    + apply (countObstacles_reads g (row pc, col pc) (tr, tc)); assumption.
    + destruct (truthy (occupant g (tr, tc))); apply reads_ret.
  - (* pawn *)
    destruct (Z.abs (tr - row pc) + Z.abs (tc - col pc) =? 1); [|apply reads_ret].
    cbn [negb andb]. destruct (color pc).
    + destruct (tr >? row pc); [apply reads_ret|].
      destruct ((row pc >=? 5) && (row pc =? tr)); apply reads_ret.
    + destruct (tr <? row pc); [apply reads_ret|].
      destruct ((row pc <=? 4) && (row pc =? tr)); apply reads_ret.
Qed.

Lemma rule_decides g p pc t (P : Prop) :
  wf g -> pieces g !! p = Some pc ->
  inGrid (row pc, col pc) = true -> inGrid t = true ->
  (ruleOf g pc t = true <-> P) ->
  exists b, reads (isValidMove (Some p) t.1 t.2) g b /\ (b = true <-> P).
Proof.
  intros Hwf Hp Hsrc Htgt HP. exists (ruleOf g pc t).
  split; [apply isValidMove_reads; assumption | exact HP].
Qed.

Lemma freeFor_spec g pc t :
  freeFor g pc t <->
  (row pc =? t.1) && (col pc =? t.2) = false /\ ownPiece g t (color pc) = false.
Proof.
  unfold freeFor. destruct t as [tr tc]. cbn [fst snd].
  rewrite andb_false_iff, !Z.eqb_neq. split.
  - intros [Hne Ho]. split; [|exact Ho].
    destruct (decide (row pc = tr)); [right; congruence | left; assumption].
  - intros [Hne Ho]. split; [|exact Ho]. intros [= -> ->]. lia.
Qed.

Lemma ruleOf_rook g pc t :
  type pc = rook ->
  (ruleOf g pc t = true <->
   freeFor g pc t /\ (t.1 = row pc \/ t.2 = col pc) /\
   obstaclesBetween g (row pc, col pc) t = 0).
Proof.
  intros Hk. rewrite freeFor_spec. unfold ruleOf. rewrite Hk.
  destruct ((row pc =? t.1) && (col pc =? t.2)); [intuition discriminate|].
  destruct (ownPiece g t (color pc)); [intuition discriminate|].
  rewrite andb_true_iff, negb_true_iff, andb_false_iff, Z.eqb_eq.
  rewrite !Z.gtb_ltb, !Z.ltb_ge. intuition lia.
Qed.

Lemma ruleOf_king g pc t :
  type pc = king ->
  (ruleOf g pc t = true <->
   freeFor g pc t /\ Z.abs (t.1 - row pc) + Z.abs (t.2 - col pc) = 1 /\
   inPalace (color pc) t).
Proof.
  intros Hk. rewrite freeFor_spec. unfold ruleOf, inPalace, isInPalace. rewrite Hk.
  destruct ((row pc =? t.1) && (col pc =? t.2)); [intuition discriminate|].
  destruct (ownPiece g t (color pc)); [intuition discriminate|].
  cbv zeta.
  destruct (Z.abs (t.1 - row pc) =? 1) eqn:E1, (Z.abs (t.2 - col pc) =? 0) eqn:E2,
           (Z.abs (t.1 - row pc) =? 0) eqn:E3, (Z.abs (t.2 - col pc) =? 1) eqn:E4,
           (t.2 <? 3) eqn:E5, (t.2 >? 5) eqn:E6, (color pc);
    cbn [andb orb negb]; b2p;
    try (split; [discriminate | intros; lia]);
    rewrite ?andb_true_iff, ?Z.geb_leb, ?Z.leb_le; intuition lia.
Qed.

Lemma ruleOf_advisor g pc t :
  type pc = advisor ->
  (ruleOf g pc t = true <->
   freeFor g pc t /\ Z.abs (t.1 - row pc) = 1 /\ Z.abs (t.2 - col pc) = 1 /\
   inPalace (color pc) t).
Proof.
  intros Hk. rewrite freeFor_spec. unfold ruleOf, inPalace, isInPalace. rewrite Hk.
  destruct ((row pc =? t.1) && (col pc =? t.2)); [intuition discriminate|].
  destruct (ownPiece g t (color pc)); [intuition discriminate|].
  cbv zeta.
  destruct (Z.abs (t.1 - row pc) =? 1) eqn:E1, (Z.abs (t.2 - col pc) =? 1) eqn:E4,
           (t.2 <? 3) eqn:E5, (t.2 >? 5) eqn:E6, (color pc);
    cbn [andb orb negb]; b2p;
    try (split; [discriminate | intros; lia]);
    rewrite ?andb_true_iff, ?Z.geb_leb, ?Z.leb_le; intuition lia.
Qed.

Lemma ruleOf_pawn g pc t :
  type pc = pawn ->
  (ruleOf g pc t = true <->
   freeFor g pc t /\
   match color pc with
   | red => t = (row pc - 1, col pc) \/
            (row pc <= 4 /\ t.1 = row pc /\ Z.abs (t.2 - col pc) = 1)
   | black => t = (row pc + 1, col pc) \/
              (5 <= row pc /\ t.1 = row pc /\ Z.abs (t.2 - col pc) = 1)
   end).
Proof.
  intros Hk. rewrite freeFor_spec. unfold ruleOf. rewrite Hk.
  destruct ((row pc =? t.1) && (col pc =? t.2)); [intuition discriminate|].
  destruct (ownPiece g t (color pc)); [intuition discriminate|].
  cbv zeta. destruct t as [tr tc]. cbn [fst snd].
  destruct (Z.abs (tr - row pc) + Z.abs (tc - col pc) =? 1) eqn:E1, (color pc);
    cbn [andb orb negb].
  - destruct (tr >? row pc) eqn:E2, (row pc >=? 5) eqn:E3, (row pc =? tr) eqn:E4;
      cbn [andb orb negb]; b2p;
      (split; [try discriminate; intros _ | try (intros _; reflexivity)]);
      try (split; [split; reflexivity|]);
      try (intros [_ [[=]|?]]; lia).
    all: try (destruct (decide (tc = col pc)); [left; f_equal; lia | right; lia]).
    all: try (right; lia).
  - destruct (tr <? row pc) eqn:E2, (row pc <=? 4) eqn:E3, (row pc =? tr) eqn:E4;
      cbn [andb orb negb]; b2p;
      (split; [try discriminate; intros _ | try (intros _; reflexivity)]);
      try (split; [split; reflexivity|]);
      try (intros [_ [[=]|?]]; lia).
    all: try (destruct (decide (tc = col pc)); [left; f_equal; lia | right; lia]).
    all: try (right; lia).
  - b2p. split; [discriminate|]. intros [_ [[=]|?]]; lia.
  - b2p. split; [discriminate|]. intros [_ [[=]|?]]; lia.
Qed.

Lemma truthy_false (v : cell) : truthy v = false <-> v = None.
Proof. destruct v; simpl; split; congruence. Qed.

Lemma ruleOf_elephant g pc t :
  type pc = elephant ->
  (ruleOf g pc t = true <->
   freeFor g pc t /\ Z.abs (t.1 - row pc) = 2 /\ Z.abs (t.2 - col pc) = 2 /\
   match color pc with red => 5 <= t.1 | black => t.1 <= 4 end /\
   occupant g (midRow pc t, midCol pc t) = None).
Proof.
  intros Hk. rewrite freeFor_spec. unfold ruleOf, midRow, midCol. rewrite Hk.
  destruct ((row pc =? t.1) && (col pc =? t.2)); [intuition discriminate|].
  destruct (ownPiece g t (color pc)); [intuition discriminate|].
  cbv zeta.
  destruct (Z.abs (t.1 - row pc) =? 2) eqn:E1;
    [|b2p; cbn [andb]; split; [discriminate | intros; lia]].
  destruct (Z.abs (t.2 - col pc) =? 2) eqn:E2;
    [|b2p; cbn [andb]; split; [discriminate | intros; lia]].
  b2p. cbn [andb].
  assert (Hr : row pc + (t.1 - row pc) / 2 = (row pc + t.1) / 2).
  { assert (t.1 - row pc = 2 \/ t.1 - row pc = -2) as [E|E] by lia; rewrite E.
    - replace (row pc + t.1) with ((row pc + 1) * 2) by lia.
      rewrite Z.div_mul by lia. reflexivity.
    - replace (row pc + t.1) with ((row pc - 1) * 2) by lia.
      rewrite Z.div_mul by lia. reflexivity. }
  assert (Hc : col pc + (t.2 - col pc) / 2 = (col pc + t.2) / 2).
  { assert (t.2 - col pc = 2 \/ t.2 - col pc = -2) as [E|E] by lia; rewrite E.
    - replace (col pc + t.2) with ((col pc + 1) * 2) by lia.
      rewrite Z.div_mul by lia. reflexivity.
    - replace (col pc + t.2) with ((col pc - 1) * 2) by lia.
      rewrite Z.div_mul by lia. reflexivity. }
  rewrite Hr, Hc.
  rewrite !andb_true_iff, !negb_true_iff, truthy_false, !andb_false_iff.
  rewrite Z.gtb_ltb, !Z.ltb_ge.
  destruct (color pc); cbn [side_eqb]; intuition (try discriminate; try lia).
Qed.

Lemma ruleOf_horse g pc t :
  type pc = horse ->
  (ruleOf g pc t = true <->
   freeFor g pc t /\
   ((Z.abs (t.1 - row pc) = 2 /\ Z.abs (t.2 - col pc) = 1 /\
     occupant g (midRow pc t, col pc) = None) \/
    (Z.abs (t.1 - row pc) = 1 /\ Z.abs (t.2 - col pc) = 2 /\
     occupant g (row pc, midCol pc t) = None))).
Proof.
  intros Hk. rewrite freeFor_spec. unfold ruleOf, midRow, midCol. rewrite Hk.
  destruct ((row pc =? t.1) && (col pc =? t.2)); [intuition discriminate|].
  destruct (ownPiece g t (color pc)); [intuition discriminate|].
  cbv zeta.
  destruct (Z.abs (t.1 - row pc) =? 2) eqn:E1.
  - b2p.
    assert (Hr : row pc + (if t.1 - row pc >? 0 then 1 else -1)
                 = (row pc + t.1) / 2).
    { assert (t.1 - row pc = 2 \/ t.1 - row pc = -2) as [E|E] by lia; rewrite E.
      - replace (row pc + t.1) with ((row pc + 1) * 2) by lia.
        rewrite Z.div_mul by lia. reflexivity.
      - replace (row pc + t.1) with ((row pc - 1) * 2) by lia.
        rewrite Z.div_mul by lia. reflexivity. }
    rewrite Hr.
    replace (Z.abs (t.1 - row pc) =? 1) with false
      by (symmetry; apply Z.eqb_neq; lia).
    cbn [andb orb]. rewrite orb_false_r.
    rewrite andb_true_iff, negb_true_iff, truthy_false, Z.eqb_eq.
    intuition lia.
  - b2p. cbn [andb orb].
    destruct ((Z.abs (t.1 - row pc) =? 1) && (Z.abs (t.2 - col pc) =? 2)) eqn:E2;
      cbn [andb]; [|apply andb_false_iff in E2;
                    split; [discriminate|];
                    intros [_ [[? _]|(? & ? & _)]];
                    [lia | destruct E2; b2p; lia]].
    b2p.
    assert (Hc : col pc + (if t.2 - col pc >? 0 then 1 else -1)
                 = (col pc + t.2) / 2).
    { assert (t.2 - col pc = 2 \/ t.2 - col pc = -2) as [E|E] by lia; rewrite E.
      - replace (col pc + t.2) with ((col pc + 1) * 2) by lia.
        rewrite Z.div_mul by lia. reflexivity.
      - replace (col pc + t.2) with ((col pc - 1) * 2) by lia.
        rewrite Z.div_mul by lia. reflexivity. }
    rewrite Hc, negb_true_iff, truthy_false. intuition lia.
Qed.

(** Outside the rows of the board the target cannot even be read: the
    method raises. *)
Lemma isValidMove_row_off_board g p pc tr tc :
  wf g -> pieces g !! p = Some pc -> inGrid (row pc, col pc) = true ->
  ~ (0 <= tr < 10) ->
  isValidMove (Some p) tr tc g = None.
Proof.
  intros Hwf Hp Hsrc Hrow. destruct (wf_shape _ Hwf) as [Hlen _].
  apply inGrid_spec in Hsrc.
  unfold isValidMove, bindQ, deref. rewrite Hp.
  replace (row pc =? tr) with false by (symmetry; apply Z.eqb_neq; lia).
  cbn [andb]. unfold rd, getCell.
  destruct (tr <? 0) eqn:E; [reflexivity|]. apply Z.ltb_ge in E.
  rewrite lookup_ge_None_2; [reflexivity|]. lia.
Qed.

(** * The generator, exactly *)

(** The list of candidate destinations leaves out no cell of the grid that
    the rule of the piece allows. *)
Lemma ruleOf_destination g pc t :
  inGrid t = true -> ruleOf g pc t = true -> t ∈ getPossibleDestinations pc.
Proof.
  intros Hin Hrule. unfold getPossibleDestinations. cbv zeta.
  destruct (type pc) eqn:Hk.
  - apply ruleOf_king in Hrule as (_ & Hstep & _); [|exact Hk].
    apply list_elem_of_bind. exists t.1. split; [|apply elem_of_seqZ; lia].
    apply list_elem_of_bind. exists t.2. split; [|apply elem_of_seqZ; lia].
    destruct t as [tr tc]. cbn [fst snd]. rewrite Hin. apply list_elem_of_here.
  - apply ruleOf_advisor in Hrule as (_ & Hr & Hc & _); [|exact Hk].
    apply list_elem_of_bind. exists t.1. split; [|apply elem_of_seqZ; lia].
    apply list_elem_of_bind. exists t.2. split; [|apply elem_of_seqZ; lia].
    destruct t as [tr tc]. cbn [fst snd]. rewrite Hin. apply list_elem_of_here.
  - apply ruleOf_elephant in Hrule as (_ & Hr & Hc & _); [|exact Hk].
    apply list_elem_of_filter. split; [exact Hin|].
    destruct t as [tr tc]. cbn [fst snd] in *.
    assert (tr = row pc - 2 \/ tr = row pc + 2) as [-> | ->] by lia;
      assert (tc = col pc - 2 \/ tc = col pc + 2) as [-> | ->] by lia;
      repeat first [apply list_elem_of_here | apply list_elem_of_further].
  - apply ruleOf_horse in Hrule as (_ & Hstep); [|exact Hk].
    apply list_elem_of_filter. split; [exact Hin|].
    destruct t as [tr tc]. cbn [fst snd] in *.
    destruct Hstep as [(Hr & Hc & _)|(Hr & Hc & _)].
    + assert (tr = row pc - 2 \/ tr = row pc + 2) as [-> | ->] by lia;
        assert (tc = col pc - 1 \/ tc = col pc + 1) as [-> | ->] by lia;
        repeat first [apply list_elem_of_here | apply list_elem_of_further].
    + assert (tr = row pc - 1 \/ tr = row pc + 1) as [-> | ->] by lia;
        assert (tc = col pc - 2 \/ tc = col pc + 2) as [-> | ->] by lia;
        repeat first [apply list_elem_of_here | apply list_elem_of_further].
  - apply ruleOf_rook in Hrule as ([Hne _] & Hal & _); [|exact Hk].
    destruct t as [tr tc]. cbn [fst snd] in *. apply inGrid_spec in Hin.
    apply elem_of_app. destruct (decide (tc = col pc)) as [->|Hc].
    + left. apply list_elem_of_bind. exists tr.
      split; [|apply elem_of_seqZ; lia].
      replace (tr =? row pc) with false; [apply list_elem_of_here|].
      symmetry. apply Z.eqb_neq. congruence.
    + right. assert (tr = row pc) as -> by lia.
      apply list_elem_of_bind. exists tc.
      split; [|apply elem_of_seqZ; lia].
      replace (tc =? col pc) with false; [apply list_elem_of_here|].
      symmetry. apply Z.eqb_neq. congruence.
  - unfold ruleOf in Hrule. rewrite Hk in Hrule. cbv zeta in Hrule.
    destruct ((row pc =? t.1) && (col pc =? t.2)) eqn:Hne; [discriminate|].
    destruct (ownPiece g t (color pc)); [discriminate|].
    apply andb_true_iff in Hrule as [Hal _].
    apply negb_true_iff, andb_false_iff in Hal.
    rewrite !Z.gtb_ltb, !Z.ltb_ge in Hal.
    apply andb_false_iff in Hne. rewrite !Z.eqb_neq in Hne.
    destruct t as [tr tc]. cbn [fst snd] in *. apply inGrid_spec in Hin.
    apply elem_of_app. destruct (decide (tc = col pc)) as [->|Hc].
    + left. apply list_elem_of_bind. exists tr.
      split; [|apply elem_of_seqZ; lia].
      replace (tr =? row pc) with false; [apply list_elem_of_here|].
      symmetry. apply Z.eqb_neq. lia.
    + right. assert (tr = row pc) as -> by lia.
      apply list_elem_of_bind. exists tc.
      split; [|apply elem_of_seqZ; lia].
      replace (tc =? col pc) with false; [apply list_elem_of_here|].
      symmetry. apply Z.eqb_neq. lia.
  - apply ruleOf_pawn in Hrule as (_ & Hstep); [|exact Hk].
    apply list_elem_of_filter. split; [exact Hin|].
    destruct t as [tr tc]. cbn [fst snd] in *.
    destruct (color pc).
    + destruct Hstep as [[= -> ->]|(_ & -> & Hc)].
      * apply list_elem_of_here.
      * assert (tc = col pc - 1 \/ tc = col pc + 1) as [-> | ->] by lia;
          repeat first [apply list_elem_of_here | apply list_elem_of_further].
    + destruct Hstep as [[= -> ->]|(_ & -> & Hc)].
      * apply list_elem_of_further, list_elem_of_here.
      * assert (tc = col pc - 1 \/ tc = col pc + 1) as [-> | ->] by lia;
          repeat first [apply list_elem_of_here | apply list_elem_of_further].
Qed.

(** A loop that only appends. *)
Lemma foldM_collect {X Y} (f : list Y -> X -> M (list Y)) (h : X -> list Y)
    (P : X -> Prop) g :
  (forall acc x, P x -> runs (f acc x) g (acc ++ h x) g) ->
  forall l acc, Forall P l -> runs (foldM f l acc) g (acc ++ (x ← l; h x)) g.
Proof.
  intros Hf l. induction l as [|x l IH]; intros acc Hl.
  - simpl. rewrite app_nil_r. apply runs_ret.
  - inversion Hl; subst. rewrite bind_cons, app_assoc. simpl.
    eapply runs_bind; [apply Hf; assumption | apply IH; assumption].
Qed.

Lemma tryDestination_exact g p pc moves dest :
  wf g -> inGrid (row pc, col pc) = true -> inGrid dest = true ->
  occupant g (row pc, col pc) = Some p -> pieces g !! p = Some pc ->
  runs (tryDestination p moves dest) g (moves ++ candidate g p pc dest) g.
Proof.
  intros Hwf Hsrc Hdst Hocc Hp.
  pose proof (wf_shape _ Hwf) as Hs.
  pose proof (isValidMove_reads g p pc dest Hwf Hp Hsrc Hdst) as Hok.
  destruct dest as [tr tc]. cbn [fst snd] in Hok.
  unfold tryDestination, candidate. cbv zeta. cbn [fst snd].
  destruct (ruleOf g pc (tr, tc)) eqn:Erule; cbn [andb].
  2: { rewrite app_nil_r.
       eapply runs_bind; [apply runs_lift; exact Hok | apply runs_ret]. }
  set (src := (row pc, col pc)) in *.
  pose proof (wf_moved g p pc src (tr, tc) Hwf Hsrc Hdst Hp eq_refl) as Hwf3.
  pose proof (kingsFacing_reads _ Hwf3) as Hkf.
  pose proof (moved_shape g p pc src (tr, tc) Hwf Hsrc Hdst) as Hs3.
  assert (Hne : src <> (tr, tc)).
  { eapply isValidMove_true_ne; eassumption. }
  assert (Hscore :
            reads (match occupant g (tr, tc) with
                   | Some x => (cx <- deref x ;;
                                retQ (jsOr (PIECE_VALUES (type cx)) 0))%Q
                   | None => retQ 0
                   end) (moved g p pc src (tr, tc)) (captureScore g (tr, tc))).
  { unfold captureScore. destruct (occupant g (tr, tc)) as [x|] eqn:Ex;
      [|apply reads_ret].
    destruct (wf_occupant _ _ _ Hwf Hdst Ex) as (cx & Hx & _). rewrite Hx.
    eapply reads_bind.
    - apply deref_reads. rewrite pieces_moved_other; [exact Hx|].
      eapply (other_cell_other_piece g p pc src); eauto.
    - rewrite jsOr_value. apply reads_ret. }
  eapply runs_bind; [apply runs_lift; exact Hok|]. cbv beta iota.
  eapply runs_bind; [apply runs_lift, rd_reads; assumption|].
  eapply runs_bind; [apply runs_lift, deref_reads; exact Hp|].
  eapply runs_bind; [apply wr_runs; [exact Hs | exact Hsrc]|].
  eapply runs_bind.
  { apply wr_runs; [|exact Hdst]. simpl. apply setAt_shape; assumption. }
  eapply runs_bind; [apply setPos_runs; simpl; exact Hp|].
  eapply runs_bind; [apply runs_lift; exact Hkf|]. cbv beta iota.
  destruct (facingOf (moved g p pc src (tr, tc))
                     (kingsFound (moved g p pc src (tr, tc)))) eqn:Ef;
    cbn [negb].
  - rewrite app_nil_r.
    eapply runs_bind; [apply runs_ret|].
    exact (takeBack_runs g p pc src (tr, tc) (Some p) _ moves
             Hwf Hp eq_refl Hsrc Hdst (eq_sym Hocc) eq_refl).
  - eapply runs_bind.
    { eapply runs_bind; [apply runs_lift; exact Hscore | apply runs_ret]. }
    exact (takeBack_runs g p pc src (tr, tc) (Some p) _ _
             Hwf Hp eq_refl Hsrc Hdst (eq_sym Hocc) eq_refl).
Qed.

Lemma scanCell_exact g s moves r c :
  wf g -> inGrid (r, c) = true ->
  runs (scanCell s moves r c) g (moves ++ cellMoves s g (r, c)) g.
Proof.
  intros Hwf Hin. pose proof (wf_shape _ Hwf) as Hs. unfold scanCell, cellMoves.
  eapply runs_bind; [apply runs_lift, rd_reads; assumption|].
  destruct (occupant g (r, c)) as [x|] eqn:Ex.
  2: { rewrite app_nil_r. apply runs_ret. }
  destruct (wf_occupant _ _ _ Hwf Hin Ex) as (px & Hx & Hr & Hc).
  cbn [fst snd] in Hr, Hc. rewrite Hx.
  eapply runs_bind; [apply runs_lift, deref_reads; eassumption|].
  destruct (side_eqb (color px) s).
  2: { rewrite app_nil_r. apply runs_ret. }
  apply (foldM_collect (tryDestination x) (candidate g x px)
           (fun d => inGrid d = true)).
  - intros acc d Hd. apply tryDestination_exact; try assumption.
    + rewrite Hr, Hc. exact Hin.
    + rewrite Hr, Hc. exact Ex.
  - apply getPossibleDestinations_inGrid. rewrite Hr, Hc. exact Hin.
Qed.

Lemma generateLegalMoves_exact g s :
  wf g -> runs (generateLegalMoves s) g (sortMoves (generated s g)) g.
Proof.
  intros Hwf. unfold generateLegalMoves.
  eapply runs_bind; [|apply runs_ret].
  apply (foldM_collect
           (fun moves r =>
              foldM (fun moves c => scanCell s moves r c) (seqZ 0 9) moves)
           (fun r => c ← seqZ 0 9; cellMoves s g (r, c))
           (fun r => 0 <= r < 10) g) with (acc := []).
  - intros acc r Hr.
    apply (foldM_collect (fun moves c => scanCell s moves r c)
             (fun c => cellMoves s g (r, c)) (fun c => 0 <= c < 9)).
    + intros acc' c Hc. apply scanCell_exact; [exact Hwf|].
      apply inGrid_spec. lia.
    + apply Forall_forall. intros c Hc.
      apply list_elem_of_In, elem_of_seqZ in Hc. lia.
  - apply Forall_forall. intros r Hr.
    apply list_elem_of_In, elem_of_seqZ in Hr. lia.
Qed.

Lemma inGrid_spec' i :
  inGrid i = true -> 0 <= i.1 < 10 /\ 0 <= i.2 < 9.
Proof. destruct i. apply inGrid_spec. Qed.

Lemma move_eta mv : Move (from mv) (to mv) (score mv) = mv.
Proof. destruct mv; reflexivity. Qed.

(** The moves pushed are accepted ones. *)
Lemma generated_accepted g s mv :
  wf g -> mv ∈ generated s g -> accepted g s mv.
Proof.
  intros Hwf Hmv. unfold generated in Hmv.
  apply list_elem_of_bind in Hmv as (r & Hmv & Hr).
  apply list_elem_of_bind in Hmv as (c & Hmv & Hc).
  apply elem_of_seqZ in Hr, Hc.
  assert (Hin : inGrid (r, c) = true) by (apply inGrid_spec; lia).
  unfold cellMoves in Hmv.
  destruct (occupant g (r, c)) as [x|] eqn:Ex; [|inversion Hmv].
  destruct (wf_occupant _ _ _ Hwf Hin Ex) as (px & Hx & Hrow & Hcol).
  cbn [fst snd] in Hrow, Hcol. rewrite Hx in Hmv.
  destruct (side_eqb (color px) s) eqn:Es; [|inversion Hmv].
  apply list_elem_of_bind in Hmv as (d & Hmv & Hd).
  assert (Hdin : inGrid d = true).
  { pose proof (getPossibleDestinations_inGrid px) as Hall.
    rewrite Forall_forall in Hall. apply Hall; [|apply list_elem_of_In, Hd].
    rewrite Hrow, Hcol. exact Hin. }
  assert (Epos : (row px, col px) = (r, c)) by congruence.
  unfold candidate in Hmv. rewrite Epos in Hmv.
  pose proof (isValidMove_reads g x px d Hwf Hx) as Hok.
  rewrite Epos in Hok. specialize (Hok Hin Hdin).
  pose proof (kingsFacing_reads _ (wf_moved g x px (r, c) d Hwf Hin Hdin Hx Epos))
    as Hkf.
  destruct (ruleOf g px d); [|inversion Hmv].
  destruct (facingOf (moved g x px (r, c) d) (kingsFound (moved g x px (r, c) d)));
    [inversion Hmv|].
  apply list_elem_of_singleton in Hmv. subst mv.
  exists x, px. split; [exact Hin|]. split; [exact Hdin|]. split; [exact Ex|].
  split; [exact Hx|].
  split; [destruct (color px), s; simpl in Es; congruence|].
  split; [exact Hok|]. split; [exact Hkf | reflexivity].
Qed.

(** Every accepted move is pushed. *)
Lemma accepted_generated g s mv :
  wf g -> accepted g s mv -> mv ∈ generated s g.
Proof.
  intros Hwf (p & pc & Hsrc & Hdst & Hocc & Hp & Hcol & Hok & Hkf & Hsc).
  pose proof (piece_at_src g p pc _ Hwf Hsrc Hocc Hp) as Epos.
  assert (Hsrc' : inGrid (row pc, col pc) = true) by (rewrite Epos; exact Hsrc).
  pose proof (isValidMove_reads g p pc (to mv) Hwf Hp Hsrc' Hdst) as Hok'.
  pose proof (reads_det _ _ _ _ Hok' Hok) as Erule.
  assert (Hwf3 : wf (moved g p pc (from mv) (to mv))).
  { apply wf_moved; assumption. }
  pose proof (reads_det _ _ _ _ (kingsFacing_reads _ Hwf3) Hkf) as Ef.
  assert (Hcand : mv ∈ candidate g p pc (to mv)).
  { unfold candidate. rewrite Epos, Erule, Ef.
    rewrite <- (move_eta mv) at 1. rewrite Hsc. apply list_elem_of_here. }
  clear Hok Hok' Hkf Erule Ef Hwf3.
  assert (Hd : to mv ∈ getPossibleDestinations pc).
  { apply (ruleOf_destination g); [exact Hdst|].
    unfold candidate in Hcand. destruct (ruleOf g pc (to mv)); [reflexivity|].
    inversion Hcand. }
  unfold generated. apply inGrid_spec' in Hsrc.
  apply list_elem_of_bind. exists (from mv).1. split; [|apply elem_of_seqZ; lia].
  apply list_elem_of_bind. exists (from mv).2. split; [|apply elem_of_seqZ; lia].
  unfold cellMoves. rewrite <- surjective_pairing, Hocc, Hp. subst s.
  replace (side_eqb (color pc) (color pc)) with true
    by (destruct (color pc); reflexivity).
  apply list_elem_of_bind. exists (to mv). split; assumption.
Qed.

Lemma elem_of_generated g s mv :
  wf g -> (mv ∈ generated s g <-> accepted g s mv).
Proof.
  intros Hwf. split;
    [apply generated_accepted | apply accepted_generated]; exact Hwf.
Qed.

(** The sort only reorders. *)
Lemma insertMove_perm m l : insertMove m l ≡ₚ m :: l.
Proof.
  induction l as [|x l IH]; simpl; [reflexivity|].
  destruct (score x - score m <=? 0); [reflexivity|].
  rewrite IH. apply Permutation_swap.
Qed.

Lemma sortMoves_perm l : sortMoves l ≡ₚ l.
Proof.
  induction l as [|x l IH]; [reflexivity|].
  change (insertMove x (sortMoves l) ≡ₚ x :: l).
  etransitivity; [apply insertMove_perm|]. constructor. exact IH.
Qed.

Lemma NoDup_getPossibleDestinations pc : NoDup (getPossibleDestinations pc).
Proof.
  assert (Hsq : forall r c,
            NoDup (i ← seqZ (r - 1) 3; j ← seqZ (c - 1) 3;
                   if inGrid (i, j) then [(i, j)] else [])).
  { intros r c. apply NoDup_bind; [| |apply NoDup_seqZ].
    - intros i1 i2 y _ _ H1 H2.
      apply list_elem_of_bind in H1 as (j1 & H1 & _).
      apply list_elem_of_bind in H2 as (j2 & H2 & _).
      destruct (inGrid (i1, j1)); [|inversion H1].
      destruct (inGrid (i2, j2)); [|inversion H2].
      apply list_elem_of_singleton in H1, H2. congruence.
    - intros i _. apply NoDup_bind; [| |apply NoDup_seqZ].
      + intros j1 j2 y _ _ H1 H2.
        destruct (inGrid (i, j1)); [|inversion H1].
        destruct (inGrid (i, j2)); [|inversion H2].
        apply list_elem_of_singleton in H1, H2. congruence.
      + intros j _. destruct (inGrid (i, j));
          [apply NoDup_singleton | apply NoDup_nil_2]. }
  assert (Hline : forall r c,
            NoDup ((i ← seqZ 0 10; if i =? r then [] else [(i, c)]) ++
                   (j ← seqZ 0 9; if j =? c then [] else [(r, j)]))).
  { intros r c. apply list.NoDup_app. split; [|split].
    - apply NoDup_bind; [| |apply NoDup_seqZ].
      + intros i1 i2 y _ _ H1 H2.
        destruct (i1 =? r); [inversion H1|].
        destruct (i2 =? r); [inversion H2|].
        apply list_elem_of_singleton in H1, H2. congruence.
      + intros i _. destruct (i =? r);
          [apply NoDup_nil_2 | apply NoDup_singleton].
    - intros y H1 H2.
      apply list_elem_of_bind in H1 as (i & H1 & _).
      apply list_elem_of_bind in H2 as (j & H2 & _).
      destruct (i =? r) eqn:Ei; [inversion H1|].
      destruct (j =? c) eqn:Ej; [inversion H2|].
      apply list_elem_of_singleton in H1, H2. b2p. congruence.
    - apply NoDup_bind; [| |apply NoDup_seqZ].
      + intros j1 j2 y _ _ H1 H2.
        destruct (j1 =? c); [inversion H1|].
        destruct (j2 =? c); [inversion H2|].
        apply list_elem_of_singleton in H1, H2. congruence.
      + intros j _. destruct (j =? c);
          [apply NoDup_nil_2 | apply NoDup_singleton]. }
  unfold getPossibleDestinations. cbv zeta.
  destruct (type pc); try apply Hsq; try apply Hline;
    apply list.NoDup_filter;
    repeat (apply NoDup_cons_2;
            [rewrite ?not_elem_of_cons; repeat split;
             try (intros [=]; lia); apply not_elem_of_nil |]);
    apply NoDup_nil_2.
Qed.

Lemma cellMoves_from g s i mv :
  wf g -> inGrid i = true -> mv ∈ cellMoves s g i -> from mv = i.
Proof.
  intros Hwf Hin Hmv. unfold cellMoves in Hmv.
  destruct (occupant g i) as [x|] eqn:Ex; [|inversion Hmv].
  destruct (wf_occupant _ _ _ Hwf Hin Ex) as (px & Hx & Hrow & Hcol).
  rewrite Hx in Hmv. destruct (side_eqb (color px) s); [|inversion Hmv].
  apply list_elem_of_bind in Hmv as (d & Hmv & _). unfold candidate in Hmv.
  destruct (_ && _); [|inversion Hmv].
  apply list_elem_of_singleton in Hmv. subst mv. cbn [from].
  destruct i. cbn [fst snd] in *. congruence.
Qed.

Lemma NoDup_cellMoves g s i : NoDup (cellMoves s g i).
Proof.
  unfold cellMoves. destruct (occupant g i) as [x|]; [|apply NoDup_nil_2].
  destruct (pieces g !! x) as [px|]; [|apply NoDup_nil_2].
  destruct (side_eqb (color px) s); [|apply NoDup_nil_2].
  apply NoDup_bind; [| |apply NoDup_getPossibleDestinations].
  - intros d1 d2 y _ _ H1 H2. unfold candidate in H1, H2.
    destruct (ruleOf g px d1 && _); [|inversion H1].
    destruct (ruleOf g px d2 && _); [|inversion H2].
    apply list_elem_of_singleton in H1, H2. subst y.
    injection H2 as E _. exact E.
  - intros d _. unfold candidate.
    destruct (_ && _); [apply NoDup_singleton | apply NoDup_nil_2].
Qed.

Lemma NoDup_generated g s : wf g -> NoDup (generated s g).
Proof.
  intros Hwf. unfold generated.
  apply NoDup_bind; [| |apply NoDup_seqZ].
  - intros r1 r2 y Hr1 Hr2 H1 H2.
    apply list_elem_of_bind in H1 as (c1 & H1 & Hc1).
    apply list_elem_of_bind in H2 as (c2 & H2 & Hc2).
    apply elem_of_seqZ in Hr1, Hr2, Hc1, Hc2.
    apply cellMoves_from in H1; [|exact Hwf | apply inGrid_spec; lia].
    apply cellMoves_from in H2; [|exact Hwf | apply inGrid_spec; lia].
    congruence.
  - intros r Hr. apply elem_of_seqZ in Hr.
    apply NoDup_bind; [| |apply NoDup_seqZ].
    + intros c1 c2 y Hc1 Hc2 H1 H2. apply elem_of_seqZ in Hc1, Hc2.
      apply cellMoves_from in H1; [|exact Hwf | apply inGrid_spec; lia].
      apply cellMoves_from in H2; [|exact Hwf | apply inGrid_spec; lia].
      congruence.
    + intros c _. apply NoDup_cellMoves.
Qed.

(** ** The statements *)

(** X1 -- The king moves one step along a row or a column, inside the palace of
    its colour, onto a cell not held by a piece of its colour: [isValidMove]
    returns true in exactly this case. *)
Theorem king_rule g p pc t :
  wf g -> pieces g !! p = Some pc -> type pc = king ->
  inGrid (row pc, col pc) = true -> inGrid t = true ->
  exists b, reads (isValidMove (Some p) t.1 t.2) g b /\
    (b = true <->
     freeFor g pc t /\ Z.abs (t.1 - row pc) + Z.abs (t.2 - col pc) = 1 /\
     inPalace (color pc) t).
Proof.
  intros Hwf Hp Hk Hsrc Htgt.
  apply (rule_decides g p pc t); try assumption. apply ruleOf_king, Hk.
Qed.

Lemma king_rule_witness :
  wf openingGame /\
  exists b, reads (isValidMove (Some 20%nat) 8 4) openingGame b /\
    (b = true <->
     freeFor openingGame (Piece red king 9 4) (8, 4) /\
     Z.abs (8 - 9) + Z.abs (4 - 4) = 1 /\ inPalace red (8, 4)).
Proof.
  split; [vm_compute; reflexivity|].
  apply (king_rule openingGame 20%nat (Piece red king 9 4) (8, 4));
    vm_compute; reflexivity.
Defined.

(** X2 -- The advisor moves one step along a diagonal, inside the palace of its
    colour. *)
Theorem advisor_rule g p pc t :
  wf g -> pieces g !! p = Some pc -> type pc = advisor ->
  inGrid (row pc, col pc) = true -> inGrid t = true ->
  exists b, reads (isValidMove (Some p) t.1 t.2) g b /\
    (b = true <->
     freeFor g pc t /\ Z.abs (t.1 - row pc) = 1 /\ Z.abs (t.2 - col pc) = 1 /\
     inPalace (color pc) t).
Proof.
  intros Hwf Hp Hk Hsrc Htgt.
  apply (rule_decides g p pc t); try assumption. apply ruleOf_advisor, Hk.
Qed.

Lemma advisor_rule_witness :
  wf openingGame /\
  exists b, reads (isValidMove (Some 19%nat) 8 4) openingGame b /\
    (b = true <->
     freeFor openingGame (Piece red advisor 9 3) (8, 4) /\
     Z.abs (8 - 9) = 1 /\ Z.abs (4 - 3) = 1 /\ inPalace red (8, 4)).
Proof.
  split; [vm_compute; reflexivity|].
  apply (advisor_rule openingGame 19%nat (Piece red advisor 9 3) (8, 4));
    vm_compute; reflexivity.
Defined.

(** X3 -- The elephant moves two steps along a diagonal, stays on its own side
    of the river (rows 5 to 9 for red, 0 to 4 for black), and the cell it
    jumps over, half-way, must be empty. *)
Theorem elephant_rule g p pc t :
  wf g -> pieces g !! p = Some pc -> type pc = elephant ->
  inGrid (row pc, col pc) = true -> inGrid t = true ->
  exists b, reads (isValidMove (Some p) t.1 t.2) g b /\
    (b = true <->
     freeFor g pc t /\ Z.abs (t.1 - row pc) = 2 /\ Z.abs (t.2 - col pc) = 2 /\
     match color pc with red => 5 <= t.1 | black => t.1 <= 4 end /\
     occupant g (midRow pc t, midCol pc t) = None).
Proof.
  intros Hwf Hp Hk Hsrc Htgt.
  apply (rule_decides g p pc t); try assumption. apply ruleOf_elephant, Hk.
Qed.

Lemma elephant_rule_witness :
  wf openingGame /\
  exists b, reads (isValidMove (Some 18%nat) 7 4) openingGame b /\
    (b = true <->
     freeFor openingGame (Piece red elephant 9 2) (7, 4) /\
     Z.abs (7 - 9) = 2 /\ Z.abs (4 - 2) = 2 /\ 5 <= 7 /\
     occupant openingGame (8, 3) = None).
Proof.
  split; [vm_compute; reflexivity|].
  apply (elephant_rule openingGame 18%nat (Piece red elephant 9 2) (7, 4));
    vm_compute; reflexivity.
Defined.

(** X4 -- The horse moves two steps along a row or column and one step
    sideways; the cell next to it along the long side, its leg, must be
    empty. *)
Theorem horse_rule g p pc t :
  wf g -> pieces g !! p = Some pc -> type pc = horse ->
  inGrid (row pc, col pc) = true -> inGrid t = true ->
  exists b, reads (isValidMove (Some p) t.1 t.2) g b /\
    (b = true <->
     freeFor g pc t /\
     ((Z.abs (t.1 - row pc) = 2 /\ Z.abs (t.2 - col pc) = 1 /\
       occupant g (midRow pc t, col pc) = None) \/
      (Z.abs (t.1 - row pc) = 1 /\ Z.abs (t.2 - col pc) = 2 /\
       occupant g (row pc, midCol pc t) = None))).
Proof.
  intros Hwf Hp Hk Hsrc Htgt.
  apply (rule_decides g p pc t); try assumption. apply ruleOf_horse, Hk.
Qed.

Lemma horse_rule_witness :
  wf openingGame /\
  exists b, reads (isValidMove (Some 17%nat) 7 2) openingGame b /\
    (b = true <->
     freeFor openingGame (Piece red horse 9 1) (7, 2) /\
     ((Z.abs (7 - 9) = 2 /\ Z.abs (2 - 1) = 1 /\
       occupant openingGame (8, 1) = None) \/
      (Z.abs (7 - 9) = 1 /\ Z.abs (2 - 1) = 2 /\
       occupant openingGame (9, 1) = None))).
Proof.
  split; [vm_compute; reflexivity|].
  apply (horse_rule openingGame 17%nat (Piece red horse 9 1) (7, 2));
    vm_compute; reflexivity.
Defined.

(** X5 -- The rook moves along its row or its column over empty cells only. *)
Theorem rook_rule g p pc t :
  wf g -> pieces g !! p = Some pc -> type pc = rook ->
  inGrid (row pc, col pc) = true -> inGrid t = true ->
  exists b, reads (isValidMove (Some p) t.1 t.2) g b /\
    (b = true <->
     freeFor g pc t /\ (t.1 = row pc \/ t.2 = col pc) /\
     obstaclesBetween g (row pc, col pc) t = 0).
Proof.
  intros Hwf Hp Hk Hsrc Htgt.
  apply (rule_decides g p pc t); try assumption. apply ruleOf_rook, Hk.
Qed.

Lemma rook_rule_witness :
  wf openingGame /\
  exists b, reads (isValidMove (Some 16%nat) 7 0) openingGame b /\
    (b = true <->
     freeFor openingGame (Piece red rook 9 0) (7, 0) /\
     (7 = 9 \/ 0 = 0) /\ obstaclesBetween openingGame (9, 0) (7, 0) = 0).
Proof.
  split; [vm_compute; reflexivity|].
  apply (rook_rule openingGame 16%nat (Piece red rook 9 0) (7, 0));
    vm_compute; reflexivity.
Defined.

(** X6 -- The pawn moves one step forward (towards row 0 for red, towards row 9
    for black); once it stands beyond the river (rows 0 to 4 for red, 5 to 9
    for black) it may also move one step sideways; it never moves
    backwards. *)
Theorem pawn_rule g p pc t :
  wf g -> pieces g !! p = Some pc -> type pc = pawn ->
  inGrid (row pc, col pc) = true -> inGrid t = true ->
  exists b, reads (isValidMove (Some p) t.1 t.2) g b /\
    (b = true <->
     freeFor g pc t /\
     match color pc with
     | red => t = (row pc - 1, col pc) \/
              (row pc <= 4 /\ t.1 = row pc /\ Z.abs (t.2 - col pc) = 1)
     | black => t = (row pc + 1, col pc) \/
                (5 <= row pc /\ t.1 = row pc /\ Z.abs (t.2 - col pc) = 1)
     end).
Proof.
  intros Hwf Hp Hk Hsrc Htgt.
  apply (rule_decides g p pc t); try assumption. apply ruleOf_pawn, Hk.
Qed.

Lemma pawn_rule_witness :
  wf openingGame /\
  exists b, reads (isValidMove (Some 27%nat) 5 0) openingGame b /\
    (b = true <->
     freeFor openingGame (Piece red pawn 6 0) (5, 0) /\
     ((5, 0) = (6 - 1, 0) \/ (6 <= 4 /\ 5 = 6 /\ Z.abs (0 - 0) = 1))).
Proof.
  split; [vm_compute; reflexivity|].
  apply (pawn_rule openingGame 27%nat (Piece red pawn 6 0) (5, 0));
    vm_compute; reflexivity.
Defined.

(** X7 -- For a piece standing on the board, a target row outside 0..9 makes
    [isValidMove] raise: the row [this.board[targetR]] does not exist. *)
Theorem isValidMove_raises_off_rows g p pc tr tc :
  wf g -> pieces g !! p = Some pc -> inGrid (row pc, col pc) = true ->
  ~ (0 <= tr < 10) ->
  isValidMove (Some p) tr tc g = None.
Proof. apply isValidMove_row_off_board. Qed.

Lemma isValidMove_raises_off_rows_witness :
  wf openingGame /\ isValidMove (Some 16%nat) 10 0 openingGame = None.
Proof.
  split; [vm_compute; reflexivity|].
  apply (isValidMove_raises_off_rows openingGame 16%nat (Piece red rook 9 0));
    [vm_compute; reflexivity .. | lia].
Defined.

(** X8 -- The candidate list of [getPossibleDestinations] has no duplicates and
    leaves out no cell of the board that [isValidMove] accepts for the
    piece: the filter in front of the rule check loses no move. *)
Theorem destinations_cover_rule g p pc t :
  wf g -> pieces g !! p = Some pc ->
  inGrid (row pc, col pc) = true -> inGrid t = true ->
  reads (isValidMove (Some p) t.1 t.2) g true ->
  t ∈ getPossibleDestinations pc /\ NoDup (getPossibleDestinations pc).
Proof.
  intros Hwf Hp Hsrc Htgt Hok. split; [|apply NoDup_getPossibleDestinations].
  apply (ruleOf_destination g); [exact Htgt|].
  exact (reads_det _ _ _ _ (isValidMove_reads g p pc t Hwf Hp Hsrc Htgt) Hok).
Qed.

Lemma destinations_cover_rule_witness :
  wf openingGame /\
  (7, 2) ∈ getPossibleDestinations (Piece red horse 9 1) /\
  NoDup (getPossibleDestinations (Piece red horse 9 1)).
Proof.
  split; [vm_compute; reflexivity|].
  apply (destinations_cover_rule openingGame 17%nat (Piece red horse 9 1) (7, 2));
    try (vm_compute; reflexivity).
  exists [(7, 2); (8, 1)]. split; [vm_compute; reflexivity|].
  repeat constructor.
Defined.

(** X9 -- [generateLegalMoves] returns exactly the moves of the side that pass
    [isValidMove] and do not leave the kings facing each other, each of them
    once: the stable sort of the moves in the order of the double loop. *)
Theorem generateLegalMoves_complete g s :
  wf g ->
  exists ms,
    runs (generateLegalMoves s) g ms g /\
    ms = sortMoves (generated s g) /\ NoDup ms /\
    forall mv, mv ∈ ms <-> accepted g s mv.
Proof.
  intros Hwf. exists (sortMoves (generated s g)).
  split; [apply generateLegalMoves_exact, Hwf|]. split; [reflexivity|]. split.
  - rewrite sortMoves_perm. apply NoDup_generated, Hwf.
  - intros mv. rewrite sortMoves_elem. apply elem_of_generated, Hwf.
Qed.

Lemma generateLegalMoves_complete_witness :
  wf openingGame /\
  exists ms,
    runs (generateLegalMoves red) openingGame ms openingGame /\
    ms = sortMoves (generated red openingGame) /\ NoDup ms /\
    forall mv, mv ∈ ms <-> accepted openingGame red mv.
Proof.
  split; [vm_compute; reflexivity|].
  apply (generateLegalMoves_complete openingGame red). vm_compute. reflexivity.
Defined.

(** * The player's move, accepted *)

Lemma pieceAt_wf g i x :
  wf g -> inGrid i = true -> occupant g i = Some x ->
  exists px, pieceAt g i = Some px /\ pieces g !! x = Some px /\
             (row px, col px) = i.
Proof.
  intros Hwf Hin Ex. destruct (wf_occupant _ _ _ Hwf Hin Ex) as (px & Hx & Hr & Hc).
  exists px. unfold pieceAt. rewrite Ex. repeat split; try assumption.
  destruct i. cbn [fst snd] in *. congruence.
Qed.

Lemma pieceAt_moved g p pc src dst j :
  wf g -> inGrid src = true -> inGrid dst = true -> inGrid j = true ->
  pieces g !! p = Some pc -> (row pc, col pc) = src ->
  pieceAt (moved g p pc src dst) j =
  if decide (dst = j) then Some (placedAt pc dst)
  else if decide (src = j) then None else pieceAt g j.
Proof.
  intros Hwf Hsrc Hdst Hj Hp Epos. unfold pieceAt.
  rewrite occupant_moved by assumption.
  destruct (decide (dst = j)); [apply pieces_moved_self; exact Hp|].
  destruct (decide (src = j)); [reflexivity|].
  destruct (occupant g j) as [q|] eqn:Eq; [|reflexivity].
  apply pieces_moved_other.
  eapply (other_cell_other_piece g p pc src j); eassumption.
Qed.

Lemma isKingOf_pieceAt g s i :
  isKingOf g s i =
  match pieceAt g i with
  | Some px => is_king (type px) && side_eqb (color px) s
  | None => false
  end.
Proof. unfold isKingOf, pieceAt. destruct (occupant g i); reflexivity. Qed.

Lemma kingOn_pieceAt g i :
  kingOn g i = match pieceAt g i with
               | Some px => is_king (type px)
               | None => false
               end.
Proof.
  unfold kingOn. rewrite !isKingOf_pieceAt.
  destruct (pieceAt g i) as [px|]; [|reflexivity].
  destruct (is_king (type px)), (color px); reflexivity.
Qed.

Lemma isKingOf_moved g p pc src dst s j :
  wf g -> inGrid src = true -> inGrid dst = true -> inGrid j = true ->
  pieces g !! p = Some pc -> (row pc, col pc) = src ->
  isKingOf (moved g p pc src dst) s j =
  if decide (dst = j) then is_king (type pc) && side_eqb (color pc) s
  else if decide (src = j) then false else isKingOf g s j.
Proof.
  intros Hwf Hsrc Hdst Hj Hp Epos.
  rewrite !isKingOf_pieceAt, pieceAt_moved by assumption.
  destruct (decide (dst = j)); [reflexivity|].
  destruct (decide (src = j)); reflexivity.
Qed.

(** ** Kings in play *)

Lemma inPalace_columns s a : inPalace s a -> 3 <= a.2 <= 5.
Proof. intros [H _]. exact H. Qed.

(** When the kings are confined to columns 3 to 5 and no side has two, the
    scan of [kingsFacing] finds them, and its answer is exact. *)
Lemma kingsFacing_decides g :
  wf g -> (forall s a, kingAt g s a -> 3 <= a.2 <= 5) -> atMostOneKing g ->
  (facingOf g (kingsFound g) = true <-> kingsFace g).
Proof.
  intros Hwf Hcols Huniq. split.
  - intros Hv. destruct (kingsFound g) as [rK bK] eqn:E.
    unfold facingOf in Hv.
    destruct rK as [rK|]; [|discriminate Hv].
    destruct bK as [bK|]; [|discriminate Hv].
    apply andb_true_iff in Hv as [H1 H2]. apply Z.eqb_eq in H1, H2.
    destruct (kingsFound_sound g red rK) as [Hr _]; [rewrite E; reflexivity|].
    destruct (kingsFound_sound g black bK) as [Hb _]; [rewrite E; reflexivity|].
    exists rK, bK. split; [exact Hr|]. split; [exact Hb|]. split; assumption.
  - intros (a & b & Ha & Hb & Hcol & Hobs).
    assert (Er : pick red (kingsFound g) = Some a).
    { apply kingsFound_complete;
        [exact Ha | apply (Hcols red); exact Ha
        | intros c Hc _; symmetry; apply (Huniq red); assumption]. }
    assert (Eb : pick black (kingsFound g) = Some b).
    { apply kingsFound_complete;
        [exact Hb | apply (Hcols black); exact Hb
        | intros c Hc _; symmetry; apply (Huniq black); assumption]. }
    destruct (kingsFound g) as [rK bK]. cbn [pick fst snd] in Er, Eb.
    subst rK bK. unfold facingOf.
    apply andb_true_iff. split; apply Z.eqb_eq; assumption.
Qed.

Lemma kingAt_moved g p pc src dst s a :
  wf g -> inGrid src = true -> inGrid dst = true ->
  pieces g !! p = Some pc -> (row pc, col pc) = src ->
  occupant g src = Some p ->
  kingAt (moved g p pc src dst) s a ->
  (a = dst /\ type pc = king /\ color pc = s /\ kingAt g s src) \/
  (a <> dst /\ a <> src /\ kingAt g s a).
Proof.
  intros Hwf Hsrc Hdst Hp Epos Hocc [Ha Hk].
  rewrite isKingOf_moved in Hk by assumption.
  destruct (decide (dst = a)) as [->|Hne].
  - left. apply andb_true_iff in Hk as [Hk Hs].
    assert (type pc = king) by (destruct (type pc); simpl in Hk; congruence).
    assert (color pc = s) by (destruct (color pc), s; simpl in Hs; congruence).
    repeat split; try assumption.
    unfold isKingOf. rewrite Hocc, Hp, Hk, Hs. reflexivity.
  - destruct (decide (src = a)); [discriminate|].
    right. repeat split; try assumption; congruence.
Qed.

Lemma kingsHome_moved g p pc src dst :
  wf g -> inGrid src = true -> inGrid dst = true ->
  pieces g !! p = Some pc -> (row pc, col pc) = src ->
  occupant g src = Some p -> ruleOf g pc dst = true ->
  kingsHome g -> kingsHome (moved g p pc src dst).
Proof.
  intros Hwf Hsrc Hdst Hp Epos Hocc Hrule Hhome s a Ha.
  destruct (kingAt_moved g p pc src dst s a Hwf Hsrc Hdst Hp Epos Hocc Ha)
    as [(-> & Hk & <- & _)|(_ & _ & Hold)].
  - apply ruleOf_king in Hrule as (_ & _ & Hpal); assumption.
  - apply Hhome, Hold.
Qed.

Lemma atMostOneKing_moved g p pc src dst :
  wf g -> inGrid src = true -> inGrid dst = true ->
  pieces g !! p = Some pc -> (row pc, col pc) = src ->
  occupant g src = Some p ->
  atMostOneKing g -> atMostOneKing (moved g p pc src dst).
Proof.
  intros Hwf Hsrc Hdst Hp Epos Hocc Hone s a b Ha Hb.
  destruct (kingAt_moved g p pc src dst s a Hwf Hsrc Hdst Hp Epos Hocc Ha)
    as [(-> & _ & _ & Hka)|(Ha1 & Ha2 & Hka)];
  destruct (kingAt_moved g p pc src dst s b Hwf Hsrc Hdst Hp Epos Hocc Hb)
    as [(-> & _ & _ & Hkb)|(Hb1 & Hb2 & Hkb)].
  - reflexivity.
  - exfalso. apply Hb2. apply (Hone s); assumption.
  - exfalso. apply Ha2. apply (Hone s); assumption.
  - apply (Hone s); assumption.
Qed.

Lemma kingAt_flags g s o c a :
  kingAt (Game (pieces g) (board g) s o) c a <-> kingAt g c a.
Proof. reflexivity. Qed.

(** The opening position. *)
Lemma opening_kings :
  wf openingGame /\ kingsHome openingGame /\ atMostOneKing openingGame.
Proof.
  assert (Hwf : wf openingGame) by (vm_compute; reflexivity).
  assert (Hconf : forall s a, kingAt openingGame s a ->
                              a = match s with red => (9, 4) | black => (0, 4) end).
  { intros s a [Hin Hk]. apply inGrid_allCells, list_elem_of_In in Hin.
    assert (Hall : forallb (fun a =>
                     negb (isKingOf openingGame s a)
                     || ((a.1 =? match s with red => 9 | black => 0 end)
                         && (a.2 =? 4))) allCells = true)
      by (destruct s; vm_compute; reflexivity).
    rewrite forallb_forall in Hall. specialize (Hall a Hin).
    rewrite Hk in Hall. cbn [negb orb] in Hall. b2p.
    destruct a as [r c], s; cbn [fst snd] in *; congruence. }
  split; [exact Hwf|]. split.
  - intros s a Ha. rewrite (Hconf s a Ha). destruct s; unfold inPalace; simpl; lia.
  - intros s a b Ha Hb. rewrite (Hconf s a Ha), (Hconf s b Hb). reflexivity.
Qed.

Lemma occupant_inGrid g i p :
  wf g -> occupant g i = Some p -> inGrid i = true.
Proof.
  intros Hwf Hocc. destruct (wf_shape _ Hwf) as [Hlen Hrows].
  unfold occupant, getCell in Hocc. destruct i as [r c]. cbn [fst snd] in Hocc.
  destruct (r <? 0) eqn:Er; [discriminate|].
  destruct (board g !! Z.to_nat r) as [rw|] eqn:Erw; [|discriminate].
  destruct (c <? 0) eqn:Ec; [discriminate|]. cbn [default] in Hocc.
  destruct (rw !! Z.to_nat c) as [v|] eqn:Ev; [|discriminate].
  pose proof (Hrows _ _ Erw) as Hrw.
  apply lookup_lt_Some in Erw, Ev. rewrite Hrw in Ev.
  b2p. apply inGrid_spec. lia.
Qed.

Lemma reads_rule g p pc t :
  wf g -> pieces g !! p = Some pc ->
  inGrid (row pc, col pc) = true -> inGrid t = true ->
  forall b, ruleOf g pc t = b -> reads (isValidMove (Some p) t.1 t.2) g b.
Proof. intros Hwf Hp Hsrc Ht b <-. apply isValidMove_reads; assumption. Qed.

Lemma reads_facing g b :
  wf g -> facingOf g (kingsFound g) = b -> reads kingsFacing g b.
Proof. intros Hwf <-. apply kingsFacing_reads, Hwf. Qed.

(** * Counting obstacles *)

Lemma cellsBetween_sym a b : cellsBetween a b = cellsBetween b a.
Proof.
  unfold cellsBetween. rewrite (Z.eqb_sym b.1 a.1), (Z.eqb_sym b.2 a.2).
  rewrite (Z.min_comm b.2 a.2), (Z.max_comm b.2 a.2).
  rewrite (Z.min_comm b.1 a.1), (Z.max_comm b.1 a.1).
  destruct (a.1 =? b.1) eqn:E1; [apply Z.eqb_eq in E1; rewrite E1; reflexivity|].
  destruct (a.2 =? b.2) eqn:E2; [apply Z.eqb_eq in E2; rewrite E2; reflexivity|].
  reflexivity.
Qed.

Lemma cellsBetween_unaligned a b :
  a.1 <> b.1 -> a.2 <> b.2 -> cellsBetween a b = [].
Proof.
  intros H1 H2. unfold cellsBetween.
  apply Z.eqb_neq in H1, H2. rewrite H1, H2. reflexivity.
Qed.

(** X12 -- For two cells of the board [countObstacles] raises nothing and reads
    only cells of the board; it returns the number of occupied cells
    strictly between the two when they share a row or a column, the same
    number in both directions, and 0 when they share neither or are the same
    cell. *)
Theorem countObstacles_counts g a b :
  wf g -> inGrid a = true -> inGrid b = true ->
  exists n,
    reads (countObstacles a.1 a.2 b.1 b.2) g n /\
    reads (countObstacles b.1 b.2 a.1 a.2) g n /\
    n = obstaclesBetween g a b /\
    (a.1 <> b.1 -> a.2 <> b.2 -> n = 0) /\ (a = b -> n = 0).
Proof.
  intros Hwf Ha Hb. pose proof (wf_shape _ Hwf) as Hs.
  exists (obstaclesBetween g a b).
  split; [apply countObstacles_reads; assumption|].
  split; [|split; [reflexivity|split]].
  - replace (obstaclesBetween g a b) with (obstaclesBetween g b a).
    + apply countObstacles_reads; assumption.
    + unfold obstaclesBetween. rewrite cellsBetween_sym. reflexivity.
  - intros H1 H2. unfold obstaclesBetween.
    rewrite cellsBetween_unaligned by assumption. reflexivity.
  - intros ->. apply obstaclesBetween_self.
Qed.

Lemma countObstacles_counts_witness :
  wf openingGame /\
  exists n,
    reads (countObstacles 7 1 0 1) openingGame n /\
    reads (countObstacles 0 1 7 1) openingGame n /\
    n = obstaclesBetween openingGame (7, 1) (0, 1).
Proof.
  assert (Hwf : wf openingGame) by (vm_compute; reflexivity).
  split; [exact Hwf|].
  destruct (countObstacles_counts openingGame (7, 1) (0, 1) Hwf eq_refl eq_refl)
    as (n & H1 & H2 & H3 & _).
  exists n. split; [exact H1|]. split; [exact H2 | exact H3].
Defined.

(** * More on the search *)

(** X13 -- The contract of the pruned search for any window and either kind of
    node: it raises nothing, hands the position back, and returns the score
    of the full minimax when that score lies strictly inside the window
    (together with its move), otherwise a bound on the same side of the
    window. *)
Theorem alphabeta_window_contract g myColor depth alpha beta isMaximizing :
  wf g -> num_ltb alpha beta = true ->
  exists r,
    runs (minimax depth alpha beta isMaximizing myColor) g r g /\
    bounded alpha beta (rscore (minimaxFull depth isMaximizing myColor g))
            (rscore r) /\
    (num_ltb alpha (rscore (minimaxFull depth isMaximizing myColor g)) = true ->
     num_ltb (rscore (minimaxFull depth isMaximizing myColor g)) beta = true ->
     r = minimaxFull depth isMaximizing myColor g).
Proof.
  intros Hwf Hlt.
  destruct (minimax_agrees myColor depth g alpha beta isMaximizing Hwf Hlt)
    as (r & Hr & Hb & Hbest).
  exists r. split; [exact Hr|]. split; [exact Hb|]. intros H1 H2.
  destruct Hb as (_ & Hsc & _). specialize (Hsc H1 H2). specialize (Hbest H1 H2).
  destruct r as [b sc], (minimaxFull depth isMaximizing myColor g) as [b' sc'].
  cbn [rscore best] in *. congruence.
Qed.

Lemma alphabeta_window_contract_witness :
  wf openingGame /\
  exists r,
    runs (minimax 1 (Fin (-50)) (Fin 50) false red) openingGame r openingGame /\
    bounded (Fin (-50)) (Fin 50)
            (rscore (minimaxFull 1 false red openingGame)) (rscore r).
Proof.
  assert (Hwf : wf openingGame) by (vm_compute; reflexivity).
  split; [exact Hwf|].
  destruct (alphabeta_window_contract openingGame red 1 (Fin (-50)) (Fin 50)
              false Hwf eq_refl) as (r & H1 & H2 & _).
  exists r. split; assumption.
Defined.

Lemma foldl_betterMax_elem value ms acc e :
  best (foldl (betterMax value) acc ms) = Some e ->
  best acc = Some e \/ exists mv, mv ∈ ms /\ endsOf mv = e.
Proof.
  revert acc. induction ms as [|mv ms IH]; intros acc H; [left; exact H|].
  cbn [foldl] in H. apply IH in H as [H|(m & Hm & He)].
  - unfold betterMax in H. destruct (num_ltb _ _); [|left; exact H].
    right. exists mv. split; [apply list_elem_of_here|].
    cbn [best] in H. injection H as <-. reflexivity.
  - right. exists m. split; [apply list_elem_of_further, Hm | exact He].
Qed.

(** X14 -- The search of depth 1 or more, started with the full window, reports
    a move exactly when the side has one, and the move it reports is one of
    those [generateLegalMoves] returns: a piece of the side, a target its
    rule allows, the kings not facing afterwards.  Without a move the score
    is -100000. *)
Theorem search_reports_a_legal_move g s d :
  wf g ->
  exists r ms,
    runs (minimax (S d) NegInf PosInf true s) g r g /\
    runs (generateLegalMoves s) g ms g /\
    (best r = None <-> ms = []) /\
    (best r = None -> rscore r = Fin (-100000)) /\
    (forall e, best r = Some e ->
       exists mv, mv ∈ ms /\ endsOf mv = e /\ accepted g s mv).
Proof.
  intros Hwf.
  pose proof (generateLegalMoves_exact g s Hwf) as Hgen.
  pose proof (movesOf_runs _ _ _ _ Hgen) as Emoves.
  exists (minimaxFull (S d) true s g), (sortMoves (generated s g)).
  split; [apply minimax_runs_full, Hwf|]. split; [exact Hgen|].
  split; [rewrite minimaxFull_best, Emoves; reflexivity|]. split.
  - intros Hnone. apply minimaxFull_best in Hnone.
    rewrite minimaxFull_S, Hnone. reflexivity.
  - intros e He. rewrite minimaxFull_S, Emoves in He.
    destruct (sortMoves (generated s g)) as [|m0 ms0] eqn:Ems; [discriminate|].
    apply foldl_betterMax_elem in He as [He|(mv & Hmv & Hends)]; [discriminate|].
    exists mv. split; [exact Hmv|]. split; [exact Hends|].
    rewrite <- Ems in Hmv. apply (proj1 (sortMoves_elem _ _)) in Hmv.
    apply elem_of_generated in Hmv; assumption.
Qed.

Lemma search_reports_a_legal_move_witness :
  wf openingGame /\
  exists r ms,
    runs (minimax 1 NegInf PosInf true red) openingGame r openingGame /\
    runs (generateLegalMoves red) openingGame ms openingGame /\
    (best r = None <-> ms = []).
Proof.
  assert (Hwf : wf openingGame) by (vm_compute; reflexivity).
  split; [exact Hwf|].
  destruct (search_reports_a_legal_move openingGame red 0 Hwf)
    as (r & ms & H1 & H2 & H3 & _).
  exists r, ms. split; [exact H1|]. split; assumption.
Defined.

(** * The evaluation seen from the other side *)

Lemma getCell_reverse b r c :
  gridShape b -> inGrid (r, c) = true ->
  getCell (reverse b) r c = getCell b (9 - r) c.
Proof.
  intros [Hlen _] Hin. apply inGrid_spec in Hin. unfold getCell.
  replace (r <? 0) with false by (symmetry; apply Z.ltb_ge; lia).
  replace (9 - r <? 0) with false by (symmetry; apply Z.ltb_ge; lia).
  rewrite reverse_lookup by lia. rewrite Hlen.
  replace (10 - S (Z.to_nat r))%nat with (Z.to_nat (9 - r)) by lia.
  reflexivity.
Qed.

Lemma flip_shape b : gridShape b -> gridShape (reverse b).
Proof.
  intros [Hlen Hrows]. split; [rewrite length_reverse; exact Hlen|].
  intros i rw Hi. apply list_elem_of_lookup_2 in Hi.
  rewrite elem_of_reverse in Hi.
  apply list_elem_of_lookup_1 in Hi as [j Hj]. eapply Hrows, Hj.
Qed.

Lemma occupant_flip g r c :
  gridShape (board g) -> inGrid (r, c) = true ->
  occupant (flipGame g) (r, c) = occupant g (9 - r, c).
Proof.
  intros Hs Hin. unfold occupant. cbn [flipGame board fst snd].
  rewrite getCell_reverse by assumption. reflexivity.
Qed.

Lemma inGrid_flip r c : inGrid (r, c) = true -> inGrid (9 - r, c) = true.
Proof. intros H. apply inGrid_spec in H. apply inGrid_spec. lia. Qed.

Lemma wf_flip g : wf g -> wf (flipGame g).
Proof.
  intros Hwf. pose proof (wf_shape _ Hwf) as Hs. apply wf_intro.
  - apply flip_shape, Hs.
  - intros [r c] p Hin Hocc. rewrite occupant_flip in Hocc by assumption.
    destruct (wf_occupant _ _ _ Hwf (inGrid_flip _ _ Hin) Hocc)
      as (pc & Hp & Hr & Hc).
    exists (flipPiece pc). cbn [flipGame pieces fst snd] in *.
    rewrite list_lookup_fmap, Hp. split; [reflexivity|].
    unfold flipPiece. cbn [row col]. lia.
Qed.

Lemma side_eqb_opponent a b : side_eqb (opponent a) b = side_eqb a (opponent b).
Proof. destruct a, b; reflexivity. Qed.

Lemma pieceValue_flip px r c :
  pieceValue (flipPiece px) r c = pieceValue px (9 - r) c.
Proof.
  unfold pieceValue, flipPiece. cbn [type color].
  destruct (color px); cbn [opponent]; [reflexivity|].
  replace (9 - (9 - r)) with r by lia. reflexivity.
Qed.

Lemma modular_pieceValue_flip px r :
  Modular.pieceValue (flipPiece px) r = Modular.pieceValue px (9 - r).
Proof.
  unfold Modular.pieceValue, flipPiece. cbn [type color].
  destruct (type px); try reflexivity.
  destruct (color px); cbn [opponent side_eqb andb];
    destruct (r <? 5) eqn:E1, (9 - r >? 4) eqn:E2,
             (r >? 4) eqn:E3, (9 - r <? 5) eqn:E4;
    b2p; try lia; reflexivity.
Qed.

Lemma contribution_flip s g r c :
  wf g -> inGrid (r, c) = true ->
  contribution s (flipGame g) (r, c) = contribution (opponent s) g (9 - r, c).
Proof.
  intros Hwf Hin. pose proof (wf_shape _ Hwf) as Hs. unfold contribution.
  rewrite occupant_flip by assumption.
  destruct (occupant g (9 - r, c)) as [x|]; [|reflexivity].
  cbn [flipGame pieces fst snd]. rewrite list_lookup_fmap.
  destruct (pieces g !! x) as [px|]; [|reflexivity]. cbn [fmap option_fmap option_map].
  rewrite pieceValue_flip. change (color (flipPiece px)) with (opponent (color px)).
  rewrite side_eqb_opponent. reflexivity.
Qed.

Lemma modularContribution_flip s g r c :
  wf g -> inGrid (r, c) = true ->
  modularContribution s (flipGame g) (r, c)
  = modularContribution (opponent s) g (9 - r, c).
Proof.
  intros Hwf Hin. pose proof (wf_shape _ Hwf) as Hs. unfold modularContribution.
  rewrite occupant_flip by assumption.
  destruct (occupant g (9 - r, c)) as [x|]; [|reflexivity].
  cbn [flipGame pieces fst snd]. rewrite list_lookup_fmap.
  destruct (pieces g !! x) as [px|]; [|reflexivity]. cbn [fmap option_fmap option_map].
  rewrite modular_pieceValue_flip.
  change (color (flipPiece px)) with (opponent (color px)).
  rewrite side_eqb_opponent. reflexivity.
Qed.

Lemma sumZ_ext {X} (h k : X -> Z) l :
  (forall x, x ∈ l -> h x = k x) -> sumZ h l = sumZ k l.
Proof.
  induction l as [|x l IH]; intros H; [reflexivity|]. simpl.
  rewrite (H x) by apply list_elem_of_here.
  rewrite IH; [reflexivity|]. intros y Hy. apply H, list_elem_of_further, Hy.
Qed.

Lemma sumZ_rows_reversed (h : Z -> Z) :
  sumZ (fun r => h (9 - r)) (seqZ 0 10) = sumZ h (seqZ 0 10).
Proof.
  change (seqZ 0 10) with [0; 1; 2; 3; 4; 5; 6; 7; 8; 9].
  unfold sumZ. cbn [foldr].
  change (9 - 0) with 9. change (9 - 1) with 8. change (9 - 2) with 7.
  change (9 - 3) with 6. change (9 - 4) with 5. change (9 - 5) with 4.
  change (9 - 6) with 3. change (9 - 7) with 2. change (9 - 8) with 1.
  change (9 - 9) with 0. lia.
Qed.

Lemma boardScore_flip s g :
  wf g -> boardScore s (flipGame g) = boardScore (opponent s) g.
Proof.
  intros Hwf. unfold boardScore.
  rewrite <- (sumZ_rows_reversed
                (fun r => sumZ (fun c => contribution (opponent s) g (r, c))
                               (seqZ 0 9))).
  apply sumZ_ext. intros r Hr. apply sumZ_ext. intros c Hc.
  apply elem_of_seqZ in Hr, Hc.
  apply contribution_flip; [exact Hwf | apply inGrid_spec; lia].
Qed.

Lemma modularBoardScore_flip s g :
  wf g -> modularBoardScore s (flipGame g) = modularBoardScore (opponent s) g.
Proof.
  intros Hwf. unfold modularBoardScore.
  rewrite <- (sumZ_rows_reversed
                (fun r => sumZ (fun c => modularContribution (opponent s) g (r, c))
                               (seqZ 0 9))).
  apply sumZ_ext. intros r Hr. apply sumZ_ext. intros c Hc.
  apply elem_of_seqZ in Hr, Hc.
  apply modularContribution_flip; [exact Hwf | apply inGrid_spec; lia].
Qed.

(** X15 -- The evaluation treats the two sides alike: seen from the other side of
    the board (rows in the opposite order, colours exchanged) a position is
    worth to one side what the original is worth to the other.  The tables
    are read at row [9 - r] for black for this purpose.  The same holds for
    the evaluation of the modular copy, with its pawn bonus. *)
Theorem evaluateBoard_mirror g s :
  wf g ->
  wf (flipGame g) /\
  (exists v, reads (evaluateBoard s) g v /\
             reads (evaluateBoard (opponent s)) (flipGame g) v) /\
  (exists v, reads (Modular.evaluateBoard s) g v /\
             reads (Modular.evaluateBoard (opponent s)) (flipGame g) v).
Proof.
  intros Hwf. pose proof (wf_flip _ Hwf) as Hwf'. split; [exact Hwf'|]. split.
  - exists (boardScore s g). split; [apply evaluateBoard_reads, Hwf|].
    replace (boardScore s g) with (boardScore (opponent s) (flipGame g)).
    + apply evaluateBoard_reads, Hwf'.
    + rewrite boardScore_flip by exact Hwf. destruct s; reflexivity.
  - exists (modularBoardScore s g).
    split; [apply modular_evaluateBoard_reads, Hwf|].
    replace (modularBoardScore s g)
      with (modularBoardScore (opponent s) (flipGame g)).
    + apply modular_evaluateBoard_reads, Hwf'.
    + rewrite modularBoardScore_flip by exact Hwf. destruct s; reflexivity.
Qed.

Lemma evaluateBoard_mirror_witness :
  wf (afterMove openingGame (Move (7, 1) (0, 1) 400)) /\
  exists v,
    reads (evaluateBoard red) (afterMove openingGame (Move (7, 1) (0, 1) 400)) v /\
    reads (evaluateBoard black)
          (flipGame (afterMove openingGame (Move (7, 1) (0, 1) 400))) v.
Proof.
  assert (Hwf : wf (afterMove openingGame (Move (7, 1) (0, 1) 400)))
    by (vm_compute; reflexivity).
  split; [exact Hwf|].
  destruct (evaluateBoard_mirror _ red Hwf) as (_ & H & _). exact H.
Defined.

(** X16 -- The evaluation of the modular copy is antisymmetric as well. *)
Theorem modular_evaluateBoard_antisymmetric g :
  wf g ->
  exists v, reads (Modular.evaluateBoard red) g v /\
            reads (Modular.evaluateBoard black) g (- v).
Proof.
  intros Hwf. exists (modularBoardScore red g).
  split; [apply modular_evaluateBoard_reads, Hwf|].
  rewrite <- modularBoardScore_opp. apply modular_evaluateBoard_reads, Hwf.
Qed.

Lemma modular_evaluateBoard_antisymmetric_witness :
  wf openingGame /\
  exists v, reads (Modular.evaluateBoard red) openingGame v /\
            reads (Modular.evaluateBoard black) openingGame (- v).
Proof.
  assert (Hwf : wf openingGame) by (vm_compute; reflexivity).
  split; [exact Hwf|]. exact (modular_evaluateBoard_antisymmetric _ Hwf).
Defined.

(** * The modular copy *)

Lemma modular_tryDestination_exact g p pc moves dest :
  wf g -> inGrid (row pc, col pc) = true -> inGrid dest = true ->
  occupant g (row pc, col pc) = Some p -> pieces g !! p = Some pc ->
  runs (Modular.tryDestination p moves dest) g
       (moves ++ (unscored <$> candidate g p pc dest)) g.
Proof.
  intros Hwf Hsrc Hdst Hocc Hp.
  pose proof (wf_shape _ Hwf) as Hs.
  pose proof (isValidMove_reads g p pc dest Hwf Hp Hsrc Hdst) as Hok.
  destruct dest as [tr tc]. cbn [fst snd] in Hok.
  unfold Modular.tryDestination, candidate. cbv zeta. cbn [fst snd].
  destruct (ruleOf g pc (tr, tc)) eqn:Erule; cbn [andb].
  2: { cbn [fmap list_fmap]. rewrite app_nil_r.
       eapply runs_bind; [apply runs_lift; exact Hok | apply runs_ret]. }
  pose proof (wf_moved g p pc _ (tr, tc) Hwf Hsrc Hdst Hp eq_refl) as Hwf3.
  pose proof (kingsFacing_reads _ Hwf3) as Hkf.
  eapply runs_bind; [apply runs_lift; exact Hok|]. cbv beta iota.
  eapply runs_bind; [apply runs_lift, rd_reads; assumption|].
  eapply runs_bind; [apply runs_lift, deref_reads; exact Hp|].
  eapply runs_bind; [apply wr_runs; assumption|].
  eapply runs_bind.
  { apply wr_runs; [|exact Hdst]. simpl. apply setAt_shape; assumption. }
  eapply runs_bind; [apply setPos_runs; simpl; exact Hp|].
  eapply runs_bind; [apply runs_lift; exact Hkf|]. cbv beta iota.
  destruct (facingOf (moved g p pc (row pc, col pc) (tr, tc))
                     (kingsFound (moved g p pc (row pc, col pc) (tr, tc))));
    cbn [negb fmap list_fmap]; rewrite ?app_nil_r;
    (eapply runs_bind; [apply runs_ret|]);
    exact (takeBack_runs g p pc (row pc, col pc) (tr, tc) (Some p) _ _
             Hwf Hp eq_refl Hsrc Hdst (eq_sym Hocc) eq_refl).
Qed.

Lemma fmap_bind_list {X Y Z'} (f : Y -> Z') (h : X -> list Y) (l : list X) :
  f <$> (x ← l; h x) = (x ← l; f <$> h x).
Proof.
  induction l as [|x l IH]; [reflexivity|].
  rewrite !bind_cons, fmap_app, IH. reflexivity.
Qed.

Lemma modular_scanCell_exact g s moves r c :
  wf g -> inGrid (r, c) = true ->
  runs (Modular.scanCell s moves r c) g
       (moves ++ (unscored <$> cellMoves s g (r, c))) g.
Proof.
  intros Hwf Hin. pose proof (wf_shape _ Hwf) as Hs.
  unfold Modular.scanCell, cellMoves.
  eapply runs_bind; [apply runs_lift, rd_reads; assumption|].
  destruct (occupant g (r, c)) as [x|] eqn:Ex.
  2: { cbn [fmap list_fmap]. rewrite app_nil_r. apply runs_ret. }
  destruct (wf_occupant _ _ _ Hwf Hin Ex) as (px & Hx & Hr & Hc).
  cbn [fst snd] in Hr, Hc. rewrite Hx.
  eapply runs_bind; [apply runs_lift, deref_reads; eassumption|].
  destruct (side_eqb (color px) s).
  2: { cbn [fmap list_fmap]. rewrite app_nil_r. apply runs_ret. }
  rewrite fmap_bind_list.
  apply (foldM_collect (Modular.tryDestination x)
           (fun d => unscored <$> candidate g x px d)
           (fun d => inGrid d = true)).
  - intros acc d Hd. apply modular_tryDestination_exact; try assumption.
    + rewrite Hr, Hc. exact Hin.
    + rewrite Hr, Hc. exact Ex.
  - apply getPossibleDestinations_inGrid. rewrite Hr, Hc. exact Hin.
Qed.

Lemma modular_generateLegalMoves_exact g s :
  wf g -> runs (Modular.generateLegalMoves s) g (unscored <$> generated s g) g.
Proof.
  intros Hwf. unfold Modular.generateLegalMoves, generated.
  rewrite fmap_bind_list.
  apply (foldM_collect
           (fun moves r =>
              foldM (fun moves c => Modular.scanCell s moves r c)
                    (seqZ 0 BOARD_COLS) moves)
           (fun r => unscored <$> (c ← seqZ 0 9; cellMoves s g (r, c)))
           (fun r => 0 <= r < 10) g) with (acc := []).
  - intros acc r Hr. rewrite fmap_bind_list.
    apply (foldM_collect (fun moves c => Modular.scanCell s moves r c)
             (fun c => unscored <$> cellMoves s g (r, c))
             (fun c => 0 <= c < 9)).
    + intros acc' c Hc. apply modular_scanCell_exact; [exact Hwf|].
      apply inGrid_spec. lia.
    + apply Forall_forall. intros c Hc.
      apply list_elem_of_In, elem_of_seqZ in Hc. unfold BOARD_COLS in Hc. lia.
  - apply Forall_forall. intros r Hr.
    apply list_elem_of_In, elem_of_seqZ in Hr. unfold BOARD_ROWS in Hr. lia.
Qed.

(** C8, the modular copy -- Its generator stores 0 as the score of every
    move and does not sort.  In the opening position its list for red
    starts with the step of the pawn of (6,0), which takes nothing, and
    holds in the sixth place, still with score 0, the capture of the horse
    of (0,1) by the cannon of (7,1), a piece worth 400. *)
Lemma modular_generator_is_not_sorted :
  exists ms,
    runs (Modular.generateLegalMoves red) openingGame ms openingGame /\
    ms !! 0%nat = Some (Move (6, 0) (5, 0) 0) /\
    ms !! 5%nat = Some (Move (7, 1) (0, 1) 0) /\
    captureScore openingGame (5, 0) = 0 /\
    captureScore openingGame (0, 1) = 400.
Proof.
  exists (unscored <$> generated red openingGame). split.
  - apply modular_generateLegalMoves_exact. vm_compute. reflexivity.
  - repeat split; vm_compute; reflexivity.
Qed.

Lemma rescored_unscored g (ms : list move) :
  (forall mv, mv ∈ ms -> score mv = captureScore g (to mv)) ->
  rescored g <$> (unscored <$> ms) = ms.
Proof.
  induction ms as [|mv ms IH]; intros H; [reflexivity|].
  cbn [fmap list_fmap]. f_equal.
  - unfold rescored, unscored. cbn [from to].
    rewrite <- (H mv) by apply list_elem_of_here. apply move_eta.
  - apply IH. intros m Hm. apply H, list_elem_of_further, Hm.
Qed.

(** X17 -- The two copies of the generator find the same moves: the modular one
    returns them in the order of the double loop, each with score 0 and
    each once; the final one returns the same moves scored by what they
    capture and stably sorted by that score. *)
Theorem generators_agree g s :
  wf g ->
  exists ms,
    runs (Modular.generateLegalMoves s) g ms g /\
    NoDup ms /\ Forall (fun mv => score mv = 0) ms /\
    runs (generateLegalMoves s) g (sortMoves (rescored g <$> ms)) g.
Proof.
  intros Hwf. exists (unscored <$> generated s g).
  split; [apply modular_generateLegalMoves_exact, Hwf|]. split; [|split].
  - apply NoDup_fmap_2_strong; [|apply NoDup_generated, Hwf].
    intros m1 m2 H1 H2 E.
    apply (elem_of_generated g s _ Hwf) in H1, H2.
    destruct H1 as (_ & _ & _ & _ & _ & _ & _ & _ & _ & S1).
    destruct H2 as (_ & _ & _ & _ & _ & _ & _ & _ & _ & S2).
    unfold unscored in E. injection E as Ef Et.
    rewrite <- (move_eta m1), <- (move_eta m2). congruence.
  - apply Forall_fmap, Forall_forall. intros mv _. reflexivity.
  - rewrite rescored_unscored; [apply generateLegalMoves_exact, Hwf|].
    intros mv Hmv. apply (elem_of_generated g s _ Hwf) in Hmv.
    destruct Hmv as (_ & _ & _ & _ & _ & _ & _ & _ & _ & S1). exact S1.
Qed.

Lemma generators_agree_witness :
  wf openingGame /\
  exists ms,
    runs (Modular.generateLegalMoves red) openingGame ms openingGame /\
    NoDup ms /\ Forall (fun mv => score mv = 0) ms /\
    runs (generateLegalMoves red) openingGame
         (sortMoves (rescored openingGame <$> ms)) openingGame.
Proof.
  assert (Hwf : wf openingGame) by (vm_compute; reflexivity).
  split; [exact Hwf|]. exact (generators_agree openingGame red Hwf).
Defined.

(** X18 -- The search of the modular worker, started with the full window,
    returns the result of the full minimax over its own move order and
    evaluation, and hands the position back. *)
Theorem modular_alphabeta_equals_minimax g myColor depth :
  wf g ->
  runs (Modular.minimax depth NegInf PosInf true myColor) g
       (modularMinimaxFull depth true myColor g) g.
Proof. intros Hwf. apply modular_minimax_runs_full, Hwf. Qed.

Lemma modular_alphabeta_equals_minimax_witness :
  wf openingGame /\
  runs (Modular.minimax 1 NegInf PosInf true red) openingGame
       (modularMinimaxFull 1 true red openingGame) openingGame.
Proof.
  assert (Hwf : wf openingGame) by (vm_compute; reflexivity).
  split; [exact Hwf|].
  exact (modular_alphabeta_equals_minimax openingGame red 1 Hwf).
Defined.



(** The key of a move in the worker's sort. *)
Lemma insertKeyed_capture (m : move) (l : list (Z * move)) :
  Forall (fun x => x.1 <= 10) l ->
  Modular.insertKeyed (10, m) l = (10, m) :: l.
Proof.
  intros Hl. destruct l as [|x l]; [reflexivity|]. cbn [Modular.insertKeyed fst].
  inversion Hl; subst.
  replace (x.1 - 10 <=? 0) with true by (symmetry; apply Z.leb_le; lia).
  reflexivity.
Qed.

Lemma insertKeyed_quiet (m : move) (l1 l2 : list (Z * move)) :
  Forall (fun x => x.1 = 10) l1 -> Forall (fun x => x.1 = 0) l2 ->
  Modular.insertKeyed (0, m) (l1 ++ l2) = l1 ++ (0, m) :: l2.
Proof.
  intros H1 H2. induction H1 as [|x l1 Hx _ IH].
  - destruct H2 as [|y l2 Hy _]; [reflexivity|].
    cbn [app Modular.insertKeyed fst]. rewrite Hy. reflexivity.
  - cbn [app Modular.insertKeyed fst]. rewrite Hx, IH. reflexivity.
Qed.

Lemma capturesFirst_split g (ms : list move) :
  capturesFirst g ms =
  filter (fun mv => isCapture g mv = true) ms ++
  filter (fun mv => isCapture g mv = false) ms.
Proof.
  unfold capturesFirst.
  set (key := fun mv : move =>
                (if truthy (occupant g (to mv)) then 10 else 0, mv)).
  assert (Hsorted :
    foldr Modular.insertKeyed [] (key <$> ms) =
    (key <$> filter (fun mv => isCapture g mv = true) ms) ++
    (key <$> filter (fun mv => isCapture g mv = false) ms)).
  { induction ms as [|mv ms IH]; [reflexivity|].
    cbn [fmap list_fmap foldr]. rewrite IH.
    assert (Hcaps : Forall (fun x : Z * move => x.1 = 10)
                      (key <$> filter (fun mv => isCapture g mv = true) ms)).
    { apply Forall_fmap, Forall_forall. intros m Hm.
      apply list_elem_of_In, list_elem_of_filter in Hm as [Hm _].
      unfold key, isCapture in *. cbn [compose fst]. rewrite Hm. reflexivity. }
    assert (Hquiet : Forall (fun x : Z * move => x.1 = 0)
                      (key <$> filter (fun mv => isCapture g mv = false) ms)).
    { apply Forall_fmap, Forall_forall. intros m Hm.
      apply list_elem_of_In, list_elem_of_filter in Hm as [Hm _].
      unfold key, isCapture in *. cbn [compose fst]. rewrite Hm. reflexivity. }
    destruct (isCapture g mv) eqn:Ecap.
    - rewrite (filter_cons_True (fun mv => isCapture g mv = true)) by exact Ecap.
      rewrite (filter_cons_False (fun mv => isCapture g mv = false))
        by (rewrite Ecap; discriminate).
      assert (Ek : key mv = (10, mv))
        by (unfold key, isCapture in *; rewrite Ecap; reflexivity).
      cbn [fmap list_fmap app]. rewrite Ek.
      rewrite insertKeyed_capture; [reflexivity|].
      apply Forall_app. split.
      + eapply list.Forall_impl; [exact Hcaps|]. intros x Hx. cbv beta in Hx. lia.
      + eapply list.Forall_impl; [exact Hquiet|]. intros x Hx. cbv beta in Hx. lia.
    - rewrite (filter_cons_False (fun mv => isCapture g mv = true))
        by (rewrite Ecap; discriminate).
      rewrite (filter_cons_True (fun mv => isCapture g mv = false)) by exact Ecap.
      assert (Ek : key mv = (0, mv))
        by (unfold key, isCapture in *; rewrite Ecap; reflexivity).
      cbn [fmap list_fmap app]. rewrite Ek.
      rewrite insertKeyed_quiet by assumption. reflexivity. }
  assert (Hsnd : forall l : list move, snd <$> (key <$> l) = l).
  { intros l. induction l as [|m l IHl]; [reflexivity|].
    cbn [fmap list_fmap]. f_equal. exact IHl. }
  rewrite Hsorted, fmap_app, !Hsnd. reflexivity.
Qed.

(** X20 -- The sort in the search of the modular worker puts the moves whose
    destination is occupied first and the others after them, and keeps the
    order of the generator inside both groups; it reads only cells of the
    board. *)
Theorem modular_sort_captures_first g ms :
  wf g -> Forall (fun mv => inGrid (to mv) = true) ms ->
  reads (Modular.sortCapturesFirst ms) g
        (filter (fun mv => isCapture g mv = true) ms ++
         filter (fun mv => isCapture g mv = false) ms).
Proof.
  intros Hwf Hin. rewrite <- capturesFirst_split.
  apply sortCapturesFirst_reads; assumption.
Qed.

Lemma modular_sort_captures_first_witness :
  wf openingGame /\
  reads (Modular.sortCapturesFirst
           [Move (6, 0) (5, 0) 0; Move (7, 1) (0, 1) 0; Move (7, 1) (7, 2) 0])
        openingGame
        [Move (7, 1) (0, 1) 0; Move (6, 0) (5, 0) 0; Move (7, 1) (7, 2) 0].
Proof.
  assert (Hwf : wf openingGame) by (vm_compute; reflexivity).
  split; [exact Hwf|].
  apply (modular_sort_captures_first openingGame
           [Move (6, 0) (5, 0) 0; Move (7, 1) (0, 1) 0; Move (7, 1) (7, 2) 0] Hwf).
  repeat constructor.
Defined.

(** * The application *)

(** ** [isCheck] *)

Lemma isKingOf_test g s i x px :
  occupant g i = Some x -> pieces g !! x = Some px ->
  side_eqb (color px) s && is_king (type px) = isKingOf g s i.
Proof.
  intros Ex Hx. unfold isKingOf. rewrite Ex, Hx. apply andb_comm.
Qed.

Lemma findKingInRow_reads g s r cols k :
  wf g -> Forall (fun c => inGrid (r, c) = true) cols ->
  reads (App.findKingInRow s r cols k) g (rowKing g s r cols k).
Proof.
  intros Hwf Hcols. pose proof (wf_shape _ Hwf) as Hs.
  induction Hcols as [|c cols Hc _ IH]; [apply reads_ret|].
  cbn [App.findKingInRow rowKing].
  eapply reads_bind; [apply rd_reads; assumption|].
  destruct (occupant g (r, c)) as [x|] eqn:Ex.
  - destruct (wf_occupant _ _ _ Hwf Hc Ex) as (px & Hx & _).
    eapply reads_bind; [apply deref_reads; exact Hx|].
    rewrite (isKingOf_test g s (r, c) x px Ex Hx).
    destruct (isKingOf g s (r, c)); [apply reads_ret | exact IH].
  - replace (isKingOf g s (r, c)) with false
      by (unfold isKingOf; rewrite Ex; reflexivity).
    exact IH.
Qed.

Lemma foundKing_reads g s :
  wf g ->
  reads (foldQ (fun k r => App.findKingInRow s r (seqZ 0 9) k) (seqZ 0 10) None)
        g (foundKing g s).
Proof.
  intros Hwf. unfold foundKing.
  apply (foldQ_pure _ (fun k r => rowKing g s r (seqZ 0 9) k)
           (fun r => 0 <= r < 10)).
  - intros k r Hr. apply findKingInRow_reads; [exact Hwf|].
    apply Forall_forall. intros c Hc.
    apply list_elem_of_In, elem_of_seqZ in Hc. apply inGrid_spec. lia.
  - apply Forall_forall. intros r Hr.
    apply list_elem_of_In, elem_of_seqZ in Hr. lia.
Qed.

Lemma rowKing_sound g s r cols k a :
  rowKing g s r cols k = Some a ->
  (exists c, c ∈ cols /\ a = (r, c) /\ isKingOf g s a = true) \/ k = Some a.
Proof.
  induction cols as [|c cols IH]; cbn [rowKing]; [right; assumption|].
  destruct (isKingOf g s (r, c)) eqn:E.
  - intros [= <-]. left. exists c. split; [apply list_elem_of_here|]. split; auto.
  - intros H. destruct (IH H) as [(c' & Hc' & Ha & Hk)|Hk]; [left | right; exact Hk].
    exists c'. split; [apply list_elem_of_further, Hc'|]. split; assumption.
Qed.

Lemma rowKing_complete g s r cols k c :
  c ∈ cols -> isKingOf g s (r, c) = true ->
  exists c', c' ∈ cols /\ isKingOf g s (r, c') = true /\
             rowKing g s r cols k = Some (r, c').
Proof.
  induction cols as [|c0 cols IH]; intros Hc Hk; [inversion Hc|].
  cbn [rowKing]. destruct (isKingOf g s (r, c0)) eqn:E.
  - exists c0. split; [apply list_elem_of_here|]. split; [exact E | reflexivity].
  - apply elem_of_cons in Hc as [-> | Hc]; [congruence|].
    destruct (IH Hc Hk) as (c' & Hc' & Hk' & Hr).
    exists c'. split; [apply list_elem_of_further, Hc'|]. split; assumption.
Qed.

Lemma rowKing_keeps g s r cols k :
  is_Some k -> is_Some (rowKing g s r cols k).
Proof.
  intros Hk. induction cols as [|c cols IH]; cbn [rowKing]; [exact Hk|].
  destruct (isKingOf g s (r, c)); [eexists; reflexivity | exact IH].
Qed.

Lemma foundKing_sound g s a : foundKing g s = Some a -> kingAt g s a.
Proof.
  unfold foundKing.
  assert (Hgen : forall rows k,
            (forall r, r ∈ rows -> 0 <= r < 10) ->
            (forall b, k = Some b -> kingAt g s b) ->
            foldl (fun k r => rowKing g s r (seqZ 0 9) k) k rows = Some a ->
            kingAt g s a).
  { induction rows as [|r rows IH]; intros k Hrows Hk H; [apply Hk, H|].
    cbn [foldl] in H. eapply IH; [| |exact H].
    - intros r' Hr'. apply Hrows, list_elem_of_further, Hr'.
    - intros b Hb. apply rowKing_sound in Hb as [(c & Hc & -> & Hkb)|Hb].
      + split; [|exact Hkb]. apply elem_of_seqZ in Hc.
        specialize (Hrows r (list_elem_of_here _ _)). apply inGrid_spec. lia.
      + apply Hk, Hb. }
  apply Hgen.
  - intros r Hr. apply elem_of_seqZ in Hr. lia.
  - discriminate.
Qed.

Lemma foundKing_complete g s a :
  kingAt g s a -> is_Some (foundKing g s).
Proof.
  intros [Hin Hk]. destruct a as [r c]. apply inGrid_spec in Hin.
  unfold foundKing.
  assert (Hgen : forall rows k,
            r ∈ rows \/ is_Some k ->
            is_Some (foldl (fun k r => rowKing g s r (seqZ 0 9) k) k rows)).
  { induction rows as [|r0 rows IH]; intros k H.
    - destruct H as [H|H]; [inversion H | exact H].
    - cbn [foldl]. apply IH. destruct H as [H|H].
      + apply elem_of_cons in H as [<- | H]; [|left; exact H].
        right. destruct (rowKing_complete g s r (seqZ 0 9) k c) as (c' & _ & _ & E).
        * apply elem_of_seqZ. lia.
        * exact Hk.
        * rewrite E. eexists. reflexivity.
      + right. apply rowKing_keeps, H. }
  apply Hgen. left. apply elem_of_seqZ. lia.
Qed.

Lemma foundKing_unique g s a :
  atMostOneKing g -> kingAt g s a -> foundKing g s = Some a.
Proof.
  intros Hone Ha. destruct (foundKing_complete g s a Ha) as [b Hb].
  rewrite Hb. f_equal. apply (Hone s); [apply foundKing_sound, Hb | exact Ha].
Qed.

Lemma attackScan_reads g enemy k cells :
  wf g -> inGrid k = true -> Forall (fun i => inGrid i = true) cells ->
  reads (App.attackScan enemy (Some k) cells) g
        (existsb (attacks g enemy k) cells).
Proof.
  intros Hwf Hk Hcells. pose proof (wf_shape _ Hwf) as Hs.
  induction Hcells as [|i cells Hi _ IH]; [apply reads_ret|].
  cbn [App.attackScan existsb]. unfold attacks at 1, pieceAt.
  eapply reads_bind.
  { rewrite (surjective_pairing i) in Hi. apply rd_reads; assumption. }
  rewrite <- surjective_pairing.
  destruct (occupant g i) as [x|] eqn:Ex; [|exact IH].
  destruct (wf_occupant _ _ _ Hwf Hi Ex) as (px & Hx & Hr & Hc). rewrite Hx.
  eapply reads_bind; [apply deref_reads; exact Hx|].
  assert (Hsrc : inGrid (row px, col px) = true).
  { rewrite Hr, Hc, <- surjective_pairing. exact Hi. }
  destruct (side_eqb (color px) enemy); [|exact IH]. cbn [andb orb].
  eapply reads_bind; [exact (isValidMove_reads g x px k Hwf Hx Hsrc Hk)|].
  destruct (ruleOf g px k); [apply reads_ret | exact IH].
Qed.

Lemma isCheck_reads g s k :
  wf g -> foundKing g s = Some k ->
  reads (App.isCheck s) g (existsb (attacks g (opponent s) k) allCells).
Proof.
  intros Hwf Hk. unfold App.isCheck.
  eapply reads_bind; [apply foundKing_reads, Hwf|]. rewrite Hk.
  apply attackScan_reads; [exact Hwf | apply (foundKing_sound g s k Hk)|].
  apply Forall_forall. intros i Hi. apply inGrid_allCells, list_elem_of_In, Hi.
Qed.

Lemma attackScan_raises g enemy cells :
  wf g -> Forall (fun i => inGrid i = true) cells ->
  (exists i px, i ∈ cells /\ pieceAt g i = Some px /\ color px = enemy) ->
  App.attackScan enemy None cells g = None.
Proof.
  intros Hwf Hcells. pose proof (wf_shape _ Hwf) as Hs.
  induction Hcells as [|i cells Hi _ IH]; intros (j & px & Hj & Hp & Hc).
  { inversion Hj. }
  cbn [App.attackScan]. unfold bindQ at 1.
  pose proof (occupant_getCell g i Hs Hi) as Hget.
  unfold rd at 1. rewrite Hget.
  destruct (occupant g i) as [x|] eqn:Ex.
  - destruct (wf_occupant _ _ _ Hwf Hi Ex) as (qx & Hx & _).
    unfold bindQ at 1, deref at 1. rewrite Hx.
    destruct (side_eqb (color qx) enemy) eqn:Es; [reflexivity|].
    rewrite IH; [reflexivity|].
    apply elem_of_cons in Hj as [-> | Hj].
    + unfold pieceAt in Hp. rewrite Ex, Hx in Hp. injection Hp as ->.
      subst enemy. destruct (color px); discriminate.
    + exists j, px. repeat split; assumption.
  - rewrite IH; [reflexivity|].
    apply elem_of_cons in Hj as [-> | Hj].
    + unfold pieceAt in Hp. rewrite Ex in Hp. discriminate.
    + exists j, px. repeat split; assumption.
Qed.

(** X21 -- [isCheck(color)] on a position where [color] has its king, and only
    one: the method raises nothing and returns true exactly when a piece of
    the other side stands on a cell from which [isValidMove] lets it move
    onto the king. *)
Theorem isCheck_decides g s k :
  wf g -> atMostOneKing g -> kingAt g s k ->
  exists b,
    reads (App.isCheck s) g b /\
    (b = true <->
     exists i x px,
       inGrid i = true /\ occupant g i = Some x /\ pieces g !! x = Some px /\
       color px = opponent s /\
       reads (isValidMove (Some x) k.1 k.2) g true).
Proof.
  intros Hwf Hone Hk. pose proof (foundKing_unique g s k Hone Hk) as Hfound.
  destruct Hk as [Hkin _].
  exists (existsb (attacks g (opponent s) k) allCells).
  split; [apply isCheck_reads; assumption|].
  rewrite existsb_exists. split.
  - intros (i & Hi & Hatt).
    apply list_elem_of_In, inGrid_allCells in Hi.
    unfold attacks, pieceAt in Hatt.
    destruct (occupant g i) as [x|] eqn:Ex; [|discriminate].
    destruct (wf_occupant _ _ _ Hwf Hi Ex) as (px & Hx & Hr & Hc).
    rewrite Hx in Hatt. apply andb_true_iff in Hatt as [Hs Hrule].
    exists i, x, px. split; [exact Hi|]. split; [exact Ex|].
    split; [exact Hx|].
    split; [destruct (color px), s; cbn [side_eqb opponent] in *; congruence|].
    apply (reads_rule g x px k); try assumption.
    rewrite Hr, Hc, <- surjective_pairing. exact Hi.
  - intros (i & x & px & Hi & Ex & Hx & Hcol & Hok).
    exists i. split; [apply list_elem_of_In, inGrid_allCells, Hi|].
    unfold attacks, pieceAt. rewrite Ex, Hx, Hcol.
    destruct (wf_occupant _ _ _ Hwf Hi Ex) as (px' & Hx' & Hr & Hc).
    assert (px' = px) as -> by congruence.
    assert (Hsrc : inGrid (row px, col px) = true).
    { rewrite Hr, Hc, <- surjective_pairing. exact Hi. }
    rewrite (reads_det _ _ _ _ (isValidMove_reads g x px k Hwf Hx Hsrc Hkin) Hok).
    destruct (opponent s); reflexivity.
Qed.

Lemma isCheck_decides_witness :
  wf rookBetweenKings /\
  exists b, reads (App.isCheck black) rookBetweenKings b /\
    (b = true <->
     exists i x px,
       inGrid i = true /\ occupant rookBetweenKings i = Some x /\
       pieces rookBetweenKings !! x = Some px /\ color px = red /\
       reads (isValidMove (Some x) 0 4) rookBetweenKings true).
Proof.
  assert (Hwf : wf rookBetweenKings) by (vm_compute; reflexivity).
  split; [exact Hwf|].
  apply (isCheck_decides rookBetweenKings black (0, 4) Hwf).
  - intros s a b Ha Hb.
    assert (Hall : forall c, kingAt rookBetweenKings s c ->
              c = match s with red => (9, 4) | black => (0, 4) end).
    { intros c [Hin Hk]. apply inGrid_allCells, list_elem_of_In in Hin.
      assert (Hchk : forallb (fun a =>
                       negb (isKingOf rookBetweenKings s a)
                       || ((a.1 =? match s with red => 9 | black => 0 end)
                           && (a.2 =? 4))) allCells = true)
        by (destruct s; vm_compute; reflexivity).
      rewrite forallb_forall in Hchk. specialize (Hchk c Hin).
      rewrite Hk in Hchk. cbn [negb orb] in Hchk. b2p.
      destruct c as [r c], s; cbn [fst snd] in *; congruence. }
    rewrite (Hall a Ha), (Hall b Hb). reflexivity.
  - split; vm_compute; reflexivity.
Defined.

(** X22 -- When [color] has no king on the board while the other side has a
    piece, [isCheck(color)] raises: the coordinates of the king are
    [undefined], and the first call of [isValidMove] indexes the board with
    them. *)
Theorem isCheck_raises_without_king g s :
  wf g -> (forall a, ~ kingAt g s a) -> hasPiece g (opponent s) ->
  App.isCheck s g = None.
Proof.
  intros Hwf Hnone (i & px & Hi & Hp & Hc).
  destruct (foundKing_reads g s Hwf) as (l & Hfold & _).
  unfold App.isCheck, bindQ. rewrite Hfold.
  destruct (foundKing g s) as [k|] eqn:Ek.
  { exfalso. apply (Hnone k), foundKing_sound, Ek. }
  rewrite attackScan_raises; [reflexivity | exact Hwf | |].
  - apply Forall_forall. intros j Hj. apply inGrid_allCells, list_elem_of_In, Hj.
  - exists i, px. split; [apply inGrid_allCells, Hi|]. split; assumption.
Qed.

Lemma isCheck_raises_without_king_witness :
  App.isCheck red (boardWith [((0, 4), black, king); ((5, 4), red, rook)]) = None.
Proof.
  apply isCheck_raises_without_king.
  - vm_compute. reflexivity.
  - intros a [Hin Hk]. apply inGrid_allCells, list_elem_of_In in Hin.
    assert (Hchk : forallb (fun a =>
              negb (isKingOf (boardWith [((0, 4), black, king);
                                         ((5, 4), red, rook)]) red a))
              allCells = true) by (vm_compute; reflexivity).
    rewrite forallb_forall in Hchk. specialize (Hchk a Hin).
    rewrite Hk in Hchk. discriminate.
  - exists (0, 4), (Piece black king 0 4).
    split; [reflexivity|]. split; vm_compute; reflexivity.
Defined.

(** ** [cloneBoard] *)

Lemma cloned_mono ps ps1 ps2 more v v' :
  cloned ps1 ps2 v v' ->
  (forall p, v = Some p -> is_Some (ps !! p)) ->
  (exists mid, ps1 = ps ++ mid) ->
  cloned ps (ps2 ++ more) v v'.
Proof.
  unfold cloned. destruct v as [p|], v' as [q|]; try tauto.
  intros ([Hlo Hhi] & Hq & Hp) Hold [mid ->].
  specialize (Hold p eq_refl). rewrite length_app in Hlo.
  split; [rewrite length_app; lia|]. split; [|exact Hold].
  rewrite lookup_app_l by exact Hhi. rewrite Hq.
  apply lookup_app_l, lookup_lt_is_Some, Hold.
Qed.

Lemma cloneRow_runs rw : forall g,
  (forall p, Some p ∈ rw -> is_Some (pieces g !! p)) ->
  exists rw' fresh,
    App.mapM App.cloneCell rw g =
      Some (rw', Game (pieces g ++ fresh) (board g) (turn g) (gameOver g), []) /\
    Forall2 (cloned (pieces g) (pieces g ++ fresh)) rw rw' /\
    NoDup (omap id rw') /\
    Forall (fun q => (length (pieces g) <= q < length (pieces g ++ fresh))%nat)
           (omap id rw').
Proof.
  induction rw as [|v rw IH]; intros g Hvalid.
  - exists [], []. cbn [App.mapM]. unfold retM. rewrite app_nil_r, game_eta.
    repeat split; constructor.
  - cbn [App.mapM]. destruct v as [p|].
    + destruct (Hvalid p (list_elem_of_here _ _)) as [pc Hp].
      set (g1 := Game (pieces g ++ [pc]) (board g) (turn g) (gameOver g)).
      destruct (IH g1) as (rw' & fresh & Hrun & Hrel & Hnd & Hbd).
      { intros q Hq. cbn [g1 pieces].
        destruct (Hvalid q (list_elem_of_further _ _ _ Hq)) as [qc Hqc].
        exists qc. rewrite lookup_app_l; [exact Hqc|].
        apply lookup_lt_Some in Hqc. exact Hqc. }
      cbn [g1 pieces board turn gameOver] in Hrun, Hrel, Hbd.
      rewrite <- app_assoc in Hrun, Hrel, Hbd. cbn [app] in Hrun, Hrel, Hbd.
      exists (Some (length (pieces g)) :: rw'), (pc :: fresh).
      split; [|split; [|split]].
      * unfold bindM at 1, App.cloneCell at 1. rewrite Hp.
        fold g1. unfold bindM at 1. rewrite Hrun. reflexivity.
      * constructor.
        -- unfold cloned. rewrite length_app. cbn [length].
           split; [lia|]. split; [|eexists; exact Hp].
           rewrite Hp. apply list_lookup_middle. reflexivity.
        -- apply Forall2_same_length_lookup.
           split; [eapply Forall2_length, Hrel|]. intros i w w' Hw Hw'.
           pose proof (Forall2_lookup_lr _ _ _ _ _ _ Hrel Hw Hw') as Hc.
           destruct w as [q|], w' as [q'|]; cbn [cloned] in *; try tauto.
           destruct Hc as ([Hlo Hhi] & Hq' & _).
           rewrite length_app in Hlo. cbn [length] in Hlo.
           destruct (Hvalid q) as [qc Hqc].
           { apply list_elem_of_further, list_elem_of_lookup_2 with i, Hw. }
           split; [lia|]. split; [|eexists; exact Hqc].
           rewrite Hq'. apply lookup_app_l, lookup_lt_Some with qc, Hqc.
      * cbn [omap id]. apply NoDup_cons_2; [|exact Hnd].
        intros Hin. rewrite list.Forall_forall in Hbd. apply Hbd in Hin.
        rewrite length_app in Hin. cbn [length] in Hin. lia.
      * cbn [omap id]. constructor.
        -- rewrite length_app. cbn [length]. lia.
        -- eapply list.Forall_impl; [exact Hbd|]. intros q. cbv beta.
           rewrite !length_app. cbn [length]. lia.
    + destruct (IH g) as (rw' & fresh & Hrun & Hrel & Hnd & Hbd).
      { intros q Hq. apply Hvalid, list_elem_of_further, Hq. }
      exists (None :: rw'), fresh. split; [|split; [|split]].
      * unfold bindM at 1, App.cloneCell at 1. unfold bindM at 1.
        rewrite Hrun. reflexivity.
      * constructor; [exact I | exact Hrel].
      * exact Hnd.
      * exact Hbd.
Qed.

Lemma cloneRows_runs rows : forall g,
  (forall rw p, rw ∈ rows -> Some p ∈ rw -> is_Some (pieces g !! p)) ->
  exists b fresh,
    App.mapM (App.mapM App.cloneCell) rows g =
      Some (b, Game (pieces g ++ fresh) (board g) (turn g) (gameOver g), []) /\
    Forall2 (Forall2 (cloned (pieces g) (pieces g ++ fresh))) rows b /\
    NoDup (refsOf b) /\
    Forall (fun q => (length (pieces g) <= q < length (pieces g ++ fresh))%nat)
           (refsOf b).
Proof.
  induction rows as [|rw rows IH]; intros g Hvalid.
  - exists [], []. cbn [App.mapM]. unfold retM. rewrite app_nil_r, game_eta.
    repeat split; constructor.
  - destruct (cloneRow_runs rw g) as (rw' & fresh1 & Hrun1 & Hrel1 & Hnd1 & Hbd1).
    { intros p Hp. apply (Hvalid rw p); [apply list_elem_of_here | exact Hp]. }
    set (g1 := Game (pieces g ++ fresh1) (board g) (turn g) (gameOver g)) in *.
    destruct (IH g1) as (b & fresh2 & Hrun2 & Hrel2 & Hnd2 & Hbd2).
    { intros rw0 p Hrw0 Hp. cbn [g1 pieces].
      destruct (Hvalid rw0 p (list_elem_of_further _ _ _ Hrw0) Hp) as [pc Hpc].
      exists pc. rewrite lookup_app_l; [exact Hpc|].
      apply lookup_lt_Some in Hpc. exact Hpc. }
    cbn [g1 pieces board turn gameOver] in Hrun2, Hrel2, Hbd2.
    rewrite <- app_assoc in Hrun2, Hrel2, Hbd2.
    exists (rw' :: b), (fresh1 ++ fresh2). split; [|split; [|split]].
    + cbn [App.mapM]. unfold bindM at 1. rewrite Hrun1. fold g1.
      unfold bindM at 1. rewrite Hrun2. reflexivity.
    + constructor.
      * eapply list.Forall2_impl; [exact Hrel1|]. intros v v' Hv.
        rewrite app_assoc.
        apply (cloned_mono (pieces g) (pieces g) (pieces g ++ fresh1) fresh2);
          [exact Hv | | exists []; rewrite app_nil_r; reflexivity].
        intros p ->. destruct v' as [q|]; cbn [cloned] in Hv; [|tauto].
        apply Hv.
      * apply Forall2_same_length_lookup.
        split; [eapply Forall2_length, Hrel2|]. intros i rw0 rw0' Hi Hi'.
        pose proof (Forall2_lookup_lr _ _ _ _ _ _ Hrel2 Hi Hi') as Hrow.
        apply Forall2_same_length_lookup.
        split; [eapply Forall2_length, Hrow|]. intros j v v' Hj Hj'.
        pose proof (Forall2_lookup_lr _ _ _ _ _ _ Hrow Hj Hj') as Hv.
        rewrite <- (app_nil_r (pieces g ++ fresh1 ++ fresh2)).
        apply (cloned_mono (pieces g) (pieces g ++ fresh1)
                 (pieces g ++ fresh1 ++ fresh2) []);
          [exact Hv | | exists fresh1; reflexivity].
        intros p ->. apply (Hvalid rw0 p).
        -- apply list_elem_of_further, list_elem_of_lookup_2 with i, Hi.
        -- apply list_elem_of_lookup_2 with j, Hj.
    + unfold refsOf. rewrite bind_cons. apply list.NoDup_app.
      split; [exact Hnd1|]. split; [|exact Hnd2].
      intros q H1 H2. rewrite list.Forall_forall in Hbd1, Hbd2.
      apply Hbd1 in H1. apply Hbd2 in H2. lia.
    + unfold refsOf. rewrite bind_cons. apply Forall_app. split.
      * eapply list.Forall_impl; [exact Hbd1|]. intros q. cbv beta.
        rewrite !length_app. lia.
      * eapply list.Forall_impl; [exact Hbd2|]. intros q. cbv beta.
        rewrite !length_app. lia.
Qed.

Lemma wf_refs_valid g rw p :
  wf g -> rw ∈ board g -> Some p ∈ rw -> is_Some (pieces g !! p).
Proof.
  intros Hwf Hrw Hp. destruct (wf_shape _ Hwf) as [Hlen Hrows].
  apply list_elem_of_lookup_1 in Hrw as [r Hr].
  apply list_elem_of_lookup_1 in Hp as [c Hc].
  pose proof (Hrows _ _ Hr) as Hlrw.
  pose proof (lookup_lt_Some _ _ _ Hr) as Hr'.
  pose proof (lookup_lt_Some _ _ _ Hc) as Hc'.
  assert (Hin : inGrid (Z.of_nat r, Z.of_nat c) = true) by (apply inGrid_spec; lia).
  assert (Hocc : occupant g (Z.of_nat r, Z.of_nat c) = Some p).
  { unfold occupant, getCell. cbn [fst snd].
    replace (Z.of_nat r <? 0) with false by (symmetry; apply Z.ltb_ge; lia).
    rewrite Nat2Z.id, Hr.
    replace (Z.of_nat c <? 0) with false by (symmetry; apply Z.ltb_ge; lia).
    rewrite Nat2Z.id, Hc. reflexivity. }
  destruct (wf_occupant _ _ _ Hwf Hin Hocc) as (pc & Hpc & _).
  exists pc. exact Hpc.
Qed.

(** X23 -- [cloneBoard] raises nothing and leaves the game as it is; the board it
    returns has the layout of the board of the game, and each of its
    occupied cells holds an object of its own, allocated by the call, with
    the fields of the object in the corresponding cell of the game.  A later
    assignment to a piece of the game therefore does not show in the
    copy. *)
Theorem cloneBoard_copies g :
  wf g ->
  exists b fresh,
    runs App.cloneBoard g b (withPieces g (pieces g ++ fresh)) /\
    copyOf g (Game (pieces g ++ fresh) b (turn g) (gameOver g)) /\
    wf (Game (pieces g ++ fresh) b (turn g) (gameOver g)) /\
    NoDup (refsOf b) /\
    Forall (fun q => (length (pieces g) <= q)%nat) (refsOf b).
Proof.
  intros Hwf. pose proof (wf_shape _ Hwf) as Hs.
  destruct (cloneRows_runs (board g) g) as (b & fresh & Hrun & Hrel & Hnd & Hbd).
  { intros rw p. apply wf_refs_valid, Hwf. }
  assert (Hcopy : copyOf g (Game (pieces g ++ fresh) b (turn g) (gameOver g))).
  { assert (Hs' : gridShape b).
    { destruct Hs as [Hlen Hrows]. split.
      - pose proof Hrel as Hl. apply Forall2_length in Hl.
        rewrite <- Hl. exact Hlen.
      - intros i rw' Hi.
        destruct (Forall2_lookup_r _ _ _ _ _ Hrel Hi) as (rw & Hrw & Hrow).
        apply Forall2_length in Hrow. rewrite <- Hrow. eapply Hrows, Hrw. }
    split; [exact Hs'|]. intros [r c] Hin.
    destruct (getCell_grid _ r c Hs Hin) as (rw & Hrw & _ & v & Hv & Hget).
    destruct (getCell_grid _ r c Hs' Hin) as (rw' & Hrw' & _ & v' & Hv' & Hget').
    unfold occupant. cbn [board fst snd]. rewrite Hget, Hget'. cbn [default].
    pose proof (Forall2_lookup_lr _ _ _ _ _ _ Hrel Hrw Hrw') as Hrow.
    pose proof (Forall2_lookup_lr _ _ _ _ _ _ Hrow Hv Hv') as Hc.
    destruct v as [p|], v' as [q|]; cbn [cloned] in Hc; try tauto.
    destruct Hc as (_ & Hq & [pc Hpc]). exists pc. cbn [pieces].
    split; [exact Hpc | congruence]. }
  exists b, fresh. split; [|split; [exact Hcopy|split; [|split; [exact Hnd|]]]].
  - exists []. split; [exact Hrun | constructor].
  - eapply wf_copy; [exact Hwf | exact Hcopy].
  - eapply list.Forall_impl; [exact Hbd|]. intros q. cbv beta. lia.
Qed.

Lemma cloneBoard_copies_witness :
  wf openingGame /\
  exists b fresh,
    runs App.cloneBoard openingGame b
         (withPieces openingGame (pieces openingGame ++ fresh)) /\
    copyOf openingGame
           (Game (pieces openingGame ++ fresh) b red false) /\
    Forall (fun q => (32 <= q)%nat) (refsOf b).
Proof.
  assert (Hwf : wf openingGame) by (vm_compute; reflexivity).
  split; [exact Hwf|].
  destruct (cloneBoard_copies openingGame Hwf) as (b & fresh & H1 & H2 & _ & _ & H3).
  exists b, fresh. split; [exact H1|]. split; [exact H2 | exact H3].
Defined.

(** ** The methods of the controller, step by step *)

Lemma bindA_inv {X Y} (m : App.A X) (f : X -> App.A Y) a y a' :
  App.bindA m f a = Some (y, a') ->
  exists x a1, m a = Some (x, a1) /\ f x a1 = Some (y, a').
Proof.
  unfold App.bindA. destruct (m a) as [[x a1]|]; [|discriminate].
  intros H. exists x, a1. split; [reflexivity | exact H].
Qed.

Lemma ask_inv {X} (q : Q X) a x a' :
  App.ask q a = Some (x, a') ->
  a' = a /\ exists l, q (App.gameOf a) = Some (x, l).
Proof.
  unfold App.ask. destruct (q (App.gameOf a)) as [[x' l]|]; [|discriminate].
  intros [= <- <-]. split; [reflexivity | exists l; reflexivity].
Qed.

Lemma onGame_inv {X} (m : M X) a x a' :
  App.onGame m a = Some (x, a') ->
  exists g l, m (App.gameOf a) = Some (x, g, l) /\ a' = App.putGame a g.
Proof.
  unfold App.onGame. destruct (m (App.gameOf a)) as [[[x' g] l]|]; [|discriminate].
  intros [= <- <-]. exists g, l. split; reflexivity.
Qed.

Lemma get_inv {X} (f : App.app -> X) a x a' :
  App.get f a = Some (x, a') -> x = f a /\ a' = a.
Proof. unfold App.get. intros [= <- <-]. split; reflexivity. Qed.

Lemma retA_inv {X} (v : X) a x a' :
  App.retA v a = Some (x, a') -> x = v /\ a' = a.
Proof. unfold App.retA. intros [= <- <-]. split; reflexivity. Qed.

Lemma reloadBoard_inv a x a' : App.reloadBoard a = Some (x, a') -> a' = a.
Proof.
  unfold App.reloadBoard. intros H.
  apply bindA_inv in H as (x1 & a1 & H1 & H).
  apply ask_inv in H1 as [-> _]. apply ask_inv in H as [-> _]. reflexivity.
Qed.

Lemma updateStatus_inv a x a' : App.updateStatus a = Some (x, a') -> a' = a.
Proof.
  unfold App.updateStatus. intros H.
  apply bindA_inv in H as (o & a1 & H1 & H). apply get_inv in H1 as [-> ->].
  destruct (App.over_ a); [apply retA_inv in H as [_ ->]; reflexivity|].
  apply bindA_inv in H as (t & a1 & H1 & H). apply get_inv in H1 as [-> ->].
  destruct (App.isAiThinking a); [apply retA_inv in H as [_ ->]; reflexivity|].
  apply bindA_inv in H as (c & a1 & H1 & H). apply ask_inv in H1 as [-> _].
  apply retA_inv in H as [_ ->]. reflexivity.
Qed.

(** [cloneBoard] only allocates. *)
Lemma mapM_cloneCell_inv rw : forall g rw' g' l,
  App.mapM App.cloneCell rw g = Some (rw', g', l) ->
  exists fresh,
    g' = Game (pieces g ++ fresh) (board g) (turn g) (gameOver g).
Proof.
  induction rw as [|v rw IH]; intros g rw' g' l H.
  - cbn [App.mapM] in H. injection H as <- <- <-. exists [].
    rewrite app_nil_r. symmetry. apply game_eta.
  - cbn [App.mapM] in H. unfold bindM at 1 in H.
    destruct (App.cloneCell v g) as [[[v' g1] l1]|] eqn:E1; [|discriminate].
    unfold bindM at 1 in H.
    destruct (App.mapM App.cloneCell rw g1) as [[[rw1 g2] l2]|] eqn:E2;
      [|discriminate].
    cbn in H. injection H as <- <- <-.
    apply IH in E2 as [fresh2 ->].
    unfold App.cloneCell in E1. destruct v as [p|].
    + destruct (pieces g !! p) as [pc|]; [|discriminate].
      injection E1 as <- <- <-. exists (pc :: fresh2).
      cbn [pieces board turn gameOver]. rewrite <- app_assoc. reflexivity.
    + injection E1 as <- <- <-. exists fresh2. reflexivity.
Qed.

Lemma cloneBoard_inv g b g' l :
  App.cloneBoard g = Some (b, g', l) ->
  exists fresh,
    g' = Game (pieces g ++ fresh) (board g) (turn g) (gameOver g).
Proof.
  unfold App.cloneBoard. generalize (board g) at 1. intros rows. revert g b g' l.
  induction rows as [|rw rows IH]; intros g b g' l H.
  - cbn [App.mapM] in H. injection H as <- <- <-. exists [].
    rewrite app_nil_r. symmetry. apply game_eta.
  - cbn [App.mapM] in H. unfold bindM at 1 in H.
    destruct (App.mapM App.cloneCell rw g) as [[[rw' g1] l1]|] eqn:E1;
      [|discriminate].
    unfold bindM at 1 in H.
    destruct (App.mapM (App.mapM App.cloneCell) rows g1) as [[[b1 g2] l2]|] eqn:E2;
      [|discriminate].
    cbn in H. injection H as <- <- <-.
    apply mapM_cloneCell_inv in E1 as [fresh1 ->].
    apply IH in E2 as [fresh2 ->].
    exists (fresh1 ++ fresh2). cbn [pieces board turn gameOver].
    rewrite <- app_assoc. reflexivity.
Qed.

Lemma insert_live a :
  <[App.board_ a := board (App.gameOf a)]> (App.boards a) = App.boards a.
Proof.
  unfold App.gameOf. cbn [board].
  destruct (App.boards a !! App.board_ a) as [b|] eqn:E.
  - apply list_insert_id, E.
  - apply list_insert_ge, lookup_ge_None, E.
Qed.

(** What [saveHistory] leaves, whenever it returns. *)
Lemma saveHistory_inv a x a' :
  App.saveHistory a = Some (x, a') ->
  exists b fresh l,
    App.cloneBoard (App.gameOf a)
      = Some (b, withPieces (App.gameOf a) (App.objs a ++ fresh), l) /\
    a' = App.Build (App.objs a ++ fresh) (App.boards a ++ [b]) (App.board_ a)
           (App.turn_ a) (App.over_ a) (App.selectedPiece a) (App.gameMode a)
           (App.playerColor a) (App.aiColor a) (App.difficulty a)
           (App.isAiThinking a) (App.lastMove a)
           (App.history a
              ++ [App.Entry (length (App.boards a)) (App.turn_ a) (App.lastMove a)])
           (App.posted a).
Proof.
  unfold App.saveHistory. intros H.
  apply bindA_inv in H as (b & a1 & H1 & H).
  apply onGame_inv in H1 as (g & l & Hc & ->).
  destruct (cloneBoard_inv _ _ _ _ Hc) as [fresh ->].
  exists b, fresh, l. split; [exact Hc|].
  cbn in H. injection H as _ <-.
  unfold App.putGame. cbn [pieces board turn gameOver App.gameOf].
  pose proof (insert_live a) as Hins. unfold App.gameOf in Hins.
  cbn [board] in Hins. rewrite Hins. reflexivity.
Qed.

Lemma length_removelast {X} (l : list X) :
  length (removelast l) = pred (length l).
Proof.
  induction l as [|x [|y l] IH]; [reflexivity | reflexivity|].
  change (removelast (x :: y :: l)) with (x :: removelast (y :: l)).
  cbn [length] in *. rewrite IH. reflexivity.
Qed.

Lemma remaining_nonempty gm (h : list App.entry) :
  (2 <= length h)%nat -> remaining gm h <> [].
Proof.
  intros Hlen Hnil. apply (f_equal length) in Hnil. revert Hnil.
  unfold remaining. destruct gm.
  - destruct (1 <? length (removelast h))%nat eqn:E.
    + apply Nat.ltb_lt in E. rewrite length_removelast in E.
      rewrite !length_removelast. cbn [length]. lia.
    + rewrite length_removelast. cbn [length]. lia.
  - rewrite length_removelast. cbn [length]. lia.
Qed.

Lemma remaining_pve_two (h : list App.entry) e1 e2 :
  h <> [] -> remaining App.pve (h ++ [e1; e2]) = h.
Proof.
  intros Hh. unfold remaining.
  replace (h ++ [e1; e2]) with ((h ++ [e1]) ++ [e2])
    by (rewrite <- app_assoc; reflexivity).
  rewrite !removelast_last, length_app. cbn [length].
  destruct h as [|e h]; [congruence|]. cbn [length].
  replace (1 <? S (length h) + 1)%nat with true
    by (symmetry; apply Nat.ltb_lt; lia).
  reflexivity.
Qed.

Lemma remaining_pvp_one (h : list App.entry) e :
  remaining App.pvp (h ++ [e]) = h.
Proof. unfold remaining. apply removelast_last. Qed.

Lemma undo_inv a x a' :
  App.undo a = Some (x, a') ->
  if App.isAiThinking a || (length (App.history a) <=? 1)%nat then a' = a
  else exists e,
         list.last (remaining (App.gameMode a) (App.history a)) = Some e /\
         a' = restored a e.
Proof.
  unfold App.undo. intros H.
  apply bindA_inv in H as (t & a1 & H1 & H). apply get_inv in H1 as [-> ->].
  destruct (App.isAiThinking a) eqn:Et; cbn [orb].
  { apply retA_inv in H as [_ ->]. reflexivity. }
  apply bindA_inv in H as (h & a1 & H1 & H). apply get_inv in H1 as [-> ->].
  destruct (length (App.history a) <=? 1)%nat eqn:Elen.
  { apply retA_inv in H as [_ ->]. reflexivity. }
  apply Nat.leb_gt in Elen.
  apply bindA_inv in H as (gm & a1 & H1 & H). apply get_inv in H1 as [-> ->].
  cbv zeta in H. unfold App.pop in H.
  fold (remaining (App.gameMode a) (App.history a)) in H.
  apply bindA_inv in H as (u & a1 & H1 & H).
  unfold App.setHistory in H1. injection H1 as _ <-.
  destruct (list.last (remaining (App.gameMode a) (App.history a))) as [e|] eqn:El.
  - exists e. split; [reflexivity|].
    apply bindA_inv in H as (u1 & a1 & H1 & H).
    unfold App.setGameBoard in H1. injection H1 as _ <-.
    apply bindA_inv in H as (u2 & a1 & H1 & H).
    unfold App.setGameTurn in H1. injection H1 as _ <-.
    apply bindA_inv in H as (u3 & a1 & H1 & H).
    unfold App.setGameOver in H1. injection H1 as _ <-.
    apply bindA_inv in H as (u4 & a1 & H1 & H).
    unfold App.setSelected in H1. injection H1 as _ <-.
    apply bindA_inv in H as (u5 & a1 & H1 & H).
    unfold App.setLastMove in H1. injection H1 as _ <-.
    apply bindA_inv in H as (u6 & a1 & H1 & H). apply reloadBoard_inv in H1 as ->.
    apply updateStatus_inv in H as ->. unfold restored. cbn. rewrite Et.
    reflexivity.
  - exfalso. apply last_None in El.
    apply (remaining_nonempty (App.gameMode a) (App.history a)); [lia | exact El].
Qed.

Lemma gameOf_putGame a g : validApp a -> App.gameOf (App.putGame a g) = g.
Proof.
  intros Hv. unfold App.gameOf, App.putGame. cbn.
  rewrite list_lookup_insert_eq by exact Hv. cbn [default]. apply game_eta.
Qed.

Lemma putGame_putGame a g1 g2 :
  App.putGame (App.putGame a g1) g2 = App.putGame a g2.
Proof. unfold App.putGame. cbn. rewrite list_insert_insert_eq. reflexivity. Qed.

Lemma validApp_putGame a g : validApp a -> validApp (App.putGame a g).
Proof. unfold validApp, App.putGame. cbn. rewrite length_insert. auto. Qed.

Lemma endGame_inv a x a' :
  App.endGame a = Some (x, a') ->
  a' = App.Build (App.objs a) (App.boards a) (App.board_ a) (App.turn_ a) true
         (App.selectedPiece a) (App.gameMode a) (App.playerColor a)
         (App.aiColor a) (App.difficulty a) (App.isAiThinking a)
         (App.lastMove a) (App.history a) (App.posted a).
Proof.
  unfold App.endGame. intros H.
  apply bindA_inv in H as (u & a1 & H1 & H).
  unfold App.setGameOver in H1. injection H1 as _ <-.
  apply bindA_inv in H as (u1 & a1 & H1 & H).
  apply updateStatus_inv in H1 as ->. apply reloadBoard_inv in H as ->.
  reflexivity.
Qed.

Lemma triggerAi_inv a x a' :
  App.triggerAi a = Some (x, a') ->
  a' = App.Build (App.objs a) (App.boards a) (App.board_ a) (App.turn_ a)
         (App.over_ a) (App.selectedPiece a) (App.gameMode a)
         (App.playerColor a) (App.aiColor a) (App.difficulty a) true
         (App.lastMove a) (App.history a)
         (App.posted a
            ++ [App.Request (App.objs a) (board (App.gameOf a)) (App.turn_ a)
                            (App.difficulty a)]).
Proof.
  unfold App.triggerAi. intros H.
  apply bindA_inv in H as (u & a1 & H1 & H).
  unfold App.setThinking in H1. injection H1 as _ <-.
  apply bindA_inv in H as (u1 & a1 & H1 & H).
  apply updateStatus_inv in H1 as ->.
  cbn in H. injection H as _ <-. reflexivity.
Qed.

(** ** The methods of the controller, forwards *)

Lemma bindA_run {X Y} (m : App.A X) (f : X -> App.A Y) a x a1 r :
  m a = Some (x, a1) -> f x a1 = r -> App.bindA m f a = r.
Proof. intros H <-. unfold App.bindA. rewrite H. reflexivity. Qed.

Lemma ask_run {X} (q : Q X) a x :
  reads q (App.gameOf a) x -> App.ask q a = Some (x, a).
Proof. intros (l & H & _). unfold App.ask. rewrite H. reflexivity. Qed.

Lemma onGame_run {X} (m : M X) a x g' :
  runs m (App.gameOf a) x g' -> App.onGame m a = Some (x, App.putGame a g').
Proof. intros (l & H & _). unfold App.onGame. rewrite H. reflexivity. Qed.

Lemma wf_validApp a : wf (App.gameOf a) -> validApp a.
Proof.
  intros Hwf. destruct (wf_shape _ Hwf) as [Hlen _].
  unfold App.gameOf in Hlen. cbn [board] in Hlen. unfold validApp.
  destruct (App.boards a !! App.board_ a) as [b|] eqn:E.
  - apply lookup_lt_Some in E. exact E.
  - cbn in Hlen. discriminate.
Qed.

Lemma putGame_gameOf a : App.putGame a (App.gameOf a) = a.
Proof.
  unfold App.putGame. rewrite insert_live. destruct a. reflexivity.
Qed.

(** Objects added to the store do not show on the board. *)
Lemma occupant_more g ps i : occupant (withPieces g ps) i = occupant g i.
Proof. reflexivity. Qed.

Lemma pieceAt_more g fresh i :
  wf g -> inGrid i = true ->
  pieceAt (withPieces g (pieces g ++ fresh)) i = pieceAt g i.
Proof.
  intros Hwf Hi. unfold pieceAt. rewrite occupant_more.
  destruct (occupant g i) as [x|] eqn:Ex; [|reflexivity].
  destruct (wf_occupant _ _ _ Hwf Hi Ex) as (px & Hx & _).
  cbn [pieces withPieces]. apply lookup_app_l. apply lookup_lt_Some in Hx.
  exact Hx.
Qed.

Lemma wf_more g fresh : wf g -> wf (withPieces g (pieces g ++ fresh)).
Proof.
  intros Hwf. apply wf_intro; [exact (wf_shape _ Hwf)|].
  intros i p Hi Ho. rewrite occupant_more in Ho.
  destruct (wf_occupant _ _ _ Hwf Hi Ho) as (pc & Hp & Hr & Hc).
  exists pc. split; [|split; assumption].
  cbn [pieces withPieces]. rewrite lookup_app_l; [exact Hp|].
  apply lookup_lt_Some in Hp. exact Hp.
Qed.

Lemma hasKing_more g fresh s :
  wf g -> hasKing g s -> hasKing (withPieces g (pieces g ++ fresh)) s.
Proof.
  intros Hwf [k [Hin Hk]]. exists k. split; [exact Hin|].
  rewrite isKingOf_pieceAt in Hk |- *. rewrite pieceAt_more by assumption.
  exact Hk.
Qed.

Lemma isCheckNow_reads g :
  wf g -> hasKing g (turn g) -> exists b, reads App.isCheckNow g b.
Proof.
  intros Hwf [k Hk]. destruct (foundKing_complete _ _ _ Hk) as [k' Hk'].
  eexists. unfold App.isCheckNow. apply isCheck_reads; eassumption.
Qed.

Lemma readAll_reads g :
  wf g ->
  reads (foldQ (fun _ i => (_ <- rd i.1 i.2 ;; retQ tt)%Q) allCells tt) g tt.
Proof.
  intros Hwf. pose proof (wf_shape _ Hwf) as Hs.
  replace tt with (foldl (fun (_ : unit) (_ : ix) => tt) tt allCells) at 2
    by (destruct (foldl _ _ _); reflexivity).
  apply (foldQ_pure _ (fun _ _ => tt) (fun i => inGrid i = true)).
  - intros [] [r c] Hi. eapply reads_bind; [apply rd_reads; eassumption|].
    apply reads_ret.
  - apply Forall_forall. intros i Hi. apply inGrid_allCells, list_elem_of_In, Hi.
Qed.

Lemma reloadBoard_run a :
  wf (App.gameOf a) -> hasKing (App.gameOf a) (App.turn_ a) ->
  App.reloadBoard a = Some (tt, a).
Proof.
  intros Hwf Hk. destruct (isCheckNow_reads _ Hwf Hk) as [b Hb].
  unfold App.reloadBoard.
  eapply bindA_run; [apply ask_run; exact Hb|].
  apply ask_run, readAll_reads, Hwf.
Qed.

Lemma updateStatus_run a :
  App.over_ a = true \/ App.isAiThinking a = true \/
  (wf (App.gameOf a) /\ hasKing (App.gameOf a) (App.turn_ a)) ->
  App.updateStatus a = Some (tt, a).
Proof.
  intros H. unfold App.updateStatus, App.bindA, App.get.
  destruct (App.over_ a); [reflexivity|].
  destruct (App.isAiThinking a); [reflexivity|].
  destruct H as [H|[H|[Hwf Hk]]]; try discriminate.
  destruct (isCheckNow_reads _ Hwf Hk) as [b Hb].
  rewrite (ask_run _ _ _ Hb). reflexivity.
Qed.

(** [cloneBoard] on a well-formed game. *)
Lemma cloneBoard_runs g :
  wf g ->
  exists b fresh,
    runs App.cloneBoard g b (withPieces g (pieces g ++ fresh)) /\
    copyOf g (Game (pieces g ++ fresh) b (turn g) (gameOver g)) /\
    Forall (fun q => (length (pieces g) <= q)%nat) (refsOf b).
Proof.
  intros Hwf. pose proof (wf_shape _ Hwf) as Hs.
  destruct (cloneRows_runs (board g) g) as (b & fresh & Hrun & Hrel & Hnd & Hbd).
  { intros rw p. apply wf_refs_valid, Hwf. }
  exists b, fresh. split; [exists []; split; [exact Hrun | constructor]|].
  split.
  - assert (Hs' : gridShape b).
    { destruct Hs as [Hlen Hrows]. split.
      - pose proof Hrel as Hl. apply Forall2_length in Hl.
        rewrite <- Hl. exact Hlen.
      - intros i rw' Hi.
        destruct (Forall2_lookup_r _ _ _ _ _ Hrel Hi) as (rw & Hrw & Hrow).
        apply Forall2_length in Hrow. rewrite <- Hrow. eapply Hrows, Hrw. }
    split; [exact Hs'|]. intros [r c] Hin.
    destruct (getCell_grid _ r c Hs Hin) as (rw & Hrw & _ & v & Hv & Hget).
    destruct (getCell_grid _ r c Hs' Hin) as (rw' & Hrw' & _ & v' & Hv' & Hget').
    unfold occupant. cbn [board fst snd]. rewrite Hget, Hget'. cbn [default].
    pose proof (Forall2_lookup_lr _ _ _ _ _ _ Hrel Hrw Hrw') as Hrow.
    pose proof (Forall2_lookup_lr _ _ _ _ _ _ Hrow Hv Hv') as Hc.
    destruct v as [p|], v' as [q|]; cbn [cloned] in Hc; try tauto.
    destruct Hc as (_ & Hq & [pc Hpc]). exists pc. cbn [pieces].
    split; [exact Hpc | congruence].
  - eapply list.Forall_impl; [exact Hbd|]. intros q. cbv beta. lia.
Qed.

Lemma saveHistory_run a :
  wf (App.gameOf a) ->
  exists b fresh,
    App.saveHistory a = Some (tt, savedApp a b fresh) /\
    copyOf (App.gameOf a)
           (Game (App.objs a ++ fresh) b (App.turn_ a) (App.over_ a)) /\
    Forall (fun q => (length (App.objs a) <= q)%nat) (refsOf b).
Proof.
  intros Hwf. destruct (cloneBoard_runs _ Hwf) as (b & fresh & Hrun & Hcopy & Hfr).
  exists b, fresh. split; [|split; [exact Hcopy | exact Hfr]].
  unfold App.saveHistory.
  eapply bindA_run; [apply onGame_run; exact Hrun|].
  unfold savedApp, App.putGame. cbn.
  pose proof (insert_live a) as Hins. unfold App.gameOf in Hins.
  cbn [board] in Hins. rewrite Hins. reflexivity.
Qed.

Lemma saveHistory_on a g b fresh :
  App.gameOf a = g ->
  runs App.cloneBoard g b (withPieces g (pieces g ++ fresh)) ->
  App.saveHistory a = Some (tt, savedApp a b fresh).
Proof.
  intros <- Hrun. unfold App.saveHistory.
  eapply bindA_run; [apply onGame_run; exact Hrun|].
  unfold savedApp, App.putGame. cbn.
  pose proof (insert_live a) as Hins. unfold App.gameOf in Hins.
  cbn [board] in Hins. rewrite Hins. reflexivity.
Qed.

(** One assignment to, or one reading of, the controller. *)
Ltac setter :=
  eapply bindA_run; [reflexivity|];
  cbn [App.objs App.boards App.board_ App.turn_ App.over_ App.selectedPiece
       App.gameMode App.playerColor App.aiColor App.difficulty
       App.isAiThinking App.lastMove App.history App.posted].

Ltac game_norm Hv :=
  unfold App.gameOf;
  cbn [App.objs App.boards App.board_ App.turn_ App.over_ App.isAiThinking
       App.putGame savedApp pieces board turn gameOver];
  rewrite ?lookup_app_l by (rewrite ?length_insert; exact Hv);
  rewrite ?list_lookup_insert_eq by exact Hv; cbn [default].

(** The four ways [attemptMove] ends. *)
Lemma attempt_cases g p pc t :
  let g3 := moved g p pc (row pc, col pc) t in
  (ruleOf g pc t = false /\ attemptOutcome g p pc t = NotValid /\
   afterAttempt g p pc t = g) \/
  (ruleOf g pc t = true /\ facingOf g3 (kingsFound g3) = true /\
   attemptOutcome g p pc t = FlyingGeneral /\ afterAttempt g p pc t = g) \/
  (ruleOf g pc t = true /\ facingOf g3 (kingsFound g3) = false /\
   kingOn g t = true /\ attemptOutcome g p pc t = KingTaken /\
   afterAttempt g p pc t = Game (pieces g3) (board g3) (turn g) true) \/
  (ruleOf g pc t = true /\ facingOf g3 (kingsFound g3) = false /\
   kingOn g t = false /\ attemptOutcome g p pc t = Played /\
   afterAttempt g p pc t
     = Game (pieces g3) (board g3) (opponent (turn g)) (gameOver g)).
Proof.
  intros g3. unfold afterAttempt, attemptOutcome. cbv zeta. fold g3.
  destruct (ruleOf g pc t); cbn [negb]; [|left; auto].
  destruct (facingOf g3 (kingsFound g3)); [right; left; auto|].
  destruct (kingOn g t); [right; right; left; auto 6 | right; right; right; auto 6].
Qed.

(** Whether the target held a king, read once the move is on the board. *)
Lemma attempt_won g p pc t :
  wf g -> pieces g !! p = Some pc ->
  inGrid (row pc, col pc) = true -> inGrid t = true ->
  reads (isValidMove (Some p) t.1 t.2) g true ->
  reads (isKingCell (occupant g t)) (moved g p pc (row pc, col pc) t)
        (kingOn g t).
Proof.
  intros Hwf Hp Hsrc Hdst Hok.
  assert (Hne : (row pc, col pc) <> t).
  { destruct t as [tr tc]. exact (isValidMove_true_ne g p pc tr tc Hp Hok). }
  rewrite kingOn_pieceAt. unfold isKingCell, pieceAt.
  destruct (occupant g t) as [x|] eqn:Ex; [|apply reads_ret].
  destruct (wf_occupant _ _ _ Hwf Hdst Ex) as (cx & Hx & _). rewrite Hx.
  eapply reads_bind; [|apply reads_ret].
  apply deref_reads. rewrite pieces_moved_other; [exact Hx|].
  eapply (other_cell_other_piece g p pc (row pc, col pc)); eauto.
Qed.

(** The statements of [attemptMove] up to the test of [kingsFacing]. *)
Ltac attempt_prelude Hv Hok Hp Hs Hsrc Hdst Hkf G3 :=
  eapply bindA_run; [apply ask_run; exact Hok|]; cbv beta iota;
  eapply bindA_run; [apply ask_run, deref_reads; exact Hp|];
  eapply bindA_run; [apply ask_run, rd_reads; assumption|];
  eapply bindA_run; [apply ask_run, rd_reads; assumption|];
  eapply bindA_run; [apply onGame_run, wr_runs; assumption|];
  eapply bindA_run;
    [apply onGame_run; rewrite gameOf_putGame by exact Hv;
     apply wr_runs; [simpl; apply setAt_shape; assumption | exact Hdst]|];
  rewrite putGame_putGame; cbv zeta;
  eapply bindA_run;
    [apply onGame_run; rewrite gameOf_putGame by exact Hv;
     apply setPos_runs; simpl; exact Hp|];
  rewrite putGame_putGame;
  change (withPieces _ _) with G3;
  eapply bindA_run;
    [apply ask_run; rewrite gameOf_putGame by exact Hv; exact Hkf|];
  cbv beta iota.

(** The controller's [attemptMove], forwards.  Only a move that is carried
    out reaches [isCheck], which needs the king of the side to move. *)
Lemma app_attemptMove_run a p pc t :
  wf (App.gameOf a) -> App.objs a !! p = Some pc ->
  inGrid (row pc, col pc) = true -> inGrid t = true ->
  (attemptOutcome (App.gameOf a) p pc t = KingTaken \/
   attemptOutcome (App.gameOf a) p pc t = Played ->
   hasKing (afterAttempt (App.gameOf a) p pc t)
           (turn (afterAttempt (App.gameOf a) p pc t))) ->
  exists b fresh,
    App.attemptMove p t.1 t.2 a
      = Some (attemptOutcome (App.gameOf a) p pc t,
              match attemptOutcome (App.gameOf a) p pc t with
              | NotValid | FlyingGeneral => a
              | KingTaken =>
                  wonApp a (afterAttempt (App.gameOf a) p pc t) (row pc, col pc) t
              | Played =>
                  playedApp a (afterAttempt (App.gameOf a) p pc t)
                            (row pc, col pc) t b fresh
              end) /\
    (attemptOutcome (App.gameOf a) p pc t = Played ->
     copyOf (afterAttempt (App.gameOf a) p pc t)
            (Game (pieces (afterAttempt (App.gameOf a) p pc t) ++ fresh) b
                  (opponent (App.turn_ a)) (App.over_ a)) /\
     Forall (fun q => (length (App.objs a) <= q)%nat) (refsOf b)).
Proof.
  intros Hwf Hp Hsrc Hdst Hking. destruct t as [tr tc].
  pose proof (wf_validApp _ Hwf) as Hv. pose proof (wf_shape _ Hwf) as Hs.
  pose proof (isValidMove_reads _ p pc (tr, tc) Hwf Hp Hsrc Hdst) as Hok.
  pose proof (wf_moved _ p pc (row pc, col pc) (tr, tc) Hwf Hsrc Hdst Hp eq_refl)
    as Hwf3.
  pose proof (kingsFacing_reads _ Hwf3) as Hkf.
  pose proof (moved_shape _ p pc (row pc, col pc) (tr, tc) Hwf Hsrc Hdst) as Hs3.
  cbn [fst snd] in *.
  destruct (attempt_cases (App.gameOf a) p pc (tr, tc))
    as [(Er & Eo & Eg)|[(Er & Ef & Eo & Eg)|[(Er & Ef & Ek & Eo & Eg)
                                            |(Er & Ef & Ek & Eo & Eg)]]];
    rewrite Eo, Eg in Hking; rewrite Eo, Eg; clear Eo Eg; rewrite Er in Hok;
    try rewrite Ef in Hkf;
    try (assert (Hk' := Hking (or_introl eq_refl)); clear Hking; rename Hk' into Hking);
    try (assert (Hk' := Hking (or_intror eq_refl)); clear Hking; rename Hk' into Hking).
  - exists [], []. split; [|discriminate]. unfold App.attemptMove.
    eapply bindA_run; [apply ask_run; exact Hok|]. reflexivity.
  - exists [], []. split; [|discriminate]. unfold App.attemptMove.
    attempt_prelude Hv Hok Hp Hs Hsrc Hdst Hkf
      (moved (App.gameOf a) p pc (row pc, col pc) (tr, tc)).
    eapply bindA_run.
    { apply onGame_run. rewrite gameOf_putGame by exact Hv.
      apply setPos_runs. apply pieces_moved_self. exact Hp. }
    rewrite putGame_putGame.
    eapply bindA_run.
    { apply onGame_run. rewrite gameOf_putGame by exact Hv.
      apply wr_runs; [exact Hs3 | exact Hsrc]. }
    rewrite putGame_putGame.
    eapply bindA_run.
    { apply onGame_run. rewrite gameOf_putGame by exact Hv.
      apply wr_runs; [|exact Hdst]. simpl. apply setAt_shape; assumption. }
    rewrite putGame_putGame. unfold App.retA. do 2 f_equal.
    transitivity (App.putGame a (App.gameOf a)); [|apply putGame_gameOf].
    f_equal. unfold withBoard, withPieces.
    pose proof (unplace_pieces (App.gameOf a) p pc (row pc, col pc) (tr, tc)
                  Hp eq_refl) as Eps.
    pose proof (restore_board (App.gameOf a) (row pc, col pc) (tr, tc)
                  Hwf Hsrc Hdst (Some p) _ _ eq_refl eq_refl) as Ebd.
    cbn [fst snd pieces board turn gameOver moved] in Eps, Ebd |- *.
    rewrite Eps, Ebd. apply game_eta.
  - exists [], []. split; [|discriminate]. unfold App.attemptMove.
    attempt_prelude Hv Hok Hp Hs Hsrc Hdst Hkf
      (moved (App.gameOf a) p pc (row pc, col pc) (tr, tc)).
    pose proof (attempt_won (App.gameOf a) p pc (tr, tc) Hwf Hp Hsrc Hdst Hok)
      as Hwon.
    rewrite Ek in Hwon.
    remember (moved (App.gameOf a) p pc (row pc, col pc) (tr, tc)) as g3 eqn:Eg3.
    assert (Et : turn g3 = App.turn_ a) by (rewrite Eg3; reflexivity).
    setter.
    setter.
    eapply bindA_run.
    { apply ask_run. game_norm Hv. rewrite game_eta. exact Hwon. }
    cbv beta iota.
    eapply bindA_run.
    { unfold App.endGame. setter.
      eapply bindA_run; [apply updateStatus_run; left; reflexivity|].
      apply reloadBoard_run.
      + game_norm Hv. apply (wf_flags g3), Hwf3.
      + game_norm Hv. rewrite Et. exact Hking. }
    unfold App.retA, wonApp, App.putGame. cbn. rewrite Et. reflexivity.
  - pose proof (attempt_won (App.gameOf a) p pc (tr, tc) Hwf Hp Hsrc Hdst Hok)
      as Hwon.
    rewrite Ek in Hwon.
    cbn [turn gameOver App.gameOf] in Hking |- *.
    assert (HwfP : wf (Game (pieces (moved (App.gameOf a) p pc (row pc, col pc)
                                           (tr, tc)))
                            (board (moved (App.gameOf a) p pc (row pc, col pc)
                                          (tr, tc)))
                            (opponent (App.turn_ a)) (App.over_ a)))
      by (apply (wf_flags (moved (App.gameOf a) p pc (row pc, col pc) (tr, tc))),
            Hwf3).
    destruct (cloneBoard_runs _ HwfP) as (b & fresh & Hclone & Hcopy & Hfr).
    exists b, fresh. split.
    2: { intros _. split; [exact Hcopy|].
         eapply list.Forall_impl; [exact Hfr|]. intros q. cbn [pieces moved].
         rewrite length_insert. cbn [App.gameOf pieces]. auto. }
    unfold App.attemptMove.
    attempt_prelude Hv Hok Hp Hs Hsrc Hdst Hkf
      (moved (App.gameOf a) p pc (row pc, col pc) (tr, tc)).
    remember (moved (App.gameOf a) p pc (row pc, col pc) (tr, tc)) as g3 eqn:Eg3.
    assert (Et : turn g3 = App.turn_ a) by (rewrite Eg3; reflexivity).
    assert (Eov : gameOver g3 = App.over_ a) by (rewrite Eg3; reflexivity).
    set (gP := Game (pieces g3) (board g3) (opponent (App.turn_ a)) (App.over_ a))
      in *.
    setter.
    setter.
    eapply bindA_run.
    { apply ask_run. game_norm Hv. rewrite game_eta. exact Hwon. }
    cbv beta iota.
    setter.
    setter.
    destruct (isCheckNow_reads gP HwfP) as [chk Hchk]; [exact Hking|].
    eapply bindA_run.
    { apply ask_run. game_norm Hv. rewrite Et, Eov. exact Hchk. }
    eapply bindA_run.
    { eapply (saveHistory_on _ gP b fresh); [|exact Hclone].
      game_norm Hv. rewrite Et, Eov. reflexivity. }
    eapply bindA_run.
    { apply reloadBoard_run.
      - game_norm Hv. rewrite Et, Eov. exact (wf_more gP fresh HwfP).
      - game_norm Hv. rewrite Et, Eov. exact (hasKing_more gP fresh _ HwfP Hking). }
    eapply bindA_run.
    { apply updateStatus_run. right. right. split.
      - game_norm Hv. rewrite Et, Eov. exact (wf_more gP fresh HwfP).
      - game_norm Hv. rewrite Et, Eov. exact (hasKing_more gP fresh _ HwfP Hking). }
    setter.
    setter.
    setter.
    setter.
    unfold playedApp, triggers, savedApp.
    cbn [App.objs App.boards App.board_ App.turn_ App.over_ App.isAiThinking
         App.gameMode App.aiColor App.putGame pieces board turn gameOver gP].
    rewrite Et, Eov.
    destruct (App.gameMode a) eqn:Egm.
    + destruct (side_eqb (opponent (App.turn_ a)) (App.aiColor a)
                && negb (App.over_ a)) eqn:Etr.
      * eapply bindA_run.
        { unfold App.triggerAi. setter.
          eapply bindA_run; [apply updateStatus_run; right; left; reflexivity|].
          reflexivity. }
        unfold App.retA. cbn.
        rewrite lookup_app_l by (rewrite length_insert; exact Hv).
        rewrite list_lookup_insert_eq by exact Hv.
        rewrite ?length_insert, ?Egm, ?Etr. reflexivity.
      * unfold App.bindA, App.retA. cbn.
        rewrite ?length_insert, ?Egm, ?Etr. reflexivity.
    + unfold App.bindA, App.retA. cbn.
      rewrite ?length_insert, ?Egm. reflexivity.
Qed.

(** Whether the target held a king, read once a piece has been put on it,
    whatever the piece and wherever it came from. *)
Lemma moved_won g p pc src dst :
  wf g -> inGrid src = true -> inGrid dst = true ->
  pieces g !! p = Some pc -> (row pc, col pc) = src ->
  reads (isKingCell (occupant g dst)) (moved g p pc src dst) (kingOn g dst).
Proof.
  intros Hwf Hsrc Hdst Hp Hpos.
  rewrite kingOn_pieceAt. unfold isKingCell, pieceAt.
  destruct (occupant g dst) as [x|] eqn:Ex; [|apply reads_ret].
  destruct (wf_occupant _ _ _ Hwf Hdst Ex) as (cx & Hx & _). rewrite Hx.
  destruct (decide (x = p)) as [->|Hne].
  - assert (cx = pc) as -> by congruence.
    eapply reads_bind.
    + apply deref_reads. apply pieces_moved_self. exact Hp.
    + apply reads_ret.
  - eapply reads_bind; [|apply reads_ret].
    apply deref_reads. rewrite pieces_moved_other; [exact Hx | exact Hne].
Qed.

(** [handleAiMove], forwards. *)
Lemma handleAiMove_run a src dst :
  wf (App.gameOf a) -> inGrid src = true -> inGrid dst = true ->
  match occupant (App.gameOf a) src with
  | None =>
      App.handleAiMove (Some (src, dst)) a = Some (App.NoPiece, idleApp a)
  | Some p =>
      exists pc,
        App.objs a !! p = Some pc /\
        if kingOn (App.gameOf a) dst then
          hasKing (moved (App.gameOf a) p pc src dst) (App.turn_ a) ->
          App.handleAiMove (Some (src, dst)) a
            = Some (App.AiWon,
                    aiWonApp a (moved (App.gameOf a) p pc src dst) (src, dst))
        else
          hasKing (moved (App.gameOf a) p pc src dst) (App.playerColor a) ->
          exists b fresh,
            App.handleAiMove (Some (src, dst)) a
              = Some (App.AiPlayed,
                      repliedApp a (moved (App.gameOf a) p pc src dst)
                                 (src, dst) b fresh) /\
            copyOf (Game (pieces (moved (App.gameOf a) p pc src dst))
                         (board (moved (App.gameOf a) p pc src dst))
                         (App.playerColor a) (App.over_ a))
                   (Game (pieces (moved (App.gameOf a) p pc src dst) ++ fresh) b
                         (App.playerColor a) (App.over_ a)) /\
            Forall (fun q => (length (App.objs a) <= q)%nat) (refsOf b)
  end.
Proof.
  intros Hwf Hsrc Hdst.
  pose proof (wf_validApp _ Hwf) as Hv. pose proof (wf_shape _ Hwf) as Hs.
  assert (Hv0 : validApp (idleApp a)) by exact Hv.
  destruct src as [sr sc], dst as [tr tc].
  pose proof (rd_reads (App.gameOf (idleApp a)) sr sc Hs Hsrc) as Hr1.
  pose proof (rd_reads (App.gameOf (idleApp a)) tr tc Hs Hdst) as Hr2.
  change (App.gameOf (idleApp a)) with (App.gameOf a) in Hr1 at 2.
  change (App.gameOf (idleApp a)) with (App.gameOf a) in Hr2 at 2.
  destruct (occupant (App.gameOf a) (sr, sc)) as [p|] eqn:Esrc.
  2: { unfold App.handleAiMove.
       setter. change (App.Build _ _ _ _ _ _ _ _ _ _ _ _ _ _)
         with (idleApp a). cbn [fst snd].
       eapply bindA_run; [apply ask_run; exact Hr1|].
       eapply bindA_run; [apply ask_run; exact Hr2|]. reflexivity. }
  destruct (wf_occupant _ _ _ Hwf Hsrc Esrc) as (pc & Hp & Hrow & Hcol).
  cbn [fst snd] in Hrow, Hcol.
  assert (Hpos : (row pc, col pc) = (sr, sc)) by congruence.
  exists pc. split; [exact Hp|].
  pose proof (wf_moved _ p pc (sr, sc) (tr, tc) Hwf Hsrc Hdst Hp Hpos) as Hwf3.
  pose proof (moved_won _ p pc (sr, sc) (tr, tc) Hwf Hsrc Hdst Hp Hpos) as Hwon.
  assert (Hpre : forall (K : App.A App.reply) r,
            K (App.putGame (idleApp a)
                 (moved (App.gameOf a) p pc (sr, sc) (tr, tc))) = r ->
            App.bindA (App.onGame (wr sr sc None)) (fun _ =>
              App.bindA (App.onGame (wr tr tc (Some p))) (fun _ =>
                App.bindA (App.onGame (setPos p tr tc)) (fun _ => K)))
              (idleApp a) = r).
  { intros K r HK.
    eapply bindA_run; [apply onGame_run, wr_runs; [exact Hs | exact Hsrc]|].
    eapply bindA_run.
    { apply onGame_run. rewrite gameOf_putGame by exact Hv0.
      apply wr_runs; [|exact Hdst]. simpl. apply setAt_shape; assumption. }
    rewrite putGame_putGame.
    eapply bindA_run.
    { apply onGame_run. rewrite gameOf_putGame by exact Hv0.
      apply setPos_runs. simpl. exact Hp. }
    rewrite putGame_putGame. exact HK. }
  remember (moved (App.gameOf a) p pc (sr, sc) (tr, tc)) as g3 eqn:Eg3.
  assert (Et : turn g3 = App.turn_ a) by (rewrite Eg3; reflexivity).
  assert (Eov : gameOver g3 = App.over_ a) by (rewrite Eg3; reflexivity).
  assert (Elen : length (pieces g3) = length (App.objs a)).
  { rewrite Eg3. cbn [pieces moved]. apply length_insert. }
  destruct (kingOn (App.gameOf a) (tr, tc)) eqn:Ek.
  - intros Hking. unfold App.handleAiMove.
    setter.
    change (App.Build _ _ _ _ _ _ _ _ _ _ _ _ _ _) with (idleApp a). cbn [fst snd].
    eapply bindA_run; [apply ask_run; exact Hr1|].
    eapply bindA_run; [apply ask_run; exact Hr2|].
    cbv beta iota. apply Hpre.
    setter.
    eapply bindA_run.
    { apply ask_run. game_norm Hv. rewrite game_eta. exact Hwon. }
    cbv beta iota.
    eapply bindA_run.
    { unfold App.endGame. setter.
      eapply bindA_run; [apply updateStatus_run; left; reflexivity|].
      apply reloadBoard_run.
      + game_norm Hv. apply (wf_flags g3), Hwf3.
      + game_norm Hv. rewrite Et. exact Hking. }
    unfold App.retA, aiWonApp, App.putGame, idleApp. cbn. rewrite Et. reflexivity.
  - intros Hking.
    set (gP := Game (pieces g3) (board g3) (App.playerColor a) (App.over_ a)).
    assert (HwfP : wf gP) by (apply (wf_flags g3), Hwf3).
    destruct (cloneBoard_runs _ HwfP) as (b & fresh & Hclone & Hcopy & Hfr).
    exists b, fresh. split; [|split; [exact Hcopy | rewrite <- Elen; exact Hfr]].
    unfold App.handleAiMove.
    setter.
    change (App.Build _ _ _ _ _ _ _ _ _ _ _ _ _ _) with (idleApp a). cbn [fst snd].
    eapply bindA_run; [apply ask_run; exact Hr1|].
    eapply bindA_run; [apply ask_run; exact Hr2|].
    cbv beta iota. apply Hpre.
    setter.
    eapply bindA_run.
    { apply ask_run. game_norm Hv. rewrite game_eta. exact Hwon. }
    cbv beta iota.
    setter.
    setter.
    destruct (isCheckNow_reads gP HwfP) as [chk Hchk]; [exact Hking|].
    eapply bindA_run.
    { apply ask_run. game_norm Hv. rewrite Eov. exact Hchk. }
    eapply bindA_run.
    { eapply (saveHistory_on _ gP b fresh); [|exact Hclone].
      game_norm Hv. rewrite Eov. reflexivity. }
    eapply bindA_run.
    { apply reloadBoard_run.
      - game_norm Hv. rewrite Eov. exact (wf_more gP fresh HwfP).
      - game_norm Hv. rewrite Eov. exact (hasKing_more gP fresh _ HwfP Hking). }
    eapply bindA_run.
    { apply updateStatus_run. right. right. split.
      - game_norm Hv. rewrite Eov. exact (wf_more gP fresh HwfP).
      - game_norm Hv. rewrite Eov. exact (hasKing_more gP fresh _ HwfP Hking). }
    unfold App.retA, repliedApp, savedApp, App.putGame, idleApp. cbn.
    rewrite ?length_insert, ?Eov. reflexivity.
Qed.

(** [undo], forwards. *)
Lemma undo_run a e :
  App.isAiThinking a = false -> (1 < length (App.history a))%nat ->
  list.last (remaining (App.gameMode a) (App.history a)) = Some e ->
  wf (App.gameOf (restored a e)) ->
  hasKing (App.gameOf (restored a e)) (App.eturn e) ->
  App.undo a = Some (tt, restored a e).
Proof.
  intros Ht Hlen He Hwf Hk. unfold App.undo.
  setter. rewrite Ht. cbv beta iota.
  setter.
  replace (length (App.history a) <=? 1)%nat with false
    by (symmetry; apply Nat.leb_gt, Hlen).
  cbv beta iota.
  setter. cbv beta zeta. unfold App.pop.
  fold (remaining (App.gameMode a) (App.history a)).
  setter. rewrite He. cbv beta iota.
  setter. setter. setter. setter. setter.
  change (App.Build _ _ _ _ _ _ _ _ _ _ _ _ _ _) with (restored a e).
  eapply bindA_run; [apply reloadBoard_run; [exact Hwf | exact Hk]|].
  apply updateStatus_run. right. right. split; [exact Hwf | exact Hk].
Qed.

Lemma handleAiMove_played_inv a mv a' :
  validApp a -> App.handleAiMove (Some mv) a = Some (App.AiPlayed, a') ->
  App.history a'
    = App.history a
        ++ [App.Entry (length (App.boards a)) (App.playerColor a) (Some mv)] /\
  App.board_ a' = App.board_ a /\ App.gameMode a' = App.gameMode a /\
  App.isAiThinking a' = false.
Proof.
  intros Hv H. unfold App.handleAiMove in H.
  apply bindA_inv in H as (u & a0 & H0 & H).
  unfold App.setThinking in H0. injection H0 as _ <-.
  destruct mv as [src dst].
  apply bindA_inv in H as (piece & a1 & H1 & H). apply ask_inv in H1 as [-> _].
  apply bindA_inv in H as (target & a1 & H1 & H). apply ask_inv in H1 as [-> _].
  destruct piece as [p|]; [|apply retA_inv in H as [[=] _]].
  apply bindA_inv in H as (u1 & a1 & H1 & H).
  apply onGame_inv in H1 as (g1 & l1 & _ & ->).
  apply bindA_inv in H as (u2 & a1 & H1 & H).
  apply onGame_inv in H1 as (g2 & l2 & _ & ->).
  apply bindA_inv in H as (u3 & a1 & H1 & H).
  apply onGame_inv in H1 as (g3 & l3 & _ & ->).
  rewrite !putGame_putGame in H.
  apply bindA_inv in H as (u4 & a1 & H1 & H).
  unfold App.setLastMove in H1. injection H1 as _ <-.
  apply bindA_inv in H as (won & a1 & H1 & H). apply ask_inv in H1 as [-> _].
  destruct won.
  { apply bindA_inv in H as (u5 & a1 & H1 & H). apply retA_inv in H as [[=] _]. }
  apply bindA_inv in H as (pl & a1 & H1 & H). apply get_inv in H1 as [-> ->].
  apply bindA_inv in H as (u5 & a1 & H1 & H).
  unfold App.setGameTurn in H1. injection H1 as _ <-.
  apply bindA_inv in H as (chk & a1 & H1 & H). apply ask_inv in H1 as [-> _].
  apply bindA_inv in H as (u6 & a1 & H1 & H).
  apply saveHistory_inv in H1 as (b & fresh & lc & _ & ->).
  apply bindA_inv in H as (u7 & a1 & H1 & H). apply reloadBoard_inv in H1 as ->.
  apply bindA_inv in H as (u8 & a1 & H1 & H). apply updateStatus_inv in H1 as ->.
  apply retA_inv in H as [_ ->]. cbn. rewrite length_insert.
  repeat split; reflexivity.
Qed.

(** ** The controller's [attemptMove], whenever it returns

    The statements the call has run, each with what it read or left, and
    the controller at the end. *)
Lemma app_attemptMove_inv p r c a o a' :
  validApp a -> App.attemptMove p r c a = Some (o, a') ->
  exists ok l1,
    isValidMove (Some p) r c (App.gameOf a) = Some (ok, l1) /\
    if ok then
      exists pc orig l3 tc l4 g1 l5 g2 l6 g3 l7 facing l8,
        App.objs a !! p = Some pc /\
        rd (row pc) (col pc) (App.gameOf a) = Some (orig, l3) /\
        rd r c (App.gameOf a) = Some (tc, l4) /\
        wr (row pc) (col pc) None (App.gameOf a) = Some (tt, g1, l5) /\
        wr r c (Some p) g1 = Some (tt, g2, l6) /\
        setPos p r c g2 = Some (tt, g3, l7) /\
        kingsFacing g3 = Some (facing, l8) /\
        if facing then
          exists g4 l9 g5 l10 g6 l11,
            setPos p (row pc) (col pc) g3 = Some (tt, g4, l9) /\
            wr (row pc) (col pc) orig g4 = Some (tt, g5, l10) /\
            wr r c tc g5 = Some (tt, g6, l11) /\
            o = FlyingGeneral /\ a' = App.putGame a g6
        else
          exists won l9,
            isKingCell tc g3 = Some (won, l9) /\
            if won then
              o = KingTaken /\
              a' = wonApp a (Game (pieces g3) (board g3) (turn g3) true)
                          (row pc, col pc) (r, c)
            else
              exists b fresh lc,
                App.cloneBoard (Game (pieces g3) (board g3) (opponent (turn g3))
                                     (gameOver g3))
                = Some (b,
                        Game (pieces g3 ++ fresh) (board g3) (opponent (turn g3))
                             (gameOver g3),
                        lc) /\
                o = Played /\
                a' = playedApp a
                       (Game (pieces g3) (board g3) (opponent (turn g3))
                             (gameOver g3))
                       (row pc, col pc) (r, c) b fresh
    else o = NotValid /\ a' = a.
Proof.
  intros Hv H. unfold App.attemptMove in H.
  apply bindA_inv in H as (ok & a1 & H1 & H). apply ask_inv in H1 as [-> [l1 E1]].
  exists ok, l1. split; [exact E1|].
  destruct ok.
  2: { apply retA_inv in H as [-> ->]. split; reflexivity. }
  apply bindA_inv in H as (pc & a1 & H1 & H). apply ask_inv in H1 as [-> [l2 E2]].
  apply bindA_inv in H as (orig & a1 & H1 & H). apply ask_inv in H1 as [-> [l3 E3]].
  apply bindA_inv in H as (tc & a1 & H1 & H). apply ask_inv in H1 as [-> [l4 E4]].
  apply bindA_inv in H as (u1 & a1 & H1 & H).
  apply onGame_inv in H1 as (g1 & l5 & E5 & ->).
  apply bindA_inv in H as (u2 & a1 & H1 & H).
  apply onGame_inv in H1 as (g2 & l6 & E6 & ->).
  rewrite gameOf_putGame in E6 by exact Hv. rewrite putGame_putGame in H.
  cbv zeta in H.
  apply bindA_inv in H as (u3 & a1 & H1 & H).
  apply onGame_inv in H1 as (g3 & l7 & E7 & ->).
  rewrite gameOf_putGame in E7 by exact Hv. rewrite putGame_putGame in H.
  apply bindA_inv in H as (facing & a1 & H1 & H).
  apply ask_inv in H1 as [-> [l8 E8]].
  rewrite gameOf_putGame in E8 by exact Hv.
  assert (Hp : App.objs a !! p = Some pc).
  { unfold deref in E2. cbn [App.gameOf pieces] in E2.
    destruct (App.objs a !! p); [|discriminate]. injection E2 as -> _.
    reflexivity. }
  destruct u1, u2, u3.
  exists pc, orig, l3, tc, l4, g1, l5, g2, l6, g3, l7, facing, l8.
  do 7 (split; [assumption|]).
  destruct facing.
  - apply bindA_inv in H as (u4 & a1 & H1 & H).
    apply onGame_inv in H1 as (g4 & l9 & E9 & ->).
    rewrite gameOf_putGame in E9 by exact Hv. rewrite putGame_putGame in H.
    apply bindA_inv in H as (u5 & a1 & H1 & H).
    apply onGame_inv in H1 as (g5 & l10 & E10 & ->).
    rewrite gameOf_putGame in E10 by exact Hv. rewrite putGame_putGame in H.
    apply bindA_inv in H as (u6 & a1 & H1 & H).
    apply onGame_inv in H1 as (g6 & l11 & E11 & ->).
    rewrite gameOf_putGame in E11 by exact Hv. rewrite putGame_putGame in H.
    apply retA_inv in H as [-> ->]. destruct u4, u5, u6.
    exists g4, l9, g5, l10, g6, l11. repeat (split; [assumption|]).
    split; reflexivity.
  - apply bindA_inv in H as (u4 & a1 & H1 & H).
    unfold App.setSelected in H1. injection H1 as _ <-.
    apply bindA_inv in H as (u5 & a1 & H1 & H).
    unfold App.setLastMove in H1. injection H1 as _ <-.
    apply bindA_inv in H as (won & a1 & H1 & H).
    apply ask_inv in H1 as [-> [l9 E9]].
    assert (E9' : isKingCell tc g3 = Some (won, l9)).
    { rewrite <- (gameOf_putGame a g3 Hv). exact E9. }
    exists won, l9. split; [exact E9'|]. destruct won.
    + apply bindA_inv in H as (u6 & a1 & H1 & H).
      apply endGame_inv in H1 as ->. apply retA_inv in H as [-> ->].
      split; [reflexivity|]. unfold wonApp, App.putGame. cbn. reflexivity.
    + apply bindA_inv in H as (t & a1 & H1 & H). apply get_inv in H1 as [-> ->].
      apply bindA_inv in H as (u6 & a1 & H1 & H).
      unfold App.setGameTurn in H1. injection H1 as _ <-.
      apply bindA_inv in H as (chk & a1 & H1 & H). apply ask_inv in H1 as [-> _].
      apply bindA_inv in H as (u7 & a1 & H1 & H).
      apply saveHistory_inv in H1 as (b & fresh & lc & Hc & ->).
      apply bindA_inv in H as (u8 & a1 & H1 & H). apply reloadBoard_inv in H1 as ->.
      apply bindA_inv in H as (u9 & a1 & H1 & H). apply updateStatus_inv in H1 as ->.
      apply bindA_inv in H as (gm & a1 & H1 & H). apply get_inv in H1 as [-> ->].
      apply bindA_inv in H as (t' & a1 & H1 & H). apply get_inv in H1 as [-> ->].
      apply bindA_inv in H as (ai & a1 & H1 & H). apply get_inv in H1 as [-> ->].
      apply bindA_inv in H as (ov & a1 & H1 & H). apply get_inv in H1 as [-> ->].
      apply bindA_inv in H as (u10 & a1 & H1 & H). apply retA_inv in H as [-> ->].
      exists b, fresh, lc.
      match type of Hc with
      | App.cloneBoard ?G = _ =>
          assert (EG : G = Game (pieces g3) (board g3) (opponent (turn g3))
                                (gameOver g3))
            by (unfold App.gameOf; cbn;
                rewrite list_lookup_insert_eq by exact Hv; reflexivity);
          rewrite EG in Hc
      end.
      split; [exact Hc|]. split; [reflexivity|]. cbn in H1 |- *.
      unfold playedApp, triggers. cbn.
      destruct (App.gameMode a).
      -- destruct (side_eqb (opponent (turn g3)) (App.aiColor a)
                   && negb (gameOver g3)).
        ++ apply triggerAi_inv in H1 as ->. cbn.
           rewrite lookup_app_l by (rewrite length_insert; exact Hv).
           rewrite list_lookup_insert_eq by exact Hv.
           rewrite length_insert. reflexivity.
        ++ apply retA_inv in H1 as [_ ->]. rewrite length_insert. reflexivity.
      -- apply retA_inv in H1 as [_ ->]. rewrite length_insert. reflexivity.
Qed.

Lemma attemptMove_played_inv a p r c a' :
  validApp a -> App.attemptMove p r c a = Some (Played, a') ->
  (exists e, App.history a' = App.history a ++ [e]) /\
  App.board_ a' = App.board_ a /\ App.gameMode a' = App.gameMode a /\
  validApp a'.
Proof.
  intros Hv H.
  destruct (app_attemptMove_inv p r c a Played a' Hv H) as (ok & l1 & _ & Hc).
  destruct ok; [|destruct Hc; discriminate].
  destruct Hc as (pc & orig & l3 & tc & l4 & g1 & l5 & g2 & l6 & g3 & l7
                  & facing & l8 & _ & _ & _ & _ & _ & _ & _ & Hc).
  destruct facing.
  { destruct Hc as (g4 & l9 & g5 & l10 & g6 & l11 & _ & _ & _ & Ho & _).
    discriminate. }
  destruct Hc as (won & l9 & _ & Hc).
  destruct won; [destruct Hc; discriminate|].
  destruct Hc as (b & fresh & lc & _ & _ & ->).
  unfold playedApp, validApp. cbn. split; [eexists; reflexivity|].
  split; [reflexivity|]. split; [reflexivity|].
  rewrite length_app, length_insert. unfold validApp in Hv. lia.
Qed.

(** Objects allocated since do not change where the kings are. *)
Lemma kingAt_more g fresh s k :
  wf g -> kingAt (withPieces g (pieces g ++ fresh)) s k <-> kingAt g s k.
Proof.
  intros Hwf. unfold kingAt.
  split; intros [Hin Hk]; (split; [exact Hin|]);
    rewrite isKingOf_pieceAt in Hk |- *.
  - rewrite pieceAt_more in Hk by assumption. exact Hk.
  - rewrite pieceAt_more by assumption. exact Hk.
Qed.

Lemma kingsFace_more g fresh :
  wf g -> kingsFace (withPieces g (pieces g ++ fresh)) -> kingsFace g.
Proof.
  intros Hwf (x & y & Hx & Hy & Hc & Ho). exists x, y.
  split; [apply (kingAt_more g fresh), Hx; exact Hwf|].
  split; [apply (kingAt_more g fresh), Hy; exact Hwf|].
  split; [exact Hc | exact Ho].
Qed.

Lemma gameOf_wonApp a g' src dst :
  validApp a -> App.gameOf (wonApp a g' src dst) = g'.
Proof.
  intros Hv. unfold App.gameOf, wonApp. cbn.
  rewrite list_lookup_insert_eq by exact Hv. cbn [default]. apply game_eta.
Qed.

Lemma gameOf_playedApp a g' src dst b fresh :
  validApp a ->
  App.gameOf (playedApp a g' src dst b fresh) = withPieces g' (pieces g' ++ fresh).
Proof.
  intros Hv. unfold App.gameOf, playedApp. cbn.
  rewrite lookup_app_l by (rewrite length_insert; exact Hv).
  rewrite list_lookup_insert_eq by exact Hv. reflexivity.
Qed.

Lemma gameOf_appOf g : App.gameOf (appOf g) = g.
Proof. destruct g. reflexivity. Qed.

(** The values the statements of an accepted attempt have read and left,
    on a well-formed position. *)
Ltac attempt_trace a p pc tr tc0 Hwf Hv Hs Hp Hsrc Hdst Hok Hwf3 Ef Ek H Hc :=
  let ok := fresh "ok" in let l1 := fresh "l1" in let E1 := fresh "E1" in
  let l1' := fresh "l1'" in let Hok' := fresh "Hok'" in let Hl1 := fresh "Hl1" in
  let pc' := fresh "pc'" in let orig := fresh "orig" in let l3 := fresh "l3" in
  let tc := fresh "tc" in let l4 := fresh "l4" in let g1 := fresh "g1" in
  let l5 := fresh "l5" in let g2 := fresh "g2" in let l6 := fresh "l6" in
  let g3 := fresh "g3" in let l7 := fresh "l7" in let facing := fresh "facing" in
  let l8 := fresh "l8" in let Hp' := fresh "Hp'" in
  let E4 := fresh "E4" in let E5 := fresh "E5" in let E6 := fresh "E6" in
  let E7 := fresh "E7" in let E8 := fresh "E8" in let E9 := fresh "E9" in
  let R := fresh "R" in let won := fresh "won" in let l9 := fresh "l9" in
  destruct (app_attemptMove_inv _ _ _ _ _ _ Hv H) as (ok & l1 & E1 & Hc);
  destruct Hok as (l1' & Hok' & Hl1); rewrite Hok' in E1; injection E1 as <- _;
  destruct Hc as (pc' & orig & l3 & tc & l4 & g1 & l5 & g2 & l6 & g3 & l7
                  & facing & l8 & Hp' & _ & E4 & E5 & E6 & E7 & E8 & Hc);
  rewrite Hp in Hp'; injection Hp' as <-;
  destruct (rd_reads (App.gameOf a) tr tc0 Hs Hdst) as (? & R & _);
  rewrite R in E4; clear R; injection E4 as <- _;
  destruct (wr_runs (App.gameOf a) (row pc) (col pc) None Hs Hsrc) as (? & R & _);
  rewrite R in E5; clear R; injection E5 as <- _;
  match type of E6 with
  | wr _ _ _ ?G = _ =>
      destruct (wr_runs G tr tc0 (Some p)) as (? & R & _);
      [simpl; apply setAt_shape; assumption | exact Hdst |]
  end;
  rewrite R in E6; clear R; injection E6 as <- _;
  match type of E7 with
  | setPos _ _ _ ?G = _ =>
      destruct (setPos_runs G p pc tr tc0) as (? & R & _); [simpl; exact Hp|]
  end;
  rewrite R in E7; clear R; injection E7 as <- _;
  change (withPieces _ _)
    with (moved (App.gameOf a) p pc (row pc, col pc) (tr, tc0)) in *;
  destruct (kingsFacing_reads _ Hwf3) as (? & R & _);
  rewrite R in E8; clear R; injection E8 as <- _; rewrite Ef in Hc;
  destruct Hc as (won & l9 & E9 & Hc);
  destruct (attempt_won (App.gameOf a) p pc (tr, tc0) Hwf Hp Hsrc Hdst)
    as (? & R & _); [exists l1'; split; assumption|];
  rewrite R in E9; clear R; injection E9 as <- _; rewrite Ek in Hc.

(** The controller's [attemptMove] on a well-formed position, whenever it
    returns: how it ended and what it left. *)
Lemma app_attemptMove_exact a p pc t o a' :
  wf (App.gameOf a) -> App.objs a !! p = Some pc ->
  inGrid (row pc, col pc) = true -> inGrid t = true ->
  App.attemptMove p t.1 t.2 a = Some (o, a') ->
  o = attemptOutcome (App.gameOf a) p pc t /\
  exists b fresh,
    a' = match attemptOutcome (App.gameOf a) p pc t with
         | NotValid | FlyingGeneral => a
         | KingTaken =>
             wonApp a (afterAttempt (App.gameOf a) p pc t) (row pc, col pc) t
         | Played =>
             playedApp a (afterAttempt (App.gameOf a) p pc t)
                       (row pc, col pc) t b fresh
         end.
Proof.
  intros Hwf Hp Hsrc Hdst H. destruct t as [tr tc0]. cbn [fst snd] in H.
  pose proof (wf_validApp _ Hwf) as Hv. pose proof (wf_shape _ Hwf) as Hs.
  pose proof (isValidMove_reads _ p pc (tr, tc0) Hwf Hp Hsrc Hdst) as Hok.
  pose proof (wf_moved _ p pc (row pc, col pc) (tr, tc0) Hwf Hsrc Hdst Hp eq_refl)
    as Hwf3.
  cbn [fst snd] in Hok.
  destruct (attempt_cases (App.gameOf a) p pc (tr, tc0))
    as [(Er & Eo & Eg)|[(Er & Ef & Eo & Eg)|[(Er & Ef & Ek & Eo & Eg)
                                            |(Er & Ef & Ek & Eo & Eg)]]].
  - destruct (app_attemptMove_run a p pc (tr, tc0) Hwf Hp Hsrc Hdst)
      as (b & fresh & Hrun & _).
    { intros [E|E]; rewrite Eo in E; discriminate. }
    cbn [fst snd] in Hrun. rewrite H in Hrun. injection Hrun as -> ->.
    split; [reflexivity|]. exists b, fresh. reflexivity.
  - destruct (app_attemptMove_run a p pc (tr, tc0) Hwf Hp Hsrc Hdst)
      as (b & fresh & Hrun & _).
    { intros [E|E]; rewrite Eo in E; discriminate. }
    cbn [fst snd] in Hrun. rewrite H in Hrun. injection Hrun as -> ->.
    split; [reflexivity|]. exists b, fresh. reflexivity.
  - rewrite Eo, Eg. rewrite Er in Hok.
    attempt_trace a p pc tr tc0 Hwf Hv Hs Hp Hsrc Hdst Hok Hwf3 Ef Ek H Hc.
    destruct Hc as [-> ->]. split; [reflexivity|]. exists [], []. reflexivity.
  - rewrite Eo, Eg. rewrite Er in Hok.
    attempt_trace a p pc tr tc0 Hwf Hv Hs Hp Hsrc Hdst Hok Hwf3 Ef Ek H Hc.
    destruct Hc as (b & fresh & lc & _ & -> & ->).
    split; [reflexivity|]. exists b, fresh. reflexivity.
Qed.

(** * The controller *)

(** C9 -- A proposed move that fails [isValidMove], or that would leave the
    kings facing once simulated, is rejected without raising, and the game
    is exactly what it was before the attempt: the same occupant in every
    cell, the same [row]/[col] in every piece.  The controller as a whole
    is what it was: selection, last move, history and messages included. *)
Theorem rejected_move_changes_nothing a p pc t :
  wf (App.gameOf a) -> App.objs a !! p = Some pc ->
  inGrid (row pc, col pc) = true -> inGrid t = true ->
  (reads (isValidMove (Some p) t.1 t.2) (App.gameOf a) false ->
   App.attemptMove p t.1 t.2 a = Some (NotValid, a)) /\
  (reads (isValidMove (Some p) t.1 t.2) (App.gameOf a) true ->
   reads kingsFacing (moved (App.gameOf a) p pc (row pc, col pc) t) true ->
   App.attemptMove p t.1 t.2 a = Some (FlyingGeneral, a)).
Proof.
  intros Hwf Hp Hsrc Hdst.
  pose proof (isValidMove_reads _ p pc t Hwf Hp Hsrc Hdst) as Hr.
  pose proof (wf_moved _ p pc (row pc, col pc) t Hwf Hsrc Hdst Hp eq_refl) as Hwf3.
  pose proof (kingsFacing_reads _ Hwf3) as Hf.
  split.
  - intros Hok. pose proof (reads_det _ _ _ _ Hr Hok) as Er.
    assert (Eo : attemptOutcome (App.gameOf a) p pc t = NotValid).
    { destruct (attempt_cases (App.gameOf a) p pc t)
        as [(_ & Eo & _)|[(Er' & _)|[(Er' & _)|(Er' & _)]]];
        [exact Eo | congruence | congruence | congruence]. }
    destruct (app_attemptMove_run a p pc t Hwf Hp Hsrc Hdst)
      as (b & fresh & Hrun & _).
    { intros [E|E]; rewrite Eo in E; discriminate. }
    rewrite Eo in Hrun. exact Hrun.
  - intros Hok Hkf. pose proof (reads_det _ _ _ _ Hr Hok) as Er.
    pose proof (reads_det _ _ _ _ Hf Hkf) as Ef.
    assert (Eo : attemptOutcome (App.gameOf a) p pc t = FlyingGeneral).
    { destruct (attempt_cases (App.gameOf a) p pc t)
        as [(Er' & _)|[(_ & _ & Eo & _)|[(_ & Ef' & _)|(_ & Ef' & _)]]];
        [congruence | exact Eo | congruence | congruence]. }
    destruct (app_attemptMove_run a p pc t Hwf Hp Hsrc Hdst)
      as (b & fresh & Hrun & _).
    { intros [E|E]; rewrite Eo in E; discriminate. }
    rewrite Eo in Hrun. exact Hrun.
Qed.

(** With a rook as the only piece between the kings, moving the rook off
    the file is refused and the controller is untouched. *)
Lemma rejected_move_changes_nothing_witness :
  wf (App.gameOf (appOf rookBetweenKings)) /\
  App.attemptMove 2%nat 5 5 (appOf rookBetweenKings)
  = Some (FlyingGeneral, appOf rookBetweenKings).
Proof.
  assert (Hwf : wf (App.gameOf (appOf rookBetweenKings)))
    by (vm_compute; reflexivity).
  split; [exact Hwf|].
  refine (proj2 (rejected_move_changes_nothing (appOf rookBetweenKings) 2%nat
                   (Piece red rook 5 4) (5, 5) Hwf _ _ _) _ _).
  - vm_compute. reflexivity.
  - vm_compute. reflexivity.
  - vm_compute. reflexivity.
  - apply (reads_rule _ 2%nat (Piece red rook 5 4) (5, 5));
      vm_compute; reflexivity.
  - apply reads_facing; vm_compute; reflexivity.
Defined.

(** X10 -- A move that passes [isValidMove] and does not leave the kings
    facing is carried out by [attemptMove], provided the side that is to
    move when the call redraws has its king on the board ([isCheck] raises
    without it): the piece stands on the target with its coordinates
    updated, its former cell is empty, every other cell is untouched; the
    turn passes to the other side, unless the target held a king, in which
    case the game is over and the turn stays. *)
Theorem attemptMove_accepts a p pc t :
  wf (App.gameOf a) -> App.objs a !! p = Some pc ->
  occupant (App.gameOf a) (row pc, col pc) = Some p ->
  inGrid t = true ->
  reads (isValidMove (Some p) t.1 t.2) (App.gameOf a) true ->
  reads kingsFacing (moved (App.gameOf a) p pc (row pc, col pc) t) false ->
  hasKing (moved (App.gameOf a) p pc (row pc, col pc) t)
          (if kingOn (App.gameOf a) t then App.turn_ a
           else opponent (App.turn_ a)) ->
  exists o a',
    App.attemptMove p t.1 t.2 a = Some (o, a') /\ wf (App.gameOf a') /\
    occupant (App.gameOf a') t = Some p /\
    App.objs a' !! p = Some (placedAt pc t) /\
    occupant (App.gameOf a') (row pc, col pc) = None /\
    (forall j, inGrid j = true -> j <> t -> j <> (row pc, col pc) ->
               occupant (App.gameOf a') j = occupant (App.gameOf a) j) /\
    (if kingOn (App.gameOf a) t
     then o = KingTaken /\ App.over_ a' = true /\ App.turn_ a' = App.turn_ a
     else o = Played /\ App.over_ a' = App.over_ a /\
          App.turn_ a' = opponent (App.turn_ a)).
Proof.
  intros Hwf Hp Hocc Hdst Hok Hkf Hking.
  pose proof (occupant_inGrid _ _ _ Hwf Hocc) as Hsrc.
  pose proof (wf_validApp _ Hwf) as Hv.
  pose proof (reads_det _ _ _ _
                (isValidMove_reads _ p pc t Hwf Hp Hsrc Hdst) Hok) as Erule.
  pose proof (wf_moved _ p pc _ t Hwf Hsrc Hdst Hp eq_refl) as Hwf3.
  pose proof (reads_det _ _ _ _ (kingsFacing_reads _ Hwf3) Hkf) as Efac.
  assert (Hne : (row pc, col pc) <> t).
  { destruct t as [tr tc0].
    exact (isValidMove_true_ne (App.gameOf a) p pc tr tc0 Hp Hok). }
  assert (Hcells :
    occupant (moved (App.gameOf a) p pc (row pc, col pc) t) t = Some p /\
    pieces (moved (App.gameOf a) p pc (row pc, col pc) t) !! p
      = Some (placedAt pc t) /\
    occupant (moved (App.gameOf a) p pc (row pc, col pc) t) (row pc, col pc)
      = None /\
    (forall j, inGrid j = true -> j <> t -> j <> (row pc, col pc) ->
       occupant (moved (App.gameOf a) p pc (row pc, col pc) t) j
       = occupant (App.gameOf a) j)).
  { split; [|split; [|split]].
    - rewrite occupant_moved by assumption.
      destruct (decide (t = t)); [reflexivity | congruence].
    - apply pieces_moved_self, Hp.
    - rewrite occupant_moved by assumption.
      destruct (decide (t = (row pc, col pc))); [congruence|].
      destruct (decide ((row pc, col pc) = (row pc, col pc)));
        [reflexivity | congruence].
    - intros j Hj H1 H2. rewrite occupant_moved by assumption.
      destruct (decide (t = j)); [congruence|].
      destruct (decide ((row pc, col pc) = j)); [congruence | reflexivity]. }
  destruct Hcells as (Hc1 & Hc2 & Hc3 & Hc4).
  destruct (attempt_cases (App.gameOf a) p pc t)
    as [(Er & _)|[(_ & Ef & _)|[(_ & _ & Ek & Eo & Eg)|(_ & _ & Ek & Eo & Eg)]]];
    [congruence | congruence | |]; rewrite Ek in Hking |- *.
  - destruct (app_attemptMove_run a p pc t Hwf Hp Hsrc Hdst)
      as (b & fresh & Hrun & _).
    { intros _. rewrite Eg. destruct Hking as [k Hk]. exists k. exact Hk. }
    rewrite Eo, Eg in Hrun.
    eexists _, _. split; [exact Hrun|].
    rewrite gameOf_wonApp by exact Hv.
    split; [apply (wf_flags _ _ _ Hwf3)|].
    split; [exact Hc1|]. split; [exact Hc2|]. split; [exact Hc3|].
    split; [exact Hc4|]. repeat split; reflexivity.
  - destruct (app_attemptMove_run a p pc t Hwf Hp Hsrc Hdst)
      as (b & fresh & Hrun & _).
    { intros _. rewrite Eg. destruct Hking as [k Hk]. exists k. exact Hk. }
    rewrite Eo, Eg in Hrun.
    eexists _, _. split; [exact Hrun|].
    rewrite gameOf_playedApp by exact Hv.
    split; [apply wf_more, (wf_flags _ _ _ Hwf3)|].
    split; [exact Hc1|].
    split.
    { unfold playedApp. cbn [App.objs pieces].
      rewrite lookup_app_l by (eapply lookup_lt_Some; exact Hc2). exact Hc2. }
    split; [exact Hc3|].
    split; [exact Hc4|]. repeat split; reflexivity.
Qed.

Lemma attemptMove_accepts_witness :
  exists o a',
    App.attemptMove 27%nat 5 0 (appOf openingGame) = Some (o, a') /\
    occupant (App.gameOf a') (5, 0) = Some 27%nat /\
    occupant (App.gameOf a') (6, 0) = None /\
    o = Played /\ App.turn_ a' = black.
Proof.
  assert (Hwf : wf (App.gameOf (appOf openingGame))) by (vm_compute; reflexivity).
  destruct (attemptMove_accepts (appOf openingGame) 27%nat (Piece red pawn 6 0)
              (5, 0))
    as (o & a' & Hrun & _ & H1 & _ & H2 & _ & H3).
  - exact Hwf.
  - vm_compute. reflexivity.
  - vm_compute. reflexivity.
  - vm_compute. reflexivity.
  - apply (reads_rule _ 27%nat (Piece red pawn 6 0) (5, 0));
      vm_compute; reflexivity.
  - apply reads_facing; vm_compute; reflexivity.
  - exists (0, 4). split; vm_compute; reflexivity.
  - exists o, a'. split; [exact Hrun|]. split; [exact H1|]. split; [exact H2|].
    replace (kingOn (App.gameOf (appOf openingGame)) (5, 0)) with false in H3
      by (vm_compute; reflexivity).
    destruct H3 as (H3 & _ & H4). split; assumption.
Defined.

(** X11 -- Whatever the target and however the attempt ends, a position in
    which every king stands in its palace and no side has two kings is left
    in such a position; and when the move is carried out, the kings do not
    face each other in the new position. *)
Theorem attemptMove_keeps_kings a p pc t o a' :
  wf (App.gameOf a) -> kingsHome (App.gameOf a) -> atMostOneKing (App.gameOf a) ->
  App.objs a !! p = Some pc ->
  occupant (App.gameOf a) (row pc, col pc) = Some p ->
  inGrid t = true ->
  App.attemptMove p t.1 t.2 a = Some (o, a') ->
  wf (App.gameOf a') /\ kingsHome (App.gameOf a') /\
  atMostOneKing (App.gameOf a') /\
  (o = Played \/ o = KingTaken -> ~ kingsFace (App.gameOf a')).
Proof.
  intros Hwf Hhome Hone Hp Hocc Hdst Hrun.
  pose proof (occupant_inGrid _ _ _ Hwf Hocc) as Hsrc.
  pose proof (wf_validApp _ Hwf) as Hv.
  destruct (app_attemptMove_exact a p pc t o a' Hwf Hp Hsrc Hdst Hrun)
    as (-> & b & fresh & ->).
  destruct (attempt_cases (App.gameOf a) p pc t)
    as [(Er & Eo & Eg)|[(Er & Ef & Eo & Eg)|[(Er & Ef & Ek & Eo & Eg)
                                            |(Er & Ef & Ek & Eo & Eg)]]];
    rewrite Eo, ?Eg.
  - split; [exact Hwf|]. split; [exact Hhome|]. split; [exact Hone|].
    intros [|]; discriminate.
  - split; [exact Hwf|]. split; [exact Hhome|]. split; [exact Hone|].
    intros [|]; discriminate.
  - pose proof (wf_moved _ p pc _ t Hwf Hsrc Hdst Hp eq_refl) as Hwf3.
    pose proof (kingsHome_moved _ p pc _ t Hwf Hsrc Hdst Hp eq_refl Hocc Er Hhome)
      as Hhome3.
    pose proof (atMostOneKing_moved _ p pc _ t Hwf Hsrc Hdst Hp eq_refl Hocc Hone)
      as Hone3.
    assert (Hcols : forall s k,
              kingAt (moved (App.gameOf a) p pc (row pc, col pc) t) s k ->
              3 <= k.2 <= 5).
    { intros s k Hk. eapply inPalace_columns, Hhome3, Hk. }
    pose proof (kingsFacing_decides _ Hwf3 Hcols Hone3) as Hdec.
    rewrite gameOf_wonApp by exact Hv.
    split; [apply (wf_flags _ _ _ Hwf3)|]. split; [exact Hhome3|].
    split; [exact Hone3|]. intros _ Hf.
    assert (Hf' : kingsFace (moved (App.gameOf a) p pc (row pc, col pc) t))
      by exact Hf.
    apply Hdec in Hf'. congruence.
  - pose proof (wf_moved _ p pc _ t Hwf Hsrc Hdst Hp eq_refl) as Hwf3.
    pose proof (kingsHome_moved _ p pc _ t Hwf Hsrc Hdst Hp eq_refl Hocc Er Hhome)
      as Hhome3.
    pose proof (atMostOneKing_moved _ p pc _ t Hwf Hsrc Hdst Hp eq_refl Hocc Hone)
      as Hone3.
    assert (Hcols : forall s k,
              kingAt (moved (App.gameOf a) p pc (row pc, col pc) t) s k ->
              3 <= k.2 <= 5).
    { intros s k Hk. eapply inPalace_columns, Hhome3, Hk. }
    pose proof (kingsFacing_decides _ Hwf3 Hcols Hone3) as Hdec.
    rewrite gameOf_playedApp by exact Hv.
    pose proof (wf_flags _ (opponent (turn (App.gameOf a)))
                         (gameOver (App.gameOf a)) Hwf3) as Hwf4.
    split; [apply wf_more, Hwf4|].
    split.
    { intros s k Hk. apply (kingAt_more _ fresh s k Hwf4) in Hk.
      exact (Hhome3 s k Hk). }
    split.
    { intros s x y Hx Hy. apply (kingAt_more _ fresh s x Hwf4) in Hx.
      apply (kingAt_more _ fresh s y Hwf4) in Hy. exact (Hone3 s x y Hx Hy). }
    intros _ Hf. apply (kingsFace_more _ fresh Hwf4) in Hf.
    assert (Hf' : kingsFace (moved (App.gameOf a) p pc (row pc, col pc) t))
      by exact Hf.
    apply Hdec in Hf'. congruence.
Qed.

Lemma attemptMove_keeps_kings_witness :
  exists a',
    App.attemptMove 27%nat 5 0 (appOf openingGame) = Some (Played, a') /\
    wf (App.gameOf a') /\ kingsHome (App.gameOf a') /\
    atMostOneKing (App.gameOf a') /\ ~ kingsFace (App.gameOf a').
Proof.
  destruct opening_kings as (Hwf & Hhome & Hone).
  rewrite <- (gameOf_appOf openingGame) in Hwf, Hhome, Hone.
  assert (Hp : App.objs (appOf openingGame) !! 27%nat = Some (Piece red pawn 6 0))
    by (vm_compute; reflexivity).
  destruct (app_attemptMove_run (appOf openingGame) 27%nat (Piece red pawn 6 0)
              (5, 0) Hwf Hp eq_refl eq_refl) as (b & fresh & Hrun & _).
  { intros _. exists (0, 4). split; vm_compute; reflexivity. }
  replace (attemptOutcome (App.gameOf (appOf openingGame)) 27%nat
                          (Piece red pawn 6 0) (5, 0))
    with Played in Hrun by (vm_compute; reflexivity).
  eexists. split; [exact Hrun|].
  destruct (attemptMove_keeps_kings (appOf openingGame) 27%nat
              (Piece red pawn 6 0) (5, 0) Played _ Hwf Hhome Hone Hp
              eq_refl eq_refl Hrun) as (H1 & H2 & H3 & H4).
  split; [exact H1|]. split; [exact H2|]. split; [exact H3|].
  apply H4. left. reflexivity.
Defined.

(** X24 -- [saveHistory] on a well-formed position raises nothing.  It
    appends one entry to the history, with the turn and the last move of the
    moment and a board object of its own, which is not the board object of
    the game.  That board is a copy of the board of the game: the same
    layout, and in every occupied cell an object allocated by the call with
    the fields of the piece of the game.  The game itself is left as it
    is. *)
Theorem saveHistory_stores_a_copy a :
  wf (App.gameOf a) ->
  exists b fresh,
    App.saveHistory a = Some (tt, savedApp a b fresh) /\
    copyOf (App.gameOf a)
           (Game (App.objs a ++ fresh) b (App.turn_ a) (App.over_ a)) /\
    Forall (fun q => (length (App.objs a) <= q)%nat) (refsOf b) /\
    App.board_ a <> length (App.boards a) /\
    App.gameOf (savedApp a b fresh)
      = withPieces (App.gameOf a) (App.objs a ++ fresh).
Proof.
  intros Hwf. pose proof (wf_validApp _ Hwf) as Hv.
  destruct (saveHistory_run a Hwf) as (b & fresh & Hrun & Hcopy & Hfr).
  exists b, fresh. split; [exact Hrun|]. split; [exact Hcopy|].
  split; [exact Hfr|]. unfold validApp in Hv. split; [lia|].
  unfold savedApp, App.gameOf, withPieces. cbn.
  rewrite lookup_app_l by exact Hv. reflexivity.
Qed.

Lemma saveHistory_stores_a_copy_witness :
  wf (App.gameOf startApp) /\
  exists b fresh,
    App.saveHistory startApp = Some (tt, savedApp startApp b fresh) /\
    copyOf (App.gameOf startApp)
           (Game (App.objs startApp ++ fresh) b red false).
Proof.
  assert (Hwf : wf (App.gameOf startApp)) by (vm_compute; reflexivity).
  split; [exact Hwf|].
  destruct (saveHistory_stores_a_copy startApp Hwf) as (b & fresh & H1 & H2 & _).
  exists b, fresh. split; [exact H1 | exact H2].
Defined.

(** X25 -- [undo] does nothing while the computer is thinking or when the
    history holds a single entry.  Otherwise it removes one entry (two
    against the computer, when more than one is left) and goes back to the
    entry then on top: its turn and last move, no selection, game not over;
    and the board of the game becomes the very board object stored in that
    entry, not a copy of it.  The call raises nothing when that board is
    well formed and holds the king of the side to move. *)
Theorem undo_returns_to_stored_board a :
  (App.isAiThinking a = true \/ (length (App.history a) <= 1)%nat ->
   App.undo a = Some (tt, a)) /\
  (forall e,
     App.isAiThinking a = false -> (1 < length (App.history a))%nat ->
     list.last (remaining (App.gameMode a) (App.history a)) = Some e ->
     wf (App.gameOf (restored a e)) ->
     hasKing (App.gameOf (restored a e)) (App.eturn e) ->
     App.undo a = Some (tt, restored a e)).
Proof.
  split.
  - intros Hg. unfold App.undo, App.bindA, App.get, App.retA.
    destruct (App.isAiThinking a); [reflexivity|].
    destruct Hg as [Hg|Hg]; [discriminate|].
    apply Nat.leb_le in Hg. rewrite Hg. reflexivity.
  - intros e. apply undo_run.
Qed.

Lemma undo_returns_to_stored_board_witness :
  App.undo pawnPlayed = Some (tt, pawnPlayed) /\
  App.undo afterOneRound
    = Some (tt, restored afterOneRound (App.Entry 1 red None)) /\
  App.board_ (restored afterOneRound (App.Entry 1 red None)) = 1%nat.
Proof.
  split; [|split; [|reflexivity]].
  - apply (proj1 (undo_returns_to_stored_board pawnPlayed)).
    left. vm_compute. reflexivity.
  - apply (proj2 (undo_returns_to_stored_board afterOneRound)).
    + vm_compute. reflexivity.
    + vm_compute. lia.
    + vm_compute. reflexivity.
    + vm_compute. reflexivity.
    + exists (9, 4). split; vm_compute; reflexivity.
Defined.

(** X26 -- The controller's [attemptMove] for a piece of the board, on a
    well-formed position; the side to move afterwards has its king on the
    board (else [isCheck] raises).  The call raises nothing and ends as the
    rule, the test of the facing kings and the content of the target decide.
    A move that is refused leaves the controller as it was, selection
    included.  A move that takes a king ends the game: the selection is
    cleared and the move noted, no entry is added to the history and no
    request is sent.  Any other move is played: the turn passes, the
    selection is cleared, the move is noted, one entry is added to the
    history with a board object of its own that is a copy of the position
    reached, and, against the computer when the turn is its own and the
    game is not over, the thinking flag is set and one request is sent with
    the position, the turn and the depth chosen. *)
Theorem attemptMove_updates_controller a p pc t :
  wf (App.gameOf a) -> App.objs a !! p = Some pc ->
  inGrid (row pc, col pc) = true -> inGrid t = true ->
  hasKing (afterAttempt (App.gameOf a) p pc t)
          (turn (afterAttempt (App.gameOf a) p pc t)) ->
  exists b fresh,
    App.attemptMove p t.1 t.2 a
      = Some (attemptOutcome (App.gameOf a) p pc t,
              match attemptOutcome (App.gameOf a) p pc t with
              | NotValid | FlyingGeneral => a
              | KingTaken =>
                  wonApp a (afterAttempt (App.gameOf a) p pc t) (row pc, col pc) t
              | Played =>
                  playedApp a (afterAttempt (App.gameOf a) p pc t)
                            (row pc, col pc) t b fresh
              end) /\
    (attemptOutcome (App.gameOf a) p pc t = Played ->
     copyOf (afterAttempt (App.gameOf a) p pc t)
            (Game (pieces (afterAttempt (App.gameOf a) p pc t) ++ fresh) b
                  (opponent (App.turn_ a)) (App.over_ a)) /\
     Forall (fun q => (length (App.objs a) <= q)%nat) (refsOf b)).
Proof.
  intros Hwf Hp Hsrc Hdst Hking. apply app_attemptMove_run; auto.
Qed.

Lemma attemptMove_updates_controller_witness :
  exists b fresh,
    App.attemptMove 27 5 0 startApp
      = Some (Played,
              playedApp startApp
                (afterAttempt (App.gameOf startApp) 27%nat (Piece red pawn 6 0) (5, 0))
                (6, 0) (5, 0) b fresh) /\
    triggers startApp
      (afterAttempt (App.gameOf startApp) 27%nat (Piece red pawn 6 0) (5, 0)) = true.
Proof.
  assert (Hwf : wf (App.gameOf startApp)) by (vm_compute; reflexivity).
  assert (Hp : App.objs startApp !! 27%nat = Some (Piece red pawn 6 0))
    by (vm_compute; reflexivity).
  assert (Hk : hasKing
                 (afterAttempt (App.gameOf startApp) 27%nat (Piece red pawn 6 0) (5, 0))
                 (turn (afterAttempt (App.gameOf startApp) 27%nat
                                     (Piece red pawn 6 0) (5, 0)))).
  { exists (0, 4). split; vm_compute; reflexivity. }
  destruct (attemptMove_updates_controller startApp 27%nat (Piece red pawn 6 0)
              (5, 0) Hwf Hp eq_refl eq_refl Hk) as (b & fresh & H & _).
  replace (attemptOutcome (App.gameOf startApp) 27%nat (Piece red pawn 6 0) (5, 0))
    with Played in H by (vm_compute; reflexivity).
  exists b, fresh. split; [exact H|]. vm_compute. reflexivity.
Defined.

(** X27 -- [handleAiMove] applies the move of the message without any test:
    on a well-formed position, for any two cells of the board, whatever
    piece stands on the first is put on the second, whoever it belongs to,
    whatever its rule allows, whoever is to move and whether or not the game
    is over.  With no piece on the first cell only the thinking flag is
    cleared.  When the second cell held a king the game is over; otherwise
    the turn is given to the player, whoever moved, and one entry is added
    to the history with a copy of the position.  The selection is not
    touched.  The call raises nothing when the side to move afterwards has
    its king on the board. *)
Theorem handleAiMove_applies_unchecked a src dst :
  wf (App.gameOf a) -> inGrid src = true -> inGrid dst = true ->
  match occupant (App.gameOf a) src with
  | None =>
      App.handleAiMove (Some (src, dst)) a = Some (App.NoPiece, idleApp a)
  | Some p =>
      exists pc,
        App.objs a !! p = Some pc /\
        if kingOn (App.gameOf a) dst then
          hasKing (moved (App.gameOf a) p pc src dst) (App.turn_ a) ->
          App.handleAiMove (Some (src, dst)) a
            = Some (App.AiWon,
                    aiWonApp a (moved (App.gameOf a) p pc src dst) (src, dst))
        else
          hasKing (moved (App.gameOf a) p pc src dst) (App.playerColor a) ->
          exists b fresh,
            App.handleAiMove (Some (src, dst)) a
              = Some (App.AiPlayed,
                      repliedApp a (moved (App.gameOf a) p pc src dst)
                                 (src, dst) b fresh) /\
            copyOf (Game (pieces (moved (App.gameOf a) p pc src dst))
                         (board (moved (App.gameOf a) p pc src dst))
                         (App.playerColor a) (App.over_ a))
                   (Game (pieces (moved (App.gameOf a) p pc src dst) ++ fresh) b
                         (App.playerColor a) (App.over_ a)) /\
            Forall (fun q => (length (App.objs a) <= q)%nat) (refsOf b)
  end.
Proof. apply handleAiMove_run. Qed.

Lemma handleAiMove_applies_unchecked_witness :
  exists a',
    App.handleAiMove (Some ((9, 0), (5, 5))) pawnPlayed
      = Some (App.AiPlayed, a') /\
    App.turn_ pawnPlayed = black /\
    pieceAt (App.gameOf a') (5, 5) = Some (Piece red rook 5 5) /\
    pieceAt (App.gameOf a') (9, 0) = None.
Proof.
  assert (Hwf : wf (App.gameOf pawnPlayed)) by (vm_compute; reflexivity).
  pose proof (handleAiMove_applies_unchecked pawnPlayed (9, 0) (5, 5) Hwf
                eq_refl eq_refl) as H.
  replace (occupant (App.gameOf pawnPlayed) (9, 0)) with (Some 16%nat) in H
    by (vm_compute; reflexivity).
  destruct H as (pc & Hpc & H).
  assert (Epc : pc = Piece red rook 9 0).
  { vm_compute in Hpc. injection Hpc as <-. reflexivity. }
  subst pc.
  replace (kingOn (App.gameOf pawnPlayed) (5, 5)) with false in H
    by (vm_compute; reflexivity).
  destruct H as (b & fresh & H & _).
  { exists (9, 4). split; vm_compute; reflexivity. }
  eexists. split; [exact H|]. split; [vm_compute; reflexivity|].
  split; vm_compute; reflexivity.
Defined.

Lemma last_snoc_ne {X} (h : list X) e : list.last h = Some e -> h <> [].
Proof. intros H ->. discriminate. Qed.

(** X28 -- Against the computer, an [undo] that follows an earlier [undo]
    does not take the moves back.  The first [undo] makes the game play on
    the board object of the history entry it goes back to, so the moves
    played afterwards are made on the stored board itself.  When the
    player's move and the reply of the computer have then been played and
    [undo] is called again, the history, the turn and the last move are
    those the first [undo] left, but the board and the pieces are as the two
    moves made them. *)
Theorem second_undo_keeps_the_moves a a1 p r c a2 mv a3 a4 :
  App.gameMode a = App.pve -> App.isAiThinking a = false ->
  (1 < length (App.history a))%nat ->
  App.undo a = Some (tt, a1) -> validApp a1 ->
  App.attemptMove p r c a1 = Some (Played, a2) ->
  App.handleAiMove (Some mv) a2 = Some (App.AiPlayed, a3) ->
  App.undo a3 = Some (tt, a4) ->
  App.history a4 = App.history a1 /\ App.turn_ a4 = App.turn_ a1 /\
  App.lastMove a4 = App.lastMove a1 /\
  App.gameOf a4
    = Game (pieces (App.gameOf a3)) (board (App.gameOf a3)) (App.turn_ a1) false.
Proof.
  intros Hgm Ht Hlen Hu1 Hv1 Hmv Hai Hu2.
  apply undo_inv in Hu1. rewrite Ht in Hu1. cbn [orb] in Hu1.
  replace (length (App.history a) <=? 1)%nat with false in Hu1
    by (symmetry; apply Nat.leb_gt, Hlen).
  destruct Hu1 as (e & He & Ea1).
  assert (Hh1 : App.history a1 = remaining (App.gameMode a) (App.history a))
    by (rewrite Ea1; reflexivity).
  assert (Hb1 : App.board_ a1 = App.eboard e) by (rewrite Ea1; reflexivity).
  assert (Ht1 : App.turn_ a1 = App.eturn e) by (rewrite Ea1; reflexivity).
  assert (Hl1 : App.lastMove a1 = App.elastMove e) by (rewrite Ea1; reflexivity).
  assert (Hg1 : App.gameMode a1 = App.pve) by (rewrite Ea1; exact Hgm).
  rewrite <- Hh1 in He.
  destruct (attemptMove_played_inv a1 p r c a2 Hv1 Hmv)
    as ([e2 Hh2] & Hb2 & Hg2 & Hv2).
  destruct (handleAiMove_played_inv a2 mv a3 Hv2 Hai) as (Hh3 & Hb3 & Hg3 & Ht3).
  assert (Hrem : remaining (App.gameMode a3) (App.history a3) = App.history a1).
  { rewrite Hg3, Hg2, Hg1, Hh3, Hh2, <- app_assoc. cbn [app].
    apply remaining_pve_two. eapply last_snoc_ne, He. }
  apply undo_inv in Hu2. rewrite Ht3 in Hu2. cbn [orb] in Hu2.
  replace (length (App.history a3) <=? 1)%nat with false in Hu2.
  2: { symmetry. apply Nat.leb_gt. rewrite Hh3, Hh2, !length_app. cbn [length]. lia. }
  rewrite Hrem, He in Hu2. destruct Hu2 as (e' & [= <-] & ->).
  unfold restored, App.gameOf. cbn. rewrite Hrem, Ht1, Hl1, Hb3, Hb2, Hb1.
  repeat split; reflexivity.
Qed.

Lemma second_undo_keeps_the_moves_witness :
  (App.history undoneAgain = App.history undone /\
   App.turn_ undoneAgain = App.turn_ undone /\
   App.lastMove undoneAgain = App.lastMove undone /\
   App.gameOf undoneAgain
     = Game (pieces (App.gameOf replayed)) (board (App.gameOf replayed))
            (App.turn_ undone) false) /\
  App.history undoneAgain = [App.Entry 1 red None] /\
  pieceAt (App.gameOf undone) (6, 0) = Some (Piece red pawn 6 0) /\
  pieceAt (App.gameOf undoneAgain) (6, 0) = None /\
  pieceAt (App.gameOf undoneAgain) (5, 0) = Some (Piece red pawn 5 0).
Proof.
  split; [|repeat split; vm_compute; reflexivity].
  apply (second_undo_keeps_the_moves afterOneRound undone 48%nat 5 0 pawnReplayed
           ((3, 0), (4, 0)) replayed undoneAgain).
  - vm_compute. reflexivity.
  - vm_compute. reflexivity.
  - vm_compute. lia.
  - vm_compute. reflexivity.
  - vm_compute. lia.
  - vm_compute. reflexivity.
  - vm_compute. reflexivity.
  - vm_compute. reflexivity.
Defined.

(** ** From the request to the reply *)

(** What the handler of the worker posts. *)
Lemma onmessage_runs g s D :
  wf g -> (1 <= D)%nat ->
  runs (onmessage D s) g
       (match best (minimaxFull D true s (received g s)) with
        | Some _ => Some (minimaxFull D true s (received g s))
        | None => None
        end)
       (received g s).
Proof.
  intros Hwf HD.
  assert (Hwf' : wf (received g s)) by (apply wf_flags; exact Hwf).
  replace (match best (minimaxFull D true s (received g s)) with
           | Some _ => Some (minimaxFull D true s (received g s))
           | None => None
           end)
    with (deepestMove (searchAt s (received g s) <$> seq 1 D)).
  - unfold onmessage. eapply runs_bind.
    + exists []. split; [reflexivity | constructor].
    + apply deepening_loop. exact Hwf'.
  - destruct D as [|n]; [lia|]. rewrite seq_S, fmap_app. cbn [fmap list_fmap].
    rewrite deepestMove_last. change (1 + n)%nat with (S n).
    rewrite (searchAt_full s _ (S n) Hwf').
    destruct (best (minimaxFull (S n) true s (received g s))) eqn:E; [reflexivity|].
    apply deepestMove_none. apply Forall_forall. intros r Hr.
    apply list_elem_of_In, list_elem_of_fmap in Hr as (d & -> & Hd).
    apply elem_of_seq in Hd. destruct d as [|d]; [lia|].
    rewrite (searchAt_full s _ (S d) Hwf').
    apply minimaxFull_best. apply minimaxFull_best in E. exact E.
Qed.

(** The move of a search of positive depth is an accepted one. *)
Lemma minimaxFull_accepted g s d e :
  wf g -> best (minimaxFull (S d) true s g) = Some e ->
  exists mv, endsOf mv = e /\ accepted g s mv.
Proof.
  intros Hwf He.
  pose proof (movesOf_runs _ _ _ _ (generateLegalMoves_exact g s Hwf)) as Emoves.
  rewrite minimaxFull_S, Emoves in He.
  destruct (sortMoves (generated s g)) as [|m0 ms0] eqn:Ems; [discriminate|].
  apply foldl_betterMax_elem in He as [He|(mv & Hmv & Hends)]; [discriminate|].
  exists mv. split; [exact Hends|].
  rewrite <- Ems in Hmv. apply (proj1 (sortMoves_elem _ _)) in Hmv.
  apply generated_accepted in Hmv; assumption.
Qed.

(** A search of positive depth has no move only when none is accepted. *)
Lemma minimaxFull_stuck g s d mv :
  wf g -> best (minimaxFull (S d) true s g) = None -> ~ accepted g s mv.
Proof.
  intros Hwf Hn Hacc. apply minimaxFull_best in Hn.
  pose proof (movesOf_runs _ _ _ _ (generateLegalMoves_exact g s Hwf)) as Emoves.
  rewrite Emoves in Hn.
  apply (accepted_generated g s mv Hwf) in Hacc.
  apply (proj2 (sortMoves_elem _ _)) in Hacc. rewrite Hn in Hacc.
  inversion Hacc.
Qed.

(** X29 -- The computer answers with a legal move.  On a well-formed
    position, the game not over and the depth at least 1, [triggerAi] sets
    the thinking flag and sends one request.  The handler of the worker, run
    on the board of that request, raises nothing, leaves the board as it
    received it, and posts either a move or nothing.  A move it posts goes
    from a cell holding a piece of the side to move in the controller to a
    cell the rule of that piece allows, and does not leave the kings facing
    each other.  It posts nothing only when that side has no such move. *)
Theorem computer_answers_with_a_legal_move a :
  wf (App.gameOf a) -> App.over_ a = false -> (1 <= App.difficulty a)%nat ->
  App.triggerAi a = Some (tt, thinkingApp a) /\
  exists res,
    runs (onmessage (App.rdepth (requestOf a)) (App.rturn (requestOf a)))
         (workerGame (requestOf a)) res (App.gameOf a) /\
    match res with
    | Some r =>
        exists mv, best r = Some (endsOf mv) /\
                   accepted (App.gameOf a) (App.turn_ a) mv
    | None => forall mv, ~ accepted (App.gameOf a) (App.turn_ a) mv
    end.
Proof.
  intros Hwf Hov HD. split.
  { unfold App.triggerAi. setter.
    eapply bindA_run; [apply updateStatus_run; right; left; reflexivity|].
    reflexivity. }
  assert (Hw : wf (workerGame (requestOf a)))
    by exact (wf_flags (App.gameOf a) red false Hwf).
  assert (Er : received (workerGame (requestOf a)) (App.turn_ a) = App.gameOf a).
  { unfold received, workerGame, requestOf, App.gameOf. cbn. rewrite Hov.
    reflexivity. }
  pose proof (onmessage_runs _ (App.turn_ a) (App.difficulty a) Hw HD) as Hrun.
  rewrite Er in Hrun.
  eexists. split; [exact Hrun|].
  destruct (App.difficulty a) as [|d]; [lia|].
  destruct (best (minimaxFull (S d) true (App.turn_ a) (App.gameOf a))) as [e|] eqn:Eb.
  - destruct (minimaxFull_accepted _ _ _ _ Hwf Eb) as (mv & He & Hacc).
    exists mv. split; [rewrite He; exact Eb | exact Hacc].
  - intros mv. apply (minimaxFull_stuck _ _ d mv Hwf Eb).
Qed.

Lemma computer_answers_with_a_legal_move_witness :
  App.triggerAi (idleApp pawnPlayed)
    = Some (tt, thinkingApp (idleApp pawnPlayed)) /\
  exists res,
    runs (onmessage 3 black) (workerGame (requestOf (idleApp pawnPlayed))) res
         (App.gameOf (idleApp pawnPlayed)) /\
    match res with
    | Some r =>
        exists mv, best r = Some (endsOf mv) /\
                   accepted (App.gameOf (idleApp pawnPlayed)) black mv
    | None => forall mv, ~ accepted (App.gameOf (idleApp pawnPlayed)) black mv
    end.
Proof.
  apply (computer_answers_with_a_legal_move (idleApp pawnPlayed)).
  - vm_compute. reflexivity.
  - vm_compute. reflexivity.
  - vm_compute. lia.
Defined.

(** ** A new game in a store that is not empty *)

Lemma simulates_ret {X} (x : X) : simulates (retM x).
Proof. intros ps g0. reflexivity. Qed.

Lemma simulates_bind {X Y} (m : M X) (f : X -> M Y) :
  simulates m -> (forall x, simulates (f x)) -> simulates (bindM m f).
Proof.
  intros Hm Hf ps g0. unfold bindM. rewrite Hm.
  destruct (m g0) as [[[x g1] l1]|]; [|reflexivity].
  rewrite Hf. destruct (f x g1) as [[[y g2] l2]|]; reflexivity.
Qed.

Lemma simulates_foldM {S X} (f : S -> X -> M S) (l : list X) :
  (forall s x, simulates (f s x)) -> forall s, simulates (foldM f l s).
Proof.
  intros Hf. induction l as [|x l IH]; intros s; cbn [foldM].
  - apply simulates_ret.
  - apply simulates_bind; [apply Hf | exact IH].
Qed.

Lemma simulates_resetBoard : simulates resetBoard.
Proof. intros ps g0. reflexivity. Qed.

Lemma jsSet_shift n (rw : list cell) i (v : cell) :
  jsSet (map (shiftCell n) rw) i (shiftCell n v) = map (shiftCell n) (jsSet rw i v).
Proof.
  unfold jsSet. rewrite length_map.
  destruct (i <? length rw)%nat.
  - symmetry. apply (list_fmap_insert (shiftCell n)).
  - rewrite !map_app. f_equal. f_equal.
    induction (i - length rw)%nat as [|m IH]; [reflexivity|].
    cbn [replicate map]. rewrite <- IH. reflexivity.
Qed.

Lemma setCell_shift n (b : list (list cell)) r c (v : cell) :
  setCell (shiftBoard n b) r c (shiftCell n v)
  = shiftBoard n <$> setCell b r c v.
Proof.
  unfold setCell, shiftBoard. destruct (r <? 0); [reflexivity|].
  rewrite (list_lookup_fmap (map (shiftCell n))).
  destruct (b !! Z.to_nat r) as [rw|]; [|reflexivity].
  cbn [fmap option_fmap option_map].
  destruct (c <? 0); [reflexivity|].
  cbn [fmap option_fmap option_map]. rewrite jsSet_shift.
  f_equal. symmetry. apply (list_fmap_insert (map (shiftCell n))).
Qed.

Lemma getCell_shift n (b : list (list cell)) r c :
  getCell (shiftBoard n b) r c = shiftCell n <$> getCell b r c.
Proof.
  unfold getCell, shiftBoard. destruct (r <? 0); [reflexivity|].
  rewrite (list_lookup_fmap (map (shiftCell n))).
  destruct (b !! Z.to_nat r) as [rw|]; [|reflexivity].
  cbn [fmap option_fmap option_map].
  destruct (c <? 0); [reflexivity|].
  rewrite (list_lookup_fmap (shiftCell n)).
  destruct (rw !! Z.to_nat c); reflexivity.
Qed.

Lemma simulates_placePiece r c s k : simulates (placePiece r c s k).
Proof.
  intros ps g0. unfold placePiece, wr, rebased. cbn [pieces board turn gameOver].
  rewrite length_app.
  change (Some (length ps + length (pieces g0))%nat)
    with (shiftCell (length ps) (Some (length (pieces g0)))).
  rewrite setCell_shift.
  destruct (setCell (board g0) r c (Some (length (pieces g0)))) as [b|];
    [|reflexivity].
  cbn [fmap option_fmap option_map]. rewrite <- app_assoc. reflexivity.
Qed.

Lemma simulates_initBoard : simulates initBoard.
Proof.
  unfold initBoard.
  repeat (apply simulates_bind; [|intros ?]);
    first [ apply simulates_resetBoard
          | apply simulates_placePiece
          | apply simulates_ret
          | apply simulates_foldM; intros ? ?; apply simulates_placePiece ].
Qed.

Lemma initBoard_opening :
  exists l, initBoard (Game [] [] red false) = Some (tt, openingGame, l).
Proof.
  unfold openingGame, newGame.
  destruct (initBoard (Game [] [] red false)) as [[[[] g] l]|] eqn:E.
  - exists l. reflexivity.
  - exfalso. vm_compute in E. discriminate.
Qed.

Lemma initBoard_rebased ps :
  exists l,
    initBoard (Game ps [] red false) = Some (tt, rebased ps openingGame, l).
Proof.
  destruct initBoard_opening as [l E]. exists l.
  pose proof (simulates_initBoard ps (Game [] [] red false)) as H.
  rewrite E in H. unfold rebased at 1 in H.
  cbn [pieces board turn gameOver shiftBoard map] in H.
  rewrite app_nil_r in H. exact H.
Qed.

Lemma occupant_rebased ps g0 i :
  occupant (rebased ps g0) i = shiftCell (length ps) (occupant g0 i).
Proof.
  unfold occupant, rebased. cbn [board]. rewrite getCell_shift.
  destruct (getCell (board g0) i.1 i.2) as [v|]; reflexivity.
Qed.

Lemma copyOf_rebased ps g0 : wf g0 -> copyOf g0 (rebased ps g0).
Proof.
  intros Hwf. destruct (wf_shape _ Hwf) as [Hlen Hrows]. split.
  - split.
    + unfold rebased, shiftBoard. cbn [board]. rewrite length_map. exact Hlen.
    + intros i rw Hi. unfold rebased, shiftBoard in Hi. cbn [board] in Hi.
      rewrite (list_lookup_fmap (map (shiftCell (length ps)))) in Hi.
      destruct (board g0 !! i) as [rw0|] eqn:E; [|discriminate].
      cbn in Hi. injection Hi as <-. rewrite length_map. eapply Hrows, E.
  - intros i Hi. rewrite occupant_rebased.
    destruct (occupant g0 i) as [p|] eqn:Eo; cbn [shiftCell]; [|exact I].
    destruct (wf_occupant _ _ _ Hwf Hi Eo) as (pc & Hp & _).
    exists pc. split; [exact Hp|]. unfold rebased. cbn [pieces].
    rewrite lookup_app_r by lia.
    replace (length ps + p - length ps)%nat with p by lia. exact Hp.
Qed.

Lemma copyOf_trans g1 g2 g3 : copyOf g1 g2 -> copyOf g2 g3 -> copyOf g1 g3.
Proof.
  intros [_ H12] [Hs H23]. split; [exact Hs|]. intros i Hi.
  specialize (H12 i Hi). specialize (H23 i Hi).
  destruct (occupant g1 i), (occupant g2 i), (occupant g3 i); try tauto.
  destruct H12 as (pc & H1 & H2), H23 as (pc' & H2' & H3).
  exists pc. split; [exact H1 | congruence].
Qed.

Lemma copyOf_more g g1 fresh :
  copyOf g g1 -> copyOf g (withPieces g1 (pieces g1 ++ fresh)).
Proof.
  intros [Hs H]. split; [exact Hs|]. intros i Hi. specialize (H i Hi).
  rewrite occupant_more.
  destruct (occupant g i), (occupant g1 i); try tauto.
  destruct H as (pc & H1 & H2). exists pc. split; [exact H1|].
  cbn [pieces withPieces]. rewrite lookup_app_l; [exact H2|].
  apply lookup_lt_Some in H2. exact H2.
Qed.

Lemma hasKing_copy g g' s : copyOf g g' -> hasKing g s -> hasKing g' s.
Proof.
  intros [_ H] [k [Hin Hk]]. exists k. split; [exact Hin|].
  specialize (H k Hin). unfold isKingOf in Hk |- *.
  destruct (occupant g k) as [p|]; [|discriminate].
  destruct (occupant g' k) as [p'|]; [|tauto].
  destruct H as (pc & H1 & H2). rewrite H1 in Hk. rewrite H2. exact Hk.
Qed.

Lemma opening_ready :
  wf openingGame /\ hasKing openingGame red.
Proof.
  split; [vm_compute; reflexivity|].
  exists (9, 4). split; vm_compute; reflexivity.
Qed.

Lemma gameOf_freshApp a :
  App.gameOf (freshApp a) = rebased (App.objs a) openingGame.
Proof.
  unfold App.gameOf, freshApp, rebased. cbn.
  rewrite list_lookup_middle by reflexivity. reflexivity.
Qed.

(** X30 -- [restart] raises nothing, whatever the controller was doing.  It
    leaves a new game in the opening position, made of new objects, red to
    move and not over; nothing is selected, there is no last move, the
    thinking flag is cleared, and the history holds one entry, red to move,
    whose board is an object of its own and a copy of the opening position.
    The objects and boards of the games before stay in the store untouched,
    and the requests already sent to the worker are not withdrawn. *)
Theorem restart_sets_up_the_opening a :
  exists b fresh,
    App.restart a = Some (tt, savedApp (freshApp a) b fresh) /\
    copyOf openingGame (App.gameOf (savedApp (freshApp a) b fresh)) /\
    copyOf openingGame (Game (App.objs (freshApp a) ++ fresh) b red false) /\
    Forall (fun q => (length (App.objs (freshApp a)) <= q)%nat) (refsOf b).
Proof.
  destruct opening_ready as [Hwf0 Hk0].
  pose proof (copyOf_rebased (App.objs a) openingGame Hwf0) as Hc1.
  pose proof (wf_copy _ _ Hwf0 Hc1) as Hwf1.
  pose proof (hasKing_copy _ _ red Hc1 Hk0) as Hk1.
  rewrite <- gameOf_freshApp in Hc1, Hwf1, Hk1.
  destruct (saveHistory_run (freshApp a) Hwf1) as (b & fresh & Hsave & Hc2 & Hfr).
  pose proof (wf_validApp _ Hwf1) as Hv.
  assert (Eg : App.gameOf (savedApp (freshApp a) b fresh)
               = withPieces (App.gameOf (freshApp a))
                            (pieces (App.gameOf (freshApp a)) ++ fresh)).
  { unfold savedApp, App.gameOf, withPieces. cbn [App.objs App.boards App.board_
      App.turn_ App.over_ pieces board turn gameOver].
    rewrite lookup_app_l by exact Hv. reflexivity. }
  exists b, fresh. split; [|split; [|split; [|exact Hfr]]].
  - destruct (initBoard_rebased (App.objs a)) as [l Hinit].
    unfold App.restart.
    eapply bindA_run.
    { unfold App.newLogic. rewrite Hinit. reflexivity. }
    setter. setter. setter. setter.
    change (App.Build _ _ _ _ _ _ _ _ _ _ _ _ _ _) with (freshApp a).
    eapply bindA_run; [exact Hsave|].
    eapply bindA_run.
    { apply reloadBoard_run; rewrite Eg.
      - apply wf_more, Hwf1.
      - apply hasKing_more; assumption. }
    apply updateStatus_run. right. right. rewrite Eg. split.
    + apply wf_more, Hwf1.
    + apply hasKing_more; assumption.
  - rewrite Eg. apply copyOf_more, Hc1.
  - eapply copyOf_trans; [exact Hc1 | exact Hc2].
Qed.
